(** * Tuple flattening for SMT back ends without native tuples

    A shallow embedding of [solvers/smt/smt_tuple.cpp]: structured values
    (structs, unions, pointers, arrays of structs) are represented by
    [tuple_smt_ast] / [array_smt_ast] objects that own one child term per
    field.  The objects are mutable and shared by pointer in the source, so
    they live in an explicit store here, and every operation is a function
    of the converter state [smt_convt]. *)

From Stdlib Require Import ZArith Lia Ascii String.
From stdpp Require Import base option list strings pretty.

Set Warnings "-register-all".
Local Open Scope Z_scope.
Local Open Scope string_scope.
Local Open Scope list_scope.

(** ** Types of the intermediate representation (irep2) *)

(** The size of an array type is an expression in the source; the
    converter only asks whether it is a constant integer and, if so, for
    its value. *)
Inductive array_size_expr : Type :=
| size_constant_int (constant_value : Z)
| size_symbol (thename : string)
| size_nil.

Inductive type2t : Type :=
| bool_type2t
| empty_type2t
| unsignedbv_type2t (width : N)
| signedbv_type2t (width : N)
| pointer_type2t (subtype : type2t)
| array_type2t (subtype : type2t) (array_size : array_size_expr)
               (size_is_infinite : bool)
| struct_type2t (members : list type2t) (member_names : list string)
                (name : string)
| union_type2t (members : list type2t) (member_names : list string)
               (name : string).

(** [struct_union_data]: the ordered field list of a struct or union. *)
Record struct_union_data : Type := mk_struct_union_data {
  members : list type2t;
  member_names : list string
}.

Definition array_size_eqb (a b : array_size_expr) : bool :=
  match a, b with
  | size_constant_int x, size_constant_int y => Z.eqb x y
  | size_symbol x, size_symbol y => String.eqb x y
  | size_nil, size_nil => true
  | _, _ => false
  end.

Fixpoint string_list_eqb (a b : list string) : bool :=
  match a, b with
  | [], [] => true
  | x :: a', y :: b' => String.eqb x y && string_list_eqb a' b'
  | _, _ => false
  end.

(** Structural equality of types ([operator==] on [type2tc]). *)
Fixpoint type_eqb (a b : type2t) {struct a} : bool :=
  let fix members_eqb (l l' : list type2t) {struct l} : bool :=
    match l, l' with
    | [], [] => true
    | x :: r, y :: r' => type_eqb x y && members_eqb r r'
    | _, _ => false
    end in
  match a, b with
  | bool_type2t, bool_type2t => true
  | empty_type2t, empty_type2t => true
  | unsignedbv_type2t w, unsignedbv_type2t w' => N.eqb w w'
  | signedbv_type2t w, signedbv_type2t w' => N.eqb w w'
  | pointer_type2t s, pointer_type2t s' => type_eqb s s'
  | array_type2t s n i, array_type2t s' n' i' =>
      type_eqb s s' && array_size_eqb n n' && Bool.eqb i i'
  | struct_type2t ms ns n, struct_type2t ms' ns' n' =>
      members_eqb ms ms' && string_list_eqb ns ns' && String.eqb n n'
  | union_type2t ms ns n, union_type2t ms' ns' n' =>
      members_eqb ms ms' && string_list_eqb ns ns' && String.eqb n n'
  | _, _ => false
  end.

(** Type classification helpers. *)
Definition is_bool_type (t : type2t) : bool :=
  match t with bool_type2t => true | _ => false end.

Definition is_number_type (t : type2t) : bool :=
  match t with
  | unsignedbv_type2t _ | signedbv_type2t _ => true
  | _ => false
  end.

Definition is_array_type (t : type2t) : bool :=
  match t with array_type2t _ _ _ => true | _ => false end.

Definition is_pointer_type (t : type2t) : bool :=
  match t with pointer_type2t _ => true | _ => false end.

Definition is_structure_type (t : type2t) : bool :=
  match t with
  | struct_type2t _ _ _ | union_type2t _ _ _ => true
  | _ => false
  end.

(** Modelled from the spec: [is_tuple_ast_type] is declared in
    [smt_conv.h]; the structured types are records, unions and
    pointers (a pointer is the 2-field (object, offset) record). *)
Definition is_tuple_ast_type (t : type2t) : bool :=
  is_structure_type t || is_pointer_type t.

(** Modelled from the spec: [is_tuple_array_ast_type] is declared in
    [smt_conv.h]; an array, however deeply nested, whose innermost
    element type is structured. *)
Fixpoint is_tuple_array_ast_type (t : type2t) : bool :=
  match t with
  | array_type2t sub _ _ =>
      is_tuple_ast_type sub || is_tuple_array_ast_type sub
  | _ => false
  end.

(** ** Expressions *)

Inductive expr2t : Type :=
| nil_expr
| constant_int2t (type : type2t) (constant_value : Z)
| constant_bool2t (constant_value : bool)
| constant_struct2t (type : type2t) (datatype_members : list expr2t)
| constant_union2t (type : type2t) (datatype_members : list expr2t)
| constant_array2t (type : type2t) (datatype_members : list expr2t)
| constant_array_of2t (type : type2t) (initializer : expr2t)
| symbol2t (type : type2t) (thename : string)
| typecast2t (type : type2t) (from : expr2t).

Definition is_nil_expr (e : expr2t) : bool :=
  match e with nil_expr => true | _ => false end.

Definition expr_type (e : expr2t) : type2t :=
  match e with
  | nil_expr => empty_type2t
  | constant_int2t t _ => t
  | constant_bool2t _ => bool_type2t
  | constant_struct2t t _ | constant_union2t t _ | constant_array2t t _
  | constant_array_of2t t _ | symbol2t t _ | typecast2t t _ => t
  end.

(** ** Sorts and terms *)

Inductive smt_sort_kind : Type :=
| SMT_SORT_INT | SMT_SORT_REAL | SMT_SORT_BV | SMT_SORT_ARRAY
| SMT_SORT_BOOL | SMT_SORT_STRUCT | SMT_SORT_UNION.

(** [smt_sort]; [thetype] is present exactly for a [tuple_smt_sort]. *)
Record smt_sort : Type := mk_smt_sort {
  id : smt_sort_kind;
  data_width : N;
  domain_width : N;
  thetype : option type2t
}.

Inductive smt_func_kind : Type :=
| SMT_FUNC_EQ | SMT_FUNC_AND | SMT_FUNC_ITE | SMT_FUNC_STORE
| SMT_FUNC_SELECT.

(** An [smt_astt] is a pointer.  Plain terms are immutable and owned by
    the back end, so they are represented by their syntax; a structured
    term is a reference to a mutable object of the store; [ast_null] is
    the null pointer a resized vector is filled with. *)
Inductive smt_astt : Type :=
| ast_null
| ast_symbol (s : smt_sort) (name : string)
| ast_bvint (s : smt_sort) (v : Z)
| ast_bool (b : bool)
| ast_func_app (s : smt_sort) (k : smt_func_kind) (args : list smt_astt)
| ast_ref (l : nat).

Inductive ast_kind : Type :=
| Tuple
| TupleArray (is_still_free : bool).

(** A [tuple_smt_ast] object ([array_smt_ast] is its subclass). *)
Record tuple_smt_ast : Type := mk_tuple_smt_ast {
  kind : ast_kind;
  sort : smt_sort;
  name : string;
  elements : list smt_astt
}.

(** Run-time configuration read by the converter. *)
Record configt : Type := mk_configt {
  pointer_width : N;
  int_encoding : bool;
  no_bools_in_arrays : bool;
  tuple_support : bool;
  (** [calculate_array_domain_width], [flatten_array_type] and the
      pointer logic's rendering of a non-null (object, offset) pair are
      defined outside this file; they are parameters of the model. *)
  calculate_array_domain_width : type2t -> N;
  flatten_array_type : type2t -> type2t;
  pointer_logic_expr : Z -> Z -> type2t -> expr2t
}.

(** The converter state. *)
Record smt_convt : Type := mk_smt_convt {
  config : configt;
  store : list tuple_smt_ast;
  fresh_counter : nat;
  assertions : list smt_astt;
  null_ptr_ast : smt_astt;
  invalid_ptr_ast : smt_astt
}.

(** ** Faults and the converter monad *)

(** [abort()] and a failed [assert] terminate the run.  Calling a method
    through a null pointer, indexing a vector out of range, a failed
    reference [dynamic_cast] and a shift by the width of the operand or
    more have no defined result in the source; they are faults of their
    own here. *)
Inductive fault : Type :=
| abort_called (msg : string)
| assertion_failed (msg : string)
| null_dereference
| bad_cast
| out_of_range
| undefined_shift
| unsupported_expression.

Inductive outcome (A : Type) : Type :=
| Ok (a : A) (ctx : smt_convt)
| Fatal (f : fault) (ctx : smt_convt)
| OutOfFuel.
Arguments Ok {A} a ctx.
Arguments Fatal {A} f ctx.
Arguments OutOfFuel {A}.

Definition M (A : Type) : Type := smt_convt -> outcome A.

Definition ret {A} (a : A) : M A := fun ctx => Ok a ctx.

Definition bind {A B} (m : M A) (k : A -> M B) : M B :=
  fun ctx =>
    match m ctx with
    | Ok a ctx' => k a ctx'
    | Fatal f ctx' => Fatal f ctx'
    | OutOfFuel => OutOfFuel
    end.

Definition raise {A} (f : fault) : M A := fun ctx => Fatal f ctx.

Definition out_of_fuel {A} : M A := fun _ => OutOfFuel.

Notation "'do' x <- m ; k" := (bind m (fun x => k))
  (at level 10, x name, m at level 100, k at level 200).
Notation "'do_' m ; k" := (bind m (fun _ => k))
  (at level 10, m at level 100, k at level 200).

Definition get_ctx : M smt_convt := fun ctx => Ok ctx ctx.

Definition lift_option {A} (f : fault) (o : option A) : M A :=
  match o with Some a => ret a | None => raise f end.

Definition assert_that (b : bool) (msg : string) : M unit :=
  if b then ret tt else raise (assertion_failed msg).

(** ** The store of structured terms *)

Definition deref (l : nat) : M tuple_smt_ast :=
  fun ctx => lift_option null_dereference (store ctx !! l) ctx.

Definition set_store (h : list tuple_smt_ast) (ctx : smt_convt) : smt_convt :=
  mk_smt_convt (config ctx) h (fresh_counter ctx) (assertions ctx)
               (null_ptr_ast ctx) (invalid_ptr_ast ctx).

Definition with_elements (o : tuple_smt_ast) (es : list smt_astt)
  : tuple_smt_ast :=
  mk_tuple_smt_ast (kind o) (sort o) (name o) es.

(** [new T(...)]: the object is placed at the next free address. *)
Definition alloc (o : tuple_smt_ast) : M nat :=
  fun ctx => Ok (length (store ctx)) (set_store (store ctx ++ [o]) ctx).

(** [obj->elements = es] *)
Definition set_elements (l : nat) (es : list smt_astt) : M unit :=
  do o <- deref l;
  fun ctx => Ok tt (set_store (<[l := with_elements o es]> (store ctx)) ctx).

(** [obj->elements.resize(n)]: new slots hold null pointers. *)
Definition resize_elements (l : nat) (n : nat) : M unit :=
  do o <- deref l;
  set_elements l (take n (elements o)
                  ++ replicate (n - length (elements o)) ast_null).

(** [obj->elements[i] = a]; writing past the end has no defined result. *)
Definition set_element (l : nat) (i : nat) (a : smt_astt) : M unit :=
  do o <- deref l;
  if decide (i < length (elements o))%nat
  then set_elements l (<[i := a]> (elements o))
  else raise out_of_range.

(** [obj->elements[i]] *)
Definition get_element (l : nat) (i : nat) : M smt_astt :=
  do o <- deref l;
  lift_option out_of_range (elements o !! i).

(** ** Sorts *)

(** Modelled from the spec: [pointer_struct] / [pointer_type_data] are
    built in the converter's constructor, outside this file; the
    canonical pointer shape is the 2-field (object-id, offset) record. *)
Definition pointer_struct (cfg : configt) : type2t :=
  struct_type2t
    [unsignedbv_type2t (pointer_width cfg);
     unsignedbv_type2t (pointer_width cfg)]
    ["pointer_object"; "pointer_offset"]
    "pointer_struct".

Definition pointer_type_data (cfg : configt) : struct_union_data :=
  mk_struct_union_data
    [unsignedbv_type2t (pointer_width cfg);
     unsignedbv_type2t (pointer_width cfg)]
    ["pointer_object"; "pointer_offset"].

(** [smt_convt::get_type_def]: the reference [dynamic_cast] throws when
    the type is neither a struct nor a union. *)
Definition type_def (cfg : configt) (t : type2t) : option struct_union_data :=
  match t with
  | pointer_type2t _ => Some (pointer_type_data cfg)
  | struct_type2t ms ns _ | union_type2t ms ns _ =>
      Some (mk_struct_union_data ms ns)
  | _ => None
  end.

Definition get_type_def (t : type2t) : M struct_union_data :=
  do ctx <- get_ctx;
  lift_option bad_cast (type_def (config ctx) t).

Definition type_width (t : type2t) : N :=
  match t with
  | bool_type2t => 1
  | unsignedbv_type2t w | signedbv_type2t w => w
  | _ => 0
  end.

(** Modelled from the spec: [convert_sort] is defined outside this file.
    Sorts are bool, bit-vector(width), array(domain, range) and
    tuple(structured-type descriptor); a pointer has the tuple sort of
    the canonical pointer shape, and an array of structured elements has
    a tuple sort that keeps the array type. *)
Definition convert_sort_cfg (cfg : configt) (t : type2t) : smt_sort :=
  match t with
  | bool_type2t => mk_smt_sort SMT_SORT_BOOL 1 0 None
  | unsignedbv_type2t w | signedbv_type2t w => mk_smt_sort SMT_SORT_BV w 0 None
  | empty_type2t => mk_smt_sort SMT_SORT_BV 0 0 None
  | pointer_type2t _ =>
      mk_smt_sort SMT_SORT_STRUCT 0 0 (Some (pointer_struct cfg))
  | struct_type2t _ _ _ => mk_smt_sort SMT_SORT_STRUCT 0 0 (Some t)
  | union_type2t _ _ _ => mk_smt_sort SMT_SORT_UNION 0 0 (Some t)
  | array_type2t sub sz _ =>
      if is_tuple_array_ast_type t
      then mk_smt_sort SMT_SORT_ARRAY 0
             (calculate_array_domain_width cfg t) (Some t)
      else mk_smt_sort SMT_SORT_ARRAY (type_width sub)
             (calculate_array_domain_width cfg t) None
  end.

Definition convert_sort (t : type2t) : M smt_sort :=
  do ctx <- get_ctx; ret (convert_sort_cfg (config ctx) t).

(** [to_tuple_sort(s)->thetype] *)
Definition to_tuple_sort (s : smt_sort) : M type2t :=
  lift_option bad_cast (thetype s).

(** ** Back-end capability *)

(** Modelled from the spec: [mk_fresh_name] is defined outside this
    file; a fresh name is an operation tag followed by the value of a
    monotonically increasing counter. *)
Definition mk_fresh_name (tag : string) : M string :=
  fun ctx =>
    Ok (tag +:+ pretty (fresh_counter ctx))
       (mk_smt_convt (config ctx) (store ctx) (S (fresh_counter ctx))
                     (assertions ctx) (null_ptr_ast ctx)
                     (invalid_ptr_ast ctx)).

(** Modelled from the spec: the back end creates a named symbolic term
    of a given sort. *)
Definition mk_smt_symbol (nm : string) (s : smt_sort) : M smt_astt :=
  ret (ast_symbol s nm).

(** Modelled from the spec: [mk_fresh] is defined outside this file; a
    fresh symbolic term named from the tag. *)
Definition mk_fresh (s : smt_sort) (tag : string) : M smt_astt :=
  do nm <- mk_fresh_name tag;
  mk_smt_symbol nm s.

(** Modelled from the spec: the back end builds a function application
    from an operator tag over operand terms. *)
Definition mk_func_app (s : smt_sort) (k : smt_func_kind)
  (args : list smt_astt) : M smt_astt :=
  ret (ast_func_app s k args).

(** Modelled from the spec: the back end records a boolean term as a
    hard constraint. *)
Definition assert_ast (a : smt_astt) : M unit :=
  fun ctx =>
    Ok tt (mk_smt_convt (config ctx) (store ctx) (fresh_counter ctx)
                        (assertions ctx ++ [a]) (null_ptr_ast ctx)
                        (invalid_ptr_ast ctx)).

(** The sort of a plain term. *)
Definition plain_sort (a : smt_astt) : option smt_sort :=
  match a with
  | ast_symbol s _ | ast_bvint s _ | ast_func_app s _ _ => Some s
  | ast_bool _ => Some (mk_smt_sort SMT_SORT_BOOL 1 0 None)
  | ast_null | ast_ref _ => None
  end.

Definition is_plain (a : smt_astt) : bool :=
  match a with ast_null | ast_ref _ => false | _ => true end.

(** ** Construction of structured terms *)

(** Modelled from the spec: the constructor of [tuple_smt_ast] is
    defined outside this file; a Tuple term created from a name starts
    free, with an empty child list. *)
Definition new_tuple_smt_ast (s : smt_sort) (nm : string) : M smt_astt :=
  do l <- alloc (mk_tuple_smt_ast Tuple s nm []);
  ret (ast_ref l).

(** The per-field array type an [array_smt_ast] keeps for member [it]. *)
Definition field_array_type (it : type2t) (sz : array_size_expr)
  (inf : bool) : type2t :=
  array_type2t it sz inf.

(** One array-typed child per field of the element type.  [rec] builds
    the child of a structured member. *)
Fixpoint array_fields (rec : type2t -> string -> M smt_astt)
  (sz : array_size_expr) (inf : bool) (nm : string)
  (ms : list type2t) (ns : list string) (i : nat) {struct ms}
  : M (list smt_astt) :=
  match ms with
  | [] => ret []
  | it :: ms' =>
      do fld <- lift_option out_of_range (ns !! i);
      let fieldname := nm +:+ "." +:+ fld in
      do child <-
        (if is_tuple_ast_type it then rec it fieldname
         else if is_tuple_array_ast_type it
         then raise (abort_called "tuple array nested inside a tuple array")
         else do newsort <- convert_sort (field_array_type it sz inf);
              mk_fresh newsort fieldname);
      do rest <- array_fields rec sz inf nm ms' ns (S i);
      ret (child :: rest)
  end.

(** Modelled from the spec: the constructor of [array_smt_ast] is
    defined outside this file; a TupleArray term is fully populated at
    construction, with one array-typed term per field of its element
    type, and starts with its free flag set.  A structured member gets a
    TupleArray child of its own; a tuple array nested inside is an
    unsupported combination and terminates the run. *)
Fixpoint array_object (cfg : configt) (s : smt_sort) (sub : type2t)
  (sz : array_size_expr) (inf : bool) (nm : string) {struct sub}
  : M smt_astt :=
  let rec := fun it fieldname =>
    array_object cfg (convert_sort_cfg cfg (field_array_type it sz inf))
                 it sz inf fieldname in
  match sub with
  | struct_type2t ms ns _ | union_type2t ms ns _ =>
      do l <- alloc (mk_tuple_smt_ast (TupleArray true) s nm []);
      do es <- array_fields rec sz inf nm ms ns 0;
      do_ set_elements l es;
      ret (ast_ref l)
  | pointer_type2t _ =>
      do l <- alloc (mk_tuple_smt_ast (TupleArray true) s nm []);
      do es <- array_fields (fun _ _ => raise bad_cast) sz inf nm
                 (members (pointer_type_data cfg))
                 (member_names (pointer_type_data cfg)) 0;
      do_ set_elements l es;
      ret (ast_ref l)
  | _ => raise bad_cast
  end.

Definition new_array_smt_ast (s : smt_sort) (nm : string) : M smt_astt :=
  do ctx <- get_ctx;
  do ty <- to_tuple_sort s;
  match ty with
  | array_type2t sub sz inf => array_object (config ctx) s sub sz inf nm
  | _ => raise bad_cast
  end.

(** [smt_convt::tuple_fresh] *)
Definition tuple_fresh (s : smt_sort) (nm : string) : M smt_astt :=
  do nm <- (if String.eqb nm ""
            then do n <- mk_fresh_name "tuple_fresh::"; ret (n +:+ ".")
            else ret nm);
  do_ mk_smt_symbol nm s;
  match id s with
  | SMT_SORT_ARRAY => new_array_smt_ast s nm
  | _ => new_tuple_smt_ast s nm
  end.

(** ** Lazy materialisation *)

(** The loop of [tuple_smt_ast::make_free] over the members. *)
Fixpoint make_free_loop (l : nat) (nm : string) (ms : list type2t)
  (ns : list string) (i : nat) : M unit :=
  match ms with
  | [] => ret tt
  | it :: ms' =>
      do newsort <- convert_sort it;
      do fld <- lift_option out_of_range (ns !! i);
      let fieldname := nm +:+ "." +:+ fld in
      do child <-
        (if is_tuple_ast_type it then tuple_fresh newsort fieldname
         else if is_tuple_array_ast_type it
         then new_array_smt_ast newsort fieldname
         else mk_fresh newsort fieldname);
      do_ set_element l i child;
      make_free_loop l nm ms' ns (S i)
  end.

(** [tuple_smt_ast::make_free] *)
Definition make_free (l : nat) : M unit :=
  do o <- deref l;
  if negb (length (elements o) =? 0)%nat then ret tt
  else
    do ts <- to_tuple_sort (sort o);
    do strct <- get_type_def ts;
    do_ resize_elements l (length (members strct));
    make_free_loop l (name o) (members strct) (member_names strct) 0.

(** ** Projection *)

(** [smt_ast::project] *)
Definition smt_ast_project (idx : nat) : M smt_astt :=
  raise (abort_called "Projecting from non-tuple based AST").

(** [tuple_smt_ast::project] *)
Definition tuple_project (l : nat) (idx : nat) : M smt_astt :=
  do o <- deref l;
  do ts <- to_tuple_sort (sort o);
  do data <- get_type_def ts;
  do_ make_free l;
  do_ assert_that (bool_decide (idx < length (members data))%nat)
        "Out-of-bounds tuple element accessed";
  get_element l idx.

(** [array_smt_ast::project] *)
Definition array_project (l : nat) (idx : nat) : M smt_astt :=
  do o <- deref l;
  do_ assert_that (bool_decide (idx < length (elements o))%nat)
        "Out-of-bounds tuple-array element accessed";
  get_element l idx.

(** Virtual dispatch of [project] on the dynamic class of the term. *)
Definition project (a : smt_astt) (idx : nat) : M smt_astt :=
  match a with
  | ast_null => raise null_dereference
  | ast_ref l =>
      do o <- deref l;
      match kind o with
      | Tuple => tuple_project l idx
      | TupleArray _ => array_project l idx
      end
  | _ => smt_ast_project idx
  end.

(** [to_tuple_ast]: the cast asserts that the term is a structured
    object. *)
Definition to_tuple_ast (a : smt_astt) : M nat :=
  match a with
  | ast_ref l => do_ deref l; ret l
  | ast_null => raise null_dereference
  | _ => raise (assertion_failed "Tuple AST mismatch")
  end.

(** ** Assignment *)

(** [tuple_smt_ast::assign] *)
Definition tuple_assign (l : nat) (other : smt_astt) : M unit :=
  do lo <- to_tuple_ast other;
  do_ make_free lo;
  do o <- deref l;
  do_ assert_that (length (elements o) =? 0)%nat
        "tuple smt assign with elems populated";
  do src <- deref lo;
  set_elements l (elements src).

(** [array_smt_ast::assign] *)
Definition array_assign (l : nat) (src : nat) : M unit :=
  do o <- deref l;
  do_ assert_that (match kind o with
                   | TupleArray b => b
                   | Tuple => false
                   end) "Non-free array ast assigned";
  do s <- deref src;
  fun ctx =>
    Ok tt (set_store (<[l := mk_tuple_smt_ast (TupleArray false) (sort o)
                              (name o) (elements s)]> (store ctx)) ctx).

(** ** Bounded loops *)

(** [for (i = start; i < start + count; i++) body(i)] *)
Fixpoint for_loop (body : nat -> M unit) (start count : nat) : M unit :=
  match count with
  | O => ret tt
  | S c => do_ body start; for_loop body (S start) c
  end.

(** [to_array_type] *)
Definition to_array_type (t : type2t)
  : M (type2t * array_size_expr * bool) :=
  match t with
  | array_type2t sub sz inf => ret (sub, sz, inf)
  | _ => raise bad_cast
  end.

(** Modelled from the spec: [make_array_domain_sort_exp] is defined
    outside this file; the index type of an array is the unsigned
    bit-vector of its domain width. *)
Definition make_array_domain_sort_exp (cfg : configt)
  (array_type : type2t) : type2t :=
  unsignedbv_type2t (calculate_array_domain_width cfg array_type).

Definition bool_sort : smt_sort := mk_smt_sort SMT_SORT_BOOL 1 0 None.

Definition is_array_sort (s : smt_sort) : bool :=
  match id s with SMT_SORT_ARRAY => true | _ => false end.

(** ** Operations on terms *)

(** [smt_ast::ite] *)
Definition smt_ast_ite (this cond falseop : smt_astt) : M smt_astt :=
  do s <- lift_option null_dereference (plain_sort this);
  mk_func_app s SMT_FUNC_ITE [cond; this; falseop].

(** [tuple_smt_ast::ite]; [ite] is the virtual call on the children. *)
Definition tuple_ite (ite : smt_astt -> smt_astt -> smt_astt -> M smt_astt)
  (l : nat) (cond falseop : smt_astt) : M smt_astt :=
  do o <- deref l;
  do lf <- to_tuple_ast falseop;
  do thissort <- to_tuple_sort (sort o);
  do n <- mk_fresh_name "tuple_ite::";
  do result_sym <- new_tuple_smt_ast (sort o) (n +:+ ".");
  do lr <- to_tuple_ast result_sym;
  do_ make_free l;
  do_ make_free lf;
  do data <- get_type_def thissort;
  do_ resize_elements lr (length (members data));
  do_ for_loop (fun i =>
        do truepart <- project (ast_ref l) i;
        do falsepart <- project (ast_ref lf) i;
        do result_ast <- ite truepart cond falsepart;
        set_element lr i result_ast) 0 (length (members data));
  ret result_sym.

(** [to_array_ast] *)
Definition to_array_ast (a : smt_astt) : M nat :=
  match a with
  | ast_ref l =>
      do o <- deref l;
      match kind o with
      | TupleArray _ => ret l
      | Tuple => raise (assertion_failed "Tuple-Array AST mismatch")
      end
  | ast_null => raise null_dereference
  | _ => raise (assertion_failed "Tuple-Array AST mismatch")
  end.

(** [array_smt_ast::ite] *)
Definition array_ite (ite : smt_astt -> smt_astt -> smt_astt -> M smt_astt)
  (l : nat) (cond falseop : smt_astt) : M smt_astt :=
  do o <- deref l;
  do lf <- to_array_ast falseop;
  do thissort <- to_tuple_sort (sort o);
  do_ assert_that (is_array_type thissort) "is_array_type(thissort->thetype)";
  do arr <- to_array_type thissort;
  do n <- mk_fresh_name "tuple_array_ite::";
  do result_sym <- new_array_smt_ast (sort o) (n +:+ ".");
  do lr <- to_tuple_ast result_sym;
  do data <- get_type_def (arr.1.1);
  do_ for_loop (fun i =>
        do truepart <- get_element l i;
        do falsepart <- get_element lf i;
        do result_ast <- ite truepart cond falsepart;
        set_element lr i result_ast) 0 (length (members data));
  ret result_sym.

(** Virtual dispatch of [ite]. *)
Fixpoint ite (fuel : nat) (this cond falseop : smt_astt) : M smt_astt :=
  match fuel with
  | O => out_of_fuel
  | S f =>
      match this with
      | ast_null => raise null_dereference
      | ast_ref l =>
          do o <- deref l;
          match kind o with
          | Tuple => tuple_ite (ite f) l cond falseop
          | TupleArray _ => array_ite (ite f) l cond falseop
          end
      | _ => smt_ast_ite this cond falseop
      end
  end.

(** [smt_ast::eq] *)
Definition smt_ast_eq (this other : smt_astt) : M smt_astt :=
  mk_func_app bool_sort SMT_FUNC_EQ [this; other].

(** Modelled from the spec: [make_conjunct] is defined outside this
    file; the conjunction of the given boolean terms. *)
Definition make_conjunct (eqs : list smt_astt) : M smt_astt :=
  mk_func_app bool_sort SMT_FUNC_AND eqs.

(** The equality loops collect one term per field. *)
Fixpoint collect_loop (body : nat -> M smt_astt) (start count : nat)
  : M (list smt_astt) :=
  match count with
  | O => ret []
  | S c =>
      do x <- body start;
      do rest <- collect_loop body (S start) c;
      ret (x :: rest)
  end.

(** [tuple_smt_ast::eq] *)
Definition tuple_eq (eq : smt_astt -> smt_astt -> M smt_astt)
  (l : nat) (other : smt_astt) : M smt_astt :=
  do lb <- to_tuple_ast other;
  do_ make_free lb;
  do o <- deref l;
  do ts <- to_tuple_sort (sort o);
  do data <- get_type_def ts;
  do eqs <- collect_loop (fun i =>
        do side1 <- project (ast_ref l) i;
        do side2 <- project (ast_ref lb) i;
        eq side1 side2) 0 (length (members data));
  make_conjunct eqs.

(** [array_smt_ast::eq] *)
Definition array_eq (eq : smt_astt -> smt_astt -> M smt_astt)
  (l : nat) (other : smt_astt) : M smt_astt :=
  do lb <- to_array_ast other;
  do o <- deref l;
  do ts <- to_tuple_sort (sort o);
  do_ assert_that (is_array_type ts) "is_array_type(ts->thetype)";
  do arr <- to_array_type ts;
  do data <- get_type_def (arr.1.1);
  do eqs <- collect_loop (fun i =>
        do side1 <- get_element l i;
        do side2 <- get_element lb i;
        eq side1 side2) 0 (length (members data));
  make_conjunct eqs.

(** Virtual dispatch of [eq]. *)
Fixpoint eq (fuel : nat) (this other : smt_astt) : M smt_astt :=
  match fuel with
  | O => out_of_fuel
  | S f =>
      match this with
      | ast_null => raise null_dereference
      | ast_ref l =>
          do o <- deref l;
          match kind o with
          | Tuple => tuple_eq (eq f) l other
          | TupleArray _ => array_eq (eq f) l other
          end
      | _ => smt_ast_eq this other
      end
  end.

Section Conversion.

(** [convert_ast], as available to the operations below. *)
Variable conv : expr2t -> M smt_astt.

(** [smt_ast::update] *)
Definition smt_ast_update (this value : smt_astt) (idx : nat)
  (idx_expr : expr2t) : M smt_astt :=
  do s <- lift_option null_dereference (plain_sort this);
  do_ assert_that (is_array_sort s) "sort->id == SMT_SORT_ARRAY";
  let index :=
    if is_nil_expr idx_expr
    then constant_int2t (unsignedbv_type2t (domain_width s)) (Z.of_nat idx)
    else idx_expr in
  do i <- conv index;
  mk_func_app s SMT_FUNC_STORE [this; i; value].

(** [tuple_smt_ast::update] *)
Definition tuple_update (l : nat) (value : smt_astt) (idx : nat)
  (idx_expr : expr2t) : M smt_astt :=
  do o <- deref l;
  do_ assert_that (is_nil_expr idx_expr)
        "Can't apply non-constant index update to structure";
  do n <- mk_fresh_name "tuple_update::";
  do result <- new_tuple_smt_ast (sort o) (n +:+ ".");
  do lr <- to_tuple_ast result;
  do_ set_elements lr (elements o);
  do_ make_free lr;
  do_ set_element lr idx value;
  ret result.

(** [array_smt_ast::update] *)
Definition array_update
  (update : smt_astt -> smt_astt -> nat -> expr2t -> M smt_astt)
  (l : nat) (value : smt_astt) (idx : nat) (idx_expr : expr2t)
  : M smt_astt :=
  do ctx <- get_ctx;
  do o <- deref l;
  do ts <- to_tuple_sort (sort o);
  do arr <- to_array_type ts;
  do data <- get_type_def (arr.1.1);
  let index :=
    if is_nil_expr idx_expr
    then constant_int2t (make_array_domain_sort_exp (config ctx) ts)
                        (Z.of_nat idx)
    else idx_expr in
  do n <- mk_fresh_name "tuple_array_update::";
  do result <- new_array_smt_ast (sort o) (n +:+ ".");
  do lr <- to_tuple_ast result;
  do_ for_loop (fun i =>
        do field <- get_element l i;
        do resval <- project value i;
        do updated <- update field resval 0%nat index;
        set_element lr i updated) 0 (length (members data));
  ret result.

(** Virtual dispatch of [update]. *)
Fixpoint update (fuel : nat) (this value : smt_astt) (idx : nat)
  (idx_expr : expr2t) : M smt_astt :=
  match fuel with
  | O => out_of_fuel
  | S f =>
      match this with
      | ast_null => raise null_dereference
      | ast_ref l =>
          do o <- deref l;
          match kind o with
          | Tuple => tuple_update l value idx idx_expr
          | TupleArray _ => array_update (update f) l value idx idx_expr
          end
      | _ => smt_ast_update this value idx idx_expr
      end
  end.

(** [smt_ast::select] *)
Definition smt_ast_select (this : smt_astt) (idx : expr2t) : M smt_astt :=
  do ctx <- get_ctx;
  do s <- lift_option null_dereference (plain_sort this);
  do_ assert_that (is_array_sort s)
        "Select operation applied to non-array scalar AST";
  let range_sort :=
    if (data_width s =? 1)%N && negb (no_bools_in_arrays (config ctx))
    then bool_sort
    else mk_smt_sort SMT_SORT_BV (data_width s) 0 None in
  do i <- conv idx;
  mk_func_app range_sort SMT_FUNC_SELECT [this; i].

(** [tuple_smt_ast::select] *)
Definition tuple_select (idx : expr2t) : M smt_astt :=
  raise (abort_called "Select operation applied to tuple").

(** [array_smt_ast::select] *)
Definition array_select (select : smt_astt -> expr2t -> M smt_astt)
  (l : nat) (idx : expr2t) : M smt_astt :=
  do o <- deref l;
  do ts <- to_tuple_sort (sort o);
  do arr <- to_array_type ts;
  do data <- get_type_def (arr.1.1);
  do result_sort <- convert_sort (arr.1.1);
  do n <- mk_fresh_name "tuple_array_select::";
  do result <- new_tuple_smt_ast result_sort (n +:+ ".");
  do lr <- to_tuple_ast result;
  do_ resize_elements lr (length (members data));
  do_ for_loop (fun i =>
        do sub_array <- get_element l i;
        do selected <- select sub_array idx;
        set_element lr i selected) 0 (length (members data));
  ret result.

(** Virtual dispatch of [select]. *)
Fixpoint select (fuel : nat) (this : smt_astt) (idx : expr2t)
  : M smt_astt :=
  match fuel with
  | O => out_of_fuel
  | S f =>
      match this with
      | ast_null => raise null_dereference
      | ast_ref l =>
          do o <- deref l;
          match kind o with
          | Tuple => tuple_select idx
          | TupleArray _ => array_select (select f) l idx
          end
      | _ => smt_ast_select this idx
      end
  end.

(** ** Construction from expressions *)

(** [smt_convt::tuple_create] *)
Definition tuple_create (structdef : expr2t) : M smt_astt :=
  match structdef with
  | constant_struct2t ty ms =>
      do n <- mk_fresh_name "tuple_create::";
      do s <- convert_sort ty;
      do result <- new_tuple_smt_ast s (n +:+ ".");
      do lr <- to_tuple_ast result;
      do_ resize_elements lr (length ms);
      do_ for_loop (fun i =>
            do e <- lift_option out_of_range (ms !! i);
            do tmp <- conv e;
            set_element lr i tmp) 0 (length ms);
      ret result
  | _ => raise bad_cast
  end.

(** The loop of [smt_convt::union_create] over the members of the
    union. *)
Fixpoint union_create_loop (fuel : nat) (result_ast init_ast : smt_astt)
  (lr : nat) (init_type : type2t) (ms : list type2t) (i : nat) : M unit :=
  match ms with
  | [] => ret tt
  | it :: ms' =>
      do_ (if type_eqb it init_type then
             do target_memb <- project result_ast i;
             do c <- eq fuel target_memb init_ast;
             do_ assert_ast c;
             set_element lr i init_ast
           else if is_tuple_ast_type it then
             do s <- convert_sort it;
             do a <- tuple_fresh s "";
             set_element lr i a
           else if is_tuple_array_ast_type it then
             do n <- mk_fresh_name "union_create_elem";
             do s <- convert_sort it;
             do a <- new_array_smt_ast s n;
             set_element lr i a
           else ret tt);
      union_create_loop fuel result_ast init_ast lr init_type ms' (S i)
  end.

(** [smt_convt::union_create] *)
Definition union_create (fuel : nat) (unidef : expr2t) : M smt_astt :=
  match unidef with
  | constant_union2t ty datatype_members =>
      do n <- mk_fresh_name "union_create::";
      let nm := n +:+ "." in
      let result := symbol2t ty nm in
      do def <- get_type_def ty;
      do_ assert_that (length datatype_members =? 1)%nat
            "Unexpectedly full union initializer";
      do init <- lift_option out_of_range (datatype_members !! 0%nat);
      do result_ast <- conv result;
      do init_ast <- conv init;
      do lr <- to_tuple_ast result_ast;
      do_ resize_elements lr (length (members def));
      do_ union_create_loop fuel result_ast init_ast lr (expr_type init)
            (members def) 0;
      do s <- convert_sort ty;
      new_tuple_smt_ast s nm
  | _ => raise bad_cast
  end.

(** The last character of the name is a dot. *)
Fixpoint ends_with_dot (nm : string) : bool :=
  match nm with
  | EmptyString => false
  | String c EmptyString => Ascii.eqb c "."%char
  | String _ rest => ends_with_dot rest
  end.

(** [smt_convt::mk_tuple_symbol] *)
Definition mk_tuple_symbol (expr : expr2t) : M smt_astt :=
  match expr with
  | symbol2t ty nm =>
      do ctx <- get_ctx;
      if String.eqb nm "0" || String.eqb nm "NULL"
      then ret (null_ptr_ast ctx)
      else if String.eqb nm "INVALID" then ret (invalid_ptr_ast ctx)
      else
        do_ (if String.eqb nm "" then raise out_of_range else ret tt);
        let nm := if ends_with_dot nm then nm else nm +:+ "." in
        do s <- convert_sort ty;
        do_ assert_that (negb (is_array_sort s)) "sort->id != SMT_SORT_ARRAY";
        new_tuple_smt_ast s nm
  | _ => raise bad_cast
  end.

(** [smt_convt::mk_tuple_array_symbol] *)
Definition mk_tuple_array_symbol (expr : expr2t) : M smt_astt :=
  match expr with
  | symbol2t ty nm =>
      do s <- convert_sort ty;
      new_array_smt_ast s (nm +:+ "[]")
  | _ => raise bad_cast
  end.

(** [for (unsigned int i = 0; i < sz; i++) newsym = body(i, newsym)],
    where [sz] is a [uint64_t].  The counter is 32 bits wide and wraps
    around to 0 after 2^32 - 1, so the loop is left only if [sz] is below
    2^32.  Every iteration takes one unit of fuel. *)
Fixpoint store_loop (fuel : nat) (body : nat -> smt_astt -> M smt_astt)
  (i sz : Z) (newsym : smt_astt) : M smt_astt :=
  if (i <? sz)%Z then
    match fuel with
    | O => out_of_fuel
    | S f =>
        do newsym' <- body (Z.to_nat i) newsym;
        store_loop f body ((i + 1) mod 2 ^ 32) sz newsym'
    end
  else ret newsym.

Definition is_constant_int_size (sz : array_size_expr) : bool :=
  match sz with size_constant_int _ => true | _ => false end.

(** [uint64_t sz = thesize.constant_value.to_ulong()].  Modelled from
    the spec: [BigInt::to_ulong] is defined outside this file.  Its
    result is held in a [uint64_t]: a size in the range of that type is
    the size itself, and a size outside it is reduced modulo 2^64. *)
Definition size_to_ulong (sz : array_size_expr) : Z :=
  match sz with size_constant_int v => v mod 2 ^ 64 | _ => 0 end.

(** [smt_convt::tuple_array_create] *)
Definition tuple_array_create (fuel : nat) (array_type : type2t)
  (inputargs : list smt_astt) (const_array : bool) : M smt_astt :=
  do s <- convert_sort array_type;
  do n <- mk_fresh_name "tuple_array_create::";
  do newsym <- new_array_smt_ast s (n +:+ ".");
  do arr_type <- to_array_type array_type;
  if arr_type.2 then ret newsym
  else if negb (is_constant_int_size (arr_type.1.2))
  then raise (abort_called
                "Non-constant sized array of type constant_array_of2t")
  else
    let sz := size_to_ulong (arr_type.1.2) in
    if const_array then
      do init <- lift_option out_of_range (inputargs !! 0%nat);
      store_loop fuel (fun i newsym => update fuel newsym init i nil_expr)
                 0 sz newsym
    else
      store_loop fuel (fun i newsym =>
                    do arg <- lift_option out_of_range (inputargs !! i);
                    update fuel newsym arg i nil_expr)
                 0 sz newsym.

(** [smt_convt::tuple_array_create_despatch] *)
Definition tuple_array_create_despatch (fuel : nat) (expr : expr2t)
  : M smt_astt :=
  match expr with
  | constant_array_of2t ty init =>
      do arg <- conv init;
      tuple_array_create fuel ty [arg] true
  | constant_array2t ty ms =>
      do args <- collect_loop (fun i =>
                   do e <- lift_option out_of_range (ms !! i);
                   conv e) 0 (length ms);
      tuple_array_create fuel ty args false
  | _ => raise (assertion_failed "is_constant_array2t(expr)")
  end.

(** [1ULL << array_size], a shift of a 64-bit operand. *)
Definition shift_one (array_size : N) : M Z :=
  if (array_size <? 64)%N then ret (2 ^ Z.of_N array_size)
  else raise undefined_shift.

(** [smt_convt::convert_array_of]; the counter of its loop is as wide
    as the bound. *)
Definition convert_array_of (init_val : expr2t) (array_size : N)
  : M smt_astt :=
  do n <- shift_one array_size;
  let array_of_inits := replicate (Z.to_nat n) init_val in
  let real_arr_size := size_constant_int n in
  let newtype := array_type2t (expr_type init_val) real_arr_size false in
  conv (constant_array2t newtype array_of_inits).

(** [smt_convt::tuple_array_of] *)
Definition tuple_array_of (fuel : nat) (init_val : expr2t)
  (array_size : N) : M smt_astt :=
  do ctx <- get_ctx;
  do_ assert_that (negb (tuple_support (config ctx))) "!tuple_support";
  do subtype <- get_type_def (expr_type init_val);
  do data <- match init_val with
             | constant_struct2t _ ms | constant_union2t _ ms => ret ms
             | _ => raise bad_cast
             end;
  let arrsize := size_constant_int (Z.of_N array_size) in
  let arrtype := array_type2t (expr_type init_val) arrsize false in
  do n <- mk_fresh_name "tuple_array_of::";
  let nm := n +:+ "." in
  let tuple_arr_of_sym := symbol2t arrtype nm in
  do s <- convert_sort arrtype;
  do newsym <- new_array_smt_ast s nm;
  do_ assert_that (length (members subtype) =? length data)%nat
        "subtype.members.size() == data.datatype_members.size()";
  do_ for_loop (fun i =>
        do val <- lift_option out_of_range (data !! i);
        let subarr_type := array_type2t (expr_type val) arrsize false in
        let sub_array_of := constant_array_of2t subarr_type val in
        do tuple_arr_of_sym_ast <- conv tuple_arr_of_sym;
        do target_array <- project tuple_arr_of_sym_ast i;
        do sub_array_of_ast <- conv sub_array_of;
        do c <- eq fuel target_array sub_array_of_ast;
        assert_ast c) 0 (length (members subtype));
  ret newsym.

(** [smt_convt::pointer_array_of] *)
Definition pointer_array_of (fuel : nat) (init_val : expr2t)
  (array_width : N) : M smt_astt :=
  do ctx <- get_ctx;
  match init_val with
  | symbol2t _ nm =>
      do_ assert_that (String.eqb nm "NULL")
            "Pointer type'd array_of can only be an array of null";
      let zero_val :=
        constant_int2t (unsignedbv_type2t (pointer_width (config ctx))) 0 in
      let strct :=
        constant_struct2t (pointer_struct (config ctx))
                          [zero_val; zero_val] in
      tuple_array_of fuel strct array_width
  | _ => raise (assertion_failed
                  "Pointer type'd array_of can only be an array of null")
  end.

(** The initializer at the bottom of nested [constant_array_of2t]s. *)
Fixpoint base_initializer (e : expr2t) : expr2t :=
  match e with
  | constant_array_of2t _ i => base_initializer i
  | _ => e
  end.

(** [smt_convt::convert_array_of_prep] *)
Definition convert_array_of_prep (fuel : nat) (expr : expr2t)
  : M smt_astt :=
  do ctx <- get_ctx;
  match expr with
  | constant_array_of2t ty init =>
      do arrtype <- to_array_type ty;
      let '(base_init, array_size) :=
        if is_array_type (arrtype.1.1)
        then (base_initializer expr,
              calculate_array_domain_width (config ctx)
                (flatten_array_type (config ctx) ty))
        else (init, calculate_array_domain_width (config ctx) ty) in
      if is_structure_type (expr_type base_init)
      then tuple_array_of fuel base_init array_size
      else if is_pointer_type (expr_type base_init)
      then pointer_array_of fuel base_init array_size
      else convert_array_of base_init array_size
  | _ => raise bad_cast
  end.

(** [smt_convt::array_create] *)
Definition array_create (fuel : nat) (expr : expr2t) : M smt_astt :=
  do ctx <- get_ctx;
  match expr with
  | constant_array_of2t _ _ => convert_array_of_prep fuel expr
  | _ =>
      do n <- mk_fresh_name "array_create::";
      let newsym := symbol2t (expr_type expr) (n +:+ ".") in
      do arr_type <- to_array_type (expr_type expr);
      if arr_type.2 then conv newsym
      else if negb (is_constant_int_size (arr_type.1.2))
      then raise (abort_called
                    "Non-constant sized array of type constant_array_of2t")
      else
        let sz := size_to_ulong (arr_type.1.2) in
        do array <- match expr with
                    | constant_array2t _ ms => ret ms
                    | _ => raise (assertion_failed
                                    "is_constant_array2t(expr)")
                    end;
        do newsym_ast <- conv newsym;
        store_loop fuel (fun i newsym_ast =>
            do member <- lift_option out_of_range (array !! i);
            let init :=
              if is_bool_type (expr_type member)
                 && negb (int_encoding (config ctx))
                 && no_bools_in_arrays (config ctx)
              then typecast2t (unsignedbv_type2t 1) member
              else member in
            do a <- conv init;
            update fuel newsym_ast a i nil_expr)
          0 sz newsym_ast
  end.

End Conversion.

(** Modelled from the spec: [convert_ast] is defined outside this file.
    It classifies a typed expression as scalar, array, structured or
    structured array and builds the term: literals and symbols of
    scalar type become plain back-end terms, structured literals go to
    [tuple_create] / [union_create], structured symbols to
    [mk_tuple_symbol], arrays of structured elements to
    [tuple_array_create_despatch] and other arrays to [array_create].
    Expressions outside this fragment are not modelled. *)
Fixpoint convert_ast (fuel : nat) (expr : expr2t) : M smt_astt :=
  match fuel with
  | O => out_of_fuel
  | S f =>
      let conv := convert_ast f in
      match expr with
      | constant_int2t ty v =>
          do s <- convert_sort ty; ret (ast_bvint s v)
      | constant_bool2t b => ret (ast_bool b)
      | constant_struct2t _ _ => tuple_create conv expr
      | constant_union2t _ _ => union_create conv f expr
      | constant_array2t ty _ | constant_array_of2t ty _ =>
          if is_tuple_array_ast_type ty
          then tuple_array_create_despatch conv f expr
          else array_create conv f expr
      | symbol2t ty nm =>
          if is_tuple_ast_type ty then mk_tuple_symbol expr
          else if is_tuple_array_ast_type ty then mk_tuple_array_symbol expr
          else do s <- convert_sort ty; mk_smt_symbol nm s
      | typecast2t (unsignedbv_type2t 1) from =>
          if is_bool_type (expr_type from) then
            do c <- conv from;
            let s := mk_smt_sort SMT_SORT_BV 1 0 None in
            mk_func_app s SMT_FUNC_ITE [c; ast_bvint s 1; ast_bvint s 0]
          else raise unsupported_expression
      | _ => raise unsupported_expression
      end
  end.

(** ** Models and read-back *)

(** The value the solver binds to a plain term. *)
Inductive value : Type :=
| VBool (b : bool)
| VBV (v : Z)
| VArray (f : Z -> value).

(** A model binds every symbol, a name at a sort, to a value. *)
Definition model : Type := smt_sort -> string -> value.

(** Modelled from the spec: the meaning of the back end's operators
    (if-then-else, array store and select) under a model. *)
Fixpoint eval (m : model) (a : smt_astt) {struct a} : option value :=
  match a with
  | ast_symbol s nm => Some (m s nm)
  | ast_bvint s v => Some (VBV (v mod 2 ^ Z.of_N (data_width s)))
  | ast_bool b => Some (VBool b)
  | ast_func_app _ SMT_FUNC_ITE [c; x; y] =>
      match eval m c with
      | Some (VBool true) => eval m x
      | Some (VBool false) => eval m y
      | _ => None
      end
  | ast_func_app _ SMT_FUNC_STORE [arr; i; v] =>
      match eval m arr, eval m i, eval m v with
      | Some (VArray f), Some (VBV k), Some x =>
          Some (VArray (fun j => if Z.eqb j k then x else f j))
      | _, _, _ => None
      end
  | ast_func_app _ SMT_FUNC_SELECT [arr; i] =>
      match eval m arr, eval m i with
      | Some (VArray f), Some (VBV k) => Some (f k)
      | _, _ => None
      end
  | _ => None
  end.

(** [cvc_convt::get_bv] ([solvers/cvc/cvc_conv.cpp]), the read-back of
    the back end in this repository: the value bound to the term is read
    through a [uint64_t] and returned as a constant of the unsigned type
    of the width of the bit-vector ([get_uint_type]).  The field type
    that [tuple_get_rec] passes plays no part in it. *)
Definition get_bv (m : model) (t : type2t) (a : smt_astt) : expr2t :=
  match eval m a, plain_sort a with
  | Some (VBV v), Some s =>
      constant_int2t (unsignedbv_type2t (data_width s)) (v mod 2 ^ 64)
  | _, _ => nil_expr
  end.

(** [cvc_convt::get_bool] ([solvers/cvc/cvc_conv.cpp]) *)
Definition get_bool (m : model) (a : smt_astt) : expr2t :=
  match eval m a with
  | Some (VBool b) => constant_bool2t b
  | _ => nil_expr
  end.

(** Modelled from the spec: [pointer_logict::pointer_expr] is defined
    outside this file; the pair (0, 0) is the canonical null pointer,
    any other pair is rendered by the pointer logic. *)
Definition pointer_expr (cfg : configt) (num offs : Z) (t : type2t)
  : expr2t :=
  if Z.eqb num 0 && Z.eqb offs 0 then symbol2t t "NULL"
  else pointer_logic_expr cfg num offs t.

(** [to_constant_int2t(e).constant_value.to_uint64()] *)
Definition to_uint64 (e : expr2t) : M Z :=
  match e with
  | constant_int2t _ v => ret (v mod 2 ^ 64)
  | _ => raise bad_cast
  end.

(** The field loop of [smt_convt::tuple_get_rec]. *)
Fixpoint tuple_get_loop (m : model) (rec : nat -> M expr2t)
  (l : nat) (ms : list type2t) (i : nat) : M (list expr2t) :=
  match ms with
  | [] => ret []
  | it :: ms' =>
      do res <-
        (if is_tuple_ast_type it then
           do e <- get_element l i;
           do le <- to_tuple_ast e;
           rec le
         else if is_tuple_array_ast_type it then ret nil_expr
         else if is_number_type it then
           do e <- get_element l i; ret (get_bv m it e)
         else if is_bool_type it then
           do e <- get_element l i; ret (get_bool m e)
         else if is_array_type it then ret nil_expr
         else raise (abort_called "Unexpected type in tuple_get_rec"));
      do rest <- tuple_get_loop m rec l ms' (S i);
      ret (res :: rest)
  end.

(** [smt_convt::tuple_get_rec] *)
Fixpoint tuple_get_rec (fuel : nat) (m : model) (l : nat) : M expr2t :=
  match fuel with
  | O => out_of_fuel
  | S f =>
      do ctx <- get_ctx;
      do tuple <- deref l;
      do ty <- to_tuple_sort (sort tuple);
      do strct <- get_type_def ty;
      if (length (elements tuple) =? 0)%nat then
        ret (constant_struct2t ty
               (replicate (length (members strct)) nil_expr))
      else
        do outs <- tuple_get_loop m (tuple_get_rec f m) l
                     (members strct) 0;
        if is_pointer_type ty || type_eqb ty (pointer_struct (config ctx))
        then
          do e0 <- lift_option out_of_range (outs !! 0%nat);
          do num <- to_uint64 e0;
          do e1 <- lift_option out_of_range (outs !! 1%nat);
          do offs <- to_uint64 e1;
          ret (pointer_expr (config ctx) num offs
                 (pointer_type2t empty_type2t))
        else ret (constant_struct2t ty outs)
  end.

(** [smt_convt::tuple_get] *)
Definition tuple_get (fuel : nat) (m : model) (expr : expr2t) : M expr2t :=
  do_ assert_that (match expr with symbol2t _ _ => true | _ => false end)
        "Non-symbol in smtlib expr get()";
  do a <- convert_ast fuel expr;
  do l <- to_tuple_ast a;
  tuple_get_rec fuel m l.


(** ** The sentinels *)

(** Modelled from the spec: the two sentinel terms are created once,
    outside this file; the null pointer is the (0, 0) value of the
    canonical pointer shape and the invalid pointer the (1, 0) value. *)
Definition pointer_literal (cfg : configt) (num offs : Z) : expr2t :=
  constant_struct2t (pointer_struct cfg)
    [constant_int2t (unsignedbv_type2t (pointer_width cfg)) num;
     constant_int2t (unsignedbv_type2t (pointer_width cfg)) offs].

Definition init_sentinels : M unit :=
  do ctx <- get_ctx;
  do n <- convert_ast 2 (pointer_literal (config ctx) 0 0);
  do i <- convert_ast 2 (pointer_literal (config ctx) 1 0);
  fun c => Ok tt (mk_smt_convt (config c) (store c) (fresh_counter c)
                               (assertions c) n i).

Definition empty_convt (cfg : configt) : smt_convt :=
  mk_smt_convt cfg [] 0 [] ast_null ast_null.

(** A model is well sorted when the value of every symbol has the shape
    of its sort. *)
Definition value_of_sort (s : smt_sort) (v : value) : Prop :=
  match id s with
  | SMT_SORT_ARRAY => exists f, v = VArray f
  | SMT_SORT_BOOL => exists b, v = VBool b
  | SMT_SORT_BV =>
      exists z, v = VBV z /\ 0 <= z < 2 ^ Z.of_N (data_width s)
  | _ => True
  end.

Definition well_sorted (m : model) : Prop :=
  forall s nm, value_of_sort s (m s nm).

Definition is_fatal {A} (r : outcome A) : Prop :=
  match r with Fatal _ _ => True | _ => False end.

(** * Properties *)

(** ** A concrete configuration and concrete types *)

Definition example_config : configt :=
  mk_configt 32 false false false (fun _ => 2%N) (fun t => t)
             (fun _ _ _ => nil_expr).

Definition bv8 : type2t := unsignedbv_type2t 8.

Definition example_struct : type2t :=
  struct_type2t [bv8; bool_type2t] ["a"; "b"] "S".

Definition example_union : type2t :=
  union_type2t [bv8; bool_type2t] ["x"; "y"] "U".

Definition bv8_sort : smt_sort := mk_smt_sort SMT_SORT_BV 8 0 None.

(** ** Update of a free tuple *)

(** The update and the two projections of the update law, on a tuple
    made from the symbol [t]. *)
Definition update_then_project (i j : nat) (v : smt_astt)
  : M (smt_astt * smt_astt) :=
  do t <- mk_tuple_symbol (symbol2t example_struct "t");
  do u <- update (convert_ast 1) 1 t v i nil_expr;
  do p <- project u j;
  do q <- project t j;
  ret (p, q).

(** C1. The update law asks that [project(update(t, v, i), j)] equals
    [project(t, j)] for [j <> i].  [tuple_smt_ast::update] copies the
    child list of [t] before anything has materialised it and then
    materialises the copy under the copy's own name, so for a free [t]
    field 1 of the update is the symbol [tuple_update::0..b2] while
    field 1 of [t] is [t..b4]: two unrelated symbols. *)
Lemma update_of_free_tuple_loses_fields :
  exists ctx',
    update_then_project 0 1 (ast_bvint bv8_sort 7)
      (empty_convt example_config)
    = Ok (ast_symbol bool_sort "tuple_update::0..b2",
          ast_symbol bool_sort "t..b4") ctx'
    /\ ast_symbol bool_sort "tuple_update::0..b2"
       <> ast_symbol bool_sort "t..b4".
Proof.
  eexists. split; [vm_compute; reflexivity | discriminate].
Qed.

(** ** Union literals *)

Definition example_union_literal : expr2t :=
  constant_union2t example_union [constant_int2t bv8 7].

(** C4. For the union [{x : 8-bit, y : bool}] initialised as [x = 7],
    [union_create] resizes the child list of its result to two null
    slots, then projects member [x] out of it, which returns the null
    slot, and calls [eq] through it: the conversion ends in a null
    dereference instead of a union value whose [x] decodes to 7. *)
Lemma union_create_example_faults :
  exists ctx',
    convert_ast 3 example_union_literal (empty_convt example_config)
    = Fatal null_dereference ctx'.
Proof. eexists. vm_compute. reflexivity. Qed.

(** C8. At the fault of [union_create] on the same literal, the result
    term has two child slots for its two fields and neither is
    populated: its child list is neither empty nor complete. *)
Lemma union_create_leaves_partial_children :
  exists ctx' o,
    convert_ast 3 example_union_literal (empty_convt example_config)
    = Fatal null_dereference ctx'
    /\ store ctx' !! 0%nat = Some o
    /\ kind o = Tuple
    /\ thetype (sort o) = Some example_union
    /\ elements o = [ast_null; ast_null].
Proof.
  eexists. eexists. split; [vm_compute; reflexivity |].
  repeat split; reflexivity.
Qed.

(** ** Fuel-free operations never run out of fuel *)

Definition never_out_of_fuel {A} (m : M A) : Prop :=
  forall ctx, m ctx <> OutOfFuel.

Lemma nof_ret {A} (a : A) : never_out_of_fuel (ret a).
Proof. intros ctx; discriminate. Qed.

Lemma nof_raise {A} (f : fault) : never_out_of_fuel (@raise A f).
Proof. intros ctx; discriminate. Qed.

Lemma nof_bind {A B} (m : M A) (k : A -> M B) :
  never_out_of_fuel m -> (forall a, never_out_of_fuel (k a)) ->
  never_out_of_fuel (bind m k).
Proof.
  intros Hm Hk ctx. unfold bind.
  destruct (m ctx) as [a c|f c|] eqn:E; [apply Hk|discriminate|].
  exfalso; exact (Hm ctx E).
Qed.

Lemma nof_lift_option {A} f (o : option A) :
  never_out_of_fuel (lift_option f o).
Proof. destruct o; [apply nof_ret | apply nof_raise]. Qed.

Lemma nof_assert_that b msg : never_out_of_fuel (assert_that b msg).
Proof. destruct b; [apply nof_ret | apply nof_raise]. Qed.

Lemma nof_get_ctx : never_out_of_fuel get_ctx.
Proof. intros ctx; discriminate. Qed.

Lemma nof_deref l : never_out_of_fuel (deref l).
Proof. intros ctx. unfold deref. apply nof_lift_option. Qed.

Lemma nof_alloc o : never_out_of_fuel (alloc o).
Proof. intros ctx; discriminate. Qed.

Lemma nof_mk_fresh_name tag : never_out_of_fuel (mk_fresh_name tag).
Proof. intros ctx; discriminate. Qed.

Lemma nof_set_elements l es : never_out_of_fuel (set_elements l es).
Proof.
  apply nof_bind; [apply nof_deref | intros o ctx; discriminate].
Qed.

Create HintDb nof discriminated.
#[local] Hint Resolve nof_ret nof_raise nof_lift_option nof_assert_that
  nof_get_ctx nof_deref nof_alloc nof_mk_fresh_name nof_set_elements : nof.

Ltac nof_step :=
  match goal with
  | |- never_out_of_fuel (bind _ _) => apply nof_bind; [| intros ?]
  | |- never_out_of_fuel (if ?b then _ else _) => destruct b
  | |- never_out_of_fuel (match ?x with _ => _ end) => destruct x
  | |- never_out_of_fuel _ => solve [auto with nof]
  end.

Ltac nof := repeat nof_step.

Lemma nof_resize_elements l n : never_out_of_fuel (resize_elements l n).
Proof. unfold resize_elements. nof. Qed.

Lemma nof_set_element l i a : never_out_of_fuel (set_element l i a).
Proof. unfold set_element. nof. Qed.

Lemma nof_get_element l i : never_out_of_fuel (get_element l i).
Proof. unfold get_element. nof. Qed.

Lemma nof_get_type_def t : never_out_of_fuel (get_type_def t).
Proof. unfold get_type_def. nof. Qed.

Lemma nof_convert_sort t : never_out_of_fuel (convert_sort t).
Proof. unfold convert_sort. nof. Qed.

Lemma nof_to_tuple_sort s : never_out_of_fuel (to_tuple_sort s).
Proof. unfold to_tuple_sort. nof. Qed.

Lemma nof_mk_smt_symbol nm s : never_out_of_fuel (mk_smt_symbol nm s).
Proof. unfold mk_smt_symbol. nof. Qed.

#[local] Hint Resolve nof_resize_elements nof_set_element nof_get_element
  nof_get_type_def nof_convert_sort nof_to_tuple_sort nof_mk_smt_symbol : nof.

Lemma nof_mk_fresh s tag : never_out_of_fuel (mk_fresh s tag).
Proof. unfold mk_fresh. nof. Qed.

Lemma nof_new_tuple_smt_ast s nm : never_out_of_fuel (new_tuple_smt_ast s nm).
Proof. unfold new_tuple_smt_ast. nof. Qed.

#[local] Hint Resolve nof_mk_fresh nof_new_tuple_smt_ast : nof.

Lemma nof_array_fields rec sz inf nm ms ns i :
  Forall (fun it => forall fieldname, never_out_of_fuel (rec it fieldname)) ms ->
  never_out_of_fuel (array_fields rec sz inf nm ms ns i).
Proof.
  intros H. revert i. induction H as [|it ms Hit _ IH]; intros i; simpl.
  - nof.
  - apply nof_bind; [auto with nof | intros fld].
    apply nof_bind.
    + destruct (is_tuple_ast_type it); [apply Hit |].
      destruct (is_tuple_array_ast_type it); nof.
    + intros child. apply nof_bind; [apply IH | intros; nof].
Qed.

(** Induction on types, with the members of a struct or union. *)
Lemma type2t_members_ind (P : type2t -> Prop) :
  P bool_type2t -> P empty_type2t ->
  (forall w, P (unsignedbv_type2t w)) ->
  (forall w, P (signedbv_type2t w)) ->
  (forall sub, P sub -> P (pointer_type2t sub)) ->
  (forall sub sz inf, P sub -> P (array_type2t sub sz inf)) ->
  (forall ms ns n, Forall P ms -> P (struct_type2t ms ns n)) ->
  (forall ms ns n, Forall P ms -> P (union_type2t ms ns n)) ->
  forall t, P t.
Proof.
  intros Hb He Hu Hs Hp Ha Hst Hun.
  fix IH 1. intros [| |w|w|sub|sub sz inf|ms ns n|ms ns n].
  - exact Hb.
  - exact He.
  - apply Hu.
  - apply Hs.
  - apply Hp, IH.
  - apply Ha, IH.
  - apply Hst. induction ms as [|m ms IHms]; constructor; [apply IH | exact IHms].
  - apply Hun. induction ms as [|m ms IHms]; constructor; [apply IH | exact IHms].
Qed.

Lemma nof_array_object cfg sub :
  forall s sz inf nm, never_out_of_fuel (array_object cfg s sub sz inf nm).
Proof.
  induction sub as [| |w|w|sub' _|sub' sz' inf' _|ms ns n IH|ms ns n IH]
    using type2t_members_ind;
    intros s sz inf nm; simpl; try solve [nof].
  - apply nof_bind; [nof | intros l].
    apply nof_bind; [| intros; nof].
    apply nof_array_fields.
    eapply Forall_impl; [exact IH | simpl; intros it Hit fieldname; apply Hit].
  - apply nof_bind; [nof | intros l].
    apply nof_bind; [| intros; nof].
    apply nof_array_fields.
    eapply Forall_impl; [exact IH | simpl; intros it Hit fieldname; apply Hit].
Qed.

Lemma nof_new_array_smt_ast s nm : never_out_of_fuel (new_array_smt_ast s nm).
Proof.
  unfold new_array_smt_ast.
  apply nof_bind; [nof | intros ctx].
  apply nof_bind; [nof | intros ty].
  destruct ty; try solve [nof]. apply nof_array_object.
Qed.

#[local] Hint Resolve nof_new_array_smt_ast : nof.

Lemma nof_tuple_fresh s nm : never_out_of_fuel (tuple_fresh s nm).
Proof. unfold tuple_fresh. nof. Qed.

#[local] Hint Resolve nof_tuple_fresh : nof.

Lemma nof_make_free_loop l nm ms ns :
  forall i, never_out_of_fuel (make_free_loop l nm ms ns i).
Proof. induction ms as [|it ms IH]; intros i; simpl; nof; apply IH. Qed.

Lemma nof_make_free l : never_out_of_fuel (make_free l).
Proof. unfold make_free. nof; apply nof_make_free_loop. Qed.

(** ** Invalid accesses *)


Lemma deref_ok ctx l o :
  store ctx !! l = Some o -> deref l ctx = Ok o ctx.
Proof. intros H. unfold deref. rewrite H. reflexivity. Qed.





Definition example_tuple_ctx : smt_convt :=
  mk_smt_convt example_config
    [mk_tuple_smt_ast Tuple (convert_sort_cfg example_config example_struct)
       "t." []] 0 [] ast_null ast_null.


(** ** Reasoning about converter computations *)

(** [wp m ctx Q]: from [ctx], [m] returns a result and a state that
    satisfy [Q]. *)
Definition wp {A} (m : M A) (ctx : smt_convt)
  (Q : A -> smt_convt -> Prop) : Prop :=
  match m ctx with
  | Ok a ctx' => Q a ctx'
  | _ => False
  end.

Lemma wp_ok {A} (m : M A) ctx Q :
  wp m ctx Q <-> exists a ctx', m ctx = Ok a ctx' /\ Q a ctx'.
Proof.
  unfold wp. split.
  - destruct (m ctx) as [a c| |]; [eauto | tauto | tauto].
  - intros (a & c & -> & H). exact H.
Qed.

Lemma wp_ret {A} (a : A) ctx (Q : A -> smt_convt -> Prop) :
  Q a ctx -> wp (ret a) ctx Q.
Proof. exact (fun H => H). Qed.

Lemma wp_bind {A B} (m : M A) (k : A -> M B) ctx Q :
  wp m ctx (fun a c => wp (k a) c Q) -> wp (bind m k) ctx Q.
Proof. unfold wp, bind. destruct (m ctx); tauto. Qed.

Lemma wp_mono {A} (m : M A) ctx (Q Q' : A -> smt_convt -> Prop) :
  wp m ctx Q -> (forall a c, Q a c -> Q' a c) -> wp m ctx Q'.
Proof. unfold wp. destruct (m ctx); [auto | tauto | tauto]. Qed.

Lemma wp_get_ctx ctx (Q : smt_convt -> smt_convt -> Prop) :
  Q ctx ctx -> wp get_ctx ctx Q.
Proof. exact (fun H => H). Qed.

Lemma wp_lift_option {A} f (o : option A) (a : A) ctx
  (Q : A -> smt_convt -> Prop) :
  o = Some a -> Q a ctx -> wp (lift_option f o) ctx Q.
Proof. intros -> H. exact H. Qed.

Lemma wp_assert_that b msg ctx (Q : unit -> smt_convt -> Prop) :
  b = true -> Q tt ctx -> wp (assert_that b msg) ctx Q.
Proof. intros -> H. exact H. Qed.

Lemma wp_deref l o ctx (Q : tuple_smt_ast -> smt_convt -> Prop) :
  store ctx !! l = Some o -> Q o ctx -> wp (deref l) ctx Q.
Proof. intros Hl H. unfold wp. rewrite (deref_ok _ _ _ Hl). exact H. Qed.

Lemma wp_alloc o ctx (Q : nat -> smt_convt -> Prop) :
  Q (length (store ctx)) (set_store (store ctx ++ [o]) ctx) ->
  wp (alloc o) ctx Q.
Proof. exact (fun H => H). Qed.

Lemma wp_set_elements l o es ctx (Q : unit -> smt_convt -> Prop) :
  store ctx !! l = Some o ->
  Q tt (set_store (<[l := with_elements o es]> (store ctx)) ctx) ->
  wp (set_elements l es) ctx Q.
Proof.
  intros Hl H. unfold set_elements. apply wp_bind.
  eapply wp_deref; [exact Hl | exact H].
Qed.

Lemma wp_resize_elements l o n ctx (Q : unit -> smt_convt -> Prop) :
  store ctx !! l = Some o ->
  Q tt (set_store
          (<[l := with_elements o
                    (take n (elements o)
                     ++ replicate (n - length (elements o)) ast_null)]>
             (store ctx)) ctx) ->
  wp (resize_elements l n) ctx Q.
Proof.
  intros Hl H. unfold resize_elements. apply wp_bind.
  eapply wp_deref; [exact Hl |]. eapply wp_set_elements; eauto.
Qed.

Lemma wp_set_element l o i a ctx (Q : unit -> smt_convt -> Prop) :
  store ctx !! l = Some o -> (i < length (elements o))%nat ->
  Q tt (set_store (<[l := with_elements o (<[i := a]> (elements o))]>
                     (store ctx)) ctx) ->
  wp (set_element l i a) ctx Q.
Proof.
  intros Hl Hi H. unfold set_element. apply wp_bind.
  eapply wp_deref; [exact Hl |]. rewrite decide_True by exact Hi.
  eapply wp_set_elements; eauto.
Qed.

Lemma wp_get_element l o i a ctx (Q : smt_astt -> smt_convt -> Prop) :
  store ctx !! l = Some o -> elements o !! i = Some a ->
  Q a ctx -> wp (get_element l i) ctx Q.
Proof.
  intros Hl Hi H. unfold get_element. apply wp_bind.
  eapply wp_deref; [exact Hl |]. eapply wp_lift_option; eauto.
Qed.

Lemma wp_get_type_def t data ctx
  (Q : struct_union_data -> smt_convt -> Prop) :
  type_def (config ctx) t = Some data -> Q data ctx ->
  wp (get_type_def t) ctx Q.
Proof.
  intros Ht H. unfold get_type_def. apply wp_bind, wp_get_ctx.
  eapply wp_lift_option; eauto.
Qed.

Lemma wp_convert_sort t ctx (Q : smt_sort -> smt_convt -> Prop) :
  Q (convert_sort_cfg (config ctx) t) ctx -> wp (convert_sort t) ctx Q.
Proof. intros H. exact H. Qed.

Lemma wp_to_tuple_sort s ty ctx (Q : type2t -> smt_convt -> Prop) :
  thetype s = Some ty -> Q ty ctx -> wp (to_tuple_sort s) ctx Q.
Proof. intros Hs H. unfold to_tuple_sort. eapply wp_lift_option; eauto. Qed.

(** The state after a fresh name has been taken. *)
Definition bump (ctx : smt_convt) : smt_convt :=
  mk_smt_convt (config ctx) (store ctx) (S (fresh_counter ctx))
               (assertions ctx) (null_ptr_ast ctx) (invalid_ptr_ast ctx).

Lemma wp_mk_fresh_name tag ctx (Q : string -> smt_convt -> Prop) :
  Q (tag +:+ pretty (fresh_counter ctx)) (bump ctx) ->
  wp (mk_fresh_name tag) ctx Q.
Proof. exact (fun H => H). Qed.

Lemma wp_mk_fresh s tag ctx (Q : smt_astt -> smt_convt -> Prop) :
  Q (ast_symbol s (tag +:+ pretty (fresh_counter ctx))) (bump ctx) ->
  wp (mk_fresh s tag) ctx Q.
Proof. exact (fun H => H). Qed.

Lemma wp_new_tuple_smt_ast s nm ctx (Q : smt_astt -> smt_convt -> Prop) :
  Q (ast_ref (length (store ctx)))
    (set_store (store ctx ++ [mk_tuple_smt_ast Tuple s nm []]) ctx) ->
  wp (new_tuple_smt_ast s nm) ctx Q.
Proof. exact (fun H => H). Qed.

Lemma wp_to_tuple_ast l o ctx (Q : nat -> smt_convt -> Prop) :
  store ctx !! l = Some o -> Q l ctx -> wp (to_tuple_ast (ast_ref l)) ctx Q.
Proof.
  intros Hl H. simpl. apply wp_bind. eapply wp_deref; [exact Hl | exact H].
Qed.

(** ** Well-formed stores *)

(** The three classes of term a type is converted to. *)
Inductive term_class : Type := CPlain | CTuple | CTupleArray.

Definition classify (t : type2t) : term_class :=
  if is_tuple_ast_type t then CTuple
  else if is_tuple_array_ast_type t then CTupleArray
  else CPlain.

(** No child slot of the object holds a null pointer. *)
Definition clean (o : tuple_smt_ast) : Prop :=
  Forall (fun a => a <> ast_null) (elements o).

(** The types of the children an object has once populated: the member
    types for a Tuple, the per-field array types for a TupleArray. *)
Definition child_types (cfg : configt) (o : tuple_smt_ast)
  : option (list type2t) :=
  match thetype (sort o), kind o with
  | Some ty, Tuple =>
      match type_def cfg ty with
      | Some data => Some (members data)
      | None => None
      end
  | Some (array_type2t sub sz inf), TupleArray _ =>
      match type_def cfg sub with
      | Some data =>
          Some (map (fun it => field_array_type it sz inf) (members data))
      | None => None
      end
  | _, _ => None
  end.

(** The element types [array_object] can build a TupleArray for. *)
Fixpoint elem_supported (sub : type2t) : bool :=
  match sub with
  | struct_type2t ms ns _ | union_type2t ms ns _ =>
      (length ms <=? length ns)%nat
      && forallb (fun it =>
                    if is_tuple_ast_type it then elem_supported it
                    else negb (is_tuple_array_ast_type it)) ms
  | pointer_type2t _ => true
  | _ => false
  end.

(** [make_free] can build a child for a member of this type. *)
Definition member_constructible (it : type2t) : bool :=
  match it with
  | array_type2t sub _ _ =>
      if is_tuple_array_ast_type it then elem_supported sub else true
  | _ => true
  end.

Definition members_constructible (data : struct_union_data) : bool :=
  (length (members data) <=? length (member_names data))%nat
  && forallb member_constructible (members data).

(** Types every level of which [make_free] can materialise. *)
Fixpoint supported (t : type2t) : bool :=
  match t with
  | struct_type2t ms ns _ | union_type2t ms ns _ =>
      (length ms <=? length ns)%nat
      && forallb (fun it => member_constructible it && supported it) ms
  | _ => true
  end.

(** A term has the class and sort of a type in a store. *)
Definition has_type (cfg : configt) (h : list tuple_smt_ast)
  (t : type2t) (a : smt_astt) : Prop :=
  match classify t with
  | CPlain =>
      exists s, plain_sort a = Some s
                /\ (is_array_type t = true -> is_array_sort s = true)
  | CTuple =>
      exists l o, a = ast_ref l /\ h !! l = Some o /\ kind o = Tuple
                  /\ sort o = convert_sort_cfg cfg t /\ clean o
  | CTupleArray =>
      exists l o b, a = ast_ref l /\ h !! l = Some o
                    /\ kind o = TupleArray b
                    /\ sort o = convert_sort_cfg cfg t /\ clean o
  end.

Definition slot_ok (cfg : configt) (h : list tuple_smt_ast)
  (t : type2t) (a : smt_astt) : Prop :=
  a = ast_null \/ has_type cfg h t a.

(** An object is well formed: its sort determines the types of its
    children, and its child list is empty (a free Tuple) or has one
    slot per field, each null or of the field's type. *)
Definition obj_ok (cfg : configt) (h : list tuple_smt_ast)
  (o : tuple_smt_ast) : Prop :=
  exists tys,
    child_types cfg o = Some tys
    /\ ((kind o = Tuple /\ elements o = [])
        \/ Forall2 (slot_ok cfg h) tys (elements o)).

(** [h'] keeps every object of [h], with its class and sort, and keeps
    clean objects clean. *)
Definition meta_le (h h' : list tuple_smt_ast) : Prop :=
  forall l o, h !! l = Some o ->
    exists o', h' !! l = Some o' /\ kind o' = kind o /\ sort o' = sort o
               /\ (clean o -> clean o').

Lemma meta_le_refl h : meta_le h h.
Proof. intros l o H. exists o. auto. Qed.

Lemma meta_le_trans h1 h2 h3 : meta_le h1 h2 -> meta_le h2 h3 -> meta_le h1 h3.
Proof.
  intros H12 H23 l o H.
  destruct (H12 l o H) as (o2 & H2 & Hk & Hs & Hc).
  destruct (H23 l o2 H2) as (o3 & H3 & Hk' & Hs' & Hc').
  exists o3. repeat split; [exact H3 | congruence | congruence | auto].
Qed.

Lemma meta_le_app h news : meta_le h (h ++ news).
Proof.
  intros l o H. exists o. split; [apply lookup_app_l_Some; exact H | auto].
Qed.

Lemma meta_le_insert h l o o' :
  h !! l = Some o -> kind o' = kind o -> sort o' = sort o ->
  (clean o -> clean o') -> meta_le h (<[l := o']> h).
Proof.
  intros Hl Hk Hs Hc k ok Hk'.
  destruct (decide (k = l)) as [->|Hne].
  - exists o'. rewrite list_lookup_insert_eq by (eapply lookup_lt_Some; eauto).
    rewrite Hl in Hk'. injection Hk' as <-. auto.
  - exists ok. rewrite list_lookup_insert_ne by congruence. auto.
Qed.

Lemma has_type_meta_le cfg h h' t a :
  meta_le h h' -> has_type cfg h t a -> has_type cfg h' t a.
Proof.
  intros Hle. unfold has_type. destruct (classify t); [auto | |].
  - intros (l & o & -> & Hl & Hk & Hs & Hc).
    destruct (Hle l o Hl) as (o' & Hl' & Hk' & Hs' & Hc').
    exists l, o'. repeat split; [exact Hl' | congruence | congruence | auto].
  - intros (l & o & b & -> & Hl & Hk & Hs & Hc).
    destruct (Hle l o Hl) as (o' & Hl' & Hk' & Hs' & Hc').
    exists l, o', b.
    repeat split; [exact Hl' | congruence | congruence | auto].
Qed.

Lemma slot_ok_meta_le cfg h h' t a :
  meta_le h h' -> slot_ok cfg h t a -> slot_ok cfg h' t a.
Proof.
  intros Hle [->|H]; [left; reflexivity | right].
  eapply has_type_meta_le; eauto.
Qed.

Lemma obj_ok_meta_le cfg h h' o :
  meta_le h h' -> obj_ok cfg h o -> obj_ok cfg h' o.
Proof.
  intros Hle (tys & Htys & Hel).
  exists tys. split; [exact Htys |].
  destruct Hel as [Hel|Hel]; [left; exact Hel | right].
  eapply Forall2_impl; [exact Hel |].
  intros t a. apply slot_ok_meta_le, Hle.
Qed.

Lemma has_type_not_null cfg h t a : has_type cfg h t a -> a <> ast_null.
Proof.
  unfold has_type. destruct (classify t).
  - intros (s & Hs & _) ->. discriminate.
  - intros (l & o & -> & _). discriminate.
  - intros (l & o & b & -> & _). discriminate.
Qed.

(** ** Freshly built children *)

(** The child built for a field of type [t] under the name [nm]. *)
Definition fresh_child (cfg : configt) (h : list tuple_smt_ast)
  (t : type2t) (nm : string) (a : smt_astt) : Prop :=
  match classify t with
  | CPlain =>
      exists k : nat,
        a = ast_symbol (convert_sort_cfg cfg t) (nm +:+ pretty k)
  | CTuple =>
      exists l, a = ast_ref l
                /\ h !! l = Some (mk_tuple_smt_ast Tuple
                                    (convert_sort_cfg cfg t) nm [])
  | CTupleArray =>
      exists l o, a = ast_ref l /\ h !! l = Some o
                  /\ kind o = TupleArray true
                  /\ sort o = convert_sort_cfg cfg t /\ name o = nm
                  /\ clean o
  end.

Lemma classify_plain_array_sort cfg t :
  classify t = CPlain -> is_array_type t = true ->
  is_array_sort (convert_sort_cfg cfg t) = true.
Proof.
  unfold classify. destruct t; try discriminate. intros H _. simpl in *.
  destruct (is_tuple_ast_type t || is_tuple_array_ast_type t);
    [discriminate | reflexivity].
Qed.

Lemma fresh_child_has_type cfg h t nm a :
  fresh_child cfg h t nm a -> has_type cfg h t a.
Proof.
  unfold fresh_child, has_type. destruct (classify t) eqn:Hc.
  - intros (k & ->). eexists. split; [reflexivity |].
    apply classify_plain_array_sort, Hc.
  - intros (l & -> & Hl). eexists l, _.
    split; [reflexivity |]. split; [exact Hl |].
    split; [reflexivity |]. split; [reflexivity | constructor].
  - intros (l & o & -> & Hl & Hk & Hs & _ & Hcl). exists l, o, true. auto.
Qed.

Lemma fresh_child_app cfg h news t nm a :
  fresh_child cfg h t nm a -> fresh_child cfg (h ++ news) t nm a.
Proof.
  unfold fresh_child. destruct (classify t); [auto | |].
  - intros (l & -> & Hl). exists l.
    split; [reflexivity | apply lookup_app_l_Some, Hl].
  - intros (l & o & -> & Hl & H). exists l, o.
    split; [reflexivity | split; [apply lookup_app_l_Some, Hl | exact H]].
Qed.

(** What an operation leaves alone. *)
Definition frame (ctx ctx' : smt_convt) : Prop :=
  config ctx' = config ctx /\ assertions ctx' = assertions ctx
  /\ null_ptr_ast ctx' = null_ptr_ast ctx
  /\ invalid_ptr_ast ctx' = invalid_ptr_ast ctx.

Lemma frame_refl ctx : frame ctx ctx.
Proof. repeat split. Qed.

Lemma frame_trans c1 c2 c3 : frame c1 c2 -> frame c2 c3 -> frame c1 c3.
Proof.
  intros (A1 & A2 & A3 & A4) (B1 & B2 & B3 & B4).
  repeat split; congruence.
Qed.

(** The operation only appends well-formed objects to the store. *)
Definition allocates (ctx ctx' : smt_convt) : Prop :=
  frame ctx ctx'
  /\ exists news, store ctx' = store ctx ++ news
                  /\ Forall (obj_ok (config ctx) (store ctx')) news.

Lemma allocates_refl ctx : allocates ctx ctx.
Proof.
  split; [apply frame_refl |]. exists []. rewrite app_nil_r. auto.
Qed.

Lemma allocates_trans c1 c2 c3 :
  allocates c1 c2 -> allocates c2 c3 -> allocates c1 c3.
Proof.
  intros (F1 & n1 & S1 & O1) (F2 & n2 & S2 & O2).
  split; [eapply frame_trans; eauto |].
  exists (n1 ++ n2). split; [rewrite S2, S1, app_assoc; reflexivity |].
  apply Forall_app. split.
  - eapply Forall_impl; [exact O1 |]. intros o. rewrite S2.
    apply obj_ok_meta_le, meta_le_app.
  - destruct F1 as (<- & _). exact O2.
Qed.

Lemma allocates_bump ctx : allocates ctx (bump ctx).
Proof.
  split; [repeat split |]. exists []. simpl. rewrite app_nil_r. auto.
Qed.

Lemma append_dot_not_empty nm fld : String.eqb (nm +:+ "." +:+ fld) "" = false.
Proof. destruct nm; reflexivity. Qed.

Definition named_children (cfg : configt) (h : list tuple_smt_ast)
  (nm : string) (tys : list type2t) (flds : list string)
  (es : list smt_astt) : Prop :=
  Forall3 (fun t fld a => fresh_child cfg h t (nm +:+ "." +:+ fld) a)
          tys flds es.

Lemma named_children_app cfg h news nm tys flds es :
  named_children cfg h nm tys flds es ->
  named_children cfg (h ++ news) nm tys flds es.
Proof.
  unfold named_children. induction 1; constructor; auto.
  apply fresh_child_app. assumption.
Qed.

Lemma allocates_store_app c c' cfg nm tys flds es :
  allocates c c' -> named_children cfg (store c) nm tys flds es ->
  named_children cfg (store c') nm tys flds es.
Proof.
  intros (_ & news & -> & _). apply named_children_app.
Qed.

Lemma allocates_fresh_child c c' cfg t nm a :
  allocates c c' -> fresh_child cfg (store c) t nm a ->
  fresh_child cfg (store c') t nm a.
Proof. intros (_ & news & -> & _). apply fresh_child_app. Qed.

Lemma allocates_config c c' : allocates c c' -> config c' = config c.
Proof. intros ((H & _) & _). exact H. Qed.

Definition array_member_ok (it : type2t) : bool :=
  if is_tuple_ast_type it then true else negb (is_tuple_array_ast_type it).

Lemma array_fields_spec cfg rec sz inf nm ms :
  forall ns i ctx,
    config ctx = cfg ->
    (i + length ms <= length ns)%nat ->
    forallb array_member_ok ms = true ->
    Forall (fun it =>
              is_tuple_ast_type it = true ->
              forall fieldname c, config c = cfg ->
                wp (rec it fieldname) c
                   (fun a c' =>
                      allocates c c'
                      /\ fresh_child cfg (store c')
                           (field_array_type it sz inf) fieldname a)) ms ->
    wp (array_fields rec sz inf nm ms ns i) ctx
       (fun es ctx' =>
          allocates ctx ctx'
          /\ named_children cfg (store ctx') nm
               (map (fun it => field_array_type it sz inf) ms)
               (take (length ms) (drop i ns)) es).
Proof.
  induction ms as [|it ms IH]; intros ns i ctx Hcfg Hlen Hok Hrec; simpl.
  - apply wp_ret. split; [apply allocates_refl | constructor].
  - simpl in Hlen, Hok. apply andb_true_iff in Hok as [Hit Hok].
    apply Forall_cons in Hrec as [Hrec1 Hrec].
    destruct (lookup_lt_is_Some_2 ns i ltac:(lia)) as [fld Hfld].
    apply wp_bind. eapply wp_lift_option; [exact Hfld |].
    rewrite (drop_S _ _ _ Hfld). simpl.
    apply wp_bind.
    assert (Hchild :
      wp (if is_tuple_ast_type it then rec it (nm +:+ "." +:+ fld)
          else if is_tuple_array_ast_type it
          then raise (abort_called "tuple array nested inside a tuple array")
          else do newsort <- convert_sort (field_array_type it sz inf);
               mk_fresh newsort (nm +:+ "." +:+ fld)) ctx
         (fun a c' =>
            allocates ctx c'
            /\ fresh_child cfg (store c') (field_array_type it sz inf)
                 (nm +:+ "." +:+ fld) a)).
    { unfold array_member_ok in Hit.
      destruct (is_tuple_ast_type it) eqn:Ht; [apply Hrec1; auto |].
      destruct (is_tuple_array_ast_type it) eqn:Hta; [discriminate |].
      apply wp_bind, wp_convert_sort, wp_mk_fresh.
      split; [apply allocates_bump |].
      unfold fresh_child, classify, field_array_type. simpl.
      rewrite Ht, Hta. simpl. rewrite Hcfg. eexists. reflexivity. }
    eapply wp_mono; [exact Hchild |]. clear Hchild.
    intros child c1 (Hal1 & Hch).
    apply wp_bind.
    eapply wp_mono;
      [apply (IH ns (S i) c1);
       [rewrite (allocates_config _ _ Hal1); exact Hcfg | lia | exact Hok
       | exact Hrec] |].
    intros rest c2 (Hal2 & Hrest). apply wp_ret.
    split; [eapply allocates_trans; eauto |].
    constructor; [| exact Hrest].
    eapply allocates_fresh_child; eauto.
Qed.

Lemma named_children_has_type cfg h nm tys flds es :
  named_children cfg h nm tys flds es -> Forall2 (has_type cfg h) tys es.
Proof.
  unfold named_children. induction 1; constructor; auto.
  eapply fresh_child_has_type; eauto.
Qed.

Lemma Forall2_has_type_clean cfg h tys es o :
  Forall2 (has_type cfg h) tys es -> elements o = es -> clean o.
Proof.
  intros H <-. unfold clean.
  induction H; constructor; eauto using has_type_not_null.
Qed.

Lemma lookup_alloc_mid {A} (h : list A) (x : A) (news : list A) :
  ((h ++ [x]) ++ news) !! length h = Some x.
Proof.
  rewrite lookup_app_l by (rewrite length_app; simpl; lia).
  rewrite lookup_app_r by lia. rewrite Nat.sub_diag. reflexivity.
Qed.

Lemma insert_alloc_mid {A} (h : list A) (x y : A) (news : list A) :
  <[length h := y]> ((h ++ [x]) ++ news) = (h ++ [y]) ++ news.
Proof.
  rewrite insert_app_l by (rewrite length_app; simpl; lia).
  rewrite insert_app_r_alt by lia. rewrite Nat.sub_diag. reflexivity.
Qed.

(** The body shared by the cases of [array_object]. *)
Lemma array_body_spec cfg s sub rec sz inf nm ms ns ctx :
  config ctx = cfg ->
  thetype s = Some (array_type2t sub sz inf) ->
  type_def cfg sub = Some (mk_struct_union_data ms ns) ->
  (length ms <= length ns)%nat ->
  forallb array_member_ok ms = true ->
  Forall (fun it =>
            is_tuple_ast_type it = true ->
            forall fieldname c, config c = cfg ->
              wp (rec it fieldname) c
                 (fun a c' =>
                    allocates c c'
                    /\ fresh_child cfg (store c')
                         (field_array_type it sz inf) fieldname a)) ms ->
  wp (do l <- alloc (mk_tuple_smt_ast (TupleArray true) s nm []);
      do es <- array_fields rec sz inf nm ms ns 0;
      do_ set_elements l es;
      ret (ast_ref l)) ctx
     (fun a ctx' =>
        allocates ctx ctx'
        /\ exists es,
            a = ast_ref (length (store ctx))
            /\ store ctx' !! length (store ctx)
               = Some (mk_tuple_smt_ast (TupleArray true) s nm es)
            /\ named_children cfg (store ctx') nm
                 (map (fun it => field_array_type it sz inf) ms)
                 (take (length ms) ns) es).
Proof.
  intros Hcfg Hs Hdef Hlen Hok Hrec.
  apply wp_bind, wp_alloc. apply wp_bind.
  eapply wp_mono;
    [apply (array_fields_spec cfg rec sz inf nm ms ns 0);
     [exact Hcfg | simpl; lia | exact Hok | exact Hrec] |].
  intros es c2 ((Hfr & news & Hst & Hnews) & Hch). simpl in Hst, Hnews, Hfr.
  set (o0 := mk_tuple_smt_ast (TupleArray true) s nm []) in *.
  apply wp_bind.
  eapply wp_set_elements; [rewrite Hst; apply lookup_alloc_mid |].
  apply wp_ret.
  set (o1 := with_elements o0 es).
  assert (Hle : meta_le (store c2) (<[length (store ctx) := o1]> (store c2))).
  { eapply meta_le_insert;
      [rewrite Hst; apply lookup_alloc_mid | reflexivity | reflexivity |].
    intros _. eapply Forall2_has_type_clean;
      [eapply named_children_has_type; exact Hch | reflexivity]. }
  assert (Hch' : named_children cfg (<[length (store ctx) := o1]> (store c2))
                   nm (map (fun it => field_array_type it sz inf) ms)
                   (take (length ms) ns) es).
  { unfold named_children in *. rewrite drop_0 in Hch.
    eapply Forall3_impl; [exact Hch |]. intros t fld a.
    unfold fresh_child. destruct (classify t); [auto | |].
    - intros (l & -> & Hl). exists l. split; [reflexivity |].
      destruct (decide (l = length (store ctx))) as [->|Hne].
      + rewrite Hst, lookup_alloc_mid in Hl. discriminate.
      + rewrite list_lookup_insert_ne by congruence. exact Hl.
    - intros (l & o & -> & Hl & Hk & Hso & Hn & Hcl).
      destruct (decide (l = length (store ctx))) as [->|Hne].
      + rewrite Hst, lookup_alloc_mid in Hl. injection Hl as <-.
        exists (length (store ctx)), o1.
        split; [reflexivity |].
        split; [apply list_lookup_insert_eq; rewrite Hst, !length_app;
                simpl; lia |].
        split; [exact Hk |]. split; [exact Hso |]. split; [exact Hn |].
        eapply Forall2_has_type_clean;
          [eapply named_children_has_type; exact Hch | reflexivity].
      + exists l, o. rewrite list_lookup_insert_ne by congruence.
        repeat split; assumption. }
  split; [split |].
  - destruct Hfr as (A1 & A2 & A3 & A4). repeat split; simpl; assumption.
  - exists (o1 :: news). simpl.
    split; [rewrite Hst, insert_alloc_mid, <- app_assoc; reflexivity |].
    constructor.
    + exists (map (fun it => field_array_type it sz inf) ms).
      split; [unfold child_types; simpl; rewrite Hs, Hcfg, Hdef; reflexivity |].
      right. simpl. eapply Forall2_impl;
        [eapply named_children_has_type; exact Hch' |].
      intros t a H. right. rewrite Hcfg. exact H.
    + eapply Forall_impl; [exact Hnews |]. intros o.
      apply obj_ok_meta_le, Hle.
  - exists es. split; [reflexivity |]. simpl.
    split; [| exact Hch'].
    apply list_lookup_insert_eq. rewrite Hst, !length_app. simpl. lia.
Qed.

Lemma forallb_array_member_ok ms :
  forallb (fun it => if is_tuple_ast_type it then elem_supported it
                     else negb (is_tuple_array_ast_type it)) ms = true ->
  forallb array_member_ok ms = true.
Proof.
  induction ms as [|it ms IH]; simpl; [reflexivity |].
  intros H. apply andb_true_iff in H as [H1 H2].
  rewrite (IH H2), andb_true_r. unfold array_member_ok.
  destruct (is_tuple_ast_type it); [reflexivity | exact H1].
Qed.

(** What [array_object] returns: a populated TupleArray object at the
    next free address. *)
Definition array_result (cfg : configt) (ctx ctx' : smt_convt)
  (s : smt_sort) (sub : type2t) (sz : array_size_expr) (inf : bool)
  (nm : string) (a : smt_astt) : Prop :=
  allocates ctx ctx'
  /\ exists data es,
      type_def cfg sub = Some data
      /\ a = ast_ref (length (store ctx))
      /\ store ctx' !! length (store ctx)
         = Some (mk_tuple_smt_ast (TupleArray true) s nm es)
      /\ named_children cfg (store ctx') nm
           (map (fun it => field_array_type it sz inf) (members data))
           (take (length (members data)) (member_names data)) es.

Lemma array_result_fresh_child cfg ctx ctx' sub sz inf nm a :
  is_tuple_ast_type sub = true ->
  array_result cfg ctx ctx'
    (convert_sort_cfg cfg (array_type2t sub sz inf)) sub sz inf nm a ->
  fresh_child cfg (store ctx') (array_type2t sub sz inf) nm a.
Proof.
  intros Hsub (_ & data & es & _ & -> & Hl & Hch).
  unfold fresh_child.
  replace (classify (array_type2t sub sz inf)) with CTupleArray
    by (unfold classify; simpl; rewrite Hsub; reflexivity).
  eexists _, _. split; [reflexivity |]. split; [exact Hl |].
  split; [reflexivity |]. split; [reflexivity |]. split; [reflexivity |].
  eapply Forall2_has_type_clean;
    [eapply named_children_has_type; exact Hch | reflexivity].
Qed.

Lemma elem_supported_is_tuple sub :
  elem_supported sub = true -> is_tuple_ast_type sub = true.
Proof. destruct sub; simpl; intros H; try discriminate; reflexivity. Qed.

Lemma array_object_spec sub :
  elem_supported sub = true ->
  forall s sz inf nm ctx,
    thetype s = Some (array_type2t sub sz inf) ->
    wp (array_object (config ctx) s sub sz inf nm) ctx
       (fun a ctx' => array_result (config ctx) ctx ctx' s sub sz inf nm a).
Proof.
  induction sub as [| |w|w|sub' _|sub' sz' inf' _|ms ns n IH|ms ns n IH]
    using type2t_members_ind;
    intros Hsup s sz inf nm ctx Hs; try discriminate.
  - (* pointer *)
    cbn -[array_fields pointer_type_data].
    eapply wp_mono;
      [eapply (array_body_spec (config ctx) s (pointer_type2t sub') _ _ _ _
                 (members (pointer_type_data (config ctx)))
                 (member_names (pointer_type_data (config ctx))));
       [reflexivity | exact Hs | reflexivity | simpl; lia | reflexivity |] |].
    + repeat constructor; discriminate.
    + intros a c' (Hal & es & Ha & Hl & Hch). split; [exact Hal |].
      eexists _, es. split; [reflexivity |]. auto.
  - (* struct *)
    simpl in Hsup. apply andb_true_iff in Hsup as [Hlen Hms].
    apply Nat.leb_le in Hlen. simpl.
    eapply wp_mono;
      [eapply (array_body_spec (config ctx) s (struct_type2t ms ns n));
       [reflexivity | exact Hs | reflexivity | exact Hlen
       | apply forallb_array_member_ok, Hms |] |].
    + rewrite forallb_forall in Hms. rewrite Forall_forall in IH |- *.
      intros it Hin Ht fieldname c Hc.
      apply list_elem_of_In in Hin as Hin'. specialize (Hms it Hin').
      rewrite Ht in Hms.
      eapply wp_mono; [rewrite <- Hc; apply (IH it Hin Hms) |].
      * unfold convert_sort_cfg, field_array_type. simpl.
        rewrite Ht. reflexivity.
      * intros a c' Hres. split; [apply Hres |].
        rewrite Hc in Hres.
        eapply array_result_fresh_child; [exact Ht | exact Hres].
    + intros a c' (Hal & es & Ha & Hl & Hch). split; [exact Hal |].
      eexists _, es. split; [reflexivity |]. auto.
  - (* union *)
    simpl in Hsup. apply andb_true_iff in Hsup as [Hlen Hms].
    apply Nat.leb_le in Hlen. simpl.
    eapply wp_mono;
      [eapply (array_body_spec (config ctx) s (union_type2t ms ns n));
       [reflexivity | exact Hs | reflexivity | exact Hlen
       | apply forallb_array_member_ok, Hms |] |].
    + rewrite forallb_forall in Hms. rewrite Forall_forall in IH |- *.
      intros it Hin Ht fieldname c Hc.
      apply list_elem_of_In in Hin as Hin'. specialize (Hms it Hin').
      rewrite Ht in Hms.
      eapply wp_mono; [rewrite <- Hc; apply (IH it Hin Hms) |].
      * unfold convert_sort_cfg, field_array_type. simpl.
        rewrite Ht. reflexivity.
      * intros a c' Hres. split; [apply Hres |].
        rewrite Hc in Hres.
        eapply array_result_fresh_child; [exact Ht | exact Hres].
    + intros a c' (Hal & es & Ha & Hl & Hch). split; [exact Hal |].
      eexists _, es. split; [reflexivity |]. auto.
Qed.

Lemma tuple_sort_not_array cfg it :
  is_tuple_ast_type it = true ->
  is_array_sort (convert_sort_cfg cfg it) = false.
Proof. destruct it; simpl; intros H; try discriminate; reflexivity. Qed.

Lemma new_array_smt_ast_spec sub sz inf nm ctx :
  elem_supported sub = true ->
  wp (new_array_smt_ast
        (convert_sort_cfg (config ctx) (array_type2t sub sz inf)) nm) ctx
     (fun a ctx' =>
        array_result (config ctx) ctx ctx'
          (convert_sort_cfg (config ctx) (array_type2t sub sz inf))
          sub sz inf nm a).
Proof.
  intros Hsup. pose proof (elem_supported_is_tuple _ Hsup) as Ht.
  assert (Hs : thetype (convert_sort_cfg (config ctx)
                          (array_type2t sub sz inf))
               = Some (array_type2t sub sz inf)).
  { simpl. rewrite Ht. reflexivity. }
  unfold new_array_smt_ast. apply wp_bind, wp_get_ctx. apply wp_bind.
  eapply wp_to_tuple_sort; [exact Hs |].
  apply array_object_spec; assumption.
Qed.

(** The child [make_free] builds for a member. *)
Definition make_child (it : type2t) (newsort : smt_sort)
  (fieldname : string) : M smt_astt :=
  if is_tuple_ast_type it then tuple_fresh newsort fieldname
  else if is_tuple_array_ast_type it
  then new_array_smt_ast newsort fieldname
  else mk_fresh newsort fieldname.

Lemma make_child_spec it nm fld ctx :
  member_constructible it = true ->
  wp (make_child it (convert_sort_cfg (config ctx) it) (nm +:+ "." +:+ fld))
     ctx
     (fun a c' =>
        allocates ctx c'
        /\ fresh_child (config ctx) (store c') it (nm +:+ "." +:+ fld) a
        /\ forall l, a = ast_ref l -> (length (store ctx) <= l)%nat).
Proof.
  intros Hmc. unfold make_child.
  destruct (is_tuple_ast_type it) eqn:Ht.
  - unfold tuple_fresh. rewrite append_dot_not_empty.
    apply wp_bind, wp_ret. apply wp_bind, wp_ret.
    pose proof (tuple_sort_not_array (config ctx) it Ht) as Hna.
    unfold is_array_sort in Hna.
    assert (Hnew : wp (new_tuple_smt_ast (convert_sort_cfg (config ctx) it)
                         (nm +:+ "." +:+ fld)) ctx
                     (fun a c' =>
                        allocates ctx c'
                        /\ fresh_child (config ctx) (store c') it
                             (nm +:+ "." +:+ fld) a
                        /\ forall l, a = ast_ref l ->
                                     (length (store ctx) <= l)%nat)).
    { apply wp_new_tuple_smt_ast. split; [split; [repeat split |] |].
      - eexists [_]. split; [reflexivity |]. constructor; [| constructor].
        unfold obj_ok, child_types. simpl.
        destruct it; try discriminate; simpl; eexists;
          (split; [reflexivity | left; split; reflexivity]).
      - split.
        + unfold fresh_child, classify. rewrite Ht.
          exists (length (store ctx)). split; [reflexivity |]. simpl.
          rewrite lookup_app_r by lia. rewrite Nat.sub_diag. reflexivity.
        + intros l [= <-]. lia. }
    destruct (id (convert_sort_cfg (config ctx) it));
      try exact Hnew; discriminate.
  - destruct (is_tuple_array_ast_type it) eqn:Hta.
    + destruct it; try discriminate.
      unfold member_constructible in Hmc. rewrite Hta in Hmc.
      eapply wp_mono; [apply new_array_smt_ast_spec; exact Hmc |].
      intros a c' Hres. split; [apply Hres |]. split.
      * eapply array_result_fresh_child;
          [apply elem_supported_is_tuple; exact Hmc | exact Hres].
      * destruct Hres as (_ & data & es & _ & -> & _). intros l [= <-]. lia.
    + apply wp_mk_fresh. split; [apply allocates_bump |]. split.
      * unfold fresh_child, classify. rewrite Ht, Hta. eexists. reflexivity.
      * discriminate.
Qed.

Lemma with_elements_twice o es es' :
  with_elements (with_elements o es) es' = with_elements o es'.
Proof. reflexivity. Qed.

Lemma fresh_child_insert_below cfg h news l o' t nm a :
  (l < length h)%nat ->
  (forall k, a = ast_ref k -> (length h <= k)%nat) ->
  fresh_child cfg (h ++ news) t nm a ->
  fresh_child cfg (<[l := o']> h ++ news) t nm a.
Proof.
  intros Hl Hge. unfold fresh_child. destruct (classify t); [auto | |].
  - intros (k & -> & Hk). exists k. split; [reflexivity |].
    specialize (Hge k eq_refl).
    rewrite lookup_app_r in Hk |- * by (rewrite ?length_insert; lia).
    rewrite length_insert. exact Hk.
  - intros (k & o & -> & Hk & H). exists k, o. split; [reflexivity |].
    specialize (Hge k eq_refl). split; [| exact H].
    rewrite lookup_app_r in Hk |- * by (rewrite ?length_insert; lia).
    rewrite length_insert. exact Hk.
Qed.

Lemma make_free_loop_spec cfg l nm ms :
  forall ns i ctx obj done,
    config ctx = cfg ->
    store ctx !! l = Some obj ->
    elements obj = done ++ replicate (length ms) ast_null ->
    length done = i ->
    (i + length ms <= length ns)%nat ->
    forallb member_constructible ms = true ->
    wp (make_free_loop l nm ms ns i) ctx
       (fun _ ctx' =>
          exists es news,
            frame ctx ctx'
            /\ store ctx'
               = <[l := with_elements obj (done ++ es)]> (store ctx) ++ news
            /\ Forall (obj_ok cfg (store ctx')) news
            /\ named_children cfg (store ctx') nm ms
                 (take (length ms) (drop i ns)) es
            /\ Forall (fun a => forall k, a = ast_ref k ->
                                          (length (store ctx) <= k)%nat) es).
Proof.
  induction ms as [|it ms IH];
    intros ns i ctx obj done Hcfg Hl Hel Hi Hlen Hmc; simpl.
  - apply wp_ret. exists [], []. rewrite !app_nil_r.
    split; [apply frame_refl |]. split.
    + simpl in Hel. rewrite app_nil_r in Hel. rewrite <- Hel.
      replace (with_elements obj (elements obj)) with obj
        by (destruct obj; reflexivity).
      symmetry. apply list_insert_id. exact Hl.
    + repeat constructor.
  - simpl in Hlen, Hmc, Hel. apply andb_true_iff in Hmc as [Hit Hmc].
    destruct (lookup_lt_is_Some_2 ns i ltac:(lia)) as [fld Hfld].
    apply wp_bind, wp_convert_sort. apply wp_bind.
    eapply wp_lift_option; [exact Hfld |].
    rewrite (drop_S _ _ _ Hfld). simpl. apply wp_bind.
    eapply wp_mono; [apply (make_child_spec it nm fld ctx Hit) |].
    intros child c1 ((Hfr1 & news1 & Hst1 & Hok1) & Hch & Hge).
    rewrite Hcfg in Hch, Hok1.
    assert (Hl1 : store c1 !! l = Some obj)
      by (rewrite Hst1; apply lookup_app_l_Some, Hl).
    apply wp_bind.
    eapply wp_set_element;
      [exact Hl1 | rewrite Hel, length_app; simpl; lia |].
    set (obj' := with_elements obj (<[i := child]> (elements obj))).
    assert (Hel' : elements obj'
                   = (done ++ [child]) ++ replicate (length ms) ast_null).
    { unfold obj'. simpl. rewrite Hel, <- Hi.
      rewrite insert_app_r_alt by lia. rewrite Nat.sub_diag. simpl.
      rewrite <- app_assoc. reflexivity. }
    set (c2 := set_store (<[l := obj']> (store c1)) c1).
    pose proof (lookup_lt_Some _ _ _ Hl) as Hlt.
    assert (Hl2 : store c2 !! l = Some obj').
    { simpl. apply list_lookup_insert_eq. rewrite Hst1, length_app. lia. }
    eapply wp_mono;
      [apply (IH ns (S i) c2 obj' (done ++ [child]));
       [unfold c2; simpl; destruct Hfr1 as (-> & _); exact Hcfg
       | exact Hl2 | exact Hel'
       | rewrite length_app; simpl; lia | lia | exact Hmc] |].
    intros [] c3 (es & news2 & Hfr2 & Hst3 & Hok2 & Hch2 & Hge2).
    exists (child :: es), (news1 ++ news2).
    assert (Hst3' : store c3
              = <[l := with_elements obj (done ++ child :: es)]> (store ctx)
                ++ news1 ++ news2).
    { rewrite Hst3. simpl. rewrite list_insert_insert_eq.
      rewrite Hst1. rewrite insert_app_l by lia.
      unfold obj'. rewrite with_elements_twice, <- !app_assoc.
      reflexivity. }
    split; [eapply frame_trans; [exact Hfr1 | exact Hfr2] |].
    split; [exact Hst3' |]. split; [| split].
    + apply Forall_app. split; [| exact Hok2].
      eapply Forall_impl; [exact Hok1 |]. intros o.
      apply obj_ok_meta_le. rewrite Hst3.
      eapply meta_le_trans; [| apply meta_le_app].
      unfold c2. simpl. rewrite list_insert_insert_eq.
      eapply meta_le_insert;
        [exact Hl1 | reflexivity | reflexivity |].
      intros Hcl. exfalso. unfold clean in Hcl. rewrite Hel in Hcl.
      apply Forall_app in Hcl as [_ Hcl]. simpl in Hcl.
      apply Forall_cons in Hcl as [Hcl _]. apply Hcl. reflexivity.
    + constructor.
      * rewrite Hst3', app_assoc. apply fresh_child_app.
        apply fresh_child_insert_below; [exact Hlt | exact Hge |].
        rewrite <- Hst1. exact Hch.
      * exact Hch2.
    + constructor; [exact Hge |].
      eapply Forall_impl; [exact Hge2 |]. simpl. intros a H k Hk.
      specialize (H k Hk). rewrite length_insert, Hst1, length_app in H. lia.
Qed.

(** ** Materialisation *)

Lemma set_store_same ctx : set_store (store ctx) ctx = ctx.
Proof. destruct ctx; reflexivity. Qed.

Lemma with_elements_same o : with_elements o (elements o) = o.
Proof. destruct o; reflexivity. Qed.

Lemma make_free_populated ctx l o :
  store ctx !! l = Some o -> elements o <> [] ->
  make_free l ctx = Ok tt ctx.
Proof.
  intros Hl Hne. unfold make_free, bind. rewrite (deref_ok _ _ _ Hl).
  destruct (elements o); [congruence | reflexivity].
Qed.

Lemma make_free_no_members ctx l o ty data :
  store ctx !! l = Some o -> elements o = [] ->
  thetype (sort o) = Some ty -> type_def (config ctx) ty = Some data ->
  members data = [] ->
  make_free l ctx = Ok tt ctx.
Proof.
  intros Hl He Hty Hd Hm. unfold make_free, bind.
  rewrite (deref_ok _ _ _ Hl), He. simpl.
  unfold to_tuple_sort. rewrite Hty. simpl.
  unfold get_type_def, bind. simpl. rewrite Hd. simpl.
  unfold resize_elements, set_elements, bind.
  rewrite (deref_ok _ _ _ Hl), Hm, He. simpl.
  rewrite (deref_ok _ _ _ Hl). rewrite <- He at 1.
  rewrite with_elements_same, list_insert_id by exact Hl.
  rewrite set_store_same. reflexivity.
Qed.

Lemma make_free_free_spec ctx l o ty data :
  store ctx !! l = Some o -> elements o = [] ->
  thetype (sort o) = Some ty -> type_def (config ctx) ty = Some data ->
  members_constructible data = true ->
  wp (make_free l) ctx
     (fun _ ctx' =>
        exists es news,
          frame ctx ctx'
          /\ store ctx' = <[l := with_elements o es]> (store ctx) ++ news
          /\ Forall (obj_ok (config ctx) (store ctx')) news
          /\ named_children (config ctx) (store ctx') (name o)
               (members data)
               (take (length (members data)) (member_names data)) es
          /\ Forall (fun a => forall k, a = ast_ref k ->
                                        (length (store ctx) <= k)%nat) es).
Proof.
  intros Hl He Hty Hd Hmc.
  unfold members_constructible in Hmc.
  apply andb_true_iff in Hmc as [Hlen Hmc]. apply Nat.leb_le in Hlen.
  unfold make_free. apply wp_bind. eapply wp_deref; [exact Hl |].
  rewrite He. simpl. apply wp_bind.
  eapply wp_to_tuple_sort; [exact Hty |]. apply wp_bind.
  eapply wp_get_type_def; [exact Hd |]. apply wp_bind.
  eapply wp_resize_elements; [exact Hl |].
  rewrite He, take_nil. simpl. rewrite Nat.sub_0_r.
  set (obj := with_elements o (replicate (length (members data)) ast_null)).
  pose proof (lookup_lt_Some _ _ _ Hl) as Hlt.
  eapply wp_mono;
    [apply (make_free_loop_spec (config ctx) l (name o) (members data)
              (member_names data) 0 _ obj []);
     [reflexivity | simpl; apply list_lookup_insert_eq; exact Hlt
     | reflexivity | reflexivity | simpl; lia | exact Hmc] |].
  intros [] c' (es & news & Hfr & Hst & Hok & Hch & Hge).
  exists es, news. simpl in Hst, Hge. rewrite list_insert_insert_eq in Hst.
  rewrite drop_0 in Hch. split; [exact Hfr |]. split; [exact Hst |].
  split; [exact Hok |]. split; [exact Hch |].
  eapply Forall_impl; [exact Hge |]. simpl. intros a H k Hk.
  specialize (H k Hk). rewrite length_insert in H. exact H.
Qed.

Lemma named_children_length cfg h nm tys flds es :
  named_children cfg h nm tys flds es -> length es = length tys.
Proof. intros H. symmetry. eapply Forall3_length_lr, H. Qed.

Lemma tuple_project_run ctx ctx1 l o ty data i a :
  store ctx !! l = Some o -> kind o = Tuple ->
  thetype (sort o) = Some ty -> type_def (config ctx) ty = Some data ->
  make_free l ctx = Ok tt ctx1 ->
  (i < length (members data))%nat ->
  get_element l i ctx1 = Ok a ctx1 ->
  project (ast_ref l) i ctx = Ok a ctx1.
Proof.
  intros Hl Hk Hty Hd Hmf Hi Hget. simpl. unfold bind at 1.
  rewrite (deref_ok _ _ _ Hl), Hk. unfold tuple_project, bind.
  rewrite (deref_ok _ _ _ Hl). unfold to_tuple_sort. rewrite Hty. simpl.
  unfold get_type_def, bind. simpl. rewrite Hd. simpl. rewrite Hmf.
  rewrite bool_decide_eq_true_2 by exact Hi. simpl. exact Hget.
Qed.

Lemma get_element_run ctx l o i a :
  store ctx !! l = Some o -> elements o !! i = Some a ->
  get_element l i ctx = Ok a ctx.
Proof.
  intros Hl Hi. unfold get_element, bind.
  rewrite (deref_ok _ _ _ Hl), Hi. reflexivity.
Qed.

Lemma tuple_assign_run ctx c1 l lo o src0 src1 :
  store ctx !! lo = Some src0 ->
  make_free lo ctx = Ok tt c1 ->
  store c1 !! l = Some o -> elements o = [] ->
  store c1 !! lo = Some src1 ->
  tuple_assign l (ast_ref lo) ctx
  = Ok tt (set_store (<[l := with_elements o (elements src1)]> (store c1)) c1).
Proof.
  intros Hlo Hmf Hl He Hlo1. unfold tuple_assign, to_tuple_ast, bind.
  rewrite (deref_ok _ _ _ Hlo). simpl. rewrite Hmf.
  rewrite (deref_ok _ _ _ Hl), He. simpl.
  rewrite (deref_ok _ _ _ Hlo1). unfold set_elements, bind.
  rewrite (deref_ok _ _ _ Hl). reflexivity.
Qed.

(** C7. A populated Tuple term is left as it is by [make_free], and an
    assignment from it hands its children on without touching it.  On a
    free one, [make_free] builds exactly one child per field, each named
    from the term's name, a dot and the field name; the first projection
    of a field, and the first assignment from the term, run that
    materialisation: the projection returns the field's child and the
    assignment gives the destination the same children.  Every later
    projection returns the same child and changes nothing, a later
    assignment from the term hands on the same children, and a second
    [make_free] changes nothing. *)
Theorem materialisation_is_idempotent :
  forall (ctx : smt_convt) (l : nat) (o : tuple_smt_ast),
    store ctx !! l = Some o -> kind o = Tuple ->
    (elements o <> [] ->
     make_free l ctx = Ok tt ctx
     /\ forall d od,
          store ctx !! d = Some od -> elements od = [] ->
          tuple_assign d (ast_ref l) ctx
          = Ok tt (set_store (<[d := with_elements od (elements o)]>
                                (store ctx)) ctx))
    /\ (elements o = [] ->
        forall ty data,
          thetype (sort o) = Some ty ->
          type_def (config ctx) ty = Some data ->
          members_constructible data = true ->
          exists ctx1 es,
            make_free l ctx = Ok tt ctx1
            /\ store ctx1 !! l = Some (with_elements o es)
            /\ named_children (config ctx) (store ctx1) (name o)
                 (members data)
                 (take (length (members data)) (member_names data)) es
            /\ (forall i, (i < length (members data))%nat ->
                  exists a, es !! i = Some a
                            /\ project (ast_ref l) i ctx = Ok a ctx1
                            /\ project (ast_ref l) i ctx1 = Ok a ctx1)
            /\ make_free l ctx1 = Ok tt ctx1
            /\ (forall d od,
                  d <> l -> store ctx !! d = Some od -> elements od = [] ->
                  store ctx1 !! d = Some od
                  /\ tuple_assign d (ast_ref l) ctx
                     = Ok tt (set_store (<[d := with_elements od es]>
                                           (store ctx1)) ctx1)
                  /\ tuple_assign d (ast_ref l) ctx1
                     = Ok tt (set_store (<[d := with_elements od es]>
                                           (store ctx1)) ctx1))).
Proof.
  intros ctx l o Hl Hk. split.
  { intros Hne.
    pose proof (make_free_populated _ _ _ Hl Hne) as Hmf.
    split; [exact Hmf |]. intros d od Hd Hde.
    exact (tuple_assign_run _ _ _ _ _ _ _ Hl Hmf Hd Hde Hl). }
  intros He ty data Hty Hd Hmc.
  pose proof (make_free_free_spec ctx l o ty data Hl He Hty Hd Hmc) as Hwp.
  apply wp_ok in Hwp
    as ([] & ctx1 & Hrun & es & news & Hfr & Hst & Hok & Hch & Hge).
  pose proof (lookup_lt_Some _ _ _ Hl) as Hlt.
  assert (Hl1 : store ctx1 !! l = Some (with_elements o es)).
  { rewrite Hst. apply lookup_app_l_Some, list_lookup_insert_eq, Hlt. }
  assert (Hcfg : config ctx1 = config ctx) by apply Hfr.
  assert (Hagain : make_free l ctx1 = Ok tt ctx1).
  { destruct es as [|e es'] eqn:Hes.
    - apply named_children_length in Hch. simpl in Hch.
      eapply make_free_no_members;
        [exact Hl1 | reflexivity | exact Hty | rewrite Hcfg; exact Hd |].
      destruct (members data); [reflexivity | discriminate].
    - eapply make_free_populated; [exact Hl1 | discriminate]. }
  exists ctx1, es. split; [exact Hrun |]. split; [exact Hl1 |].
  split; [exact Hch |]. split; [| split; [exact Hagain |]].
  - intros i Hi. pose proof (named_children_length _ _ _ _ _ _ Hch) as Hlen.
    destruct (lookup_lt_is_Some_2 es i ltac:(lia)) as [a Ha].
    exists a. split; [exact Ha |].
    assert (Hget : get_element l i ctx1 = Ok a ctx1)
      by (eapply get_element_run; [exact Hl1 | exact Ha]).
    split.
    + eapply tuple_project_run; eauto.
    + eapply tuple_project_run;
        [exact Hl1 | exact Hk | exact Hty | rewrite Hcfg; exact Hd
        | exact Hagain | exact Hi | exact Hget].
  - intros d od Hdl Hdd Hde.
    assert (Hd1 : store ctx1 !! d = Some od).
    { rewrite Hst. apply lookup_app_l_Some.
      rewrite list_lookup_insert_ne by congruence. exact Hdd. }
    split; [exact Hd1 |]. split.
    + exact (tuple_assign_run _ _ _ _ _ _ _ Hl Hrun Hd1 Hde Hl1).
    + exact (tuple_assign_run _ _ _ _ _ _ _ Hl1 Hagain Hd1 Hde Hl1).
Qed.

(** A free Tuple [t.] next to a free Tuple [d.] of the example
    record. *)
Definition source_and_target_ctx : smt_convt :=
  mk_smt_convt example_config
    [mk_tuple_smt_ast Tuple (convert_sort_cfg example_config example_struct)
       "t." [];
     mk_tuple_smt_ast Tuple (convert_sort_cfg example_config example_struct)
       "d." []] 0 [] ast_null ast_null.

Lemma materialisation_is_idempotent_witness :
  (exists ctx1 (es : list smt_astt) a,
      make_free 0 example_tuple_ctx = Ok tt ctx1
      /\ length es = 2%nat
      /\ es !! 1%nat = Some a
      /\ project (ast_ref 0) 1 example_tuple_ctx = Ok a ctx1
      /\ project (ast_ref 0) 1 ctx1 = Ok a ctx1
      /\ make_free 0 ctx1 = Ok tt ctx1)
  /\ (exists ctx1 ctx2 (es : list smt_astt),
         make_free 0 source_and_target_ctx = Ok tt ctx1
         /\ tuple_assign 1 (ast_ref 0) source_and_target_ctx = Ok tt ctx2
         /\ tuple_assign 1 (ast_ref 0) ctx1 = Ok tt ctx2
         /\ length es = 2%nat
         /\ (elements <$> store ctx2 !! 0%nat) = Some es
         /\ (elements <$> store ctx2 !! 1%nat) = Some es).
Proof.
  split.
  - destruct (materialisation_is_idempotent example_tuple_ctx 0 _
                eq_refl eq_refl) as [_ H].
    destruct (H eq_refl example_struct
                (mk_struct_union_data [bv8; bool_type2t] ["a"; "b"])
                eq_refl eq_refl eq_refl)
      as (ctx1 & es & Hrun & Hl1 & Hch & Hproj & Hagain & _).
    destruct (Hproj 1%nat ltac:(simpl; lia)) as (a & Ha & Hp1 & Hp2).
    exists ctx1, es, a. split; [exact Hrun |].
    split; [exact (named_children_length _ _ _ _ _ _ Hch) |]. auto.
  - destruct (materialisation_is_idempotent source_and_target_ctx 0 _
                eq_refl eq_refl) as [_ H].
    destruct (H eq_refl example_struct
                (mk_struct_union_data [bv8; bool_type2t] ["a"; "b"])
                eq_refl eq_refl eq_refl)
      as (ctx1 & es & Hrun & Hl1 & Hch & _ & _ & Hassign).
    destruct (Hassign 1%nat _ ltac:(lia) eq_refl eq_refl)
      as (Hd1 & Ha & Ha').
    eexists ctx1, _, es. split; [exact Hrun |]. split; [exact Ha |].
    split; [exact Ha' |].
    split; [exact (named_children_length _ _ _ _ _ _ Hch) |].
    cbn [store set_store].
    rewrite list_lookup_insert_ne by lia. rewrite Hl1.
    rewrite list_lookup_insert_eq by (eapply lookup_lt_Some; exact Hd1).
    split; reflexivity.
Defined.

(** ** Pointers *)

Definition example_model : model := fun _ _ => VBV 0.

Lemma type_eqb_pointer_struct cfg :
  type_eqb (pointer_struct cfg) (pointer_struct cfg) = true.
Proof. simpl. rewrite N.eqb_refl. reflexivity. Qed.

Lemma wp_run {A} (m : M A) ctx (x : A) ctx' :
  wp m ctx (fun a c => a = x /\ c = ctx') -> m ctx = Ok x ctx'.
Proof.
  unfold wp. destruct (m ctx) as [a c| |]; [| tauto | tauto].
  intros [-> ->]. reflexivity.
Qed.

(** Only plain terms have a value. *)
Lemma eval_plain_sort m a v :
  eval m a = Some v -> exists s, plain_sort a = Some s.
Proof. destruct a; simpl; try discriminate; eauto. Qed.

Lemma get_bv_value m t a v :
  eval m a = Some (VBV v) ->
  exists w, get_bv m t a = constant_int2t (unsignedbv_type2t w) (v mod 2 ^ 64).
Proof.
  intros H. destruct (eval_plain_sort _ _ _ H) as [s Hs].
  unfold get_bv. rewrite H, Hs. eauto.
Qed.

(** Decoding a populated tuple of the canonical pointer shape. *)
Lemma tuple_get_rec_pointer ctx l o e0 e1 m v0 v1 fuel :
  store ctx !! l = Some o ->
  thetype (sort o) = Some (pointer_struct (config ctx)) ->
  elements o = [e0; e1] ->
  eval m e0 = Some (VBV v0) -> eval m e1 = Some (VBV v1) ->
  tuple_get_rec (S fuel) m l ctx
  = Ok (pointer_expr (config ctx) (v0 mod 2 ^ 64) (v1 mod 2 ^ 64)
          (pointer_type2t empty_type2t)) ctx.
Proof.
  intros Hl Hty Hel H0 H1. apply wp_run.
  cbn [tuple_get_rec]. apply wp_bind, wp_get_ctx. apply wp_bind.
  eapply wp_deref; [exact Hl |]. apply wp_bind.
  eapply wp_to_tuple_sort; [exact Hty |]. apply wp_bind.
  eapply wp_get_type_def; [reflexivity |]. rewrite Hel.
  cbn [length Nat.eqb members tuple_get_loop is_tuple_ast_type
       is_structure_type is_pointer_type orb is_tuple_array_ast_type
       is_number_type].
  apply wp_bind. apply wp_bind. apply wp_bind.
  eapply wp_get_element; [exact Hl | rewrite Hel; reflexivity |].
  apply wp_ret. apply wp_bind. apply wp_bind. apply wp_bind.
  eapply wp_get_element; [exact Hl | rewrite Hel; reflexivity |].
  apply wp_ret. apply wp_bind, wp_ret. apply wp_ret. apply wp_ret.
  rewrite type_eqb_pointer_struct. cbn [is_pointer_type pointer_struct orb].
  destruct (get_bv_value m (unsignedbv_type2t (pointer_width (config ctx)))
              _ _ H0) as [w0 ->].
  destruct (get_bv_value m (unsignedbv_type2t (pointer_width (config ctx)))
              _ _ H1) as [w1 ->].
  apply wp_bind. eapply wp_lift_option; [reflexivity |].
  apply wp_bind, wp_ret. apply wp_bind.
  eapply wp_lift_option; [reflexivity |].
  apply wp_bind, wp_ret. apply wp_ret.
  rewrite !Z.mod_mod by lia. split; reflexivity.
Qed.

(** Decoding a free tuple of the canonical pointer shape. *)
Lemma tuple_get_rec_free_pointer ctx l o m fuel :
  store ctx !! l = Some o ->
  thetype (sort o) = Some (pointer_struct (config ctx)) ->
  elements o = [] ->
  tuple_get_rec (S fuel) m l ctx
  = Ok (constant_struct2t (pointer_struct (config ctx))
          [nil_expr; nil_expr]) ctx.
Proof.
  intros Hl Hty Hel. apply wp_run.
  cbn [tuple_get_rec]. apply wp_bind, wp_get_ctx. apply wp_bind.
  eapply wp_deref; [exact Hl |]. apply wp_bind.
  eapply wp_to_tuple_sort; [exact Hty |]. apply wp_bind.
  eapply wp_get_type_def; [reflexivity |]. rewrite Hel.
  apply wp_ret. split; reflexivity.
Qed.

(** C9. The symbols [NULL] and [0] convert to the null-pointer sentinel;
    the sentinel is the tuple of the canonical pointer shape with fields
    (0, 0), and decodes to the canonical null pointer; and every
    populated tuple of the canonical pointer shape whose two fields have
    bit-vector values decodes to the pointer value of those two values,
    while a free one decodes to a record of two no-value placeholders. *)
Theorem pointer_round_trip :
  forall (cfg : configt),
    (forall ctx ty,
        mk_tuple_symbol (symbol2t ty "NULL") ctx = Ok (null_ptr_ast ctx) ctx
        /\ mk_tuple_symbol (symbol2t ty "0") ctx = Ok (null_ptr_ast ctx) ctx)
    /\ (exists ctx0 o,
          init_sentinels (empty_convt cfg) = Ok tt ctx0
          /\ config ctx0 = cfg
          /\ null_ptr_ast ctx0 = ast_ref 0
          /\ store ctx0 !! 0%nat = Some o
          /\ thetype (sort o) = Some (pointer_struct cfg)
          /\ elements o
             = [ast_bvint (convert_sort_cfg cfg
                             (unsignedbv_type2t (pointer_width cfg))) 0;
                ast_bvint (convert_sort_cfg cfg
                             (unsignedbv_type2t (pointer_width cfg))) 0]
          /\ forall m fuel,
               tuple_get_rec (S fuel) m 0 ctx0
               = Ok (symbol2t (pointer_type2t empty_type2t) "NULL") ctx0)
    /\ (forall ctx (l : nat) (o : tuple_smt_ast) e0 e1 m v0 v1 fuel,
          config ctx = cfg ->
          store ctx !! l = Some o ->
          thetype (sort o) = Some (pointer_struct cfg) ->
          elements o = [e0; e1] ->
          eval m e0 = Some (VBV v0) -> eval m e1 = Some (VBV v1) ->
          tuple_get_rec (S fuel) m l ctx
          = Ok (pointer_expr cfg (v0 mod 2 ^ 64) (v1 mod 2 ^ 64)
                  (pointer_type2t empty_type2t)) ctx)
    /\ (forall ctx (l : nat) (o : tuple_smt_ast) m fuel,
          config ctx = cfg ->
          store ctx !! l = Some o ->
          thetype (sort o) = Some (pointer_struct cfg) ->
          elements o = [] ->
          tuple_get_rec (S fuel) m l ctx
          = Ok (constant_struct2t (pointer_struct cfg)
                  [nil_expr; nil_expr]) ctx).
Proof.
  intros cfg. split; [| split; [| split]].
  - intros ctx ty. split; reflexivity.
  - eexists _, _. split; [vm_compute; reflexivity |]. split; [reflexivity |].
    split; [reflexivity |]. split; [reflexivity |].
    split; [reflexivity |]. split; [reflexivity |].
    intros m fuel.
    erewrite tuple_get_rec_pointer;
      [| reflexivity | reflexivity | reflexivity | reflexivity
       | reflexivity].
    rewrite Zmod_0_l. reflexivity.
  - intros ctx l o e0 e1 m v0 v1 fuel <-. apply tuple_get_rec_pointer.
  - intros ctx l o m fuel <-. apply tuple_get_rec_free_pointer.
Qed.

Lemma pointer_round_trip_witness :
  exists ctx0,
    init_sentinels (empty_convt example_config) = Ok tt ctx0
    /\ tuple_get_rec 1 example_model 0 ctx0
       = Ok (symbol2t (pointer_type2t empty_type2t) "NULL") ctx0.
Proof.
  destruct (pointer_round_trip example_config)
    as (_ & (ctx0 & o & Hinit & Hcfg & _ & Hl & Hty & Hel & _) & Hdec & _).
  exists ctx0. split; [exact Hinit |].
  rewrite (Hdec ctx0 0%nat o _ _ example_model 0 0 0%nat Hcfg Hl Hty Hel
             eq_refl eq_refl).
  reflexivity.
Defined.

(** ** Arrays whose size is not a constant *)

Definition non_constant_size_abort : fault :=
  abort_called "Non-constant sized array of type constant_array_of2t".

(** [wfatal m ctx P]: from [ctx], [m] ends in a fault that satisfies
    [P]. *)
Definition wfatal {A} (m : M A) (ctx : smt_convt) (P : fault -> Prop)
  : Prop :=
  match m ctx with
  | Fatal f _ => P f
  | _ => False
  end.

Lemma wfatal_bind {A B} (m : M A) (k : A -> M B) ctx P :
  wp m ctx (fun a c => wfatal (k a) c P) -> wfatal (bind m k) ctx P.
Proof. unfold wp, wfatal, bind. destruct (m ctx); tauto. Qed.

Lemma wfatal_raise {A} f ctx (P : fault -> Prop) :
  P f -> wfatal (@raise A f) ctx P.
Proof. exact (fun H => H). Qed.

Lemma wfatal_is_fatal {A} (m : M A) ctx P : wfatal m ctx P -> is_fatal (m ctx).
Proof. unfold wfatal, is_fatal. destruct (m ctx); tauto. Qed.

Lemma is_fatal_bind {A B} (m : M A) (k : A -> M B) ctx :
  never_out_of_fuel m ->
  (forall a c, m ctx = Ok a c -> is_fatal (k a c)) ->
  is_fatal (bind m k ctx).
Proof.
  intros Hnof Hk. unfold bind. specialize (Hnof ctx).
  destruct (m ctx) as [a c|f c|]; [apply Hk; reflexivity | exact I |].
  congruence.
Qed.

Lemma tuple_array_create_non_constant conv fuel sub sz args const ctx :
  is_constant_int_size sz = false ->
  is_fatal (tuple_array_create conv fuel (array_type2t sub sz false)
              args const ctx).
Proof.
  intros Hsz. unfold tuple_array_create.
  apply is_fatal_bind; [nof | intros s c1 _].
  apply is_fatal_bind; [nof | intros n c2 _].
  apply is_fatal_bind; [nof | intros newsym c3 _].
  unfold bind. cbn [to_array_type ret snd fst]. rewrite Hsz. exact I.
Qed.

Lemma tuple_array_create_non_constant_abort conv fuel sub sz args const ctx :
  is_constant_int_size sz = false -> elem_supported sub = true ->
  wfatal (tuple_array_create conv fuel (array_type2t sub sz false)
            args const) ctx
         (fun f => f = non_constant_size_abort).
Proof.
  intros Hsz Hsup. unfold tuple_array_create.
  apply wfatal_bind, wp_convert_sort. apply wfatal_bind, wp_mk_fresh_name.
  apply wfatal_bind.
  eapply wp_mono;
    [apply (new_array_smt_ast_spec sub sz false _ (bump ctx) Hsup) |].
  intros a c' _. apply wfatal_bind, wp_ret.
  cbn [snd fst]. rewrite Hsz. apply wfatal_raise. reflexivity.
Qed.

Lemma tuple_array_create_infinite conv fuel sub sz args const ctx :
  elem_supported sub = true ->
  wp (tuple_array_create conv fuel (array_type2t sub sz true) args const)
     ctx
     (fun a ctx' =>
        array_result (config ctx) (bump ctx) ctx'
          (convert_sort_cfg (config ctx) (array_type2t sub sz true))
          sub sz true
          ("tuple_array_create::" +:+ pretty (fresh_counter ctx) +:+ ".")
          a).
Proof.
  intros Hsup. unfold tuple_array_create.
  apply wp_bind, wp_convert_sort. apply wp_bind, wp_mk_fresh_name.
  apply wp_bind.
  eapply wp_mono; [apply (new_array_smt_ast_spec sub sz true _ (bump ctx) Hsup) |].
  intros a c' Hres. apply wp_bind, wp_ret. apply wp_ret. exact Hres.
Qed.

Definition is_constant_array_of (e : expr2t) : bool :=
  match e with constant_array_of2t _ _ => true | _ => false end.

Lemma array_create_non_constant conv fuel expr sub sz ctx :
  is_constant_array_of expr = false ->
  expr_type expr = array_type2t sub sz false ->
  is_constant_int_size sz = false ->
  array_create conv fuel expr ctx
  = Fatal non_constant_size_abort (bump ctx).
Proof.
  intros Hne Hty Hsz. unfold array_create, bind. cbn [get_ctx].
  destruct expr; try discriminate;
    cbn [mk_fresh_name]; rewrite Hty; cbn [to_array_type ret snd fst];
    rewrite Hsz; reflexivity.
Qed.

Lemma array_create_infinite conv fuel expr sub sz ctx :
  is_constant_array_of expr = false ->
  expr_type expr = array_type2t sub sz true ->
  array_create conv fuel expr ctx
  = conv (symbol2t (expr_type expr)
            ("array_create::" +:+ pretty (fresh_counter ctx) +:+ "."))
         (bump ctx).
Proof.
  intros Hne Hty. unfold array_create, bind. cbn [get_ctx].
  destruct expr; try discriminate;
    cbn [mk_fresh_name]; rewrite Hty; cbn [to_array_type ret snd fst];
    reflexivity.
Qed.

(** An array-of expression never reaches the size check. *)
Lemma array_create_array_of conv fuel t sz inf init ctx :
  is_array_type t = false ->
  is_structure_type (expr_type init) = false ->
  is_pointer_type (expr_type init) = false ->
  let w := calculate_array_domain_width (config ctx)
             (array_type2t t sz inf) in
  ((w < 64)%N ->
   array_create conv fuel (constant_array_of2t (array_type2t t sz inf) init)
     ctx
   = conv (constant_array2t
             (array_type2t (expr_type init)
                (size_constant_int (2 ^ Z.of_N w)) false)
             (replicate (Z.to_nat (2 ^ Z.of_N w)) init)) ctx)
  /\ ((64 <= w)%N ->
      array_create conv fuel
        (constant_array_of2t (array_type2t t sz inf) init) ctx
      = Fatal undefined_shift ctx).
Proof.
  intros Ht Hs Hp w.
  assert (Hrun : array_create conv fuel
                   (constant_array_of2t (array_type2t t sz inf) init) ctx
                 = convert_array_of conv init w ctx).
  { unfold array_create, bind. cbn [get_ctx].
    unfold convert_array_of_prep, bind.
    cbn [get_ctx to_array_type ret fst snd]. rewrite Ht, Hs, Hp.
    reflexivity. }
  rewrite Hrun. unfold convert_array_of, shift_one, bind. split; intros Hw.
  - apply N.ltb_lt in Hw. rewrite Hw. reflexivity.
  - apply N.ltb_ge in Hw. rewrite Hw. reflexivity.
Qed.

Definition symbolic_size_array_of : expr2t :=
  constant_array_of2t (array_type2t bv8 (size_symbol "n") false)
                      (constant_int2t bv8 0).

(** C10, as stated, fails: [array_create] hands a constant-array-of
    expression to [convert_array_of_prep] before it looks at the size,
    so an array of that form with a symbolic size is encoded, as stores
    into a fresh symbol, and the run goes on. *)
Lemma array_of_symbolic_size_is_encoded :
  exists a ctx',
    array_create (convert_ast 6) 6 symbolic_size_array_of
      (empty_convt example_config)
    = Ok a ctx'.
Proof. eexists _, _. vm_compute. reflexivity. Qed.

(** C10. For a finite array type whose size is not a constant integer,
    [tuple_array_create] always ends the run, with the non-constant-size
    abort when the element type is supported, and [array_create] ends
    the run with that abort on every expression that is not a
    constant-array-of.  For an array flagged infinite both return the
    fresh symbol unconstrained.  A constant-array-of expression is
    passed by [array_create] to [convert_array_of_prep] without the
    size check: with a scalar initializer it becomes a constant array of
    [2 ^ w] copies, [w] the domain width, when [w] is below 64; from 64
    on the shift that computes [2 ^ w] has no defined result. *)
Theorem non_constant_size_is_fatal :
  forall (conv : expr2t -> M smt_astt) (fuel : nat) (ctx : smt_convt)
         (sub : type2t) (sz : array_size_expr),
    (is_constant_int_size sz = false ->
     (forall args const,
         is_fatal (tuple_array_create conv fuel (array_type2t sub sz false)
                     args const ctx))
     /\ (elem_supported sub = true ->
         forall args const,
           wfatal (tuple_array_create conv fuel (array_type2t sub sz false)
                     args const) ctx
                  (fun f => f = non_constant_size_abort))
     /\ (forall expr,
           is_constant_array_of expr = false ->
           expr_type expr = array_type2t sub sz false ->
           array_create conv fuel expr ctx
           = Fatal non_constant_size_abort (bump ctx)))
    /\ (elem_supported sub = true ->
        forall args const,
          wp (tuple_array_create conv fuel (array_type2t sub sz true)
                args const) ctx
             (fun a ctx' =>
                array_result (config ctx) (bump ctx) ctx'
                  (convert_sort_cfg (config ctx) (array_type2t sub sz true))
                  sub sz true
                  ("tuple_array_create::" +:+ pretty (fresh_counter ctx)
                   +:+ ".") a))
    /\ (forall expr,
          is_constant_array_of expr = false ->
          expr_type expr = array_type2t sub sz true ->
          array_create conv fuel expr ctx
          = conv (symbol2t (expr_type expr)
                    ("array_create::" +:+ pretty (fresh_counter ctx)
                     +:+ ".")) (bump ctx))
    /\ (forall inf init,
          is_array_type sub = false ->
          is_structure_type (expr_type init) = false ->
          is_pointer_type (expr_type init) = false ->
          let w := calculate_array_domain_width (config ctx)
                     (array_type2t sub sz inf) in
          ((w < 64)%N ->
           array_create conv fuel
             (constant_array_of2t (array_type2t sub sz inf) init) ctx
           = conv (constant_array2t
                     (array_type2t (expr_type init)
                        (size_constant_int (2 ^ Z.of_N w)) false)
                     (replicate (Z.to_nat (2 ^ Z.of_N w)) init)) ctx)
          /\ ((64 <= w)%N ->
              array_create conv fuel
                (constant_array_of2t (array_type2t sub sz inf) init) ctx
              = Fatal undefined_shift ctx)).
Proof.
  intros conv fuel ctx sub sz. split; [| split; [| split]].
  - intros Hsz. split; [| split].
    + intros args const. apply tuple_array_create_non_constant, Hsz.
    + intros Hsup args const.
      apply tuple_array_create_non_constant_abort; assumption.
    + intros expr Hne Hty. eapply array_create_non_constant; eauto.
  - intros Hsup args const. apply tuple_array_create_infinite, Hsup.
  - intros expr Hne Hty. eapply array_create_infinite; eauto.
  - intros inf init Ht Hs Hp. apply array_create_array_of; assumption.
Qed.

Definition symbolic_size_struct_array : type2t :=
  array_type2t example_struct (size_symbol "n") false.

Lemma non_constant_size_is_fatal_witness :
  is_fatal (tuple_array_create (convert_ast 1) 1 symbolic_size_struct_array
              [] true (empty_convt example_config))
  /\ array_create (convert_ast 1) 1
       (constant_array2t (array_type2t bv8 (size_symbol "n") false) [])
       (empty_convt example_config)
     = Fatal non_constant_size_abort (bump (empty_convt example_config))
  /\ array_create (convert_ast 6) 6 symbolic_size_array_of
       (empty_convt example_config)
     = convert_ast 6
         (constant_array2t (array_type2t bv8 (size_constant_int 4) false)
            (replicate 4 (constant_int2t bv8 0)))
         (empty_convt example_config).
Proof.
  split; [| split].
  - destruct (non_constant_size_is_fatal (convert_ast 1) 1
                (empty_convt example_config) example_struct
                (size_symbol "n")) as (H & _).
    destruct (H eq_refl) as (Hf & _). apply Hf.
  - destruct (non_constant_size_is_fatal (convert_ast 1) 1
                (empty_convt example_config) bv8
                (size_symbol "n")) as (H & _).
    destruct (H eq_refl) as (_ & _ & Hf). apply Hf; reflexivity.
  - destruct (non_constant_size_is_fatal (convert_ast 6) 6
                (empty_convt example_config) bv8
                (size_symbol "n")) as (_ & _ & _ & H).
    destruct (H false (constant_int2t bv8 0) eq_refl eq_refl eq_refl)
      as [Hlt _].
    exact (Hlt eq_refl).
Defined.

(** ** Structured literals *)

(** A field of type [m] holds the literal [x]; [wf] is the check on a
    nested record literal. *)
Definition field_literal (wf : expr2t -> bool) (m : type2t) (x : expr2t)
  : bool :=
  match m, x with
  | bool_type2t, constant_bool2t _ => true
  | unsignedbv_type2t w, constant_int2t (unsignedbv_type2t w') v =>
      (w =? w')%N && (0 <=? v)%Z && (v <? 2 ^ Z.of_N w)%Z
      && (v <? 2 ^ 64)%Z
  | struct_type2t _ _ _, constant_struct2t t' _ => type_eqb t' m && wf x
  | _, _ => false
  end.

(** A concrete record literal: a [constant_struct2t] of a struct type
    other than the canonical pointer shape, with one well-typed literal
    per field, each a boolean, an integer constant of unsigned
    bit-vector type in the range of its type and below 2^64 (the
    read-back goes through 64 bits), or again such a record. *)
Fixpoint wf_literal (cfg : configt) (e : expr2t) {struct e} : bool :=
  match e with
  | constant_struct2t (struct_type2t ms ns n) xs =>
      negb (type_eqb (struct_type2t ms ns n) (pointer_struct cfg))
      && (fix fields (ms : list type2t) (xs : list expr2t) {struct xs}
            : bool :=
            match ms, xs with
            | [], [] => true
            | m :: ms', x :: xs' =>
                field_literal (wf_literal cfg) m x && fields ms' xs'
            | _, _ => false
            end) ms xs
  | _ => false
  end.


Definition example_literal : expr2t :=
  constant_struct2t example_struct
    [constant_int2t bv8 7; constant_bool2t true].

Definition nested_struct : type2t :=
  struct_type2t [example_struct; signedbv_type2t 16] ["inner"; "n"] "T".

Definition nested_literal : expr2t :=
  constant_struct2t nested_struct
    [example_literal; constant_int2t (signedbv_type2t 16) (-5)].

Definition unsigned_nested_struct : type2t :=
  struct_type2t [example_struct; unsignedbv_type2t 16] ["inner"; "n"] "T".

Definition unsigned_nested_literal : expr2t :=
  constant_struct2t unsigned_nested_struct
    [example_literal; constant_int2t (unsignedbv_type2t 16) 5].

Example unsigned_nested_literal_wf :
  wf_literal example_config unsigned_nested_literal = true.
Proof. reflexivity. Qed.

Example unsigned_nested_literal_round_trip :
  exists ctx',
    (do a <- tuple_create (convert_ast 3) unsigned_nested_literal;
     do l <- to_tuple_ast a;
     tuple_get_rec 3 example_model l) (empty_convt example_config)
    = Ok unsigned_nested_literal ctx'.
Proof. eexists. vm_compute. reflexivity. Qed.

(** A field of signed type does not come back: the read-back returns
    the bit pattern as a constant of unsigned type, here 65531 at 16
    bits for the signed 16-bit constant -5. *)
Example signed_field_decodes_unsigned :
  exists ctx',
    (do a <- tuple_create (convert_ast 3) nested_literal;
     do l <- to_tuple_ast a;
     tuple_get_rec 3 example_model l) (empty_convt example_config)
    = Ok (constant_struct2t nested_struct
            [example_literal; constant_int2t (unsignedbv_type2t 16) 65531])
         ctx'
    /\ constant_struct2t nested_struct
         [example_literal; constant_int2t (unsignedbv_type2t 16) 65531]
       <> nested_literal.
Proof. eexists. split; [vm_compute; reflexivity | discriminate]. Qed.


(** The store [h'] has the objects of [h] from address [n] on. *)
Definition agree_from (n : nat) (h h' : list tuple_smt_ast) : Prop :=
  forall k o, (n <= k)%nat -> h !! k = Some o -> h' !! k = Some o.









Lemma wp_for_loop body (Inv : nat -> smt_convt -> Prop) count :
  forall start ctx (Q : unit -> smt_convt -> Prop),
    Inv start ctx ->
    (forall i c, (start <= i < start + count)%nat -> Inv i c ->
                 wp (body i) c (fun _ c' => Inv (S i) c')) ->
    (forall c, Inv (start + count)%nat c -> Q tt c) ->
    wp (for_loop body start count) ctx Q.
Proof.
  induction count as [|count IH]; intros start ctx Q H0 Hstep Hend; simpl.
  - apply wp_ret, Hend. rewrite Nat.add_0_r. exact H0.
  - apply wp_bind. eapply wp_mono; [apply Hstep; [lia | exact H0] |].
    intros [] c Hc. apply IH; [exact Hc | |].
    + intros i c' Hi. apply Hstep. lia.
    + intros c' Hc'. apply Hend.
      replace (start + S count)%nat with (S start + count)%nat by lia.
      exact Hc'.
Qed.












(** ** Arrays of records *)

Definition scalar_type (t : type2t) : bool :=
  is_bool_type t || is_number_type t.

Lemma scalar_type_class t :
  scalar_type t = true ->
  is_tuple_ast_type t = false /\ is_tuple_array_ast_type t = false.
Proof. destruct t; simpl; intros H; try discriminate; auto. Qed.


(** A plain term of array sort. *)
Definition plain_array (a : smt_astt) : Prop :=
  exists s, plain_sort a = Some s /\ is_array_sort s = true.

(** The store [h'] has every object of [h]. *)
Definition keeps (h h' : list tuple_smt_ast) : Prop := agree_from 0 h h'.





Lemma keeps_length h h' : keeps h h' -> (length h <= length h')%nat.
Proof.
  intros Hk. destruct (decide (length h = 0)%nat) as [->|Hne]; [lia |].
  destruct (lookup_lt_is_Some_2 h (length h - 1) ltac:(lia)) as [o Ho].
  pose proof (lookup_lt_Some _ _ _ (Hk _ _ ltac:(lia) Ho)). lia.
Qed.


Lemma project_populated ctx l o ty data i a :
  store ctx !! l = Some o -> kind o = Tuple ->
  thetype (sort o) = Some ty -> type_def (config ctx) ty = Some data ->
  (i < length (members data))%nat ->
  elements o !! i = Some a ->
  project (ast_ref l) i ctx = Ok a ctx.
Proof.
  intros Hl Hk Hty Hd Hi Ha.
  eapply tuple_project_run; try eassumption.
  - eapply make_free_populated; [exact Hl |].
    intros He. rewrite He in Ha. discriminate.
  - eapply get_element_run; eassumption.
Qed.

(** The store term [smt_ast::update] builds. *)
Definition store_term (idx : smt_astt) (a v : smt_astt) : smt_astt :=
  match plain_sort a with
  | Some s => ast_func_app s SMT_FUNC_STORE [a; idx; v]
  | None => ast_null
  end.

Lemma store_term_plain_array idx a v :
  plain_array a -> plain_array (store_term idx a v).
Proof.
  intros (s & Hs & Ha). unfold store_term. rewrite Hs.
  exists s. split; [reflexivity | exact Ha].
Qed.



(** A TupleArray object of element type [R] with the per-field arrays
    [arrs]. *)
Definition record_array (cfg : configt) (h : list tuple_smt_ast) (la : nat)
  (R : type2t) (sz : array_size_expr) (inf : bool)
  (arrs : list smt_astt) : Prop :=
  exists o b, h !! la = Some o /\ kind o = TupleArray b
              /\ sort o = convert_sort_cfg cfg (array_type2t R sz inf)
              /\ elements o = arrs.


Lemma record_array_keeps cfg h h' la R sz inf arrs :
  keeps h h' -> record_array cfg h la R sz inf arrs ->
  record_array cfg h' la R sz inf arrs.
Proof.
  intros Hk (o & b & Hl & H). exists o, b.
  split; [apply Hk; [lia | exact Hl] | exact H].
Qed.




(** The iterations [start], ..., [start + count - 1] of a store loop,
    in order. *)
Fixpoint store_steps (body : nat -> smt_astt -> M smt_astt)
  (start count : nat) (newsym : smt_astt) : M smt_astt :=
  match count with
  | O => ret newsym
  | S c =>
      do newsym' <- body start newsym;
      store_steps body (S start) c newsym'
  end.

(** A store loop whose bound is below 2^32 runs its iterations once, in
    order, given a unit of fuel for each. *)
Lemma store_loop_steps body sz :
  sz < 2 ^ 32 ->
  forall fuel i newsym ctx,
    0 <= i <= sz -> (Z.to_nat (sz - i) <= fuel)%nat ->
    store_loop fuel body i sz newsym ctx
    = store_steps body (Z.to_nat i) (Z.to_nat (sz - i)) newsym ctx.
Proof.
  intros Hsz. induction fuel as [|f IH]; intros i newsym ctx Hi Hf.
  - assert (i = sz) by lia. subst i. cbn [store_loop].
    rewrite Z.ltb_irrefl, Z.sub_diag. reflexivity.
  - cbn [store_loop]. destruct (Z.ltb_spec i sz) as [Hlt|Hge].
    + replace (Z.to_nat (sz - i)) with (S (Z.to_nat (sz - (i + 1))))
        by lia.
      cbn [store_steps]. unfold bind.
      destruct (body (Z.to_nat i) newsym ctx) as [x c| |];
        [| reflexivity | reflexivity].
      rewrite Z.mod_small by lia. rewrite IH by lia.
      replace (Z.to_nat (i + 1)) with (S (Z.to_nat i)) by lia.
      reflexivity.
    + assert (i = sz) by lia. subst i. rewrite Z.sub_diag. reflexivity.
Qed.

(** From a bound of 2^32 on, a store loop is never left by its test:
    it does not return, whatever the fuel. *)
Lemma store_loop_never_returns body sz :
  2 ^ 32 <= sz ->
  forall fuel i newsym ctx,
    0 <= i < 2 ^ 32 ->
    forall r ctx', store_loop fuel body i sz newsym ctx <> Ok r ctx'.
Proof.
  intros Hsz. induction fuel as [|f IH]; intros i newsym ctx Hi r ctx';
    cbn [store_loop]; destruct (Z.ltb_spec i sz) as [Hlt|Hge]; try lia.
  - discriminate.
  - unfold bind. destruct (body (Z.to_nat i) newsym ctx) as [x c| |];
      [| discriminate | discriminate].
    apply IH. apply Z.mod_pos_bound. lia.
Qed.

(** With a constant size from 2^32 on, [array_create] and
    [tuple_array_create] do not return. *)
Lemma array_create_large_size conv fuel t z ms ctx r ctx' :
  2 ^ 32 <= z < 2 ^ 64 ->
  array_create conv fuel
    (constant_array2t (array_type2t t (size_constant_int z) false) ms) ctx
  <> Ok r ctx'.
Proof.
  intros Hz. unfold array_create, bind.
  cbn [get_ctx mk_fresh_name expr_type to_array_type ret fst snd negb
       is_constant_int_size size_to_ulong].
  rewrite Z.mod_small by lia.
  destruct (conv _ _) as [a c| |]; [| discriminate | discriminate].
  apply store_loop_never_returns; lia.
Qed.

Lemma tuple_array_create_large_size conv fuel t z args const ctx r ctx' :
  2 ^ 32 <= z < 2 ^ 64 ->
  tuple_array_create conv fuel (array_type2t t (size_constant_int z) false)
    args const ctx
  <> Ok r ctx'.
Proof.
  intros Hz. unfold tuple_array_create, bind.
  cbn [convert_sort get_ctx mk_fresh_name ret bind].
  destruct (new_array_smt_ast _ _ _) as [a c| |];
    [| discriminate | discriminate].
  cbn [to_array_type ret fst snd negb is_constant_int_size size_to_ulong].
  rewrite Z.mod_small by lia.
  destruct const.
  - destruct (args !! 0%nat); cbn [lift_option ret raise];
      [| discriminate].
    apply store_loop_never_returns; lia.
  - apply store_loop_never_returns; lia.
Qed.

Lemma wp_store_loop_bounded fuel body sz a ctx
  (Q : smt_astt -> smt_convt -> Prop) :
  Z.of_nat sz < 2 ^ 32 -> (sz <= fuel)%nat ->
  wp (store_steps body 0 sz a) ctx Q ->
  wp (store_loop fuel body 0 (Z.of_nat sz mod 2 ^ 64) a) ctx Q.
Proof.
  intros Hsz Hf H. unfold wp.
  rewrite Z.mod_small by lia.
  rewrite store_loop_steps by lia.
  rewrite Z.sub_0_r, Nat2Z.id. exact H.
Qed.

Lemma wp_store_loop body (Inv : nat -> smt_astt -> smt_convt -> Prop) count :
  forall start a ctx (Q : smt_astt -> smt_convt -> Prop),
    Inv start a ctx ->
    (forall i x c, (start <= i < start + count)%nat -> Inv i x c ->
                   wp (body i x) c (fun x' c' => Inv (S i) x' c')) ->
    (forall x c, Inv (start + count)%nat x c -> Q x c) ->
    wp (store_steps body start count a) ctx Q.
Proof.
  induction count as [|count IH]; intros start a ctx Q H0 Hstep Hend; simpl.
  - apply wp_ret, Hend. rewrite Nat.add_0_r. exact H0.
  - apply wp_bind. eapply wp_mono; [apply Hstep; [lia | exact H0] |].
    intros x c Hc. apply IH; [exact Hc | |].
    + intros i x' c' Hi. apply Hstep. lia.
    + intros x' c' Hc'. apply Hend.
      replace (start + S count)%nat with (S start + count)%nat by lia.
      exact Hc'.
Qed.





Definition array_symbol (a : smt_astt) : Prop :=
  exists s nm, a = ast_symbol s nm /\ is_array_sort s = true.








(** The select term [smt_ast::select] builds. *)
Definition select_term (cfg : configt) (idx : smt_astt) (a : smt_astt)
  : smt_astt :=
  match plain_sort a with
  | Some s =>
      ast_func_app
        (if (data_width s =? 1)%N && negb (no_bools_in_arrays cfg)
         then bool_sort
         else mk_smt_sort SMT_SORT_BV (data_width s) 0 None)
        SMT_FUNC_SELECT [a; idx]
  | None => ast_null
  end.

Lemma select_plain_spec fc f this ty z ctx :
  plain_array this ->
  wp (select (convert_ast (S fc)) (S f) this (constant_int2t ty z)) ctx
     (fun a c =>
        a = select_term (config ctx)
              (ast_bvint (convert_sort_cfg (config ctx) ty) z) this
        /\ c = ctx).
Proof.
  intros (s & Hs & Ha).
  assert (H : wp (smt_ast_select (convert_ast (S fc)) this
                    (constant_int2t ty z)) ctx
                (fun a c =>
                   a = select_term (config ctx)
                         (ast_bvint (convert_sort_cfg (config ctx) ty) z) this
                   /\ c = ctx)).
  { unfold smt_ast_select, select_term. rewrite Hs.
    apply wp_bind, wp_get_ctx. apply wp_bind, wp_ret. apply wp_bind.
    eapply wp_assert_that; [exact Ha |].
    apply wp_bind. cbn [convert_ast].
    apply wp_bind, wp_convert_sort, wp_ret.
    apply wp_ret. split; reflexivity. }
  cbn [select]. destruct this; try discriminate; exact H.
Qed.




Lemma eval_store_term m idx a v g k x :
  plain_array a -> eval m a = Some (VArray g) ->
  eval m idx = Some (VBV k) -> eval m v = Some x ->
  eval m (store_term idx a v)
  = Some (VArray (fun j => if Z.eqb j k then x else g j)).
Proof.
  intros (s & Hs & _) Ha Hi Hv. unfold store_term. rewrite Hs.
  simpl. rewrite Ha, Hi, Hv. reflexivity.
Qed.


Lemma eval_select_term m cfg idx a F k :
  plain_array a -> eval m a = Some (VArray F) ->
  eval m idx = Some (VBV k) ->
  eval m (select_term cfg idx a) = Some (F k).
Proof.
  intros (s & Hs & _) Ha Hi. unfold select_term. rewrite Hs. simpl.
  rewrite Ha, Hi. reflexivity.
Qed.

Lemma eval_array_symbol m a :
  well_sorted m -> array_symbol a -> exists g, eval m a = Some (VArray g).
Proof.
  intros Hm (s & nm & -> & Hs). specialize (Hm s nm).
  unfold value_of_sort in Hm. unfold is_array_sort in Hs.
  destruct (id s); try discriminate. destruct Hm as [g Hg].
  exists g. simpl. rewrite Hg. reflexivity.
Qed.














Definition array_model : model :=
  fun s _ =>
    match id s with
    | SMT_SORT_ARRAY => VArray (fun _ => VBV 0)
    | SMT_SORT_BOOL => VBool false
    | _ => VBV 0
    end.

Lemma array_model_well_sorted : well_sorted array_model.
Proof.
  intros s nm. unfold value_of_sort, array_model.
  destruct (id s); try exact I.
  - exists 0. split; [reflexivity |]. split; [lia |].
    apply Z.pow_pos_nonneg; lia.
  - eexists. reflexivity.
  - eexists. reflexivity.
Qed.


(** * The merge law *)

(** ** Nesting depth of types *)

(** The nesting depth of a type: the children of a structured term have
    types of strictly smaller depth than the term's own type. *)
Fixpoint rank (t : type2t) : nat :=
  match t with
  | pointer_type2t _ => 1
  | array_type2t sub _ _ => S (rank sub)
  | struct_type2t ms _ _ | union_type2t ms _ _ =>
      S (list_sum (map rank ms))
  | _ => 0
  end.

Definition sort_rank (s : smt_sort) : nat :=
  match thetype s with
  | Some t => rank t
  | None => 0
  end.

Lemma rank_member ms :
  forall i it, ms !! i = Some it -> (rank it <= list_sum (map rank ms))%nat.
Proof.
  induction ms as [|m ms IH]; intros [|i] it H; simpl in *;
    try discriminate.
  - injection H as ->. lia.
  - specialize (IH i it H). lia.
Qed.

Lemma type_def_rank cfg t data :
  type_def cfg t = Some data ->
  Forall (fun it => (rank it < rank t)%nat) (members data).
Proof.
  destruct t; simpl; try discriminate; intros [= <-]; simpl.
  - repeat constructor.
  - apply Forall_lookup. intros i it H.
    pose proof (rank_member _ _ _ H). lia.
  - apply Forall_lookup. intros i it H.
    pose proof (rank_member _ _ _ H). lia.
Qed.

Lemma child_types_rank cfg o tys :
  child_types cfg o = Some tys ->
  Forall (fun ty => (rank ty < sort_rank (sort o))%nat) tys.
Proof.
  unfold child_types, sort_rank.
  destruct (thetype (sort o)) as [ty|];
    [| destruct (kind o); discriminate].
  destruct (kind o), ty; cbv beta iota; try discriminate;
    (destruct (type_def cfg _) as [data|] eqn:Hd; [| discriminate]);
    intros [= <-]; try (eapply type_def_rank, Hd).
  apply Forall_forall. intros x Hx.
  apply list_elem_of_In, in_map_iff in Hx as (it & <- & Hit).
  pose proof (type_def_rank _ _ _ Hd) as Hr.
  rewrite Forall_forall in Hr. apply list_elem_of_In in Hit.
  specialize (Hr it Hit). simpl. lia.
Qed.

Lemma child_types_with_elements cfg o es :
  child_types cfg (with_elements o es) = child_types cfg o.
Proof. reflexivity. Qed.

Lemma sort_rank_convert cfg t :
  classify t <> CPlain -> sort_rank (convert_sort_cfg cfg t) = rank t.
Proof.
  destruct t; unfold classify; simpl; try congruence; try reflexivity.
  unfold sort_rank. simpl.
  destruct (is_tuple_ast_type t || is_tuple_array_ast_type t);
    [reflexivity | congruence].
Qed.

(** ** Well-formed terms *)

Definition kind_matches (c : term_class) (k : ast_kind) : Prop :=
  match c, k with
  | CTuple, Tuple => True
  | CTupleArray, TupleArray _ => True
  | _, _ => False
  end.

(** A term is a well-formed term of a type in a store: a plain term for
    a scalar type; a free Tuple; or an object of the type's sort whose
    children are well-formed terms of its field types.  No child of a
    well-formed term is a null pointer. *)
Inductive wt (cfg : configt) (h : list tuple_smt_ast)
  : type2t -> smt_astt -> Prop :=
| wt_plain t a :
    classify t = CPlain -> is_plain a = true -> wt cfg h t a
| wt_free t l o :
    classify t = CTuple -> h !! l = Some o -> kind o = Tuple ->
    sort o = convert_sort_cfg cfg t -> elements o = [] ->
    wt cfg h t (ast_ref l)
| wt_populated t l o tys :
    h !! l = Some o -> kind_matches (classify t) (kind o) ->
    sort o = convert_sort_cfg cfg t ->
    child_types cfg o = Some tys ->
    Forall2 (wt cfg h) tys (elements o) ->
    wt cfg h t (ast_ref l).

Lemma kind_matches_not_plain t k :
  kind_matches (classify t) k -> classify t <> CPlain.
Proof. intros H E. rewrite E in H. exact H. Qed.

Lemma wt_plain_inv cfg h t a :
  classify t = CPlain -> wt cfg h t a -> is_plain a = true.
Proof.
  intros Hc H. inversion H as [t' a' Hc0 Hp0 | t' l' o Hc0 Hl0 Hk0 Hs0 He0 | t' l' o tys Hl0 Hk0 Hs0 Hct0 Hch0]; subst; try assumption; try congruence.
  exfalso. eapply kind_matches_not_plain; eauto.
Qed.

Lemma wt_ref_inv cfg h t l :
  wt cfg h t (ast_ref l) ->
  exists o,
    h !! l = Some o /\ kind_matches (classify t) (kind o)
    /\ sort o = convert_sort_cfg cfg t
    /\ ((kind o = Tuple /\ elements o = [])
        \/ exists tys, child_types cfg o = Some tys
                       /\ Forall2 (wt cfg h) tys (elements o)).
Proof.
  intros H. inversion H as [t' a' Hc0 Hp0 | t' l' o Hc0 Hl0 Hk0 Hs0 He0 | t' l' o tys Hl0 Hk0 Hs0 Hct0 Hch0]; subst.
  - discriminate.
  - exists o. split; [assumption |]. split.
    + rewrite Hc0, Hk0. exact I.
    + split; [assumption |]. left. split; assumption.
  - exists o. split; [assumption |]. split; [assumption |].
    split; [assumption |]. right. exists tys. split; assumption.
Qed.

Lemma wt_structured_inv cfg h t a :
  classify t <> CPlain -> wt cfg h t a -> exists l, a = ast_ref l.
Proof.
  intros Hc H. inversion H as [t' a' Hc0 Hp0 | t' l' o Hc0 Hl0 Hk0 Hs0 He0 | t' l' o tys Hl0 Hk0 Hs0 Hct0 Hch0]; subst; try congruence; eexists; reflexivity.
Qed.

Lemma wt_not_null cfg h t a : wt cfg h t a -> a <> ast_null.
Proof. intros H. inversion H as [t' a' Hc0 Hp0 | t' l' o Hc0 Hl0 Hk0 Hs0 He0 | t' l' o tys Hl0 Hk0 Hs0 Hct0 Hch0]; subst; try discriminate. intros ->. discriminate. Qed.

(** ** How a store changes *)

(** A free Tuple object has been materialised: its child list went from
    empty to one well-formed child per field. *)
Definition materialised (cfg : configt) (h' : list tuple_smt_ast)
  (l : nat) (o : tuple_smt_ast) : Prop :=
  kind o = Tuple /\ elements o = []
  /\ exists es tys,
      child_types cfg o = Some tys /\ es <> []
      /\ h' !! l = Some (with_elements o es)
      /\ Forall2 (wt cfg h') tys es.

(** Every object of [h] whose sort has depth below [n] is unchanged or
    has been materialised in [h']. *)
Definition below (cfg : configt) (n : nat) (h h' : list tuple_smt_ast)
  : Prop :=
  forall l o, h !! l = Some o -> (sort_rank (sort o) < n)%nat ->
    h' !! l = Some o \/ materialised cfg h' l o.

(** Every object of [h] is unchanged in [h'], or has depth at most [R]
    and has been materialised. *)
Definition evolves (cfg : configt) (R : nat) (h h' : list tuple_smt_ast)
  : Prop :=
  forall l o, h !! l = Some o ->
    h' !! l = Some o
    \/ ((sort_rank (sort o) <= R)%nat /\ materialised cfg h' l o).

Lemma wt_transport cfg h h' n :
  below cfg n h h' ->
  forall t a, (rank t < n)%nat -> wt cfg h t a -> wt cfg h' t a.
Proof.
  intros Hb t. remember (rank t) as r eqn:Hr. revert t Hr.
  induction r as [r IH] using lt_wf_ind. intros t -> a Hn H.
  inversion H as [t' a' Hc0 Hp0 | t' l' o Hc0 Hl0 Hk0 Hs0 He0 | t' l' o tys Hl0 Hk0 Hs0 Hct0 Hch0]; subst.
  - apply wt_plain; assumption.
  - assert (Hsr : sort_rank (sort o) = rank t)
      by (rewrite Hs0; apply sort_rank_convert; congruence).
    destruct (Hb l' o Hl0) as [Hu|(_ & _ & es & tys & Hct & Hne & Hl & Hwt)];
      [lia | eapply wt_free; eassumption |].
    eapply wt_populated; [exact Hl | | exact Hs0 | exact Hct | exact Hwt].
    simpl. rewrite Hc0, Hk0. exact I.
  - assert (Hsr : sort_rank (sort o) = rank t)
      by (rewrite Hs0; apply sort_rank_convert;
          eapply kind_matches_not_plain; eauto).
    pose proof (child_types_rank _ _ _ Hct0) as Hrk. rewrite Hsr in Hrk.
    destruct (Hb l' o Hl0)
      as [Hu|(Hk & He & es & tys' & Hct & Hne & Hl & Hwt)]; [lia | |].
    + eapply wt_populated;
        [exact Hu | assumption | assumption | exact Hct0 |].
      clear H Hl0 Hct0 Hu. induction Hch0 as [|ty e tys0 es0 Hte _ IHf];
        constructor.
      * apply Forall_cons in Hrk as [Hlt _].
        eapply (IH (rank ty)); [exact Hlt | reflexivity | lia | exact Hte].
      * apply IHf. apply Forall_cons in Hrk as [_ Hrk]. exact Hrk.
    + eapply wt_populated; [exact Hl | assumption | assumption | exact Hct
                           | exact Hwt].
Qed.

Lemma evolves_below cfg R n h h' : evolves cfg R h h' -> below cfg n h h'.
Proof.
  intros H l o Hl _. destruct (H l o Hl) as [Hu|[_ Hm]]; [left | right];
    assumption.
Qed.

Lemma wt_evolves cfg R h h' t a :
  evolves cfg R h h' -> wt cfg h t a -> wt cfg h' t a.
Proof.
  intros He. eapply (wt_transport cfg h h' (S (rank t)));
    [eapply evolves_below; exact He | lia].
Qed.

Lemma evolves_refl cfg R h : evolves cfg R h h.
Proof. intros l o H. left. exact H. Qed.

Lemma evolves_mono cfg R R' h h' :
  (R <= R')%nat -> evolves cfg R h h' -> evolves cfg R' h h'.
Proof.
  intros HR H l o Hl. destruct (H l o Hl) as [Hu|[Hr Hm]];
    [left; exact Hu | right; split; [lia | exact Hm]].
Qed.

Lemma evolves_app cfg R h news : evolves cfg R h (h ++ news).
Proof. intros l o H. left. apply lookup_app_l_Some, H. Qed.

Lemma evolves_trans cfg R h1 h2 h3 :
  evolves cfg R h1 h2 -> evolves cfg R h2 h3 -> evolves cfg R h1 h3.
Proof.
  intros H12 H23 l o Hl.
  destruct (H12 l o Hl) as [Hu|[Hr (Hk & He & es & tys & Hct & Hne & Hl2 & Hwt)]].
  - apply H23, Hu.
  - right. split; [exact Hr |]. split; [exact Hk |]. split; [exact He |].
    exists es, tys. split; [exact Hct |]. split; [exact Hne |]. split.
    + destruct (H23 _ _ Hl2) as [Hu|[_ (_ & He' & _)]]; [exact Hu |].
      simpl in He'. congruence.
    + eapply Forall2_impl; [exact Hwt |]. intros ty e.
      eapply wt_evolves, H23.
Qed.

Lemma evolves_populated cfg R h h' l o :
  evolves cfg R h h' -> h !! l = Some o -> elements o <> [] ->
  h' !! l = Some o.
Proof.
  intros H Hl Hne. destruct (H l o Hl) as [Hu|[_ (_ & He & _)]];
    [exact Hu | congruence].
Qed.

Lemma evolves_array cfg R h h' l o b :
  evolves cfg R h h' -> h !! l = Some o -> kind o = TupleArray b ->
  h' !! l = Some o.
Proof.
  intros H Hl Hk. destruct (H l o Hl) as [Hu|[_ (Hk' & _)]];
    [exact Hu | congruence].
Qed.

Lemma evolves_length cfg R h h' :
  evolves cfg R h h' -> (length h <= length h')%nat.
Proof.
  intros H. destruct (decide (length h <= length h')%nat) as [|Hn];
    [assumption | exfalso].
  destruct (lookup_lt_is_Some_2 h (length h')) as [o Ho]; [lia |].
  destruct (H _ _ Ho) as [Hu|[_ (_ & _ & es & tys & _ & _ & Hu & _)]];
    apply lookup_lt_Some in Hu; lia.
Qed.

(** Replacing an object of depth at least [n] leaves the objects of
    depth below [n] alone. *)
Lemma below_insert cfg n h lr olr o' :
  h !! lr = Some olr -> (n <= sort_rank (sort olr))%nat ->
  below cfg n h (<[lr := o']> h).
Proof.
  intros Hlr Hn l o Hl Hr. left.
  destruct (decide (l = lr)) as [->|Hne].
  - rewrite Hlr in Hl. injection Hl as <-. lia.
  - rewrite list_lookup_insert_ne by congruence. exact Hl.
Qed.

Lemma wt_app cfg h news t a : wt cfg h t a -> wt cfg (h ++ news) t a.
Proof. apply (wt_evolves cfg 0), evolves_app. Qed.

Lemma evolves_insert cfg R h0 h lr olr o' :
  evolves cfg R h0 h -> (length h0 <= lr)%nat ->
  h !! lr = Some olr -> (R <= sort_rank (sort olr))%nat ->
  evolves cfg R h0 (<[lr := o']> h).
Proof.
  intros He Hlen Hlr HR l o Hl.
  pose proof (lookup_lt_Some _ _ _ Hl) as Hlt.
  destruct (He l o Hl) as [Hu|[Hr (Hk & Hel & es & tys & Hct & Hne & Hl2 & Hwt)]].
  - left. rewrite list_lookup_insert_ne by lia. exact Hu.
  - right. split; [exact Hr |]. split; [exact Hk |]. split; [exact Hel |].
    exists es, tys. split; [exact Hct |]. split; [exact Hne |].
    split; [rewrite list_lookup_insert_ne by lia; exact Hl2 |].
    pose proof (child_types_rank _ _ _ Hct) as Hrk.
    apply Forall2_same_length_lookup_2; [eapply Forall2_length, Hwt |].
    intros i ty e Hty Hes.
    eapply (wt_transport cfg h _ R);
      [eapply below_insert; eassumption | |
       eapply Forall2_lookup_lr; eassumption].
    eapply Forall_lookup_1 in Hrk; [| exact Hty]. simpl in Hrk. lia.
Qed.

(** ** The value of a term under a model *)

(** The value of a term: the value the model gives a plain term, and
    the values of the fields of a structured one. *)
Inductive tvalue : Type :=
| TPlain (v : option value)
| TTuple (vs : list tvalue).

(** The object has one child per field. *)
Definition complete (cfg : configt) (o : tuple_smt_ast) : bool :=
  match child_types cfg o with
  | Some tys => (length (elements o) =? length tys)%nat
  | None => false
  end.

(** The value of a term in a store; a free Tuple that has fields has no
    value before it is materialised. *)
Fixpoint denote (fuel : nat) (cfg : configt) (h : list tuple_smt_ast)
  (m : model) (a : smt_astt) {struct fuel} : option tvalue :=
  match a with
  | ast_null => None
  | ast_ref l =>
      match fuel with
      | O => None
      | S f =>
          match h !! l with
          | Some o =>
              if complete cfg o
              then TTuple <$> mapM (denote f cfg h m) (elements o)
              else None
          | None => None
          end
      end
  | _ => Some (TPlain (eval m a))
  end.

(** Under every model that gives the condition [c] a boolean value, [r]
    has the value of [x1] when [c] holds and of [x2] otherwise. *)
Definition merged (fuel : nat) (cfg : configt) (h : list tuple_smt_ast)
  (c x1 x2 r : smt_astt) : Prop :=
  forall m b, eval m c = Some (VBool b) ->
    is_Some (denote fuel cfg h m x1) /\ is_Some (denote fuel cfg h m x2)
    /\ denote fuel cfg h m r = denote fuel cfg h m (if b then x1 else x2).

Lemma denote_plain fuel cfg h m a :
  is_plain a = true -> denote fuel cfg h m a = Some (TPlain (eval m a)).
Proof. destruct fuel, a; try discriminate; reflexivity. Qed.

Lemma denote_null fuel cfg h m : denote fuel cfg h m ast_null = None.
Proof. destruct fuel; reflexivity. Qed.

Lemma denote_ref f cfg h m l o :
  h !! l = Some o -> complete cfg o = true ->
  denote (S f) cfg h m (ast_ref l)
  = TTuple <$> mapM (denote f cfg h m) (elements o).
Proof. intros Hl Hc. simpl. rewrite Hl, Hc. reflexivity. Qed.

Lemma complete_children cfg o tys (P : type2t -> smt_astt -> Prop) :
  child_types cfg o = Some tys -> Forall2 P tys (elements o) ->
  complete cfg o = true.
Proof.
  intros Hct H. unfold complete. rewrite Hct.
  apply Nat.eqb_eq. symmetry. eapply Forall2_length, H.
Qed.

Lemma materialised_incomplete cfg h' l o :
  materialised cfg h' l o -> complete cfg o = false.
Proof.
  intros (_ & He & es & tys & Hct & Hne & _ & Hwt).
  unfold complete. rewrite Hct, He. simpl.
  apply Forall2_length in Hwt.
  destruct tys; [| reflexivity]. destruct es; [congruence | discriminate].
Qed.

(** The value of a well-formed term of depth below [n] only depends on
    the objects of depth below [n]. *)
Lemma denote_transport cfg m n h h' :
  below cfg n h h' ->
  forall fuel t a v, (rank t < n)%nat -> wt cfg h t a ->
    denote fuel cfg h m a = Some v -> denote fuel cfg h' m a = Some v.
Proof.
  intros Hb. induction fuel as [|f IH]; intros t a v Hn Hwt Hd.
  - destruct a; try discriminate; exact Hd.
  - destruct a; try exact Hd.
    destruct (wt_ref_inv _ _ _ _ Hwt) as (o & Hl & Hk & Hs & Hch).
    simpl in Hd. rewrite Hl in Hd.
    destruct (complete cfg o) eqn:Hc; [| discriminate].
    assert (Hsr : sort_rank (sort o) = rank t)
      by (rewrite Hs; apply sort_rank_convert;
          eapply kind_matches_not_plain; eauto).
    destruct (Hb l o Hl) as [Hu|Hm]; [lia | |].
    2: { apply materialised_incomplete in Hm. congruence. }
    rewrite (denote_ref _ _ _ _ _ _ Hu Hc).
    destruct (mapM (denote f cfg h m) (elements o)) as [vs|] eqn:Hvs;
      [| discriminate].
    simpl in Hd. injection Hd as <-.
    apply mapM_Some in Hvs.
    assert (Hvs' : mapM (denote f cfg h' m) (elements o) = Some vs).
    { apply mapM_Some.
      destruct Hch as [[_ He]|(tys & Hct & Hch)].
      - rewrite He in Hvs |- *. inversion Hvs. constructor.
      - pose proof (child_types_rank _ _ _ Hct) as Hrk.
        apply Forall2_same_length_lookup_2;
          [eapply Forall2_length, Hvs |].
        intros i e w He Hw.
        destruct (lookup_lt_is_Some_2 tys i) as [ty Hty].
        { apply Forall2_length in Hch. rewrite Hch.
          eapply lookup_lt_Some, He. }
        pose proof (Forall2_lookup_lr _ _ _ _ _ _ Hch Hty He) as Hwe.
        pose proof (Forall2_lookup_lr _ _ _ _ _ _ Hvs He Hw) as Hde.
        simpl in Hde.
        eapply Forall_lookup_1 in Hrk; [| exact Hty]. simpl in Hrk.
        apply (IH ty e w); [lia | exact Hwe | exact Hde]. }
    rewrite Hvs'. reflexivity.
Qed.

Lemma merged_transport cfg n h h' fuel t c x1 x2 r :
  below cfg n h h' -> (rank t < n)%nat ->
  wt cfg h t x1 -> wt cfg h t x2 -> wt cfg h t r ->
  merged fuel cfg h c x1 x2 r -> merged fuel cfg h' c x1 x2 r.
Proof.
  intros Hb Hn H1 H2 Hr Hm m b Hc.
  destruct (Hm m b Hc) as ([v1 Hv1] & [v2 Hv2] & Heq).
  pose proof (denote_transport cfg m n h h' Hb fuel t x1 v1 Hn H1 Hv1) as E1.
  pose proof (denote_transport cfg m n h h' Hb fuel t x2 v2 Hn H2 Hv2) as E2.
  split; [rewrite E1; eexists; reflexivity |].
  split; [rewrite E2; eexists; reflexivity |].
  destruct b.
  - rewrite Hv1 in Heq. rewrite E1.
    eapply denote_transport; eassumption.
  - rewrite Hv2 in Heq. rewrite E2.
    eapply denote_transport; eassumption.
Qed.

Lemma merged_evolves cfg R h h' fuel t c x1 x2 r :
  evolves cfg R h h' ->
  wt cfg h t x1 -> wt cfg h t x2 -> wt cfg h t r ->
  merged fuel cfg h c x1 x2 r -> merged fuel cfg h' c x1 x2 r.
Proof.
  intros He. apply (merged_transport cfg (S (rank t)));
    [eapply evolves_below; exact He | lia].
Qed.

(** The merge of two plain terms is the back end's if-then-else. *)
Lemma merged_plain fuel cfg h s c x1 x2 :
  is_plain x1 = true -> is_plain x2 = true ->
  merged fuel cfg h c x1 x2 (ast_func_app s SMT_FUNC_ITE [c; x1; x2]).
Proof.
  intros H1 H2 m b Hc.
  rewrite (denote_plain _ _ _ _ _ H1), (denote_plain _ _ _ _ _ H2).
  split; [eexists; reflexivity |]. split; [eexists; reflexivity |].
  rewrite denote_plain by reflexivity. cbn [eval]. rewrite Hc.
  destruct b; [rewrite (denote_plain _ _ _ _ _ H1)
              | rewrite (denote_plain _ _ _ _ _ H2)]; reflexivity.
Qed.

Lemma mapM_ext_lookup {A B} (g : A -> option B) (l1 l2 : list A) :
  length l1 = length l2 ->
  (forall j x y, l1 !! j = Some x -> l2 !! j = Some y -> g x = g y) ->
  mapM g l1 = mapM g l2.
Proof.
  revert l2. induction l1 as [|x l1 IH]; intros [|y l2] Hlen H;
    try discriminate; [reflexivity |].
  simpl. rewrite (H 0%nat x y eq_refl eq_refl).
  rewrite (IH l2); [reflexivity | simpl in Hlen; lia |].
  intros j. apply (H (S j)).
Qed.

(** ** Freshly built children are well formed *)

Lemma wp_conj {A} (m : M A) ctx (Q1 Q2 : A -> smt_convt -> Prop) :
  wp m ctx Q1 -> wp m ctx Q2 -> wp m ctx (fun a c => Q1 a c /\ Q2 a c).
Proof. unfold wp. destruct (m ctx); tauto. Qed.

Lemma allocates_wt c c' cfg t a :
  allocates c c' -> wt cfg (store c) t a -> wt cfg (store c') t a.
Proof. intros (_ & news & -> & _). apply wt_app. Qed.

Lemma below_insert_app cfg n h l o o' news :
  h !! l = Some o -> (n <= sort_rank (sort o))%nat ->
  below cfg n h (<[l := o']> h ++ news).
Proof.
  intros Hl Hn k ok Hk Hr. left. apply lookup_app_l_Some.
  destruct (decide (k = l)) as [->|Hne].
  - rewrite Hl in Hk. injection Hk as <-. lia.
  - rewrite list_lookup_insert_ne by congruence. exact Hk.
Qed.

Lemma classify_field_array_plain it sz inf :
  is_tuple_ast_type it = false -> is_tuple_array_ast_type it = false ->
  classify (field_array_type it sz inf) = CPlain.
Proof.
  intros Ht Hta. unfold classify, field_array_type. simpl.
  rewrite Ht, Hta. reflexivity.
Qed.

Lemma classify_tuple_array sub sz inf :
  is_tuple_ast_type sub = true ->
  classify (array_type2t sub sz inf) = CTupleArray.
Proof. intros Ht. unfold classify. simpl. rewrite Ht. reflexivity. Qed.

Lemma array_fields_wt cfg rec sz inf nm ms :
  forall ns i ctx,
    config ctx = cfg ->
    (i + length ms <= length ns)%nat ->
    forallb array_member_ok ms = true ->
    Forall (fun it =>
              is_tuple_ast_type it = true ->
              forall fieldname c, config c = cfg ->
                wp (rec it fieldname) c
                   (fun a c' =>
                      allocates c c'
                      /\ wt cfg (store c') (field_array_type it sz inf) a))
           ms ->
    wp (array_fields rec sz inf nm ms ns i) ctx
       (fun es ctx' =>
          allocates ctx ctx'
          /\ Forall2 (wt cfg (store ctx'))
               (map (fun it => field_array_type it sz inf) ms) es).
Proof.
  induction ms as [|it ms IH]; intros ns i ctx Hcfg Hlen Hok Hrec; simpl.
  - apply wp_ret. split; [apply allocates_refl | constructor].
  - simpl in Hlen, Hok. apply andb_true_iff in Hok as [Hit Hok].
    apply Forall_cons in Hrec as [Hrec1 Hrec].
    destruct (lookup_lt_is_Some_2 ns i ltac:(lia)) as [fld Hfld].
    apply wp_bind. eapply wp_lift_option; [exact Hfld |].
    apply wp_bind.
    assert (Hchild :
      wp (if is_tuple_ast_type it then rec it (nm +:+ "." +:+ fld)
          else if is_tuple_array_ast_type it
          then raise (abort_called "tuple array nested inside a tuple array")
          else do newsort <- convert_sort (field_array_type it sz inf);
               mk_fresh newsort (nm +:+ "." +:+ fld)) ctx
         (fun a c' =>
            allocates ctx c'
            /\ wt cfg (store c') (field_array_type it sz inf) a)).
    { unfold array_member_ok in Hit.
      destruct (is_tuple_ast_type it) eqn:Ht; [apply Hrec1; auto |].
      destruct (is_tuple_array_ast_type it) eqn:Hta; [discriminate |].
      apply wp_bind, wp_convert_sort, wp_mk_fresh.
      split; [apply allocates_bump |].
      apply wt_plain;
        [apply classify_field_array_plain; assumption | reflexivity]. }
    eapply wp_mono; [exact Hchild |]. clear Hchild.
    intros child c1 (Hal1 & Hch).
    apply wp_bind.
    eapply wp_mono;
      [apply (IH ns (S i) c1);
       [rewrite (allocates_config _ _ Hal1); exact Hcfg | lia | exact Hok
       | exact Hrec] |].
    intros rest c2 (Hal2 & Hrest). apply wp_ret.
    split; [eapply allocates_trans; eauto |].
    constructor; [| exact Hrest].
    eapply allocates_wt; eauto.
Qed.

Lemma array_body_wt cfg sub rec sz inf nm ms ns ctx :
  config ctx = cfg ->
  is_tuple_ast_type sub = true ->
  type_def cfg sub = Some (mk_struct_union_data ms ns) ->
  (length ms <= length ns)%nat ->
  forallb array_member_ok ms = true ->
  Forall (fun it =>
            is_tuple_ast_type it = true ->
            forall fieldname c, config c = cfg ->
              wp (rec it fieldname) c
                 (fun a c' =>
                    allocates c c'
                    /\ wt cfg (store c') (field_array_type it sz inf) a))
         ms ->
  wp (do l <- alloc (mk_tuple_smt_ast (TupleArray true)
                       (convert_sort_cfg cfg (array_type2t sub sz inf))
                       nm []);
      do es <- array_fields rec sz inf nm ms ns 0;
      do_ set_elements l es;
      ret (ast_ref l)) ctx
     (fun a ctx' => wt cfg (store ctx') (array_type2t sub sz inf) a).
Proof.
  intros Hcfg Hsub Hdef Hlen Hok Hrec.
  set (s := convert_sort_cfg cfg (array_type2t sub sz inf)).
  assert (Hs : thetype s = Some (array_type2t sub sz inf)).
  { unfold s. simpl. rewrite Hsub. reflexivity. }
  apply wp_bind, wp_alloc. apply wp_bind.
  eapply wp_mono;
    [apply (array_fields_wt cfg rec sz inf nm ms ns 0);
     [exact Hcfg | simpl; lia | exact Hok | exact Hrec] |].
  intros es c2 ((Hfr & news & Hst & Hnews) & Hch). simpl in Hst.
  set (o0 := mk_tuple_smt_ast (TupleArray true) s nm []) in *.
  assert (Hl0 : store c2 !! length (store ctx) = Some o0)
    by (rewrite Hst; apply lookup_alloc_mid).
  apply wp_bind. eapply wp_set_elements; [exact Hl0 |].
  apply wp_ret. simpl.
  assert (Hct : child_types cfg (with_elements o0 es)
                = Some (map (fun it => field_array_type it sz inf) ms)).
  { unfold child_types. simpl. rewrite Hs, Hdef. reflexivity. }
  eapply wt_populated.
  - apply list_lookup_insert_eq. eapply lookup_lt_Some, Hl0.
  - rewrite (classify_tuple_array _ _ _ Hsub). exact I.
  - reflexivity.
  - exact Hct.
  - simpl. pose proof (child_types_rank _ _ _ Hct) as Hrk. simpl in Hrk.
    apply Forall2_same_length_lookup_2; [eapply Forall2_length, Hch |].
    intros i ty e Hty He.
    eapply (wt_transport cfg (store c2) _ (sort_rank s));
      [eapply below_insert; [exact Hl0 | simpl; lia] | |
       eapply Forall2_lookup_lr; eassumption].
    eapply Forall_lookup_1 in Hrk; [| exact Hty]. exact Hrk.
Qed.

Lemma array_object_wt sub :
  elem_supported sub = true ->
  forall sz inf nm ctx,
    wp (array_object (config ctx)
          (convert_sort_cfg (config ctx) (array_type2t sub sz inf))
          sub sz inf nm) ctx
       (fun a ctx' =>
          wt (config ctx) (store ctx') (array_type2t sub sz inf) a).
Proof.
  induction sub as [| |w|w|sub' _|sub' sz' inf' _|ms ns n IH|ms ns n IH]
    using type2t_members_ind;
    intros Hsup sz inf nm ctx; try discriminate.
  - cbn -[array_fields pointer_type_data convert_sort_cfg].
    eapply (array_body_wt (config ctx) (pointer_type2t sub') _ _ _ _
              (members (pointer_type_data (config ctx)))
              (member_names (pointer_type_data (config ctx))));
      [reflexivity | reflexivity | reflexivity | simpl; lia | reflexivity |].
    repeat constructor; discriminate.
  - simpl in Hsup. apply andb_true_iff in Hsup as [Hlen Hms].
    apply Nat.leb_le in Hlen.
    cbn -[array_fields convert_sort_cfg].
    eapply (array_body_wt (config ctx) (struct_type2t ms ns n));
      [reflexivity | reflexivity | reflexivity | exact Hlen
      | apply forallb_array_member_ok, Hms |].
    rewrite forallb_forall in Hms. rewrite Forall_forall in IH |- *.
    intros it Hin Ht fieldname c Hc.
    apply list_elem_of_In in Hin as Hin'. specialize (Hms it Hin').
    rewrite Ht in Hms. rewrite <- Hc.
    apply wp_conj; [| apply (IH it Hin Hms)].
    eapply wp_mono;
      [apply (array_object_spec it Hms);
       unfold convert_sort_cfg, field_array_type; simpl; rewrite Ht;
       reflexivity |].
    intros a c' Hres. apply Hres.
  - simpl in Hsup. apply andb_true_iff in Hsup as [Hlen Hms].
    apply Nat.leb_le in Hlen.
    cbn -[array_fields convert_sort_cfg].
    eapply (array_body_wt (config ctx) (union_type2t ms ns n));
      [reflexivity | reflexivity | reflexivity | exact Hlen
      | apply forallb_array_member_ok, Hms |].
    rewrite forallb_forall in Hms. rewrite Forall_forall in IH |- *.
    intros it Hin Ht fieldname c Hc.
    apply list_elem_of_In in Hin as Hin'. specialize (Hms it Hin').
    rewrite Ht in Hms. rewrite <- Hc.
    apply wp_conj; [| apply (IH it Hin Hms)].
    eapply wp_mono;
      [apply (array_object_spec it Hms);
       unfold convert_sort_cfg, field_array_type; simpl; rewrite Ht;
       reflexivity |].
    intros a c' Hres. apply Hres.
Qed.

Lemma new_array_smt_ast_wt sub sz inf nm ctx :
  elem_supported sub = true ->
  wp (new_array_smt_ast
        (convert_sort_cfg (config ctx) (array_type2t sub sz inf)) nm) ctx
     (fun a ctx' =>
        wt (config ctx) (store ctx') (array_type2t sub sz inf) a).
Proof.
  intros Hsup. pose proof (elem_supported_is_tuple _ Hsup) as Ht.
  assert (Hs : thetype (convert_sort_cfg (config ctx)
                          (array_type2t sub sz inf))
               = Some (array_type2t sub sz inf)).
  { simpl. rewrite Ht. reflexivity. }
  unfold new_array_smt_ast. apply wp_bind, wp_get_ctx. apply wp_bind.
  eapply wp_to_tuple_sort; [exact Hs |].
  apply array_object_wt; assumption.
Qed.

Lemma classify_tuple it : is_tuple_ast_type it = true -> classify it = CTuple.
Proof. intros H. unfold classify. rewrite H. reflexivity. Qed.

Lemma make_child_wt it nm fld ctx :
  member_constructible it = true ->
  wp (make_child it (convert_sort_cfg (config ctx) it) (nm +:+ "." +:+ fld))
     ctx
     (fun a c' => wt (config ctx) (store c') it a).
Proof.
  intros Hmc. unfold make_child.
  destruct (is_tuple_ast_type it) eqn:Ht.
  - unfold tuple_fresh. rewrite append_dot_not_empty.
    apply wp_bind, wp_ret. apply wp_bind, wp_ret.
    pose proof (tuple_sort_not_array (config ctx) it Ht) as Hna.
    unfold is_array_sort in Hna.
    assert (Hnew : wp (new_tuple_smt_ast (convert_sort_cfg (config ctx) it)
                         (nm +:+ "." +:+ fld)) ctx
                     (fun a c' => wt (config ctx) (store c') it a)).
    { apply wp_new_tuple_smt_ast.
      apply (wt_free _ _ _ _
               (mk_tuple_smt_ast Tuple (convert_sort_cfg (config ctx) it)
                  (nm +:+ "." +:+ fld) []));
        [apply classify_tuple, Ht | | reflexivity | reflexivity
        | reflexivity].
      simpl. rewrite lookup_app_r by lia. rewrite Nat.sub_diag.
      reflexivity. }
    destruct (id (convert_sort_cfg (config ctx) it));
      try exact Hnew; discriminate.
  - destruct (is_tuple_array_ast_type it) eqn:Hta.
    + destruct it; try discriminate.
      unfold member_constructible in Hmc. rewrite Hta in Hmc.
      apply new_array_smt_ast_wt. exact Hmc.
    + apply wp_mk_fresh. apply wt_plain; [| reflexivity].
      unfold classify. rewrite Ht, Hta. reflexivity.
Qed.

(** ** Materialisation builds well-formed children *)

Lemma make_free_loop_wt cfg l nm ms :
  forall ns i ctx obj done,
    config ctx = cfg ->
    store ctx !! l = Some obj ->
    elements obj = done ++ replicate (length ms) ast_null ->
    length done = i ->
    (i + length ms <= length ns)%nat ->
    forallb member_constructible ms = true ->
    Forall (fun it => (rank it < sort_rank (sort obj))%nat) ms ->
    wp (make_free_loop l nm ms ns i) ctx
       (fun _ ctx' =>
          exists es,
            store ctx' !! l = Some (with_elements obj (done ++ es))
            /\ Forall2 (wt cfg (store ctx')) ms es).
Proof.
  induction ms as [|it ms IH];
    intros ns i ctx obj done Hcfg Hl Hel Hi Hlen Hmc Hrk.
  - simpl. apply wp_ret. exists []. split; [| constructor].
    simpl in Hel. rewrite <- Hel, with_elements_same. exact Hl.
  - simpl in Hlen, Hmc, Hel. apply andb_true_iff in Hmc as [Hit Hmc].
    apply Forall_cons in Hrk as [Hrk1 Hrk].
    destruct (lookup_lt_is_Some_2 ns i ltac:(lia)) as [fld Hfld].
    cbn [make_free_loop].
    apply wp_bind, wp_convert_sort. apply wp_bind.
    eapply wp_lift_option; [exact Hfld |]. apply wp_bind.
    eapply wp_mono;
      [apply wp_conj;
       [apply (make_child_spec it nm fld ctx Hit)
       | apply (make_child_wt it nm fld ctx Hit)] |].
    intros child c1 (((Hfr1 & news1 & Hst1 & Hok1) & Hch & Hge) & Hwt1).
    rewrite Hcfg in Hwt1.
    assert (Hl1 : store c1 !! l = Some obj)
      by (rewrite Hst1; apply lookup_app_l_Some, Hl).
    apply wp_bind.
    eapply wp_set_element;
      [exact Hl1 | rewrite Hel, length_app; simpl; lia |].
    set (obj' := with_elements obj (<[i := child]> (elements obj))).
    assert (Hel' : elements obj'
                   = (done ++ [child]) ++ replicate (length ms) ast_null).
    { unfold obj'. simpl. rewrite Hel, <- Hi.
      rewrite insert_app_r_alt by lia. rewrite Nat.sub_diag. simpl.
      rewrite <- app_assoc. reflexivity. }
    set (c2 := set_store (<[l := obj']> (store c1)) c1).
    assert (Hl2 : store c2 !! l = Some obj').
    { simpl. apply list_lookup_insert_eq. eapply lookup_lt_Some, Hl1. }
    assert (Hc2 : config c2 = cfg)
      by (unfold c2; simpl; destruct Hfr1 as (-> & _); exact Hcfg).
    assert (Hwt2 : wt cfg (store c2) it child).
    { eapply (wt_transport cfg (store c1) _ (sort_rank (sort obj)));
        [eapply below_insert; [exact Hl1 | lia] | exact Hrk1 | exact Hwt1]. }
    eapply wp_mono;
      [apply wp_conj;
       [apply (make_free_loop_spec cfg l nm ms ns (S i) c2 obj'
                 (done ++ [child]));
        [exact Hc2 | exact Hl2 | exact Hel'
        | rewrite length_app; simpl; lia | lia | exact Hmc]
       | apply (IH ns (S i) c2 obj' (done ++ [child]));
        [exact Hc2 | exact Hl2 | exact Hel'
        | rewrite length_app; simpl; lia | lia | exact Hmc | exact Hrk]] |].
    intros [] c3 ((es' & news2 & _ & Hst3 & _) & es & Hl3 & Hwt3).
    exists (child :: es). split.
    + rewrite Hl3. unfold obj'. rewrite with_elements_twice, <- app_assoc.
      reflexivity.
    + constructor; [| exact Hwt3].
      eapply (wt_transport cfg (store c2) _ (sort_rank (sort obj)));
        [rewrite Hst3; eapply below_insert_app; [exact Hl2 | simpl; lia]
        | exact Hrk1 | exact Hwt2].
Qed.

Lemma child_types_tuple cfg o ty data :
  kind o = Tuple -> thetype (sort o) = Some ty ->
  type_def cfg ty = Some data ->
  child_types cfg o = Some (members data).
Proof.
  intros Hk Hty Hd. unfold child_types. rewrite Hty, Hk.
  destruct ty; simpl in *; try discriminate; injection Hd as <-;
    reflexivity.
Qed.

Lemma make_free_free_wt ctx l o ty data :
  store ctx !! l = Some o -> kind o = Tuple -> elements o = [] ->
  thetype (sort o) = Some ty -> type_def (config ctx) ty = Some data ->
  members_constructible data = true ->
  wp (make_free l) ctx
     (fun _ ctx' =>
        exists es,
          store ctx' !! l = Some (with_elements o es)
          /\ Forall2 (wt (config ctx) (store ctx')) (members data) es).
Proof.
  intros Hl Hk He Hty Hd Hmc.
  pose proof (child_types_rank _ _ _ (child_types_tuple _ _ _ _ Hk Hty Hd))
    as Hrk.
  unfold members_constructible in Hmc.
  apply andb_true_iff in Hmc as [Hlen Hmc]. apply Nat.leb_le in Hlen.
  unfold make_free. apply wp_bind. eapply wp_deref; [exact Hl |].
  rewrite He. simpl. apply wp_bind.
  eapply wp_to_tuple_sort; [exact Hty |]. apply wp_bind.
  eapply wp_get_type_def; [exact Hd |]. apply wp_bind.
  eapply wp_resize_elements; [exact Hl |].
  rewrite He, take_nil. simpl. rewrite Nat.sub_0_r.
  set (obj := with_elements o (replicate (length (members data)) ast_null)).
  pose proof (lookup_lt_Some _ _ _ Hl) as Hlt.
  eapply wp_mono;
    [apply (make_free_loop_wt (config ctx) l (name o) (members data)
              (member_names data) 0 _ obj []);
     [reflexivity | simpl; apply list_lookup_insert_eq; exact Hlt
     | reflexivity | reflexivity | simpl; lia | exact Hmc | exact Hrk] |].
  intros [] c' (es & Hl' & Hwt). exists es. split; [exact Hl' | exact Hwt].
Qed.

(** ** Structured types *)

Lemma tuple_sort_type cfg T :
  classify T = CTuple ->
  exists T' data,
    thetype (convert_sort_cfg cfg T) = Some T'
    /\ type_def cfg T' = Some data /\ type_def cfg T = Some data.
Proof.
  destruct T; unfold classify; simpl; try discriminate;
    try (intros _; eexists _, _; repeat split; reflexivity).
  destruct (is_tuple_ast_type T || is_tuple_array_ast_type T); discriminate.
Qed.

Lemma supported_members cfg T data :
  supported T = true -> type_def cfg T = Some data ->
  members_constructible data = true
  /\ Forall (fun it => member_constructible it = true
                       /\ supported it = true) (members data).
Proof.
  destruct T; simpl; try discriminate; intros Hs [= <-].
  - split; [reflexivity | repeat constructor].
  - apply andb_true_iff in Hs as [Hlen Hms].
    unfold members_constructible. simpl. rewrite Hlen. simpl.
    rewrite forallb_forall in Hms. split.
    + apply forallb_forall. intros it Hin.
      specialize (Hms it Hin). apply andb_true_iff in Hms. apply Hms.
    + apply Forall_forall. intros it Hin. apply list_elem_of_In in Hin.
      specialize (Hms it Hin). apply andb_true_iff in Hms. exact Hms.
  - apply andb_true_iff in Hs as [Hlen Hms].
    unfold members_constructible. simpl. rewrite Hlen. simpl.
    rewrite forallb_forall in Hms. split.
    + apply forallb_forall. intros it Hin.
      specialize (Hms it Hin). apply andb_true_iff in Hms. apply Hms.
    + apply Forall_forall. intros it Hin. apply list_elem_of_In in Hin.
      specialize (Hms it Hin). apply andb_true_iff in Hms. exact Hms.
Qed.

(** ** Settled objects *)

(** The object [o] at [l] is the populated object of a term of type
    [T], with well-formed children of types [tys]. *)
Definition settled (cfg : configt) (h : list tuple_smt_ast) (T : type2t)
  (l : nat) (o : tuple_smt_ast) (tys : list type2t) : Prop :=
  h !! l = Some o /\ kind_matches (classify T) (kind o)
  /\ sort o = convert_sort_cfg cfg T
  /\ child_types cfg o = Some tys
  /\ Forall2 (wt cfg h) tys (elements o).

Lemma settled_wt cfg h T l o tys :
  settled cfg h T l o tys -> wt cfg h T (ast_ref l).
Proof.
  intros (Hl & Hk & Hs & Hct & Hch). eapply wt_populated; eassumption.
Qed.

Lemma settled_evolves cfg R h h' T l o tys :
  evolves cfg R h h' -> settled cfg h T l o tys ->
  settled cfg h' T l o tys.
Proof.
  intros He (Hl & Hk & Hs & Hct & Hch).
  split; [| split; [exact Hk |]; split; [exact Hs |]; split; [exact Hct |]].
  - destruct (He l o Hl) as [Hu|[_ Hm]]; [exact Hu | exfalso].
    apply materialised_incomplete in Hm.
    rewrite (complete_children _ _ _ _ Hct Hch) in Hm. discriminate.
  - eapply Forall2_impl; [exact Hch |]. intros ty e.
    eapply wt_evolves, He.
Qed.

(** [make_free] settles a well-formed Tuple term. *)
Lemma make_free_settles ctx l T data :
  classify T = CTuple -> supported T = true ->
  type_def (config ctx) T = Some data ->
  wt (config ctx) (store ctx) T (ast_ref l) ->
  wp (make_free l) ctx
     (fun _ ctx' =>
        frame ctx ctx'
        /\ evolves (config ctx) (rank T) (store ctx) (store ctx')
        /\ (forall k ok, k <> l -> store ctx !! k = Some ok ->
                         store ctx' !! k = Some ok)
        /\ exists o', settled (config ctx) (store ctx') T l o'
                        (members data)).
Proof.
  intros Hc Hsup Hd Hwt.
  destruct (tuple_sort_type (config ctx) T Hc) as (T' & data' & HT' & Hd' & Hd2).
  rewrite Hd in Hd2. injection Hd2 as <-.
  destruct (supported_members _ _ _ Hsup Hd) as [Hmc _].
  destruct (wt_ref_inv _ _ _ _ Hwt) as (o & Hl & Hk & Hs & Hch).
  assert (Hko : kind o = Tuple).
  { rewrite Hc in Hk. destruct (kind o); [reflexivity | destruct Hk]. }
  assert (Hty : thetype (sort o) = Some T') by (rewrite Hs; exact HT').
  pose proof (child_types_tuple _ _ _ _ Hko Hty Hd') as Hct.
  assert (Hsame :
    Forall2 (wt (config ctx) (store ctx)) (members data) (elements o) ->
    forall ctx', make_free l ctx = Ok tt ctx' -> ctx' = ctx ->
    wp (make_free l) ctx
     (fun _ ctx' =>
        frame ctx ctx'
        /\ evolves (config ctx) (rank T) (store ctx) (store ctx')
        /\ (forall k ok, k <> l -> store ctx !! k = Some ok ->
                         store ctx' !! k = Some ok)
        /\ exists o', settled (config ctx) (store ctx') T l o'
                        (members data))).
  { intros Hall ctx' Hrun ->. unfold wp. rewrite Hrun.
    split; [apply frame_refl |]. split; [apply evolves_refl |].
    split; [auto |]. exists o. repeat split; assumption. }
  destruct (elements o) as [|e0 es0] eqn:He.
  - assert (Hdec : members data = [] \/ members data <> [])
      by (destruct (members data); [left; reflexivity | right; discriminate]).
    destruct Hdec as [Hm|Hm].
    + eapply (Hsame ltac:(rewrite Hm; constructor) ctx); [| reflexivity].
      eapply make_free_no_members; eassumption.
    + eapply wp_mono;
        [apply wp_conj;
         [eapply (make_free_free_spec ctx l o T' data); eassumption
         | eapply (make_free_free_wt ctx l o T' data); eassumption] |].
      intros [] c' ((es & news & Hfr & Hst & _ & Hnc & _) & es' & Hl' & Hwt').
      pose proof (lookup_lt_Some _ _ _ Hl) as Hlt.
      assert (Hes : es' <> []).
      { apply Forall2_length in Hwt'. intros ->.
        destruct (members data); [congruence | discriminate]. }
      split; [exact Hfr |]. split; [| split].
      * intros k ok Hkl. destruct (decide (k = l)) as [->|Hne].
        -- right. rewrite Hl in Hkl. injection Hkl as <-. split.
           ++ rewrite Hs, sort_rank_convert by congruence. lia.
           ++ split; [exact Hko |]. split; [exact He |].
              exists es', (members data).
              split; [exact Hct |]. split; [exact Hes |].
              split; [exact Hl' | exact Hwt'].
        -- left. rewrite Hst. apply lookup_app_l_Some.
           rewrite list_lookup_insert_ne by congruence. exact Hkl.
      * intros k ok Hne Hkl. rewrite Hst. apply lookup_app_l_Some.
        rewrite list_lookup_insert_ne by congruence. exact Hkl.
      * exists (with_elements o es'). split; [exact Hl' |].
        split; [simpl; rewrite Hko, Hc; exact I |].
        split; [exact Hs |]. split; [exact Hct | exact Hwt'].
  - destruct Hch as [[_ He']|(tys & Hct' & Hall)]; [discriminate |].
    rewrite Hct in Hct'. injection Hct' as <-.
    eapply (Hsame Hall ctx); [| reflexivity].
    eapply make_free_populated; [exact Hl |]. rewrite He. discriminate.
Qed.


(** ** The specification of a merge *)

(** The types whose terms [ite] can merge: every level can be
    materialised. *)
Definition mergeable (t : type2t) : bool :=
  member_constructible t && supported t.

(** What [ite] guarantees for two well-formed terms [t1], [t2] of type
    [T]: nothing but the store changes, and the store only by
    materialisation and allocation; the result is a well-formed term of
    type [T], fresh when structured and the back end's if-then-else when
    plain; and it has the value of [t1] or of [t2] according to the
    value of the condition. *)
Definition ite_post (cfg : configt) (c : smt_astt) (fuel : nat)
  (T : type2t) (t1 t2 : smt_astt) (ctx : smt_convt)
  (a : smt_astt) (ctx' : smt_convt) : Prop :=
  frame ctx ctx'
  /\ evolves cfg (rank T) (store ctx) (store ctx')
  /\ wt cfg (store ctx') T a
  /\ (forall k, a = ast_ref k -> (length (store ctx) <= k)%nat)
  /\ (classify T = CPlain ->
      exists s, a = ast_func_app s SMT_FUNC_ITE [c; t1; t2])
  /\ merged fuel cfg (store ctx') c t1 t2 a.

Lemma wp_of_ok {A} (m : M A) ctx a ctx' (Q : A -> smt_convt -> Prop) :
  m ctx = Ok a ctx' -> Q a ctx' -> wp m ctx Q.
Proof. intros H HQ. unfold wp. rewrite H. exact HQ. Qed.

Lemma Forall2_wt_transport cfg n h h' tys es :
  below cfg n h h' -> Forall (fun ty => (rank ty < n)%nat) tys ->
  Forall2 (wt cfg h) tys es -> Forall2 (wt cfg h') tys es.
Proof.
  intros Hb Hrk H. induction H as [|ty e tys es Hte _ IH]; constructor.
  - apply Forall_cons in Hrk as [Hlt _].
    eapply wt_transport; eassumption.
  - apply IH. apply Forall_cons in Hrk as [_ Hrk]. exact Hrk.
Qed.

Lemma Forall2_wt_evolves cfg R h h' tys es :
  evolves cfg R h h' ->
  Forall2 (wt cfg h) tys es -> Forall2 (wt cfg h') tys es.
Proof.
  intros He H. eapply Forall2_impl; [exact H |].
  intros ty e. eapply wt_evolves, He.
Qed.

Lemma insert_done {A} (done init : list A) (i : nat) (r : A) :
  length done = i -> (i < length init)%nat ->
  <[i := r]> (done ++ drop i init) = (done ++ [r]) ++ drop (S i) init.
Proof.
  intros Hd Hi.
  destruct (lookup_lt_is_Some_2 init i Hi) as [x Hx].
  rewrite (drop_S _ _ _ Hx), <- Hd.
  rewrite insert_app_r_alt by lia. rewrite Nat.sub_diag. simpl.
  rewrite <- app_assoc. reflexivity.
Qed.

Lemma frame_set_store ctx h : frame ctx (set_store h ctx).
Proof. repeat split. Qed.

(** ** The loop over the fields *)

Section MergeLoop.

Variables (cfg : configt) (c : smt_astt) (f : nat).
Variables (T : type2t) (tys : list type2t).
Variables (l lf lr : nat) (o1 o2 olr : tuple_smt_ast).
Variables (init : list smt_astt) (h0 : list tuple_smt_ast).
Variable ctx0 : smt_convt.
Variables get1 get2 : nat -> M smt_astt.

Hypothesis IH :
  forall ty x1 x2 ctx,
    config ctx = cfg -> (rank ty < f)%nat -> mergeable ty = true ->
    wt cfg (store ctx) ty x1 -> wt cfg (store ctx) ty x2 ->
    wp (ite f x1 c x2) ctx (ite_post cfg c f ty x1 x2 ctx).
Hypothesis Htys :
  Forall (fun ty => (rank ty < f)%nat /\ mergeable ty = true) tys.
Hypothesis Hcfg0 : config ctx0 = cfg.
Hypothesis Hlr : (length h0 <= lr)%nat.
Hypothesis Hsr : sort_rank (sort olr) = rank T.
Hypothesis Hct : child_types cfg olr = Some tys.
Hypothesis Hct1 : child_types cfg o1 = Some tys.
Hypothesis Hct2 : child_types cfg o2 = Some tys.
Hypothesis Hne1 : l <> lr.
Hypothesis Hne2 : lf <> lr.
Hypothesis Hinit : length init = length tys.
Hypothesis Hget1 :
  forall ctx i x, config ctx = cfg ->
    store ctx !! l = Some o1 -> elements o1 !! i = Some x ->
    get1 i ctx = Ok x ctx.
Hypothesis Hget2 :
  forall ctx i x, config ctx = cfg ->
    store ctx !! lf = Some o2 -> elements o2 !! i = Some x ->
    get2 i ctx = Ok x ctx.

(** After [i] rounds the first [i] fields of the result are merged. *)
Definition merge_inv (i : nat) (ctx : smt_convt) : Prop :=
  frame ctx0 ctx
  /\ evolves cfg (rank T) h0 (store ctx)
  /\ store ctx !! l = Some o1 /\ store ctx !! lf = Some o2
  /\ Forall2 (wt cfg (store ctx)) tys (elements o1)
  /\ Forall2 (wt cfg (store ctx)) tys (elements o2)
  /\ exists done,
      length done = i
      /\ store ctx !! lr = Some (with_elements olr (done ++ drop i init))
      /\ Forall2 (wt cfg (store ctx)) (take i tys) done
      /\ forall j ty x1 x2 r,
           tys !! j = Some ty ->
           elements o1 !! j = Some x1 -> elements o2 !! j = Some x2 ->
           done !! j = Some r ->
           merged f cfg (store ctx) c x1 x2 r
           /\ (classify ty = CPlain ->
               exists s, r = ast_func_app s SMT_FUNC_ITE [c; x1; x2])
           /\ exists ca cb, ite f x1 c x2 ca = Ok r cb.

Lemma merge_rank : Forall (fun ty => (rank ty < rank T)%nat) tys.
Proof. rewrite <- Hsr. eapply child_types_rank, Hct. Qed.

Lemma merge_step i ctx :
  (i < length tys)%nat -> merge_inv i ctx ->
  wp (do truepart <- get1 i;
      do falsepart <- get2 i;
      do result_ast <- ite f truepart c falsepart;
      set_element lr i result_ast) ctx
     (fun _ c' => merge_inv (S i) c').
Proof.
  intros Hi (Hfr & Hev & Hl1 & Hl2 & Hw1 & Hw2 & done & Hld & Hlrr & Hwd & Hm).
  assert (Hcfg : config ctx = cfg) by (destruct Hfr as (-> & _); exact Hcfg0).
  pose proof merge_rank as Hrk.
  pose proof (Forall2_length _ _ _ Hw1) as Hlen1.
  pose proof (Forall2_length _ _ _ Hw2) as Hlen2.
  destruct (lookup_lt_is_Some_2 tys i Hi) as [ty Hty].
  destruct (lookup_lt_is_Some_2 (elements o1) i) as [x1 Hx1]; [lia |].
  destruct (lookup_lt_is_Some_2 (elements o2) i) as [x2 Hx2]; [lia |].
  pose proof (Forall2_lookup_lr _ _ _ _ _ _ Hw1 Hty Hx1) as Hwx1.
  pose proof (Forall2_lookup_lr _ _ _ _ _ _ Hw2 Hty Hx2) as Hwx2.
  pose proof (Forall_lookup_1 _ _ _ _ Htys Hty) as [Hrf Hmg].
  pose proof (Forall_lookup_1 _ _ _ _ Hrk Hty) as Hrty. simpl in Hrty.
  apply wp_bind. eapply wp_of_ok; [apply (Hget1 ctx i x1 Hcfg Hl1 Hx1) |].
  apply wp_bind. eapply wp_of_ok; [apply (Hget2 ctx i x2 Hcfg Hl2 Hx2) |].
  apply wp_bind.
  destruct (proj1 (wp_ok _ _ _) (IH ty x1 x2 ctx Hcfg Hrf Hmg Hwx1 Hwx2))
    as (r & c1 & Hrun & Hfr1 & Hev1 & Hwr & _ & Hstr & Hmr).
  eapply wp_of_ok; [exact Hrun |].
  set (olr1 := with_elements olr (done ++ drop i init)) in *.
  assert (Hnel : elements olr1 <> []).
  { simpl. intros E. apply (f_equal length) in E.
    rewrite length_app, length_drop in E. simpl in E. lia. }
  assert (Hlr1 : store c1 !! lr = Some olr1)
    by (eapply evolves_populated; eassumption).
  eapply wp_set_element;
    [exact Hlr1 | simpl; rewrite length_app, length_drop; lia |].
  simpl. rewrite (insert_done done init i r Hld ltac:(lia)).
  pose (olr2 := with_elements olr1 ((done ++ [r]) ++ drop (S i) init)).
  pose (h2 := <[lr := olr2]> (store c1)).
  assert (Hb : below cfg (rank T) (store c1) h2)
    by (eapply below_insert; [exact Hlr1 | simpl; rewrite Hsr; lia]).
  assert (Hev1' : evolves cfg (rank T) (store ctx) (store c1))
    by (eapply evolves_mono; [| exact Hev1]; lia).
  assert (Hl1' : store c1 !! l = Some o1).
  { eapply evolves_populated; [exact Hev1 | exact Hl1 |].
    intros E. rewrite E in Hx1. discriminate. }
  assert (Hl2' : store c1 !! lf = Some o2).
  { eapply evolves_populated; [exact Hev1 | exact Hl2 |].
    intros E. rewrite E in Hx2. discriminate. }
  split; [eapply frame_trans; [exact Hfr |];
          eapply frame_trans; [exact Hfr1 | apply frame_set_store] |].
  split.
  { simpl. eapply evolves_insert;
      [eapply evolves_trans; eassumption | exact Hlr | exact Hlr1
      | simpl; rewrite Hsr; lia]. }
  split; [simpl; rewrite list_lookup_insert_ne by congruence; exact Hl1' |].
  split; [simpl; rewrite list_lookup_insert_ne by congruence; exact Hl2' |].
  split.
  { simpl. eapply Forall2_wt_transport; [exact Hb | exact Hrk |].
    eapply Forall2_wt_evolves; eassumption. }
  split.
  { simpl. eapply Forall2_wt_transport; [exact Hb | exact Hrk |].
    eapply Forall2_wt_evolves; eassumption. }
  exists (done ++ [r]).
  split; [rewrite length_app; simpl; lia |].
  split.
  { simpl. apply list_lookup_insert_eq. eapply lookup_lt_Some, Hlr1. }
  split.
  { simpl. rewrite (take_S_r _ _ _ Hty). apply Forall2_app.
    - eapply Forall2_wt_transport;
        [exact Hb | apply Forall_take; exact Hrk |].
      eapply Forall2_wt_evolves; eassumption.
    - constructor; [| constructor].
      eapply wt_transport; [exact Hb | exact Hrty | exact Hwr]. }
  intros j ty' x1' x2' r' Hty' Hx1' Hx2' Hr'.
  pose proof (Forall_lookup_1 _ _ _ _ Hrk Hty') as Hrty'. simpl in Hrty'.
  pose proof (Forall2_lookup_lr _ _ _ _ _ _ Hw1 Hty' Hx1') as Hwx1'.
  pose proof (Forall2_lookup_lr _ _ _ _ _ _ Hw2 Hty' Hx2') as Hwx2'.
  destruct (decide (j < length done)%nat) as [Hj|Hj].
  - rewrite lookup_app_l in Hr' by exact Hj.
    destruct (Hm j ty' x1' x2' r' Hty' Hx1' Hx2' Hr') as [Hmj Hsj].
    split; [| exact Hsj].
    assert (Hwr' : wt cfg (store ctx) ty' r').
    { eapply Forall2_lookup_lr; [exact Hwd | | exact Hr'].
      rewrite lookup_take_lt by lia. exact Hty'. }
    simpl. eapply (merged_transport cfg (rank T) (store c1) _ f ty');
      [exact Hb | exact Hrty' | eapply wt_evolves; eassumption
      | eapply wt_evolves; eassumption | eapply wt_evolves; eassumption |].
    eapply merged_evolves; eassumption.
  - rewrite lookup_app_r in Hr' by lia.
    assert (Hji : j = i).
    { apply lookup_lt_Some in Hr'. simpl in Hr'. lia. }
    subst j. rewrite Hld, Nat.sub_diag in Hr'. injection Hr' as <-.
    rewrite Hty in Hty'. injection Hty' as <-.
    rewrite Hx1 in Hx1'. injection Hx1' as <-.
    rewrite Hx2 in Hx2'. injection Hx2' as <-.
    split; [| split; [exact Hstr | exists ctx, c1; exact Hrun]].
    simpl. eapply (merged_transport cfg (rank T) (store c1) _ f ty);
      [exact Hb | exact Hrty | eapply wt_evolves; eassumption
      | eapply wt_evolves; eassumption | exact Hwr | exact Hmr].
Qed.

Lemma merge_loop ctx :
  merge_inv 0 ctx ->
  wp (for_loop (fun i =>
        do truepart <- get1 i;
        do falsepart <- get2 i;
        do result_ast <- ite f truepart c falsepart;
        set_element lr i result_ast) 0 (length tys)) ctx
     (fun _ c' => merge_inv (length tys) c').
Proof.
  intros H0.
  apply (wp_for_loop _ merge_inv (length tys) 0%nat ctx); [exact H0 | |].
  - intros i c1 Hi Hinv. apply merge_step; [lia | exact Hinv].
  - intros c1 Hinv. exact Hinv.
Qed.

(** Once every field is merged, the result term is the merge of the two
    operands. *)
Lemma merge_finish ctx :
  kind_matches (classify T) (kind olr) ->
  sort olr = convert_sort_cfg cfg T ->
  merge_inv (length tys) ctx ->
  wt cfg (store ctx) T (ast_ref lr)
  /\ merged (S f) cfg (store ctx) c (ast_ref l) (ast_ref lf) (ast_ref lr).
Proof.
  intros Hk Hs (Hfr & Hev & Hl1 & Hl2 & Hw1 & Hw2 & done & Hld & Hlrr & Hwd & Hm).
  rewrite drop_ge, app_nil_r in Hlrr by lia.
  rewrite take_ge in Hwd by lia.
  pose proof (Forall2_length _ _ _ Hw1) as Hlen1.
  pose proof (Forall2_length _ _ _ Hw2) as Hlen2.
  split.
  - eapply wt_populated; [exact Hlrr | exact Hk | exact Hs | exact Hct
                         | exact Hwd].
  - assert (Hfield : forall j x1 x2 r,
              elements o1 !! j = Some x1 -> elements o2 !! j = Some x2 ->
              done !! j = Some r -> merged f cfg (store ctx) c x1 x2 r).
    { intros j x1 x2 r Hx1 Hx2 Hr.
      destruct (lookup_lt_is_Some_2 tys j) as [ty Hty];
        [apply lookup_lt_Some in Hx1; lia |].
      eapply Hm; eassumption. }
    assert (Hc1 : complete cfg o1 = true)
      by (eapply complete_children; eassumption).
    assert (Hc2 : complete cfg o2 = true)
      by (eapply complete_children; eassumption).
    assert (Hcr : complete cfg (with_elements olr done) = true)
      by (eapply complete_children; [exact Hct | exact Hwd]).
    intros m b Hc.
    rewrite (denote_ref f cfg _ m l o1 Hl1 Hc1).
    rewrite (denote_ref f cfg _ m lf o2 Hl2 Hc2).
    rewrite (denote_ref f cfg _ m lr _ Hlrr Hcr).
    cbn [elements with_elements].
    split; [| split].
    + apply fmap_is_Some, mapM_is_Some, Forall_lookup. intros j x1 Hx1.
      destruct (lookup_lt_is_Some_2 (elements o2) j) as [x2 Hx2];
        [apply lookup_lt_Some in Hx1; lia |].
      destruct (lookup_lt_is_Some_2 done j) as [r Hr];
        [apply lookup_lt_Some in Hx1; lia |].
      apply (Hfield j x1 x2 r Hx1 Hx2 Hr m b Hc).
    + apply fmap_is_Some, mapM_is_Some, Forall_lookup. intros j x2 Hx2.
      destruct (lookup_lt_is_Some_2 (elements o1) j) as [x1 Hx1];
        [apply lookup_lt_Some in Hx2; lia |].
      destruct (lookup_lt_is_Some_2 done j) as [r Hr];
        [apply lookup_lt_Some in Hx2; lia |].
      apply (Hfield j x1 x2 r Hx1 Hx2 Hr m b Hc).
    + destruct b.
      * rewrite (denote_ref f cfg _ m l o1 Hl1 Hc1). f_equal.
        apply mapM_ext_lookup; [lia |]. intros j r x1 Hr Hx1.
        destruct (lookup_lt_is_Some_2 (elements o2) j) as [x2 Hx2];
          [apply lookup_lt_Some in Hx1; lia |].
        apply (Hfield j x1 x2 r Hx1 Hx2 Hr m true Hc).
      * rewrite (denote_ref f cfg _ m lf o2 Hl2 Hc2). f_equal.
        apply mapM_ext_lookup; [lia |]. intros j r x2 Hr Hx2.
        destruct (lookup_lt_is_Some_2 (elements o1) j) as [x1 Hx1];
          [apply lookup_lt_Some in Hx2; lia |].
        apply (Hfield j x1 x2 r Hx1 Hx2 Hr m false Hc).
Qed.

End MergeLoop.

(** ** Merging two Tuple terms *)

Lemma kind_matches_tuple T k :
  classify T = CTuple -> kind_matches (classify T) k -> k = Tuple.
Proof. intros -> H. destruct k; [reflexivity | destruct H]. Qed.

Lemma mergeable_members cfg T data :
  classify T = CTuple -> mergeable T = true ->
  type_def cfg T = Some data ->
  supported T = true /\ members_constructible data = true
  /\ Forall (fun it => mergeable it = true) (members data).
Proof.
  intros Hcl Hmg Hd. unfold mergeable in Hmg.
  apply andb_true_iff in Hmg as [_ Hsup].
  destruct (supported_members cfg T data Hsup Hd) as [Hmc Hmem].
  split; [exact Hsup |]. split; [exact Hmc |].
  eapply Forall_impl; [exact Hmem |]. intros it [H1 H2].
  unfold mergeable. rewrite H1, H2. reflexivity.
Qed.

Lemma settled_project cfg h T T' data l o ctx i x :
  settled cfg h T l o (members data) ->
  classify T = CTuple ->
  thetype (convert_sort_cfg cfg T) = Some T' ->
  type_def cfg T' = Some data ->
  config ctx = cfg -> store ctx !! l = Some o ->
  elements o !! i = Some x ->
  project (ast_ref l) i ctx = Ok x ctx.
Proof.
  intros (_ & Hk & Hs & _ & Hch) Hcl HT' Hd' Hcfg Hl Hx.
  eapply (project_populated ctx l o T' data).
  - exact Hl.
  - eapply kind_matches_tuple; eassumption.
  - rewrite Hs. exact HT'.
  - rewrite Hcfg. exact Hd'.
  - apply Forall2_length in Hch. rewrite Hch.
    eapply lookup_lt_Some, Hx.
  - exact Hx.
Qed.

(** The fields of the result of a merge of two Tuple terms: field [j]
    of the result is the merge of the operands' fields [j]. *)
Definition fields_post (cfg : configt) (c : smt_astt) (f : nat)
  (tys : list type2t) (l lf : nat) (a : smt_astt) (ctx' : smt_convt)
  : Prop :=
  exists lr o1 o2 orr,
    a = ast_ref lr
    /\ store ctx' !! l = Some o1 /\ store ctx' !! lf = Some o2
    /\ store ctx' !! lr = Some orr
    /\ length (elements o1) = length tys
    /\ length (elements o2) = length tys
    /\ length (elements orr) = length tys
    /\ forall j ty x1 x2 r,
         tys !! j = Some ty ->
         elements o1 !! j = Some x1 -> elements o2 !! j = Some x2 ->
         elements orr !! j = Some r ->
         merged f cfg (store ctx') c x1 x2 r
         /\ (classify ty = CPlain ->
             exists s, r = ast_func_app s SMT_FUNC_ITE [c; x1; x2])
         /\ exists ca cb, ite f x1 c x2 ca = Ok r cb.

Lemma tuple_ite_spec c f T data l lf ctx :
  (forall ty x1 x2 ctx',
      config ctx' = config ctx -> (rank ty < f)%nat ->
      mergeable ty = true ->
      wt (config ctx) (store ctx') ty x1 ->
      wt (config ctx) (store ctx') ty x2 ->
      wp (ite f x1 c x2) ctx' (ite_post (config ctx) c f ty x1 x2 ctx')) ->
  (rank T <= f)%nat -> classify T = CTuple -> mergeable T = true ->
  type_def (config ctx) T = Some data ->
  wt (config ctx) (store ctx) T (ast_ref l) ->
  wt (config ctx) (store ctx) T (ast_ref lf) ->
  wp (tuple_ite (ite f) l c (ast_ref lf)) ctx
     (fun a ctx' =>
        ite_post (config ctx) c (S f) T (ast_ref l) (ast_ref lf) ctx a ctx'
        /\ fields_post (config ctx) c f (members data) l lf a ctx').
Proof.
  intros IH Hrk Hcl Hmg Hd Hw1 Hw2.
  destruct (tuple_sort_type (config ctx) T Hcl)
    as (T' & data' & HT' & Hd' & Hd2).
  rewrite Hd in Hd2. injection Hd2 as <-.
  destruct (mergeable_members _ _ _ Hcl Hmg Hd) as (Hsup & Hmc & Hmem).
  destruct (wt_ref_inv _ _ _ _ Hw1) as (o1 & Hl1 & Hk1 & Hs1 & _).
  destruct (wt_ref_inv _ _ _ _ Hw2) as (o2 & Hl2 & Hk2 & Hs2 & _).
  assert (Hty1 : thetype (sort o1) = Some T') by (rewrite Hs1; exact HT').
  pose proof (lookup_lt_Some _ _ _ Hl1) as Hlt1.
  pose proof (lookup_lt_Some _ _ _ Hl2) as Hlt2.
  unfold tuple_ite.
  apply wp_bind. eapply wp_deref; [exact Hl1 |].
  apply wp_bind. eapply wp_to_tuple_ast; [exact Hl2 |].
  apply wp_bind. eapply wp_to_tuple_sort; [exact Hty1 |].
  apply wp_bind, wp_mk_fresh_name.
  apply wp_bind, wp_new_tuple_smt_ast.
  cbn [store bump].
  set (olr := mk_tuple_smt_ast Tuple (sort o1) _ []).
  set (lr := length (store ctx)).
  set (ctx2 := set_store (store ctx ++ [olr]) (bump ctx)).
  assert (Hlr2 : store ctx2 !! lr = Some olr).
  { unfold ctx2, lr. simpl. rewrite lookup_app_r by lia.
    rewrite Nat.sub_diag. reflexivity. }
  assert (Hsr : sort_rank (sort olr) = rank T).
  { unfold olr. simpl. rewrite Hs1. apply sort_rank_convert. congruence. }
  assert (Hct : child_types (config ctx) olr = Some (members data))
    by (eapply child_types_tuple; [reflexivity | exact Hty1 | exact Hd']).
  apply wp_bind. eapply wp_to_tuple_ast; [exact Hlr2 |].
  (* both operands are materialised *)
  apply wp_bind.
  eapply wp_mono;
    [apply (make_free_settles ctx2 l T data Hcl Hsup Hd);
     apply (wt_app (config ctx) (store ctx) [olr]); exact Hw1 |].
  intros [] c3 (Hfr3 & Hev3 & Hoth3 & o1' & Hset1).
  change (config ctx2) with (config ctx) in *.
  assert (Hc3 : config c3 = config ctx) by (destruct Hfr3 as (-> & _); reflexivity).
  pose proof (make_free_settles c3 lf T data Hcl Hsup) as Hmf.
  rewrite Hc3 in Hmf.
  apply wp_bind.
  eapply wp_mono;
    [apply Hmf; [exact Hd |];
     eapply wt_evolves; [exact Hev3 |];
     apply (wt_app (config ctx) (store ctx) [olr]); exact Hw2 |].
  clear Hmf.
  intros [] c4 (Hfr4 & Hev4 & Hoth4 & o2' & Hset2).
  assert (Hc4 : config c4 = config ctx)
    by (destruct Hfr4 as (-> & _); exact Hc3).
  pose proof (settled_evolves _ _ _ _ _ _ _ _ Hev4 Hset1) as Hset1'.
  assert (Hlr4 : store c4 !! lr = Some olr).
  { apply Hoth4; [unfold lr; lia |]. apply Hoth3; [unfold lr; lia |].
    exact Hlr2. }
  apply wp_bind. eapply wp_get_type_def; [rewrite Hc4; exact Hd' |].
  apply wp_bind. eapply wp_resize_elements; [exact Hlr4 |].
  cbn [elements olr length]. rewrite take_nil, Nat.sub_0_r, app_nil_l.
  set (n := length (members data)).
  set (c5 := set_store _ c4).
  pose proof (child_types_rank _ _ _ Hct) as Hrkm. rewrite Hsr in Hrkm.
  destruct Hset1' as (Hl1' & Hk1' & Hs1' & Hct1 & Hch1).
  destruct Hset2 as (Hl2' & Hk2' & Hs2' & Hct2 & Hch2).
  assert (Hb : below (config ctx) (rank T) (store c4) (store c5))
    by (eapply below_insert; [exact Hlr4 | rewrite Hsr; lia]).
  assert (Hinv : merge_inv (config ctx) c f T (members data) l lf lr
                   o1' o2' olr (replicate n ast_null) (store ctx) ctx
                   0 c5).
  { split.
    { eapply frame_trans; [| eapply frame_trans; [exact Hfr3 |];
                             eapply frame_trans; [exact Hfr4 |];
                             apply frame_set_store].
      repeat split. }
    split.
    { unfold c5. cbn [store set_store].
      eapply evolves_insert;
        [| unfold lr; lia | exact Hlr4 | rewrite Hsr; lia].
      eapply evolves_trans; [| exact Hev4].
      eapply evolves_trans; [| exact Hev3].
      apply evolves_app. }
    split.
    { unfold c5. cbn [store set_store].
      rewrite list_lookup_insert_ne by (unfold lr; lia). exact Hl1'. }
    split.
    { unfold c5. cbn [store set_store].
      rewrite list_lookup_insert_ne by (unfold lr; lia). exact Hl2'. }
    split; [eapply Forall2_wt_transport; eassumption |].
    split; [eapply Forall2_wt_transport; eassumption |].
    exists []. split; [reflexivity |]. split.
    { unfold c5. cbn [store set_store]. rewrite drop_0.
      apply list_lookup_insert_eq. eapply lookup_lt_Some, Hlr4. }
    split; [constructor |].
    intros j ty x1 x2 r _ _ _ Hr. rewrite lookup_nil in Hr. discriminate. }
  apply wp_bind.
  eapply wp_mono;
    [apply (merge_loop (config ctx) c f T (members data) l lf lr
              o1' o2' olr (replicate n ast_null) (store ctx) ctx
              (fun i => project (ast_ref l) i)
              (fun i => project (ast_ref lf) i) IH);
     [| reflexivity | unfold lr; lia | exact Hsr | exact Hct
      | unfold lr; lia | unfold lr; lia | apply length_replicate
      | | | exact Hinv] |].
  - apply Forall_forall. intros ty Hin. split.
    + rewrite Forall_forall in Hrkm. specialize (Hrkm ty Hin). simpl in Hrkm.
      lia.
    + rewrite Forall_forall in Hmem. apply Hmem, Hin.
  - intros ctx' i x Hcfg Hl Hx.
    eapply (settled_project (config ctx) (store c4) T T' data l o1');
      [repeat split; eassumption | exact Hcl | exact HT' | exact Hd'
      | exact Hcfg | exact Hl | exact Hx].
  - intros ctx' i x Hcfg Hl Hx.
    eapply (settled_project (config ctx) (store c4) T T' data lf o2');
      [repeat split; eassumption | exact Hcl | exact HT' | exact Hd'
      | exact Hcfg | exact Hl | exact Hx].
  - intros [] c6 Hfin. apply wp_ret.
    destruct (merge_finish (config ctx) c f T (members data) l lf lr
                o1' o2' olr (replicate n ast_null) (store ctx) ctx
                ltac:(unfold lr; lia) Hsr Hct Hct1 Hct2
                ltac:(unfold lr; lia) ltac:(unfold lr; lia)
                (length_replicate _ _) c6
                ltac:(rewrite Hcl; exact I) Hs1 Hfin) as [Hwr Hmr].
    destruct Hfin as (Hfr6 & Hev6 & Hl16 & Hl26 & Hw16 & Hw26 & done
                      & Hld & Hlr6 & Hwd & Hm6).
    rewrite drop_ge, app_nil_r in Hlr6 by (rewrite length_replicate; lia).
    split.
    + split; [exact Hfr6 |]. split; [exact Hev6 |]. split; [exact Hwr |].
      split; [intros k [= <-]; unfold lr; lia |].
      split; [intros E; congruence | exact Hmr].
    + exists lr, o1', o2', (with_elements olr done).
      split; [reflexivity |]. split; [exact Hl16 |]. split; [exact Hl26 |].
      split; [exact Hlr6 |].
      split; [symmetry; eapply Forall2_length, Hw16 |].
      split; [symmetry; eapply Forall2_length, Hw26 |].
      split; [exact Hld | exact Hm6].
Qed.

(** ** Merging two TupleArray terms *)

Lemma child_types_array cfg o b sub sz inf data :
  kind o = TupleArray b ->
  thetype (sort o) = Some (array_type2t sub sz inf) ->
  type_def cfg sub = Some data ->
  child_types cfg o
  = Some (map (fun it => field_array_type it sz inf) (members data)).
Proof.
  intros Hk Hty Hd. unfold child_types. rewrite Hty, Hk, Hd. reflexivity.
Qed.

Lemma elem_supported_type_def cfg sub :
  elem_supported sub = true -> exists data, type_def cfg sub = Some data.
Proof.
  destruct sub; simpl; try discriminate; intros _; eexists; reflexivity.
Qed.

Lemma mergeable_field_array it sz inf :
  (if is_tuple_ast_type it then elem_supported it
   else negb (is_tuple_array_ast_type it)) = true ->
  mergeable (field_array_type it sz inf) = true.
Proof.
  intros H. unfold mergeable, field_array_type. simpl.
  rewrite andb_true_r.
  destruct (is_tuple_ast_type it); simpl; [exact H |].
  apply negb_true_iff in H. rewrite H. reflexivity.
Qed.

Lemma elem_supported_fields cfg sub data sz inf :
  elem_supported sub = true -> type_def cfg sub = Some data ->
  Forall (fun ty => mergeable ty = true)
         (map (fun it => field_array_type it sz inf) (members data)).
Proof.
  intros Hsup Hd. apply Forall_forall. intros ty Hin.
  apply list_elem_of_In, in_map_iff in Hin as (it & <- & Hit).
  apply mergeable_field_array.
  destruct sub; simpl in Hsup, Hd; try discriminate; injection Hd as <-.
  - simpl in Hit. destruct Hit as [<-|[<-|[]]]; reflexivity.
  - apply andb_true_iff in Hsup as [_ Hms].
    rewrite forallb_forall in Hms. apply (Hms it Hit).
  - apply andb_true_iff in Hsup as [_ Hms].
    rewrite forallb_forall in Hms. apply (Hms it Hit).
Qed.

Lemma array_ite_spec c f sub sz inf l lf ctx :
  let T := array_type2t sub sz inf in
  (forall ty x1 x2 ctx',
      config ctx' = config ctx -> (rank ty < f)%nat ->
      mergeable ty = true ->
      wt (config ctx) (store ctx') ty x1 ->
      wt (config ctx) (store ctx') ty x2 ->
      wp (ite f x1 c x2) ctx' (ite_post (config ctx) c f ty x1 x2 ctx')) ->
  (rank T <= f)%nat -> classify T = CTupleArray -> mergeable T = true ->
  wt (config ctx) (store ctx) T (ast_ref l) ->
  wt (config ctx) (store ctx) T (ast_ref lf) ->
  wp (array_ite (ite f) l c (ast_ref lf)) ctx
     (ite_post (config ctx) c (S f) T (ast_ref l) (ast_ref lf) ctx).
Proof.
  intros T IH Hrk Hcl Hmg Hw1 Hw2.
  assert (Hta : is_tuple_array_ast_type T = true).
  { unfold classify in Hcl. simpl in Hcl |- *.
    destruct (is_tuple_ast_type sub || is_tuple_array_ast_type sub);
      [reflexivity | discriminate]. }
  assert (Hes : elem_supported sub = true).
  { unfold mergeable, member_constructible in Hmg. unfold T in Hmg, Hta.
    rewrite Hta in Hmg. apply andb_true_iff in Hmg. apply Hmg. }
  pose proof (elem_supported_is_tuple _ Hes) as Hsub.
  destruct (elem_supported_type_def (config ctx) sub Hes) as [data Hd].
  set (tys := map (fun it => field_array_type it sz inf) (members data)).
  assert (HT : thetype (convert_sort_cfg (config ctx) T) = Some T).
  { unfold T. simpl. rewrite Hsub. reflexivity. }
  destruct (wt_ref_inv _ _ _ _ Hw1) as (o1 & Hl1 & Hk1 & Hs1 & Hch1).
  destruct (wt_ref_inv _ _ _ _ Hw2) as (o2 & Hl2 & Hk2 & Hs2 & Hch2).
  rewrite Hcl in Hk1, Hk2.
  destruct (kind o1) as [|b1] eqn:Hko1; [destruct Hk1 |].
  destruct (kind o2) as [|b2] eqn:Hko2; [destruct Hk2 |].
  assert (Hty1 : thetype (sort o1) = Some T) by (rewrite Hs1; exact HT).
  assert (Hty2 : thetype (sort o2) = Some T) by (rewrite Hs2; exact HT).
  pose proof (child_types_array _ _ _ _ _ _ _ Hko1 Hty1 Hd) as Hct1.
  pose proof (child_types_array _ _ _ _ _ _ _ Hko2 Hty2 Hd) as Hct2.
  destruct Hch1 as [[Hx _]|(tys1 & Hct1' & Hch1)]; [discriminate |].
  destruct Hch2 as [[Hx _]|(tys2 & Hct2' & Hch2)]; [discriminate |].
  rewrite Hct1 in Hct1'. injection Hct1' as <-.
  rewrite Hct2 in Hct2'. injection Hct2' as <-.
  fold tys in Hct1, Hct2, Hch1, Hch2.
  pose proof (lookup_lt_Some _ _ _ Hl1) as Hlt1.
  pose proof (lookup_lt_Some _ _ _ Hl2) as Hlt2.
  unfold array_ite.
  apply wp_bind. eapply wp_deref; [exact Hl1 |].
  apply wp_bind. unfold to_array_ast.
  apply wp_bind. eapply wp_deref; [exact Hl2 |]. rewrite Hko2.
  apply wp_ret.
  apply wp_bind. eapply wp_to_tuple_sort; [exact Hty1 |].
  apply wp_bind. apply wp_assert_that; [reflexivity |].
  apply wp_bind. apply wp_ret.
  apply wp_bind, wp_mk_fresh_name.
  apply wp_bind. rewrite Hs1.
  eapply wp_mono; [apply (new_array_smt_ast_spec sub sz inf _ (bump ctx) Hes) |].
  intros a c2 ((Hfr2 & news & Hst2 & _) & data' & es0 & Hd2 & -> & Hlr2 & Hnc).
  change (config (bump ctx)) with (config ctx) in *.
  cbn [store bump] in *.
  rewrite Hd in Hd2. injection Hd2 as <-.
  set (lr := length (store ctx)) in *.
  set (olr := mk_tuple_smt_ast (TupleArray true)
                (convert_sort_cfg (config ctx) (array_type2t sub sz inf))
                _ es0) in *.
  assert (Hc2 : config c2 = config ctx)
    by (destruct Hfr2 as (-> & _); reflexivity).
  assert (Hsr : sort_rank (sort olr) = rank T).
  { unfold olr. cbn [sort]. apply sort_rank_convert. fold T. congruence. }
  assert (Hct : child_types (config ctx) olr = Some tys)
    by (eapply child_types_array; [reflexivity | exact HT | exact Hd]).
  assert (Hinit : length es0 = length tys).
  { apply named_children_length in Hnc. exact Hnc. }
  apply wp_bind. eapply wp_to_tuple_ast; [exact Hlr2 |].
  apply wp_bind. cbn [fst]. eapply wp_get_type_def; [rewrite Hc2; exact Hd |].
  pose proof (child_types_rank _ _ _ Hct) as Hrkm. rewrite Hsr in Hrkm.
  assert (Hinv : merge_inv (config ctx) c f T tys l lf lr
                   o1 o2 olr es0 (store ctx) ctx 0 c2).
  { split.
    { eapply frame_trans; [| exact Hfr2]. repeat split. }
    split; [rewrite Hst2; apply evolves_app |].
    split; [rewrite Hst2; apply lookup_app_l_Some, Hl1 |].
    split; [rewrite Hst2; apply lookup_app_l_Some, Hl2 |].
    split.
    { rewrite Hst2. eapply Forall2_impl; [exact Hch1 |].
      intros ty e. apply wt_app. }
    split.
    { rewrite Hst2. eapply Forall2_impl; [exact Hch2 |].
      intros ty e. apply wt_app. }
    exists []. split; [reflexivity |]. split; [rewrite drop_0; exact Hlr2 |].
    split; [constructor |].
    intros j ty x1 x2 r _ _ _ Hr. rewrite lookup_nil in Hr. discriminate. }
  apply wp_bind.
  replace (length (members data)) with (length tys)
    by (unfold tys; apply length_map).
  eapply wp_mono;
    [apply (merge_loop (config ctx) c f T tys l lf lr
              o1 o2 olr es0 (store ctx) ctx
              (fun i => get_element l i)
              (fun i => get_element lf i) IH);
     [| reflexivity | unfold lr; lia | exact Hsr | exact Hct
      | unfold lr; lia | unfold lr; lia | exact Hinit
      | | | exact Hinv] |].
  - pose proof (elem_supported_fields (config ctx) sub data sz inf Hes Hd)
      as Hmem.
    apply Forall_forall. intros ty Hin. split.
    + rewrite Forall_forall in Hrkm. specialize (Hrkm ty Hin).
      unfold T in Hrkm, Hrk. simpl in Hrkm, Hrk. lia.
    + rewrite Forall_forall in Hmem. apply Hmem, Hin.
  - intros ctx' i x _ Hl Hx. eapply get_element_run; eassumption.
  - intros ctx' i x _ Hl Hx. eapply get_element_run; eassumption.
  - intros [] c6 Hfin. apply wp_ret.
    destruct (merge_finish (config ctx) c f T tys l lf lr
                o1 o2 olr es0 (store ctx) ctx
                ltac:(unfold lr; lia) Hsr Hct Hct1 Hct2
                ltac:(unfold lr; lia) ltac:(unfold lr; lia)
                Hinit c6
                ltac:(rewrite Hcl; exact I) eq_refl Hfin) as [Hwr Hmr].
    destruct Hfin as (Hfr6 & Hev6 & _).
    split; [exact Hfr6 |]. split; [exact Hev6 |]. split; [exact Hwr |].
    split; [intros k [= <-]; unfold lr; lia |].
    split; [intros E; congruence | exact Hmr].
Qed.

(** ** The merge of two well-formed terms *)

Lemma ite_plain_run f c t1 t2 ctx :
  is_plain t1 = true ->
  exists s,
    ite (S f) t1 c t2 ctx = Ok (ast_func_app s SMT_FUNC_ITE [c; t1; t2]) ctx.
Proof. destruct t1; try discriminate; intros _; eexists; reflexivity. Qed.

Lemma ite_tuple_run f c l t2 ctx o :
  store ctx !! l = Some o -> kind o = Tuple ->
  ite (S f) (ast_ref l) c t2 ctx = tuple_ite (ite f) l c t2 ctx.
Proof.
  intros Hl Hk. cbn [ite]. unfold bind at 1.
  rewrite (deref_ok _ _ _ Hl), Hk. reflexivity.
Qed.

Lemma ite_array_run f c l t2 ctx o b :
  store ctx !! l = Some o -> kind o = TupleArray b ->
  ite (S f) (ast_ref l) c t2 ctx = array_ite (ite f) l c t2 ctx.
Proof.
  intros Hl Hk. cbn [ite]. unfold bind at 1.
  rewrite (deref_ok _ _ _ Hl), Hk. reflexivity.
Qed.

Lemma wp_eq {A} (m m' : M A) ctx (Q : A -> smt_convt -> Prop) :
  m ctx = m' ctx -> wp m' ctx Q -> wp m ctx Q.
Proof. unfold wp. intros ->. exact (fun H => H). Qed.

(** [ite] merges two well-formed terms of any mergeable type, given
    fuel beyond the nesting depth of the type. *)
Lemma ite_spec c :
  forall fuel T t1 t2 ctx,
    (rank T < fuel)%nat -> mergeable T = true ->
    wt (config ctx) (store ctx) T t1 -> wt (config ctx) (store ctx) T t2 ->
    wp (ite fuel t1 c t2) ctx (ite_post (config ctx) c fuel T t1 t2 ctx).
Proof.
  induction fuel as [|f IH]; intros T t1 t2 ctx Hrk Hmg Hw1 Hw2; [lia |].
  assert (IH' : forall ty x1 x2 ctx',
             config ctx' = config ctx -> (rank ty < f)%nat ->
             mergeable ty = true ->
             wt (config ctx) (store ctx') ty x1 ->
             wt (config ctx) (store ctx') ty x2 ->
             wp (ite f x1 c x2) ctx'
                (ite_post (config ctx) c f ty x1 x2 ctx')).
  { intros ty x1 x2 ctx' Hc Hr Hm H1 H2. rewrite <- Hc in H1, H2 |- *.
    apply IH; assumption. }
  destruct (classify T) eqn:Hcl.
  - pose proof (wt_plain_inv _ _ _ _ Hcl Hw1) as Hp1.
    pose proof (wt_plain_inv _ _ _ _ Hcl Hw2) as Hp2.
    destruct (ite_plain_run f c t1 t2 ctx Hp1) as [s Hrun].
    eapply wp_of_ok; [exact Hrun |].
    split; [apply frame_refl |]. split; [apply evolves_refl |].
    split; [apply wt_plain; [exact Hcl | reflexivity] |].
    split; [intros k; discriminate |].
    split; [intros _; exists s; reflexivity |].
    apply merged_plain; assumption.
  - assert (Hnp : classify T <> CPlain) by congruence.
    destruct (wt_structured_inv _ _ _ _ Hnp Hw1) as [l ->].
    destruct (wt_structured_inv _ _ _ _ Hnp Hw2) as [lf ->].
    destruct (wt_ref_inv _ _ _ _ Hw1) as (o1 & Hl1 & Hk1 & _).
    pose proof (kind_matches_tuple _ _ Hcl Hk1) as Hko1.
    destruct (tuple_sort_type (config ctx) T Hcl) as (T' & data & _ & _ & Hd).
    eapply wp_eq; [eapply ite_tuple_run; eassumption |].
    eapply wp_mono;
      [apply (tuple_ite_spec c f T data l lf ctx IH'); try assumption; lia |].
    intros a c' [H _]. exact H.
  - destruct T as [| | | | |sub sz inf| |];
      try (exfalso; unfold classify in Hcl; simpl in Hcl; congruence).
    assert (Hnp : classify (array_type2t sub sz inf) <> CPlain) by congruence.
    destruct (wt_structured_inv _ _ _ _ Hnp Hw1) as [l ->].
    destruct (wt_structured_inv _ _ _ _ Hnp Hw2) as [lf ->].
    destruct (wt_ref_inv _ _ _ _ Hw1) as (o1 & Hl1 & Hk1 & _).
    rewrite Hcl in Hk1.
    destruct (kind o1) as [|b1] eqn:Hko1; [destruct Hk1 |].
    eapply wp_eq; [eapply ite_array_run; eassumption |].
    apply (array_ite_spec c f sub sz inf l lf ctx IH');
      try assumption; lia.
Qed.

(** ** The merge law *)

Lemma mergeable_tuple T :
  classify T = CTuple -> supported T = true -> mergeable T = true.
Proof.
  intros Hcl Hsup. unfold mergeable. rewrite Hsup, andb_true_r.
  destruct T; try reflexivity.
  unfold classify in Hcl. simpl in Hcl.
  destruct (is_tuple_ast_type T || is_tuple_array_ast_type T); discriminate.
Qed.

Lemma wt_tuple_object cfg h T T' data l o :
  classify T = CTuple ->
  thetype (convert_sort_cfg cfg T) = Some T' ->
  type_def cfg T' = Some data ->
  wt cfg h T (ast_ref l) -> h !! l = Some o ->
  kind o = Tuple /\ thetype (sort o) = Some T'.
Proof.
  intros Hcl HT' Hd Hwt Hl.
  destruct (wt_ref_inv _ _ _ _ Hwt) as (o' & Hl' & Hk & Hs & _).
  rewrite Hl in Hl'. injection Hl' as <-.
  split; [eapply kind_matches_tuple; eassumption | rewrite Hs; exact HT'].
Qed.

(** C2. Merge law.  For two well-formed Tuple terms [t1] and [t2] of a
    structured type [T], a condition [c] and fuel beyond the nesting
    depth of [T], [ite] returns a fresh well-formed Tuple term of type
    [T] and adds no assertion.  For every field [i], the projection of
    the result is the merge of the projections of [t1] and [t2]: it is
    what [ite] returns for them, the back end's if-then-else term when
    the field is plain, and under every model that gives [c] a boolean
    value its value is the value of field [i] of [t1] when [c] holds and
    of [t2] otherwise. *)
Theorem merge_law :
  forall (ctx : smt_convt) (T : type2t) (data : struct_union_data)
         (t1 t2 c : smt_astt) (f : nat),
    classify T = CTuple -> supported T = true ->
    type_def (config ctx) T = Some data ->
    wt (config ctx) (store ctx) T t1 -> wt (config ctx) (store ctx) T t2 ->
    (rank T <= f)%nat ->
    exists lr ctx',
      ite (S f) t1 c t2 ctx = Ok (ast_ref lr) ctx'
      /\ (length (store ctx) <= lr)%nat
      /\ assertions ctx' = assertions ctx
      /\ wt (config ctx) (store ctx') T (ast_ref lr)
      /\ forall i ty, members data !! i = Some ty ->
           exists x1 x2 r,
             project t1 i ctx' = Ok x1 ctx'
             /\ project t2 i ctx' = Ok x2 ctx'
             /\ project (ast_ref lr) i ctx' = Ok r ctx'
             /\ (exists ca cb, ite f x1 c x2 ca = Ok r cb)
             /\ (classify ty = CPlain ->
                 exists s, r = ast_func_app s SMT_FUNC_ITE [c; x1; x2])
             /\ forall m b, eval m c = Some (VBool b) ->
                  exists v1 v2,
                    denote f (config ctx) (store ctx') m x1 = Some v1
                    /\ denote f (config ctx) (store ctx') m x2 = Some v2
                    /\ denote f (config ctx) (store ctx') m r
                       = Some (if b then v1 else v2).
Proof.
  intros ctx T data t1 t2 c f Hcl Hsup Hd Hw1 Hw2 Hrk.
  pose proof (mergeable_tuple T Hcl Hsup) as Hmg.
  assert (Hnp : classify T <> CPlain) by congruence.
  destruct (wt_structured_inv _ _ _ _ Hnp Hw1) as [l ->].
  destruct (wt_structured_inv _ _ _ _ Hnp Hw2) as [lf ->].
  destruct (wt_ref_inv _ _ _ _ Hw1) as (o1 & Hl1 & Hk1 & _).
  pose proof (kind_matches_tuple _ _ Hcl Hk1) as Hko1.
  destruct (tuple_sort_type (config ctx) T Hcl)
    as (T' & data' & HT' & Hd' & Hd2).
  rewrite Hd in Hd2. injection Hd2 as <-.
  assert (IH : forall ty x1 x2 ctx',
             config ctx' = config ctx -> (rank ty < f)%nat ->
             mergeable ty = true ->
             wt (config ctx) (store ctx') ty x1 ->
             wt (config ctx) (store ctx') ty x2 ->
             wp (ite f x1 c x2) ctx'
                (ite_post (config ctx) c f ty x1 x2 ctx')).
  { intros ty x1 x2 ctx' Hc Hr Hm H1 H2. rewrite <- Hc in H1, H2 |- *.
    apply ite_spec; assumption. }
  destruct (proj1 (wp_ok _ _ _)
              (tuple_ite_spec c f T data l lf ctx IH Hrk Hcl Hmg Hd Hw1 Hw2))
    as (a & ctx' & Hrun & (Hfr & Hev & Hwr & Hfresh & _ & _)
        & lr & o1' & o2' & orr & -> & Hl1' & Hl2' & Hlr' & Hn1 & Hn2 & Hnr
        & Hfields).
  assert (Hc' : config ctx' = config ctx) by apply Hfr.
  exists lr, ctx'.
  split; [rewrite (ite_tuple_run f c l (ast_ref lf) ctx o1 Hl1 Hko1);
          exact Hrun |].
  split; [apply Hfresh; reflexivity |].
  split; [apply Hfr |]. split; [exact Hwr |].
  intros i ty Hty.
  pose proof (lookup_lt_Some _ _ _ Hty) as Hi.
  destruct (lookup_lt_is_Some_2 (elements o1') i) as [x1 Hx1]; [lia |].
  destruct (lookup_lt_is_Some_2 (elements o2') i) as [x2 Hx2]; [lia |].
  destruct (lookup_lt_is_Some_2 (elements orr) i) as [r Hr]; [lia |].
  destruct (Hfields i ty x1 x2 r Hty Hx1 Hx2 Hr) as (Hm & Hstr & Hite).
  destruct (wt_tuple_object _ _ _ _ _ _ _ Hcl HT' Hd'
              (wt_evolves _ _ _ _ _ _ Hev Hw1) Hl1') as [Hka Hsa].
  destruct (wt_tuple_object _ _ _ _ _ _ _ Hcl HT' Hd'
              (wt_evolves _ _ _ _ _ _ Hev Hw2) Hl2') as [Hkb Hsb].
  destruct (wt_tuple_object _ _ _ _ _ _ _ Hcl HT' Hd' Hwr Hlr')
    as [Hkr Hsr].
  exists x1, x2, r.
  split; [eapply (project_populated ctx' l o1' T' data); try eassumption;
          rewrite Hc'; exact Hd' |].
  split; [eapply (project_populated ctx' lf o2' T' data); try eassumption;
          rewrite Hc'; exact Hd' |].
  split; [eapply (project_populated ctx' lr orr T' data); try eassumption;
          rewrite Hc'; exact Hd' |].
  split; [exact Hite |]. split; [exact Hstr |].
  intros m b Hc. destruct (Hm m b Hc) as ([v1 Hv1] & [v2 Hv2] & Heq).
  exists v1, v2. split; [exact Hv1 |]. split; [exact Hv2 |].
  rewrite Heq. destruct b; assumption.
Qed.

(** Two free Tuple terms of the nested example record. *)
Definition two_tuples_ctx : smt_convt :=
  mk_smt_convt example_config
    [mk_tuple_smt_ast Tuple (convert_sort_cfg example_config nested_struct)
       "t1." [];
     mk_tuple_smt_ast Tuple (convert_sort_cfg example_config nested_struct)
       "t2." []] 0 [] ast_null ast_null.

Definition example_condition : smt_astt := ast_symbol bool_sort "c".

Lemma merge_law_witness :
  exists lr ctx',
    ite 3 (ast_ref 0) example_condition (ast_ref 1) two_tuples_ctx
    = Ok (ast_ref lr) ctx'
    /\ (length (store two_tuples_ctx) <= lr)%nat
    /\ assertions ctx' = assertions two_tuples_ctx
    /\ wt (config two_tuples_ctx) (store ctx') nested_struct (ast_ref lr)
    /\ forall i ty,
         members (mk_struct_union_data [example_struct; signedbv_type2t 16]
                    ["inner"; "n"]) !! i = Some ty ->
         exists x1 x2 r,
           project (ast_ref 0) i ctx' = Ok x1 ctx'
           /\ project (ast_ref 1) i ctx' = Ok x2 ctx'
           /\ project (ast_ref lr) i ctx' = Ok r ctx'
           /\ (exists ca cb, ite 2 x1 example_condition x2 ca = Ok r cb)
           /\ (classify ty = CPlain ->
               exists s,
                 r = ast_func_app s SMT_FUNC_ITE [example_condition; x1; x2])
           /\ forall m b, eval m example_condition = Some (VBool b) ->
                exists v1 v2,
                  denote 2 (config two_tuples_ctx) (store ctx') m x1 = Some v1
                  /\ denote 2 (config two_tuples_ctx) (store ctx') m x2
                     = Some v2
                  /\ denote 2 (config two_tuples_ctx) (store ctx') m r
                     = Some (if b then v1 else v2).
Proof.
  apply (merge_law two_tuples_ctx nested_struct
           (mk_struct_union_data [example_struct; signedbv_type2t 16]
              ["inner"; "n"])
           (ast_ref 0) (ast_ref 1) example_condition 2).
  - reflexivity.
  - reflexivity.
  - reflexivity.
  - eapply (wt_free _ _ _ 0%nat); reflexivity.
  - eapply (wt_free _ _ _ 1%nat); reflexivity.
  - simpl. lia.
Defined.

(** * Further properties of the operations *)

(** ** Update of a materialised Tuple *)

Lemma tuple_update_spec conv fuel ctx l o v idx :
  store ctx !! l = Some o -> kind o = Tuple -> elements o <> [] ->
  (idx < length (elements o))%nat ->
  wp (update conv (S fuel) (ast_ref l) v idx nil_expr) ctx
     (fun a ctx' =>
        a = ast_ref (length (store ctx)) /\ frame ctx ctx'
        /\ store ctx'
           = store ctx
             ++ [mk_tuple_smt_ast Tuple (sort o)
                   ("tuple_update::" +:+ pretty (fresh_counter ctx) +:+ ".")
                   (<[idx := v]> (elements o))]).
Proof.
  intros Hl Hk Hne Hidx.
  cbn [update]. apply wp_bind. eapply wp_deref; [exact Hl |]. rewrite Hk.
  unfold tuple_update.
  apply wp_bind. eapply wp_deref; [exact Hl |].
  apply wp_bind. apply wp_assert_that; [reflexivity |].
  apply wp_bind, wp_mk_fresh_name. apply wp_bind, wp_new_tuple_smt_ast.
  cbn [store bump].
  apply wp_bind. eapply wp_to_tuple_ast.
  { simpl. rewrite lookup_app_r by lia. rewrite Nat.sub_diag. reflexivity. }
  apply wp_bind. eapply wp_set_elements.
  { simpl. rewrite lookup_app_r by lia. rewrite Nat.sub_diag. reflexivity. }
  apply wp_bind. eapply wp_of_ok.
  { eapply make_free_populated.
    - simpl. apply list_lookup_insert_eq. rewrite length_app. simpl. lia.
    - exact Hne. }
  apply wp_bind. eapply wp_set_element.
  { simpl. apply list_lookup_insert_eq. rewrite length_app. simpl. lia. }
  { exact Hidx. }
  apply wp_ret. split; [reflexivity |]. split; [repeat split |].
  simpl. rewrite list_insert_insert_eq.
  rewrite insert_app_r_alt by lia. rewrite Nat.sub_diag. reflexivity.
Qed.

(** X1. Update law for a materialised Tuple.  Updating field [idx] of a
    populated Tuple [t] with [v] returns a new Tuple at the next
    address, named from the tag [tuple_update::], whose children are
    those of [t] with [v] at [idx]; [t] is left as it was and no
    assertion is added.  Projecting field [idx] of the result gives
    [v], and projecting any other field gives the very child that the
    projection of [t] gives. *)
Theorem update_of_populated_tuple :
  forall (conv : expr2t -> M smt_astt) (fuel : nat) (ctx : smt_convt)
         (l : nat) (o : tuple_smt_ast) (ty : type2t)
         (data : struct_union_data) (v : smt_astt) (idx : nat),
    store ctx !! l = Some o -> kind o = Tuple ->
    thetype (sort o) = Some ty -> type_def (config ctx) ty = Some data ->
    length (elements o) = length (members data) ->
    (idx < length (members data))%nat ->
    exists ctx',
      update conv (S fuel) (ast_ref l) v idx nil_expr ctx
      = Ok (ast_ref (length (store ctx))) ctx'
      /\ store ctx'
         = store ctx
           ++ [mk_tuple_smt_ast Tuple (sort o)
                 ("tuple_update::" +:+ pretty (fresh_counter ctx) +:+ ".")
                 (<[idx := v]> (elements o))]
      /\ assertions ctx' = assertions ctx
      /\ project (ast_ref (length (store ctx))) idx ctx' = Ok v ctx'
      /\ forall j, (j < length (members data))%nat -> j <> idx ->
           exists x,
             elements o !! j = Some x
             /\ project (ast_ref (length (store ctx))) j ctx' = Ok x ctx'
             /\ project (ast_ref l) j ctx' = Ok x ctx'.
Proof.
  intros conv fuel ctx l o ty data v idx Hl Hk Hty Hd Hlen Hidx.
  assert (Hne : elements o <> []).
  { intros E. rewrite E in Hlen. simpl in Hlen. lia. }
  destruct (proj1 (wp_ok _ _ _)
              (tuple_update_spec conv fuel ctx l o v idx Hl Hk Hne
                 ltac:(lia)))
    as (a & ctx' & Hrun & -> & Hfr & Hst).
  exists ctx'. split; [exact Hrun |].
  set (r := mk_tuple_smt_ast Tuple (sort o) _ (<[idx := v]> (elements o)))
    in *.
  assert (Hlr : store ctx' !! length (store ctx) = Some r).
  { rewrite Hst, lookup_app_r by lia. rewrite Nat.sub_diag. reflexivity. }
  assert (Hl' : store ctx' !! l = Some o)
    by (rewrite Hst; apply lookup_app_l_Some, Hl).
  assert (Hd' : type_def (config ctx') ty = Some data)
    by (destruct Hfr as (-> & _); exact Hd).
  split; [exact Hst |]. split; [apply Hfr |]. split.
  - eapply (project_populated ctx' _ r ty data);
      [exact Hlr | reflexivity | exact Hty | exact Hd' | exact Hidx |].
    simpl. apply list_lookup_insert_eq. lia.
  - intros j Hj Hne'.
    destruct (lookup_lt_is_Some_2 (elements o) j ltac:(lia)) as [x Hx].
    exists x. split; [exact Hx |]. split.
    + eapply (project_populated ctx' _ r ty data);
        [exact Hlr | reflexivity | exact Hty | exact Hd' | exact Hj |].
      simpl. rewrite list_lookup_insert_ne by congruence. exact Hx.
    + eapply (project_populated ctx' l o ty data); eassumption.
Qed.

(** A populated Tuple of the example record. *)
Definition populated_tuple_ctx : smt_convt :=
  mk_smt_convt example_config
    [mk_tuple_smt_ast Tuple (convert_sort_cfg example_config example_struct)
       "t." [ast_symbol bv8_sort "t.a"; ast_symbol bool_sort "t.b"]]
    0 [] ast_null ast_null.

Lemma update_of_populated_tuple_witness :
  exists ctx',
    update (convert_ast 1) 1 (ast_ref 0) (ast_bvint bv8_sort 7) 0 nil_expr
      populated_tuple_ctx
    = Ok (ast_ref 1) ctx'
    /\ project (ast_ref 1) 0 ctx' = Ok (ast_bvint bv8_sort 7) ctx'
    /\ project (ast_ref 1) 1 ctx' = Ok (ast_symbol bool_sort "t.b") ctx'
    /\ project (ast_ref 0) 1 ctx' = Ok (ast_symbol bool_sort "t.b") ctx'.
Proof.
  destruct (update_of_populated_tuple (convert_ast 1) 0 populated_tuple_ctx
              0 _ example_struct
              (mk_struct_union_data [bv8; bool_type2t] ["a"; "b"])
              (ast_bvint bv8_sort 7) 0 eq_refl eq_refl eq_refl eq_refl
              eq_refl ltac:(simpl; lia))
    as (ctx' & Hrun & _ & _ & Hp & Hrest).
  exists ctx'. split; [exact Hrun |]. split; [exact Hp |].
  destruct (Hrest 1%nat ltac:(simpl; lia) ltac:(lia)) as (x & Hx & H1 & H2).
  simpl in Hx. injection Hx as <-. split; assumption.
Defined.

(** ** Misuse of update and select *)

Lemma wfatal_first {A B} (m : M A) (k : A -> M B) ctx P :
  wfatal m ctx P -> wfatal (bind m k) ctx P.
Proof. unfold wfatal, bind. destruct (m ctx); tauto. Qed.

(** X2. Misuse of [update] and [select] ends the run.  A Tuple cannot be
    updated at a symbolic index, and a plain term that is not an array
    can be neither updated nor selected from: each trips its assertion
    in an unchanged state.  The field index of a Tuple update is not
    checked against the number of children: an index past the end is a
    write past the end of the child vector. *)
Theorem update_select_misuse_is_fatal :
  forall (conv : expr2t -> M smt_astt) (fuel : nat) (ctx : smt_convt),
    (forall (l : nat) (o : tuple_smt_ast) v i e,
        store ctx !! l = Some o -> kind o = Tuple ->
        is_nil_expr e = false ->
        update conv (S fuel) (ast_ref l) v i e ctx
        = Fatal (assertion_failed
                   "Can't apply non-constant index update to structure") ctx)
    /\ (forall (l : nat) (o : tuple_smt_ast) v i,
           store ctx !! l = Some o -> kind o = Tuple ->
           elements o <> [] -> (length (elements o) <= i)%nat ->
           exists ctx',
             update conv (S fuel) (ast_ref l) v i nil_expr ctx
             = Fatal out_of_range ctx')
    /\ (forall a s v i e,
           plain_sort a = Some s -> is_array_sort s = false ->
           update conv (S fuel) a v i e ctx
           = Fatal (assertion_failed "sort->id == SMT_SORT_ARRAY") ctx)
    /\ (forall a s e,
           plain_sort a = Some s -> is_array_sort s = false ->
           select conv (S fuel) a e ctx
           = Fatal (assertion_failed
                      "Select operation applied to non-array scalar AST")
                   ctx).
Proof.
  intros conv fuel ctx. split; [| split; [| split]].
  - intros l o v i e Hl Hk He. cbn [update]. unfold bind at 1.
    rewrite (deref_ok _ _ _ Hl), Hk. unfold tuple_update, bind.
    rewrite (deref_ok _ _ _ Hl), He. reflexivity.
  - intros l o v i Hl Hk Hne Hi.
    assert (H : wfatal (update conv (S fuel) (ast_ref l) v i nil_expr) ctx
                  (fun f => f = out_of_range)).
    { cbn [update]. apply wfatal_bind. eapply wp_deref; [exact Hl |].
      rewrite Hk. unfold tuple_update.
      apply wfatal_bind. eapply wp_deref; [exact Hl |].
      apply wfatal_bind. apply wp_assert_that; [reflexivity |].
      apply wfatal_bind, wp_mk_fresh_name.
      apply wfatal_bind, wp_new_tuple_smt_ast. cbn [store bump].
      apply wfatal_bind. eapply wp_to_tuple_ast.
      { simpl. rewrite lookup_app_r by lia. rewrite Nat.sub_diag.
        reflexivity. }
      apply wfatal_bind. eapply wp_set_elements.
      { simpl. rewrite lookup_app_r by lia. rewrite Nat.sub_diag.
        reflexivity. }
      apply wfatal_bind. eapply wp_of_ok.
      { eapply make_free_populated.
        - simpl. apply list_lookup_insert_eq. rewrite length_app. simpl.
          lia.
        - exact Hne. }
      apply wfatal_first. unfold set_element.
      apply wfatal_bind. eapply wp_deref.
      { simpl. apply list_lookup_insert_eq. rewrite length_app. simpl. lia. }
      cbn [elements with_elements].
      destruct (decide (i < length (elements o))%nat) as [Hlt|_]; [lia |].
      apply wfatal_raise. reflexivity. }
    unfold wfatal in H.
    destruct (update conv (S fuel) (ast_ref l) v i nil_expr ctx)
      as [a c'|f c'|]; try contradiction.
    subst f. exists c'. reflexivity.
  - intros a s v i e Hs Ha.
    assert (H : smt_ast_update conv a v i e ctx
                = Fatal (assertion_failed "sort->id == SMT_SORT_ARRAY") ctx).
    { unfold smt_ast_update, bind. rewrite Hs. simpl. rewrite Ha.
      reflexivity. }
    cbn [update]. destruct a; try discriminate; exact H.
  - intros a s e Hs Ha.
    assert (H : smt_ast_select conv a e ctx
                = Fatal (assertion_failed
                           "Select operation applied to non-array scalar AST")
                        ctx).
    { unfold smt_ast_select, bind. simpl. rewrite Hs. simpl. rewrite Ha.
      reflexivity. }
    cbn [select]. destruct a; try discriminate; exact H.
Qed.

Lemma update_select_misuse_is_fatal_witness :
  update (convert_ast 1) 1 (ast_ref 0) (ast_bool true) 0
    (symbol2t bv8 "i") populated_tuple_ctx
  = Fatal (assertion_failed
             "Can't apply non-constant index update to structure")
          populated_tuple_ctx
  /\ (exists ctx',
         update (convert_ast 1) 1 (ast_ref 0) (ast_bool true) 2 nil_expr
           populated_tuple_ctx
         = Fatal out_of_range ctx')
  /\ update (convert_ast 1) 1 (ast_symbol bv8_sort "x") (ast_bool true) 0
       nil_expr populated_tuple_ctx
     = Fatal (assertion_failed "sort->id == SMT_SORT_ARRAY")
             populated_tuple_ctx
  /\ select (convert_ast 1) 1 (ast_symbol bv8_sort "x")
       (constant_int2t bv8 0) populated_tuple_ctx
     = Fatal (assertion_failed
                "Select operation applied to non-array scalar AST")
             populated_tuple_ctx.
Proof.
  destruct (update_select_misuse_is_fatal (convert_ast 1) 0
              populated_tuple_ctx) as (H1 & H2 & H3 & H4).
  split; [eapply H1; reflexivity |].
  split; [eapply H2; [reflexivity | reflexivity | discriminate
                     | simpl; lia] |].
  split; [eapply H3; reflexivity | eapply H4; reflexivity].
Defined.

(** ** Assignment of Tuple terms *)

Lemma tuple_assign_populated_fatal ctx c1 l lo o src0 :
  store ctx !! lo = Some src0 ->
  make_free lo ctx = Ok tt c1 ->
  store c1 !! l = Some o -> elements o <> [] ->
  tuple_assign l (ast_ref lo) ctx
  = Fatal (assertion_failed "tuple smt assign with elems populated") c1.
Proof.
  intros Hlo Hmf Hl He. unfold tuple_assign, to_tuple_ast, bind.
  rewrite (deref_ok _ _ _ Hlo). simpl. rewrite Hmf.
  rewrite (deref_ok _ _ _ Hl).
  destruct (elements o); [congruence | reflexivity].
Qed.

Lemma named_children_insert_below cfg h news l o' nm tys flds es :
  (l < length h)%nat ->
  Forall (fun a => forall k, a = ast_ref k -> (length h <= k)%nat) es ->
  named_children cfg (h ++ news) nm tys flds es ->
  named_children cfg (<[l := o']> h ++ news) nm tys flds es.
Proof.
  intros Hl Hge H. unfold named_children in *.
  induction H as [|t fld a tys flds es Ha _ IH]; constructor.
  - apply fresh_child_insert_below; [exact Hl | | exact Ha].
    apply Forall_cons in Hge as [Hge _]. exact Hge.
  - apply IH. apply Forall_cons in Hge as [_ Hge]. exact Hge.
Qed.

(** X3. Assignment shares the children of the source.  Assigning a
    populated Tuple to a free one copies the child list and changes
    nothing else; a free source is materialised first, so that the two
    terms end with the same children, which are named after the source,
    not after the destination.  No assertion is added. *)
Theorem assign_shares_children :
  forall (ctx : smt_convt) (l lo : nat) (o src : tuple_smt_ast),
    store ctx !! l = Some o -> elements o = [] ->
    store ctx !! lo = Some src ->
    (elements src <> [] ->
     tuple_assign l (ast_ref lo) ctx
     = Ok tt (set_store (<[l := with_elements o (elements src)]> (store ctx))
                ctx))
    /\ (elements src = [] -> l <> lo ->
        forall ty data,
          thetype (sort src) = Some ty ->
          type_def (config ctx) ty = Some data ->
          members_constructible data = true ->
          exists ctx' es,
            tuple_assign l (ast_ref lo) ctx = Ok tt ctx'
            /\ store ctx' !! l = Some (with_elements o es)
            /\ store ctx' !! lo = Some (with_elements src es)
            /\ named_children (config ctx) (store ctx') (name src)
                 (members data)
                 (take (length (members data)) (member_names data)) es
            /\ assertions ctx' = assertions ctx).
Proof.
  intros ctx l lo o src Hl He Hlo. split.
  - intros Hne.
    eapply tuple_assign_run; try eassumption.
    eapply make_free_populated; eassumption.
  - intros Hes Hneq ty data Hty Hd Hmc.
    pose proof (make_free_free_spec ctx lo src ty data Hlo Hes Hty Hd Hmc)
      as Hwp.
    apply wp_ok in Hwp
      as ([] & c1 & Hrun & es & news & Hfr & Hst & Hok & Hch & Hge).
    pose proof (lookup_lt_Some _ _ _ Hlo) as Hlt.
    pose proof (lookup_lt_Some _ _ _ Hl) as Hlt'.
    assert (Hlo1 : store c1 !! lo = Some (with_elements src es)).
    { rewrite Hst. apply lookup_app_l_Some, list_lookup_insert_eq, Hlt. }
    assert (Hl1 : store c1 !! l = Some o).
    { rewrite Hst. apply lookup_app_l_Some.
      rewrite list_lookup_insert_ne by congruence. exact Hl. }
    exists (set_store (<[l := with_elements o es]> (store c1)) c1), es.
    split; [exact (tuple_assign_run _ _ _ _ _ _ _ Hlo Hrun Hl1 He Hlo1) |].
    cbn [store set_store assertions].
    split; [apply list_lookup_insert_eq; eapply lookup_lt_Some; exact Hl1 |].
    split; [rewrite list_lookup_insert_ne by congruence; exact Hlo1 |].
    split; [| apply Hfr].
    rewrite Hst in Hch |- *.
    rewrite insert_app_l by (rewrite length_insert; exact Hlt').
    apply named_children_insert_below;
      [rewrite length_insert; exact Hlt' | | exact Hch].
    rewrite length_insert. exact Hge.
Qed.

(** A free Tuple [d.] next to the populated Tuple [t.] of the example
    record. *)
Definition assign_ctx : smt_convt :=
  mk_smt_convt example_config
    [mk_tuple_smt_ast Tuple (convert_sort_cfg example_config example_struct)
       "d." [];
     mk_tuple_smt_ast Tuple (convert_sort_cfg example_config example_struct)
       "t." [ast_symbol bv8_sort "t.a"; ast_symbol bool_sort "t.b"]]
    0 [] ast_null ast_null.

Lemma assign_shares_children_witness :
  (exists ctx',
      tuple_assign 0 (ast_ref 1) assign_ctx = Ok tt ctx'
      /\ store ctx' !! 0%nat
         = Some (mk_tuple_smt_ast Tuple
                   (convert_sort_cfg example_config example_struct) "d."
                   [ast_symbol bv8_sort "t.a"; ast_symbol bool_sort "t.b"]))
  /\ (exists ctx' es,
         tuple_assign 0 (ast_ref 1) two_tuples_ctx = Ok tt ctx'
         /\ (store ctx' !! 0%nat ≫= fun o => Some (elements o)) = Some es
         /\ (store ctx' !! 1%nat ≫= fun o => Some (elements o)) = Some es
         /\ length es = 2%nat).
Proof.
  split.
  - destruct (assign_shares_children assign_ctx 0 1 _ _ eq_refl eq_refl
                eq_refl) as [H _].
    eexists. split; [apply H; discriminate | reflexivity].
  - destruct (assign_shares_children two_tuples_ctx 0 1 _ _ eq_refl eq_refl
                eq_refl) as [_ H].
    destruct (H eq_refl ltac:(lia) nested_struct _ eq_refl eq_refl eq_refl)
      as (ctx' & es & Hrun & Hl & Hlo & Hch & _).
    exists ctx', es. split; [exact Hrun |].
    rewrite Hl, Hlo. split; [reflexivity |]. split; [reflexivity |].
    exact (named_children_length _ _ _ _ _ _ Hch).
Defined.

(** ** Assignment of TupleArray terms *)

Lemma array_project_run ctx l o b i :
  store ctx !! l = Some o -> kind o = TupleArray b ->
  project (ast_ref l) i ctx
  = if bool_decide (i < length (elements o))%nat
    then lift_option out_of_range (elements o !! i) ctx
    else Fatal (assertion_failed
                  "Out-of-bounds tuple-array element accessed") ctx.
Proof.
  intros Hl Hk. cbn [project]. unfold bind at 1.
  rewrite (deref_ok _ _ _ Hl), Hk. unfold array_project, bind.
  rewrite (deref_ok _ _ _ Hl).
  destruct (bool_decide (i < length (elements o))%nat); [| reflexivity].
  simpl. unfold get_element, bind. rewrite (deref_ok _ _ _ Hl). reflexivity.
Qed.

(** X5. A TupleArray is assigned at most once.  The first assignment to
    a TupleArray that is still free copies the per-field arrays of the
    source and clears the free flag, so that both terms project the
    same per-field arrays; nothing else changes.  Every later
    assignment to the same term trips the assertion of [assign],
    whatever the source. *)
Theorem array_assigned_only_once :
  forall (ctx : smt_convt) (l src : nat) (o s : tuple_smt_ast) (b : bool),
    store ctx !! l = Some o -> kind o = TupleArray true ->
    store ctx !! src = Some s -> kind s = TupleArray b ->
    exists ctx',
      array_assign l src ctx = Ok tt ctx'
      /\ store ctx'
         = <[l := mk_tuple_smt_ast (TupleArray false) (sort o) (name o)
                    (elements s)]> (store ctx)
      /\ assertions ctx' = assertions ctx
      /\ (forall i, project (ast_ref l) i ctx' = project (ast_ref src) i ctx')
      /\ (forall i a, elements s !! i = Some a ->
            project (ast_ref l) i ctx' = Ok a ctx')
      /\ forall src',
           array_assign l src' ctx'
           = Fatal (assertion_failed "Non-free array ast assigned") ctx'.
Proof.
  intros ctx l src o s b Hl Hk Hs Hks.
  pose proof (lookup_lt_Some _ _ _ Hl) as Hlt.
  set (o' := mk_tuple_smt_ast (TupleArray false) (sort o) (name o)
               (elements s)).
  exists (set_store (<[l := o']> (store ctx)) ctx).
  assert (Hl' : store (set_store (<[l := o']> (store ctx)) ctx) !! l
                = Some o')
    by (apply list_lookup_insert_eq; exact Hlt).
  split.
  { unfold array_assign, bind. rewrite (deref_ok _ _ _ Hl), Hk. simpl.
    rewrite (deref_ok _ _ _ Hs). reflexivity. }
  split; [reflexivity |]. split; [reflexivity |]. split; [| split].
  - intros i. rewrite (array_project_run _ _ _ false _ Hl' eq_refl).
    destruct (decide (src = l)) as [->|Hne].
    + rewrite (array_project_run _ _ _ false _ Hl' eq_refl). reflexivity.
    + assert (Hs' : store (set_store (<[l := o']> (store ctx)) ctx) !! src
                    = Some s)
        by (simpl; rewrite list_lookup_insert_ne by congruence; exact Hs).
      rewrite (array_project_run _ _ _ _ _ Hs' Hks). reflexivity.
  - intros i a Ha. rewrite (array_project_run _ _ _ false _ Hl' eq_refl).
    cbn [elements o'].
    rewrite bool_decide_eq_true_2 by (eapply lookup_lt_Some; exact Ha).
    rewrite Ha. reflexivity.
  - intros src'. unfold array_assign, bind.
    rewrite (deref_ok _ _ _ Hl'). reflexivity.
Qed.

(** Two TupleArray terms of an array of the example record: [x.] is
    still free, [y.] holds two per-field arrays. *)
Definition two_arrays_ctx : smt_convt :=
  let A := array_type2t example_struct (size_constant_int 4) false in
  mk_smt_convt example_config
    [mk_tuple_smt_ast (TupleArray true) (convert_sort_cfg example_config A)
       "x."
       [ast_symbol (convert_sort_cfg example_config
                      (array_type2t bv8 (size_constant_int 4) false)) "x.a";
        ast_symbol (convert_sort_cfg example_config
                      (array_type2t bool_type2t (size_constant_int 4) false))
                   "x.b"];
     mk_tuple_smt_ast (TupleArray true) (convert_sort_cfg example_config A)
       "y."
       [ast_symbol (convert_sort_cfg example_config
                      (array_type2t bv8 (size_constant_int 4) false)) "y.a";
        ast_symbol (convert_sort_cfg example_config
                      (array_type2t bool_type2t (size_constant_int 4) false))
                   "y.b"]]
    0 [] ast_null ast_null.

Lemma array_assigned_only_once_witness :
  exists ctx',
    array_assign 0 1 two_arrays_ctx = Ok tt ctx'
    /\ project (ast_ref 0) 0 ctx' = project (ast_ref 1) 0 ctx'
    /\ array_assign 0 1 ctx'
       = Fatal (assertion_failed "Non-free array ast assigned") ctx'.
Proof.
  destruct (array_assigned_only_once two_arrays_ctx 0 1 _ _ true
              eq_refl eq_refl eq_refl eq_refl)
    as (ctx' & Hrun & _ & _ & Hp & _ & Hagain).
  exists ctx'. split; [exact Hrun |]. split; [apply Hp | apply Hagain].
Defined.

(** ** What the operations leave alone *)

(** [stable X c c']: the state [c'] has the configuration, the
    assertions and the sentinels of [c]; every term of [c] is still
    there with its class, sort and name; and a term of [c] that has
    children, and whose address is not in [X], has the same children. *)
Definition stable (X : nat -> Prop) (c c' : smt_convt) : Prop :=
  frame c c'
  /\ (length (store c) <= length (store c'))%nat
  /\ forall l o, store c !! l = Some o ->
       exists o', store c' !! l = Some o' /\ kind o' = kind o
                  /\ sort o' = sort o /\ name o' = name o
                  /\ (~ X l -> elements o <> [] -> elements o' = elements o).

Lemma stable_refl X c : stable X c c.
Proof.
  split; [apply frame_refl |]. split; [lia |].
  intros l o Hl. exists o. auto.
Qed.

Lemma stable_trans X c1 c2 c3 :
  stable X c1 c2 -> stable X c2 c3 -> stable X c1 c3.
Proof.
  intros (F1 & L1 & H1) (F2 & L2 & H2).
  split; [eapply frame_trans; eauto |]. split; [lia |].
  intros l o Hl.
  destruct (H1 l o Hl) as (o2 & Hl2 & Hk2 & Hs2 & Hn2 & He2).
  destruct (H2 l o2 Hl2) as (o3 & Hl3 & Hk3 & Hs3 & Hn3 & He3).
  exists o3. split; [exact Hl3 |].
  split; [congruence |]. split; [congruence |]. split; [congruence |].
  intros HX Hne. rewrite <- (He2 HX Hne). apply He3; [exact HX |].
  rewrite (He2 HX Hne). exact Hne.
Qed.

Lemma stable_mono (X X' : nat -> Prop) c c' :
  (forall l, X l -> X' l) -> stable X c c' -> stable X' c c'.
Proof.
  intros HX (F & L & H). split; [exact F |]. split; [exact L |].
  intros l o Hl. destruct (H l o Hl) as (o' & Hl' & Hk & Hs & Hn & He).
  exists o'. repeat split; auto.
Qed.

(** [safe n E m c]: run from [c], whose store has at least [n] terms,
    [m] ends, with a result or with a fault, in a state that is stable
    but for the addresses from [n] on and those of [E]. *)
Definition safe {A} (n : nat) (E : nat -> Prop) (m : M A) (c : smt_convt)
  : Prop :=
  (n <= length (store c))%nat ->
  match m c with
  | Ok _ c' | Fatal _ c' => stable (fun k => (n <= k)%nat \/ E k) c c'
  | OutOfFuel => True
  end.

Definition nowhere : nat -> Prop := fun _ => False.

Lemma safe_bind {A B} n E (m : M A) (k : A -> M B) c :
  safe n E m c ->
  (forall a c1, (n <= length (store c))%nat -> m c = Ok a c1 ->
                safe n E (k a) c1) ->
  safe n E (bind m k) c.
Proof.
  unfold safe, bind. intros Hm Hk Hn. specialize (Hm Hn).
  destruct (m c) as [a c1|f c1|]; [| exact Hm | exact I].
  specialize (Hk a c1 Hn eq_refl).
  assert (Hn1 : (n <= length (store c1))%nat) by (destruct Hm as (_ & L & _); lia).
  specialize (Hk Hn1).
  destruct (k a c1) as [b c2|f c2|]; [| | exact I];
    eapply stable_trans; eauto.
Qed.

Lemma safe_weaken {A} n (E E' : nat -> Prop) (m : M A) c :
  (forall l, E l -> E' l) -> safe n E m c -> safe n E' m c.
Proof.
  unfold safe. intros HE H Hn. specialize (H Hn).
  destruct (m c); [| | exact I];
    (eapply stable_mono; [| exact H]); intros l [Hl|Hl]; auto.
Qed.

(** An exemption for a term that has no children is no exemption. *)
Lemma safe_free_target {A} n (E : nat -> Prop) l (m : M A) c :
  (forall o, store c !! l = Some o -> elements o = []) ->
  safe n (fun k => k = l \/ E k) m c -> safe n E m c.
Proof.
  unfold safe. intros Hfree H Hn. specialize (H Hn).
  assert (Hst : forall c',
             stable (fun k => (n <= k)%nat \/ (k = l \/ E k)) c c' ->
             stable (fun k => (n <= k)%nat \/ E k) c c').
  { intros c' (F & L & Hobj). split; [exact F |]. split; [exact L |].
    intros l' o Hl'. destruct (Hobj l' o Hl') as (o' & Ho' & Hk & Hs & Hn' & He).
    exists o'. repeat split; auto. intros HX Hne. apply He; [| exact Hne].
    intros [H1|[->|H3]]; [tauto | | tauto].
    apply Hne, (Hfree o Hl'). }
  destruct (m c); [| | exact I]; apply Hst, H.
Qed.

(** Computations that do not change the state. *)
Definition pure {A} (m : M A) : Prop :=
  forall c, match m c with
            | Ok _ c' | Fatal _ c' => c' = c
            | OutOfFuel => True
            end.

Lemma pure_safe {A} n E (m : M A) c : pure m -> safe n E m c.
Proof.
  intros H _. specialize (H c).
  destruct (m c); [| | exact I]; subst; apply stable_refl.
Qed.

Lemma pure_ret {A} (a : A) : pure (ret a).
Proof. intros c. reflexivity. Qed.

Lemma pure_raise {A} f : pure (@raise A f).
Proof. intros c. reflexivity. Qed.

Lemma pure_out_of_fuel {A} : pure (@out_of_fuel A).
Proof. intros c. exact I. Qed.

Lemma pure_get_ctx : pure get_ctx.
Proof. intros c. reflexivity. Qed.

Lemma pure_bind {A B} (m : M A) (k : A -> M B) :
  pure m -> (forall a, pure (k a)) -> pure (bind m k).
Proof.
  intros Hm Hk c. unfold bind. specialize (Hm c).
  destruct (m c) as [a c1|f c1|]; [| exact Hm | exact I].
  subst c1. apply Hk.
Qed.

Lemma pure_lift_option {A} f (o : option A) : pure (lift_option f o).
Proof. destruct o; [apply pure_ret | apply pure_raise]. Qed.

Lemma pure_assert_that b msg : pure (assert_that b msg).
Proof. destruct b; [apply pure_ret | apply pure_raise]. Qed.

Lemma pure_deref l : pure (deref l).
Proof. intros c. unfold deref. apply pure_lift_option. Qed.

Create HintDb pure discriminated.
#[local] Hint Resolve pure_ret pure_raise pure_out_of_fuel pure_get_ctx
  pure_lift_option pure_assert_that pure_deref : pure.

Ltac pure_step :=
  match goal with
  | |- pure (bind _ _) => apply pure_bind; [| intros ?]
  | |- pure (if ?b then _ else _) => destruct b
  | |- pure (match ?x with _ => _ end) => destruct x
  | |- pure _ => solve [auto with pure]
  end.

Ltac pure_tac := repeat pure_step.

Lemma pure_get_element l i : pure (get_element l i).
Proof. unfold get_element. pure_tac. Qed.

Lemma pure_get_type_def t : pure (get_type_def t).
Proof. unfold get_type_def. pure_tac. Qed.

Lemma pure_convert_sort t : pure (convert_sort t).
Proof. unfold convert_sort. pure_tac. Qed.

Lemma pure_to_tuple_sort s : pure (to_tuple_sort s).
Proof. unfold to_tuple_sort. pure_tac. Qed.

Lemma pure_mk_smt_symbol nm s : pure (mk_smt_symbol nm s).
Proof. unfold mk_smt_symbol. pure_tac. Qed.

Lemma pure_mk_func_app s k args : pure (mk_func_app s k args).
Proof. unfold mk_func_app. pure_tac. Qed.

Lemma pure_to_tuple_ast a : pure (to_tuple_ast a).
Proof. unfold to_tuple_ast. pure_tac. Qed.

Lemma pure_to_array_ast a : pure (to_array_ast a).
Proof. unfold to_array_ast. pure_tac. Qed.

Lemma pure_to_array_type t : pure (to_array_type t).
Proof. unfold to_array_type. pure_tac. Qed.

#[local] Hint Resolve pure_get_element pure_get_type_def pure_convert_sort
  pure_to_tuple_sort pure_mk_smt_symbol pure_mk_func_app pure_to_tuple_ast
  pure_to_array_ast pure_to_array_type : pure.

Lemma pure_smt_ast_ite this cond falseop : pure (smt_ast_ite this cond falseop).
Proof. unfold smt_ast_ite. pure_tac. Qed.

Lemma pure_smt_ast_eq this other : pure (smt_ast_eq this other).
Proof. unfold smt_ast_eq. pure_tac. Qed.

Lemma pure_make_conjunct eqs : pure (make_conjunct eqs).
Proof. unfold make_conjunct. pure_tac. Qed.

Lemma pure_smt_ast_project idx : pure (smt_ast_project idx).
Proof. unfold smt_ast_project. pure_tac. Qed.

#[local] Hint Resolve pure_smt_ast_ite pure_smt_ast_eq pure_make_conjunct
  pure_smt_ast_project : pure.

(** Facts about the result of a step. *)
Lemma pure_run {A} (m : M A) c a c1 : pure m -> m c = Ok a c1 -> c1 = c.
Proof. intros H E. specialize (H c). rewrite E in H. exact H. Qed.

Lemma deref_inv l c o c1 :
  deref l c = Ok o c1 -> c1 = c /\ store c !! l = Some o.
Proof.
  unfold deref. destruct (store c !! l) as [o'|]; simpl; [| discriminate].
  intros [= <- <-]. auto.
Qed.

Lemma to_tuple_ast_inv a c l c1 :
  to_tuple_ast a c = Ok l c1 -> a = ast_ref l /\ c1 = c.
Proof.
  destruct a; simpl; try discriminate. unfold bind.
  destruct (deref l0 c) as [o c'|f c'|] eqn:E; try discriminate.
  apply deref_inv in E as [-> _]. intros [= <- <-]. auto.
Qed.

Lemma new_tuple_smt_ast_inv s nm c a c1 :
  new_tuple_smt_ast s nm c = Ok a c1 -> a = ast_ref (length (store c)).
Proof. intros [= <- _]. reflexivity. Qed.

(** The primitive steps. *)
Lemma safe_alloc n E o c : safe n E (alloc o) c.
Proof.
  intros _. simpl. split; [repeat split |]. split.
  - simpl. rewrite length_app. lia.
  - intros l o' Hl. exists o'. simpl.
    split; [apply lookup_app_l_Some, Hl | auto].
Qed.

Lemma safe_mk_fresh_name n E tag c : safe n E (mk_fresh_name tag) c.
Proof.
  intros _. simpl. split; [repeat split |]. split; [simpl; lia |].
  intros l o Hl. exists o. auto.
Qed.

Lemma safe_set_elements n (E : nat -> Prop) l es c :
  ((n <= l)%nat \/ E l \/ forall o, store c !! l = Some o -> elements o = []) ->
  safe n E (set_elements l es) c.
Proof.
  intros Hl _. unfold set_elements, bind, deref.
  destruct (store c !! l) as [o|] eqn:Ho; simpl; [| apply stable_refl].
  split; [repeat split |]. split; [simpl; rewrite length_insert; lia |].
  intros l' o' Hl'. simpl.
  destruct (decide (l' = l)) as [->|Hne].
  - rewrite Ho in Hl'. injection Hl' as <-.
    exists (with_elements o es).
    split; [apply list_lookup_insert_eq; eapply lookup_lt_Some; exact Ho |].
    repeat split. intros HX Hne.
    destruct Hl as [Hl|[Hl|Hl]]; [tauto | tauto |].
    exfalso. exact (Hne (Hl o eq_refl)).
  - exists o'. rewrite list_lookup_insert_ne by congruence. auto.
Qed.

Lemma safe_resize_elements n (E : nat -> Prop) l k c :
  ((n <= l)%nat \/ E l \/ forall o, store c !! l = Some o -> elements o = []) ->
  safe n E (resize_elements l k) c.
Proof.
  intros Hl. unfold resize_elements. apply safe_bind.
  - apply pure_safe, pure_deref.
  - intros o c1 _ Hd. apply deref_inv in Hd as [-> _].
    apply safe_set_elements, Hl.
Qed.

Lemma safe_set_element n (E : nat -> Prop) l i a c :
  ((n <= l)%nat \/ E l \/ forall o, store c !! l = Some o -> elements o = []) ->
  safe n E (set_element l i a) c.
Proof.
  intros Hl. unfold set_element. apply safe_bind.
  - apply pure_safe, pure_deref.
  - intros o c1 _ Hd. apply deref_inv in Hd as [-> _].
    destruct (decide (i < length (elements o))%nat).
    + apply safe_set_elements, Hl.
    + apply pure_safe, pure_raise.
Qed.

Lemma safe_new_tuple_smt_ast n E s nm c : safe n E (new_tuple_smt_ast s nm) c.
Proof.
  unfold new_tuple_smt_ast. apply safe_bind; [apply safe_alloc |].
  intros ? ? ? ?. apply pure_safe, pure_ret.
Qed.

Lemma safe_mk_fresh n E s tag c : safe n E (mk_fresh s tag) c.
Proof.
  unfold mk_fresh. apply safe_bind; [apply safe_mk_fresh_name |].
  intros ? ? ? ?. apply pure_safe, pure_mk_smt_symbol.
Qed.

Lemma alloc_inv o c l c1 :
  alloc o c = Ok l c1 -> l = length (store c).
Proof. intros [= <- _]. reflexivity. Qed.

Lemma safe_array_fields n E rec sz inf nm ms :
  Forall (fun it => forall fieldname c, safe n E (rec it fieldname) c) ms ->
  forall ns i c, safe n E (array_fields rec sz inf nm ms ns i) c.
Proof.
  intros H. induction H as [|it ms Hit _ IH]; intros ns i c; simpl.
  - apply pure_safe, pure_ret.
  - apply safe_bind; [apply pure_safe, pure_lift_option |].
    intros fld c1 _ _. apply safe_bind.
    + destruct (is_tuple_ast_type it); [apply Hit |].
      destruct (is_tuple_array_ast_type it);
        [apply pure_safe, pure_raise |].
      apply safe_bind; [apply pure_safe, pure_convert_sort |].
      intros ? ? ? ?. apply safe_mk_fresh.
    + intros child c2 _ _. apply safe_bind; [apply IH |].
      intros ? ? ? ?. apply pure_safe, pure_ret.
Qed.

Lemma safe_array_object cfg sub :
  forall n E s sz inf nm c, safe n E (array_object cfg s sub sz inf nm) c.
Proof.
  induction sub as [| |w|w|sub' _|sub' sz' inf' _|ms ns nn IH|ms ns nn IH]
    using type2t_members_ind;
    intros n E s sz inf nm c; cbn [array_object];
    try solve [apply pure_safe, pure_raise].
  - apply safe_bind; [apply safe_alloc |].
    intros l c1 Hn Hl. apply alloc_inv in Hl. subst l.
    apply safe_bind.
    { apply safe_array_fields. simpl.
      repeat (first [apply Forall_nil_2 | apply Forall_cons_2]);
        intros ? ?; apply pure_safe, pure_raise. }
    intros es c2 _ _. apply safe_bind; [apply safe_set_elements; auto |].
    intros ? ? ? ?. apply pure_safe, pure_ret.
  - apply safe_bind; [apply safe_alloc |].
    intros l c1 Hn Hl. apply alloc_inv in Hl. subst l.
    apply safe_bind.
    { apply safe_array_fields.
      eapply Forall_impl; [exact IH |]. simpl. intros it Hit fieldname c'.
      apply Hit. }
    intros es c2 _ _. apply safe_bind; [apply safe_set_elements; auto |].
    intros ? ? ? ?. apply pure_safe, pure_ret.
  - apply safe_bind; [apply safe_alloc |].
    intros l c1 Hn Hl. apply alloc_inv in Hl. subst l.
    apply safe_bind.
    { apply safe_array_fields.
      eapply Forall_impl; [exact IH |]. simpl. intros it Hit fieldname c'.
      apply Hit. }
    intros es c2 _ _. apply safe_bind; [apply safe_set_elements; auto |].
    intros ? ? ? ?. apply pure_safe, pure_ret.
Qed.

Lemma safe_new_array_smt_ast n E s nm c : safe n E (new_array_smt_ast s nm) c.
Proof.
  unfold new_array_smt_ast.
  apply safe_bind; [apply pure_safe, pure_get_ctx |]. intros c0 c1 _ _.
  apply safe_bind; [apply pure_safe, pure_to_tuple_sort |]. intros ty c2 _ _.
  destruct ty; try solve [apply pure_safe, pure_raise].
  apply safe_array_object.
Qed.

Lemma safe_tuple_fresh n E s nm c : safe n E (tuple_fresh s nm) c.
Proof.
  unfold tuple_fresh. apply safe_bind.
  - destruct (String.eqb nm ""); [| apply pure_safe, pure_ret].
    apply safe_bind; [apply safe_mk_fresh_name |].
    intros ? ? ? ?. apply pure_safe, pure_ret.
  - intros nm' c1 _ _.
    apply safe_bind; [apply pure_safe, pure_mk_smt_symbol |].
    intros _ c2 _ _.
    destruct (id s); first [apply safe_new_array_smt_ast
                           | apply safe_new_tuple_smt_ast].
Qed.

Lemma safe_make_free_loop n (E : nat -> Prop) l nm ms ns :
  E l -> forall i c, safe n E (make_free_loop l nm ms ns i) c.
Proof.
  intros HE. induction ms as [|it ms IH]; intros i c; simpl.
  - apply pure_safe, pure_ret.
  - apply safe_bind; [apply pure_safe, pure_convert_sort |].
    intros newsort c1 _ _.
    apply safe_bind; [apply pure_safe, pure_lift_option |].
    intros fld c2 _ _. apply safe_bind.
    + destruct (is_tuple_ast_type it); [apply safe_tuple_fresh |].
      destruct (is_tuple_array_ast_type it);
        [apply safe_new_array_smt_ast | apply safe_mk_fresh].
    + intros child c3 _ _.
      apply safe_bind; [apply safe_set_element; auto |].
      intros ? ? ? ?. apply IH.
Qed.

Lemma safe_make_free n E l c : safe n E (make_free l) c.
Proof.
  unfold make_free. apply safe_bind; [apply pure_safe, pure_deref |].
  intros o c1 _ Hd. apply deref_inv in Hd as [-> Hl].
  destruct (length (elements o) =? 0)%nat eqn:He; simpl;
    [| apply pure_safe, pure_ret].
  apply Nat.eqb_eq in He.
  apply (safe_free_target n E l).
  { intros o' Ho'. rewrite Hl in Ho'. injection Ho' as <-.
    destruct (elements o); [reflexivity | discriminate]. }
  apply safe_bind; [apply pure_safe, pure_to_tuple_sort |].
  intros ts c1 _ _.
  apply safe_bind; [apply pure_safe, pure_get_type_def |].
  intros strct c2 _ _.
  apply safe_bind; [apply safe_resize_elements; auto |].
  intros _ c3 _ _. apply safe_make_free_loop. auto.
Qed.

Lemma safe_project n E a idx c : safe n E (project a idx) c.
Proof.
  destruct a; simpl; try solve [apply pure_safe; auto with pure].
  apply safe_bind; [apply pure_safe, pure_deref |].
  intros o c1 _ _. destruct (kind o).
  - unfold tuple_project.
    apply safe_bind; [apply pure_safe, pure_deref |]. intros o1 c2 _ _.
    apply safe_bind; [apply pure_safe, pure_to_tuple_sort |].
    intros ts c3 _ _.
    apply safe_bind; [apply pure_safe, pure_get_type_def |].
    intros data c4 _ _.
    apply safe_bind; [apply safe_make_free |]. intros _ c5 _ _.
    apply safe_bind; [apply pure_safe, pure_assert_that |].
    intros ? ? ? ?. apply pure_safe, pure_get_element.
  - apply pure_safe. unfold array_project. pure_tac.
Qed.

Lemma safe_tuple_assign n E l other c : safe n E (tuple_assign l other) c.
Proof.
  unfold tuple_assign.
  apply safe_bind; [apply pure_safe, pure_to_tuple_ast |].
  intros lo c1 _ _.
  apply safe_bind; [apply safe_make_free |]. intros _ c2 _ _.
  apply safe_bind; [apply pure_safe, pure_deref |].
  intros o c3 _ Hd. apply deref_inv in Hd as [-> Hl].
  destruct (length (elements o) =? 0)%nat eqn:He; simpl;
    [| apply pure_safe, pure_raise].
  apply Nat.eqb_eq in He.
  apply safe_bind; [apply pure_safe, pure_ret |].
  intros u c4 _ Hr. apply (pure_run _ _ _ _ (pure_ret tt)) in Hr. subst c4.
  apply safe_bind; [apply pure_safe, pure_deref |].
  intros src c5 _ Hd. apply deref_inv in Hd as [-> _].
  apply safe_set_elements. right. right.
  intros o' Ho'. rewrite Hl in Ho'. injection Ho' as <-.
  destruct (elements o); [reflexivity | discriminate].
Qed.

Lemma safe_for_loop n E body count :
  (forall i c, safe n E (body i) c) ->
  forall start c, safe n E (for_loop body start count) c.
Proof.
  intros Hb. induction count as [|count IH]; intros start c; simpl.
  - apply pure_safe, pure_ret.
  - apply safe_bind; [apply Hb |]. intros ? ? ? ?. apply IH.
Qed.

Lemma safe_collect_loop n E body count :
  (forall i c, safe n E (body i) c) ->
  forall start c, safe n E (collect_loop body start count) c.
Proof.
  intros Hb. induction count as [|count IH]; intros start c; simpl.
  - apply pure_safe, pure_ret.
  - apply safe_bind; [apply Hb |]. intros x c1 _ _.
    apply safe_bind; [apply IH |]. intros ? ? ? ?. apply pure_safe, pure_ret.
Qed.

Lemma bind_inv {A B} (m : M A) (k : A -> M B) c b c2 :
  bind m k c = Ok b c2 -> exists a c1, m c = Ok a c1 /\ k a c1 = Ok b c2.
Proof.
  unfold bind. destruct (m c) as [a c1|f c1|]; try discriminate. eauto.
Qed.

Lemma array_object_inv cfg s sub sz inf nm c a c1 :
  array_object cfg s sub sz inf nm c = Ok a c1 ->
  a = ast_ref (length (store c)).
Proof.
  destruct sub; simpl; try discriminate; intros H;
    apply bind_inv in H as (l & c2 & Hl & H); apply alloc_inv in Hl; subst l;
    apply bind_inv in H as (es & c3 & _ & H);
    apply bind_inv in H as (u & c4 & _ & H); injection H as <- _; reflexivity.
Qed.

Lemma new_array_smt_ast_inv s nm c a c1 :
  new_array_smt_ast s nm c = Ok a c1 -> a = ast_ref (length (store c)).
Proof.
  unfold new_array_smt_ast. intros H.
  apply bind_inv in H as (c0 & c2 & [= <- <-] & H).
  apply bind_inv in H as (ty & c3 & Hty & H).
  apply (pure_run _ _ _ _ (pure_to_tuple_sort s)) in Hty. subst c3.
  destruct ty; try discriminate. eapply array_object_inv, H.
Qed.

Lemma safe_tuple_ite n E
  (ite_rec : smt_astt -> smt_astt -> smt_astt -> M smt_astt)
  l cond falseop c :
  (forall a b d c', safe n E (ite_rec a b d) c') ->
  safe n E (tuple_ite ite_rec l cond falseop) c.
Proof.
  intros Hrec. unfold tuple_ite.
  apply safe_bind; [apply pure_safe, pure_deref |]. intros o c1 _ _.
  apply safe_bind; [apply pure_safe, pure_to_tuple_ast |]. intros lf c2 _ _.
  apply safe_bind; [apply pure_safe, pure_to_tuple_sort |]. intros ts c3 _ _.
  apply safe_bind; [apply safe_mk_fresh_name |]. intros nm c4 _ _.
  apply safe_bind; [apply safe_new_tuple_smt_ast |]. intros r c5 Hn Hr.
  apply new_tuple_smt_ast_inv in Hr. subst r.
  apply safe_bind; [apply pure_safe, pure_to_tuple_ast |]. intros lr c6 _ Hlr.
  apply to_tuple_ast_inv in Hlr as [[= <-] _].
  apply safe_bind; [apply safe_make_free |]. intros _ c7 _ _.
  apply safe_bind; [apply safe_make_free |]. intros _ c8 _ _.
  apply safe_bind; [apply pure_safe, pure_get_type_def |]. intros data c9 _ _.
  apply safe_bind; [apply safe_resize_elements; auto |]. intros _ c10 _ _.
  apply safe_bind; [| intros ? ? ? ?; apply pure_safe, pure_ret].
  apply safe_for_loop. intros i c'.
  apply safe_bind; [apply safe_project |]. intros tp c11 _ _.
  apply safe_bind; [apply safe_project |]. intros fp c12 _ _.
  apply safe_bind; [apply Hrec |]. intros ra c13 _ _.
  apply safe_set_element; auto.
Qed.

Lemma safe_array_ite n E
  (ite_rec : smt_astt -> smt_astt -> smt_astt -> M smt_astt)
  l cond falseop c :
  (forall a b d c', safe n E (ite_rec a b d) c') ->
  safe n E (array_ite ite_rec l cond falseop) c.
Proof.
  intros Hrec. unfold array_ite.
  apply safe_bind; [apply pure_safe, pure_deref |]. intros o c1 _ _.
  apply safe_bind; [apply pure_safe, pure_to_array_ast |]. intros lf c2 _ _.
  apply safe_bind; [apply pure_safe, pure_to_tuple_sort |]. intros ts c3 _ _.
  apply safe_bind; [apply pure_safe, pure_assert_that |]. intros _ c4 _ _.
  apply safe_bind; [apply pure_safe, pure_to_array_type |].
  intros arr c5 _ _.
  apply safe_bind; [apply safe_mk_fresh_name |]. intros nm c6 _ _.
  apply safe_bind; [apply safe_new_array_smt_ast |]. intros r c7 Hn Hr.
  apply new_array_smt_ast_inv in Hr. subst r.
  apply safe_bind; [apply pure_safe, pure_to_tuple_ast |]. intros lr c8 _ Hlr.
  apply to_tuple_ast_inv in Hlr as [[= <-] _].
  apply safe_bind; [apply pure_safe, pure_get_type_def |]. intros data c9 _ _.
  apply safe_bind; [| intros ? ? ? ?; apply pure_safe, pure_ret].
  apply safe_for_loop. intros i c'.
  apply safe_bind; [apply pure_safe, pure_get_element |]. intros tp c11 _ _.
  apply safe_bind; [apply pure_safe, pure_get_element |]. intros fp c12 _ _.
  apply safe_bind; [apply Hrec |]. intros ra c13 _ _.
  apply safe_set_element; auto.
Qed.

Lemma safe_ite fuel :
  forall n E this cond falseop c, safe n E (ite fuel this cond falseop) c.
Proof.
  induction fuel as [|f IH]; intros n E this cond falseop c; simpl.
  - apply pure_safe, pure_out_of_fuel.
  - destruct this; try solve [apply pure_safe; auto with pure].
    apply safe_bind; [apply pure_safe, pure_deref |]. intros o c1 _ _.
    destruct (kind o); [apply safe_tuple_ite | apply safe_array_ite];
      intros ? ? ? ?; apply IH.
Qed.

Lemma safe_tuple_eq n E (eq_rec : smt_astt -> smt_astt -> M smt_astt)
  l other c :
  (forall a b c', safe n E (eq_rec a b) c') ->
  safe n E (tuple_eq eq_rec l other) c.
Proof.
  intros Hrec. unfold tuple_eq.
  apply safe_bind; [apply pure_safe, pure_to_tuple_ast |]. intros lb c1 _ _.
  apply safe_bind; [apply safe_make_free |]. intros _ c2 _ _.
  apply safe_bind; [apply pure_safe, pure_deref |]. intros o c3 _ _.
  apply safe_bind; [apply pure_safe, pure_to_tuple_sort |]. intros ts c4 _ _.
  apply safe_bind; [apply pure_safe, pure_get_type_def |]. intros data c5 _ _.
  apply safe_bind; [| intros ? ? ? ?; apply pure_safe, pure_make_conjunct].
  apply safe_collect_loop. intros i c'.
  apply safe_bind; [apply safe_project |]. intros s1 c6 _ _.
  apply safe_bind; [apply safe_project |]. intros s2 c7 _ _.
  apply Hrec.
Qed.

Lemma safe_array_eq n E (eq_rec : smt_astt -> smt_astt -> M smt_astt)
  l other c :
  (forall a b c', safe n E (eq_rec a b) c') ->
  safe n E (array_eq eq_rec l other) c.
Proof.
  intros Hrec. unfold array_eq.
  apply safe_bind; [apply pure_safe, pure_to_array_ast |]. intros lb c1 _ _.
  apply safe_bind; [apply pure_safe, pure_deref |]. intros o c3 _ _.
  apply safe_bind; [apply pure_safe, pure_to_tuple_sort |]. intros ts c4 _ _.
  apply safe_bind; [apply pure_safe, pure_assert_that |]. intros _ c5 _ _.
  apply safe_bind; [apply pure_safe, pure_to_array_type |].
  intros arr c6 _ _.
  apply safe_bind; [apply pure_safe, pure_get_type_def |]. intros data c7 _ _.
  apply safe_bind; [| intros ? ? ? ?; apply pure_safe, pure_make_conjunct].
  apply safe_collect_loop. intros i c'.
  apply safe_bind; [apply pure_safe, pure_get_element |]. intros s1 c8 _ _.
  apply safe_bind; [apply pure_safe, pure_get_element |]. intros s2 c9 _ _.
  apply Hrec.
Qed.

Lemma safe_eq fuel :
  forall n E this other c, safe n E (eq fuel this other) c.
Proof.
  induction fuel as [|f IH]; intros n E this other c; simpl.
  - apply pure_safe, pure_out_of_fuel.
  - destruct this; try solve [apply pure_safe; auto with pure].
    apply safe_bind; [apply pure_safe, pure_deref |]. intros o c1 _ _.
    destruct (kind o); [apply safe_tuple_eq | apply safe_array_eq];
      intros ? ? ?; apply IH.
Qed.

Section SafeConversion.

(** The conversion in use, and the index expressions [P] it converts
    without touching the terms; the constant indexes that [update]
    builds itself are among them. *)
Variable conv : expr2t -> M smt_astt.
Variable P : expr2t -> bool.
Hypothesis Hconv : forall e n E c, P e = true -> safe n E (conv e) c.
Hypothesis Hconst : forall ty z, P (constant_int2t ty z) = true.

Lemma safe_tuple_update n E l value idx idx_expr c :
  safe n E (tuple_update l value idx idx_expr) c.
Proof.
  unfold tuple_update.
  apply safe_bind; [apply pure_safe, pure_deref |]. intros o c1 _ _.
  apply safe_bind; [apply pure_safe, pure_assert_that |]. intros _ c2 _ _.
  apply safe_bind; [apply safe_mk_fresh_name |]. intros nm c3 _ _.
  apply safe_bind; [apply safe_new_tuple_smt_ast |]. intros r c4 Hn Hr.
  apply new_tuple_smt_ast_inv in Hr. subst r.
  apply safe_bind; [apply pure_safe, pure_to_tuple_ast |]. intros lr c5 _ Hlr.
  apply to_tuple_ast_inv in Hlr as [[= <-] _].
  apply safe_bind; [apply safe_set_elements; auto |]. intros _ c6 _ _.
  apply safe_bind; [apply safe_make_free |]. intros _ c7 _ _.
  apply safe_bind; [apply safe_set_element; auto |].
  intros ? ? ? ?; apply pure_safe, pure_ret.
Qed.

Lemma safe_smt_ast_update n E this value idx idx_expr c :
  is_nil_expr idx_expr || P idx_expr = true ->
  safe n E (smt_ast_update conv this value idx idx_expr) c.
Proof.
  intros Hidx. unfold smt_ast_update.
  apply safe_bind; [apply pure_safe, pure_lift_option |]. intros s c1 _ _.
  apply safe_bind; [apply pure_safe, pure_assert_that |]. intros _ c2 _ _.
  apply safe_bind;
    [apply Hconv; destruct (is_nil_expr idx_expr);
     [apply Hconst | exact Hidx] |].
  intros ? ? ? ?; apply pure_safe, pure_mk_func_app.
Qed.

Lemma safe_array_update n E
  (update_rec : smt_astt -> smt_astt -> nat -> expr2t -> M smt_astt)
  l value idx idx_expr c :
  (forall a b i e c', P e = true -> safe n E (update_rec a b i e) c') ->
  is_nil_expr idx_expr || P idx_expr = true ->
  safe n E (array_update update_rec l value idx idx_expr) c.
Proof.
  intros Hrec Hidx. unfold array_update.
  apply safe_bind; [apply pure_safe, pure_get_ctx |]. intros c0 c1 _ _.
  apply safe_bind; [apply pure_safe, pure_deref |]. intros o c2 _ _.
  apply safe_bind; [apply pure_safe, pure_to_tuple_sort |]. intros ts c3 _ _.
  apply safe_bind; [apply pure_safe, pure_to_array_type |].
  intros arr c4 _ _.
  apply safe_bind; [apply pure_safe, pure_get_type_def |]. intros data c5 _ _.
  apply safe_bind; [apply safe_mk_fresh_name |]. intros nm c6 _ _.
  apply safe_bind; [apply safe_new_array_smt_ast |]. intros r c7 Hn Hr.
  apply new_array_smt_ast_inv in Hr. subst r.
  apply safe_bind; [apply pure_safe, pure_to_tuple_ast |]. intros lr c8 _ Hlr.
  apply to_tuple_ast_inv in Hlr as [[= <-] _].
  apply safe_bind; [| intros ? ? ? ?; apply pure_safe, pure_ret].
  apply safe_for_loop. intros i c'.
  apply safe_bind; [apply pure_safe, pure_get_element |]. intros fld c9 _ _.
  apply safe_bind; [apply safe_project |]. intros rv c10 _ _.
  apply safe_bind;
    [apply Hrec; destruct (is_nil_expr idx_expr);
     [apply Hconst | exact Hidx] |].
  intros up c11 _ _.
  apply safe_set_element; auto.
Qed.

Lemma safe_update fuel :
  forall n E this value idx idx_expr c,
    is_nil_expr idx_expr || P idx_expr = true ->
    safe n E (update conv fuel this value idx idx_expr) c.
Proof.
  induction fuel as [|f IH]; intros n E this value idx idx_expr c Hidx; simpl.
  - apply pure_safe, pure_out_of_fuel.
  - destruct this; try solve [apply pure_safe; auto with pure];
      try (apply safe_smt_ast_update; exact Hidx).
    apply safe_bind; [apply pure_safe, pure_deref |]. intros o c1 _ _.
    destruct (kind o);
      [apply safe_tuple_update | apply safe_array_update; [| exact Hidx]].
    intros a b i e c' He. apply IH. rewrite He. apply orb_true_r.
Qed.

Lemma safe_smt_ast_select n E this idx c :
  P idx = true ->
  safe n E (smt_ast_select conv this idx) c.
Proof.
  intros Hidx. unfold smt_ast_select.
  apply safe_bind; [apply pure_safe, pure_get_ctx |]. intros c0 c1 _ _.
  apply safe_bind; [apply pure_safe, pure_lift_option |]. intros s c2 _ _.
  apply safe_bind; [apply pure_safe, pure_assert_that |]. intros _ c3 _ _.
  apply safe_bind; [apply Hconv, Hidx |].
  intros ? ? ? ?; apply pure_safe, pure_mk_func_app.
Qed.

Lemma safe_array_select n E (select_rec : smt_astt -> expr2t -> M smt_astt)
  l idx c :
  (forall a c', safe n E (select_rec a idx) c') ->
  safe n E (array_select select_rec l idx) c.
Proof.
  intros Hrec. unfold array_select.
  apply safe_bind; [apply pure_safe, pure_deref |]. intros o c2 _ _.
  apply safe_bind; [apply pure_safe, pure_to_tuple_sort |]. intros ts c3 _ _.
  apply safe_bind; [apply pure_safe, pure_to_array_type |].
  intros arr c4 _ _.
  apply safe_bind; [apply pure_safe, pure_get_type_def |]. intros data c5 _ _.
  apply safe_bind; [apply pure_safe, pure_convert_sort |]. intros rs c6 _ _.
  apply safe_bind; [apply safe_mk_fresh_name |]. intros nm c7 _ _.
  apply safe_bind; [apply safe_new_tuple_smt_ast |]. intros r c8 Hn Hr.
  apply new_tuple_smt_ast_inv in Hr. subst r.
  apply safe_bind; [apply pure_safe, pure_to_tuple_ast |]. intros lr c9 _ Hlr.
  apply to_tuple_ast_inv in Hlr as [[= <-] _].
  apply safe_bind; [apply safe_resize_elements; auto |]. intros _ c10 _ _.
  apply safe_bind; [| intros ? ? ? ?; apply pure_safe, pure_ret].
  apply safe_for_loop. intros i c'.
  apply safe_bind; [apply pure_safe, pure_get_element |]. intros sa c11 _ _.
  apply safe_bind; [apply Hrec |]. intros sel c12 _ _.
  apply safe_set_element; auto.
Qed.

Lemma safe_select fuel :
  forall n E this idx c,
    P idx = true -> safe n E (select conv fuel this idx) c.
Proof.
  induction fuel as [|f IH]; intros n E this idx c Hidx; simpl.
  - apply pure_safe, pure_out_of_fuel.
  - destruct this; try solve [apply pure_safe; auto with pure];
      try (apply safe_smt_ast_select; exact Hidx).
    apply safe_bind; [apply pure_safe, pure_deref |]. intros o c1 _ _.
    destruct (kind o);
      [apply pure_safe; unfold tuple_select; auto with pure
      | apply safe_array_select].
    intros ? ?; apply IH, Hidx.
Qed.

End SafeConversion.

(** The state [c'] has the configuration, the assertions and the
    sentinels of [c], and every term of [c] is still there, with its
    class, sort and name and, if it had children, with the same
    children. *)
Definition untouched (c c' : smt_convt) : Prop :=
  config c' = config c /\ assertions c' = assertions c
  /\ null_ptr_ast c' = null_ptr_ast c
  /\ invalid_ptr_ast c' = invalid_ptr_ast c
  /\ forall l o, store c !! l = Some o ->
       exists o', store c' !! l = Some o' /\ kind o' = kind o
                  /\ sort o' = sort o /\ name o' = name o
                  /\ (elements o <> [] -> elements o' = elements o).

(** The faults with which the source itself ends the run: [abort()]
    and a failed [assert].  The other faults stand for behaviour the
    source leaves undefined. *)
Definition ends_run (f : fault) : bool :=
  match f with
  | abort_called _ | assertion_failed _ => true
  | _ => false
  end.

(** Whether it returns or ends the run, the computation leaves the
    terms it finds alone.  Nothing is said of a run that ends in
    undefined behaviour. *)
Definition leaves_terms_alone {A} (m : M A) : Prop :=
  forall c, match m c with
            | Ok _ c' => untouched c c'
            | Fatal f c' => ends_run f = true -> untouched c c'
            | OutOfFuel => True
            end.

Lemma stable_untouched c c' :
  stable (fun k => (length (store c) <= k)%nat \/ nowhere k) c c' ->
  untouched c c'.
Proof.
  intros ((F1 & F2 & F3 & F4) & _ & H).
  split; [exact F1 |]. split; [exact F2 |]. split; [exact F3 |].
  split; [exact F4 |]. intros l o Hl.
  destruct (H l o Hl) as (o' & Hl' & Hk & Hs & Hn & He).
  exists o'. repeat split; auto. apply He.
  pose proof (lookup_lt_Some _ _ _ Hl). unfold nowhere. lia.
Qed.

Lemma untouched_stable n E c c' :
  (n <= length (store c))%nat -> untouched c c' ->
  stable (fun k => (n <= k)%nat \/ E k) c c'.
Proof.
  intros Hn (F1 & F2 & F3 & F4 & H). split; [repeat split; assumption |].
  split.
  - destruct (decide (length (store c) = 0)%nat) as [->|Hne]; [lia |].
    destruct (lookup_lt_is_Some_2 (store c) (length (store c) - 1)
                ltac:(lia)) as [o Ho].
    destruct (H _ _ Ho) as (o' & Ho' & _).
    pose proof (lookup_lt_Some _ _ _ Ho'). lia.
  - intros l o Hl. destruct (H l o Hl) as (o' & Hl' & Hk & Hs & Hn' & He).
    exists o'. repeat split; auto.
Qed.

Lemma safe_leaves_terms_alone {A} (m : M A) :
  (forall n E c, safe n E m c) -> leaves_terms_alone m.
Proof.
  intros H c. specialize (H (length (store c)) nowhere c (le_n _)).
  destruct (m c); [| intros _ | exact I]; apply stable_untouched, H.
Qed.

(** The index expressions whose conversion builds a plain term and
    nothing else: integer constants and symbols of bit-vector type. *)
Definition scalar_index (e : expr2t) : bool :=
  match e with
  | constant_int2t _ _ => true
  | symbol2t ty _ => is_number_type ty
  | _ => false
  end.

Lemma pure_convert_scalar_index fc e :
  scalar_index e = true -> pure (convert_ast fc e).
Proof.
  intros He. destruct fc as [|f]; [apply pure_out_of_fuel |].
  destruct e; try discriminate; cbn [convert_ast].
  - pure_tac.
  - simpl in He.
    replace (is_tuple_ast_type type) with false
      by (destruct type; try discriminate; reflexivity).
    replace (is_tuple_array_ast_type type) with false
      by (destruct type; try discriminate; reflexivity).
    pure_tac.
Qed.

(** A populated term is still there, with its children, after another
    term has been materialised. *)
Lemma populated_survives_make_free ctx lo c1 l o :
  store ctx !! l = Some o -> elements o <> [] ->
  make_free lo ctx = Ok tt c1 ->
  exists o', store c1 !! l = Some o' /\ elements o' = elements o.
Proof.
  intros Hl Hne Hrun.
  pose proof (safe_make_free (length (store ctx)) nowhere lo ctx
                (Nat.le_refl _)) as Hs.
  rewrite Hrun in Hs. apply stable_untouched in Hs.
  destruct Hs as (_ & _ & _ & _ & H).
  destruct (H l o Hl) as (o' & Hl' & _ & _ & _ & He).
  exists o'. split; [exact Hl' | exact (He Hne)].
Qed.

(** X4. A Tuple is assigned at most once.  Assigning to a populated
    Tuple never returns, whatever the source: a source that is a Tuple
    is materialised first, and then the assertion of [assign] is
    tripped, in the state the materialisation leaves (the unchanged
    state for a populated source, the state with the source's new
    children for a free one).  Since the source is materialised before
    the destination is checked, assigning a free Tuple of a record with
    at least one field to itself trips the assertion too, and leaves
    the term populated. *)
Theorem assign_to_populated_is_fatal :
  forall (ctx : smt_convt) (l : nat) (o : tuple_smt_ast),
    store ctx !! l = Some o ->
    (elements o <> [] ->
     (forall other, is_fatal (tuple_assign l other ctx))
     /\ (forall lo src,
           store ctx !! lo = Some src -> elements src <> [] ->
           tuple_assign l (ast_ref lo) ctx
           = Fatal (assertion_failed "tuple smt assign with elems populated")
                   ctx)
     /\ (forall lo src ty data,
           store ctx !! lo = Some src -> elements src = [] ->
           thetype (sort src) = Some ty ->
           type_def (config ctx) ty = Some data ->
           members_constructible data = true ->
           exists ctx' es o',
             make_free lo ctx = Ok tt ctx'
             /\ tuple_assign l (ast_ref lo) ctx
                = Fatal (assertion_failed
                           "tuple smt assign with elems populated") ctx'
             /\ store ctx' !! lo = Some (with_elements src es)
             /\ length es = length (members data)
             /\ store ctx' !! l = Some o'
             /\ elements o' = elements o))
    /\ (elements o = [] ->
        forall ty data,
          thetype (sort o) = Some ty ->
          type_def (config ctx) ty = Some data ->
          members_constructible data = true -> members data <> [] ->
          exists ctx' es,
            tuple_assign l (ast_ref l) ctx
            = Fatal (assertion_failed "tuple smt assign with elems populated")
                    ctx'
            /\ store ctx' !! l = Some (with_elements o es)
            /\ length es = length (members data)).
Proof.
  intros ctx l o Hl. split.
  - intros Hne. split; [| split].
    + intros other. unfold tuple_assign.
      apply is_fatal_bind; [unfold to_tuple_ast; destruct other; nof |].
      intros lo c0 Hlo.
      assert (c0 = ctx) by exact (pure_run _ _ _ _ (pure_to_tuple_ast _) Hlo).
      subst c0.
      apply is_fatal_bind; [apply nof_make_free |]. intros [] c1 Hmf.
      destruct (populated_survives_make_free _ _ _ _ _ Hl Hne Hmf)
        as (o' & Hl' & He').
      unfold bind. rewrite (deref_ok _ _ _ Hl').
      destruct (elements o') eqn:E; [congruence | exact I].
    + intros lo src Hlo Hsrc.
      eapply tuple_assign_populated_fatal; try eassumption.
      eapply make_free_populated; eassumption.
    + intros lo src ty data Hlo Hes Hty Hd Hmc.
      pose proof (make_free_free_spec ctx lo src ty data Hlo Hes Hty Hd Hmc)
        as Hwp.
      apply wp_ok in Hwp
        as ([] & c1 & Hrun & es & news & Hfr & Hst & Hok & Hch & Hge).
      pose proof (lookup_lt_Some _ _ _ Hlo) as Hlt.
      destruct (populated_survives_make_free _ _ _ _ _ Hl Hne Hrun)
        as (o' & Hl' & He').
      exists c1, es, o'. split; [exact Hrun |]. split.
      { eapply tuple_assign_populated_fatal;
          [exact Hlo | exact Hrun | exact Hl' | rewrite He'; exact Hne]. }
      split.
      { rewrite Hst. apply lookup_app_l_Some, list_lookup_insert_eq, Hlt. }
      split; [exact (named_children_length _ _ _ _ _ _ Hch) |].
      split; [exact Hl' | exact He'].
  - intros He ty data Hty Hd Hmc Hms.
    pose proof (make_free_free_spec ctx l o ty data Hl He Hty Hd Hmc) as Hwp.
    apply wp_ok in Hwp
      as ([] & c1 & Hrun & es & news & Hfr & Hst & Hok & Hch & Hge).
    pose proof (lookup_lt_Some _ _ _ Hl) as Hlt.
    assert (Hl1 : store c1 !! l = Some (with_elements o es)).
    { rewrite Hst. apply lookup_app_l_Some, list_lookup_insert_eq, Hlt. }
    pose proof (named_children_length _ _ _ _ _ _ Hch) as Hlen.
    exists c1, es. split; [| split; [exact Hl1 | exact Hlen]].
    eapply tuple_assign_populated_fatal; [exact Hl | exact Hrun | exact Hl1 |].
    simpl. intros ->. simpl in Hlen. destruct (members data); [congruence |].
    discriminate.
Qed.

Lemma assign_to_populated_is_fatal_witness :
  tuple_assign 1 (ast_ref 1) assign_ctx
  = Fatal (assertion_failed "tuple smt assign with elems populated")
          assign_ctx
  /\ is_fatal (tuple_assign 1 (ast_bool true) assign_ctx)
  /\ (exists ctx' o',
        tuple_assign 1 (ast_ref 0) assign_ctx
        = Fatal (assertion_failed "tuple smt assign with elems populated")
                ctx'
        /\ store ctx' !! 0%nat = Some o' /\ length (elements o') = 2%nat)
  /\ exists ctx' o',
       tuple_assign 0 (ast_ref 0) assign_ctx
       = Fatal (assertion_failed "tuple smt assign with elems populated")
               ctx'
       /\ store ctx' !! 0%nat = Some o' /\ length (elements o') = 2%nat.
Proof.
  destruct (assign_to_populated_is_fatal assign_ctx 1 _ eq_refl)
    as [Hpop _].
  destruct (Hpop ltac:(discriminate)) as (Hany & Hp & Hf).
  split; [eapply Hp; [reflexivity | discriminate] |].
  split; [apply Hany |]. split.
  - destruct (Hf 0%nat _ example_struct _ eq_refl eq_refl eq_refl eq_refl
                eq_refl)
      as (ctx' & es & o' & _ & Hrun & Hlo & Hlen & _).
    exists ctx'. eexists. split; [exact Hrun |].
    split; [exact Hlo | exact Hlen].
  - destruct (assign_to_populated_is_fatal assign_ctx 0 _ eq_refl) as [_ H].
    destruct (H eq_refl example_struct _ eq_refl eq_refl eq_refl
                ltac:(discriminate))
      as (ctx' & es & Hrun & Hl' & Hlen).
    exists ctx'. eexists.
    split; [exact Hrun |]. split; [exact Hl' | exact Hlen].
Defined.

(** X6. The operations on terms leave the terms they find alone.
    Projection, materialisation, assignment of Tuples, merge, equality,
    and update and select at an index that is a constant or a symbol of
    bit-vector type (for update also at a field number, with no index
    expression): on every input, whether the run returns or is ended by
    [abort()] or a failed assertion, they add no assertion, keep the
    configuration and the sentinels, keep every term with its class,
    sort and name, and never change the children of a term that has
    children.  Only free Tuples are ever written to, and new terms are
    only appended. *)
Theorem operations_leave_terms_alone :
  forall fuel : nat,
    (forall a i, leaves_terms_alone (project a i))
    /\ (forall l, leaves_terms_alone (make_free l))
    /\ (forall l other, leaves_terms_alone (tuple_assign l other))
    /\ (forall t c e, leaves_terms_alone (ite fuel t c e))
    /\ (forall a b, leaves_terms_alone (eq fuel a b))
    /\ (forall fc t v i e,
          is_nil_expr e || scalar_index e = true ->
          leaves_terms_alone (update (convert_ast fc) fuel t v i e))
    /\ (forall fc t e,
          scalar_index e = true ->
          leaves_terms_alone (select (convert_ast fc) fuel t e)).
Proof.
  intros fuel.
  split; [intros; apply safe_leaves_terms_alone; intros;
          apply safe_project |].
  split; [intros; apply safe_leaves_terms_alone; intros;
          apply safe_make_free |].
  split; [intros; apply safe_leaves_terms_alone; intros;
          apply safe_tuple_assign |].
  split; [intros; apply safe_leaves_terms_alone; intros; apply safe_ite |].
  split; [intros; apply safe_leaves_terms_alone; intros; apply safe_eq |].
  assert (Hc : forall fc e n E c,
            scalar_index e = true -> safe n E (convert_ast fc e) c)
    by (intros; apply pure_safe, pure_convert_scalar_index; assumption).
  split.
  - intros fc t v i e He. apply safe_leaves_terms_alone. intros n E c.
    apply (safe_update (convert_ast fc) scalar_index (Hc fc));
      [reflexivity | exact He].
  - intros fc t e He. apply safe_leaves_terms_alone. intros n E c.
    apply (safe_select (convert_ast fc) scalar_index (Hc fc)), He.
Qed.

Lemma operations_leave_terms_alone_witness :
  leaves_terms_alone
    (update (convert_ast 2) 2 (ast_ref 0) (ast_ref 1) 0 nil_expr)
  /\ leaves_terms_alone
       (update (convert_ast 2) 2 (ast_ref 0) (ast_ref 1) 0
          (symbol2t bv8 "i"))
  /\ leaves_terms_alone
       (select (convert_ast 2) 2 (ast_ref 0) (constant_int2t bv8 0)).
Proof.
  destruct (operations_leave_terms_alone 2) as (_ & _ & _ & _ & _ & Hu & Hs).
  split; [apply Hu; reflexivity |].
  split; [apply Hu; reflexivity | apply Hs; reflexivity].
Defined.

(** ** The merge of two arrays of records *)

(** X7. Merge law for arrays of records.  For two well-formed TupleArray
    terms [t1] and [t2] of an array type [A] whose element type can be
    built, a condition [c] and fuel beyond the nesting depth of [A],
    [ite] returns a fresh well-formed TupleArray term of type [A] and
    adds no assertion; under every model that gives [c] a boolean value,
    the value of the result, per-field array by per-field array, is the
    value of [t1] when [c] holds and of [t2] otherwise. *)
Theorem array_merge_law :
  forall (ctx : smt_convt) (sub : type2t) (sz : array_size_expr)
         (inf : bool) (t1 t2 c : smt_astt) (f : nat),
    classify (array_type2t sub sz inf) = CTupleArray ->
    elem_supported sub = true ->
    wt (config ctx) (store ctx) (array_type2t sub sz inf) t1 ->
    wt (config ctx) (store ctx) (array_type2t sub sz inf) t2 ->
    (rank (array_type2t sub sz inf) < f)%nat ->
    exists lr ctx',
      ite f t1 c t2 ctx = Ok (ast_ref lr) ctx'
      /\ (length (store ctx) <= lr)%nat
      /\ assertions ctx' = assertions ctx
      /\ wt (config ctx) (store ctx') (array_type2t sub sz inf) (ast_ref lr)
      /\ forall m b, eval m c = Some (VBool b) ->
           exists v1 v2,
             denote f (config ctx) (store ctx') m t1 = Some v1
             /\ denote f (config ctx) (store ctx') m t2 = Some v2
             /\ denote f (config ctx) (store ctx') m (ast_ref lr)
                = Some (if b then v1 else v2).
Proof.
  intros ctx sub sz inf t1 t2 c f Hcl Hsup Hw1 Hw2 Hrk.
  assert (Hmg : mergeable (array_type2t sub sz inf) = true).
  { unfold mergeable. cbn [member_constructible supported].
    unfold classify in Hcl.
    destruct (is_tuple_ast_type (array_type2t sub sz inf)); [discriminate |].
    destruct (is_tuple_array_ast_type (array_type2t sub sz inf));
      [| discriminate].
    rewrite Hsup. reflexivity. }
  pose proof (ite_spec c f _ t1 t2 ctx Hrk Hmg Hw1 Hw2) as Hwp.
  apply wp_ok in Hwp as (a & ctx' & Hrun & Hfr & Hev & Hwt & Hfresh & _ & Hm).
  assert (Hnp : classify (array_type2t sub sz inf) <> CPlain) by congruence.
  destruct (wt_structured_inv _ _ _ _ Hnp Hwt) as [lr ->].
  exists lr, ctx'. split; [exact Hrun |].
  split; [apply Hfresh; reflexivity |]. split; [apply Hfr |].
  split; [exact Hwt |].
  intros m b Hb. destruct (Hm m b Hb) as ([v1 Hv1] & [v2 Hv2] & Hr).
  exists v1, v2. split; [exact Hv1 |]. split; [exact Hv2 |].
  rewrite Hr. destruct b; assumption.
Qed.

Lemma array_merge_law_witness :
  exists lr ctx',
    ite 3 (ast_ref 0) example_condition (ast_ref 1) two_arrays_ctx
    = Ok (ast_ref lr) ctx'
    /\ assertions ctx' = []
    /\ forall m b, eval m example_condition = Some (VBool b) ->
         exists v1 v2,
           denote 3 example_config (store ctx') m (ast_ref 0) = Some v1
           /\ denote 3 example_config (store ctx') m (ast_ref 1) = Some v2
           /\ denote 3 example_config (store ctx') m (ast_ref lr)
              = Some (if b then v1 else v2).
Proof.
  destruct (array_merge_law two_arrays_ctx example_struct
              (size_constant_int 4) false (ast_ref 0) (ast_ref 1)
              example_condition 3)
    as (lr & ctx' & Hrun & _ & Ha & _ & Hm).
  - reflexivity.
  - reflexivity.
  - eapply (wt_populated _ _ _ 0%nat);
      [reflexivity | exact I | reflexivity | reflexivity |].
    repeat constructor.
  - eapply (wt_populated _ _ _ 1%nat);
      [reflexivity | exact I | reflexivity | reflexivity |].
    repeat constructor.
  - simpl. lia.
  - exists lr, ctx'. split; [exact Hrun |]. split; [exact Ha | exact Hm].
Defined.

(** ** Reading an array of records after a write *)



(** A TupleArray [x.] of the example record with two per-field array
    symbols, next to the populated Tuple [t.]. *)
Definition array_and_record_ctx : smt_convt :=
  let A := array_type2t example_struct (size_constant_int 4) false in
  mk_smt_convt example_config
    [mk_tuple_smt_ast (TupleArray true) (convert_sort_cfg example_config A)
       "x."
       [ast_symbol (convert_sort_cfg example_config
                      (array_type2t bv8 (size_constant_int 4) false)) "x.a";
        ast_symbol (convert_sort_cfg example_config
                      (array_type2t bool_type2t (size_constant_int 4) false))
                   "x.b"];
     mk_tuple_smt_ast Tuple (convert_sort_cfg example_config example_struct)
       "t." [ast_bvint bv8_sort 7; ast_bool true]]
    0 [] ast_null ast_null.


(** ** Structured symbols *)

Lemma ends_with_dot_app nm : ends_with_dot (nm +:+ ".") = true.
Proof.
  induction nm as [|c r IH]; [reflexivity |].
  change (String c r +:+ ".") with (String c (r +:+ ".")).
  destruct r as [|c' r']; [reflexivity |]. exact IH.
Qed.

(** The name [mk_tuple_symbol] gives the term of a symbol. *)
Definition dotted (nm : string) : string :=
  if ends_with_dot nm then nm else nm +:+ ".".

Lemma ends_with_dot_dotted nm : ends_with_dot (dotted nm) = true.
Proof.
  unfold dotted. destruct (ends_with_dot nm) eqn:E; [exact E |].
  apply ends_with_dot_app.
Qed.

(** The names [mk_tuple_symbol] intercepts. *)
Definition sentinel_name (nm : string) : bool :=
  String.eqb nm "0" || String.eqb nm "NULL" || String.eqb nm "INVALID".

Lemma ends_with_dot_not_sentinel nm :
  ends_with_dot nm = true -> sentinel_name nm = false /\ nm <> "".
Proof.
  intros H. unfold sentinel_name. split.
  - destruct (String.eqb_spec nm "0") as [->|_]; [discriminate |].
    destruct (String.eqb_spec nm "NULL") as [->|_]; [discriminate |].
    destruct (String.eqb_spec nm "INVALID") as [->|_]; [discriminate |].
    reflexivity.
  - intros ->. discriminate.
Qed.

Lemma mk_tuple_symbol_run ctx ty nm :
  sentinel_name nm = false -> nm <> "" ->
  mk_tuple_symbol (symbol2t ty nm) ctx
  = if is_array_sort (convert_sort_cfg (config ctx) ty)
    then Fatal (assertion_failed "sort->id != SMT_SORT_ARRAY") ctx
    else Ok (ast_ref (length (store ctx)))
            (set_store (store ctx
                        ++ [mk_tuple_smt_ast Tuple
                              (convert_sort_cfg (config ctx) ty)
                              (dotted nm) []]) ctx).
Proof.
  intros Hs Hne. unfold sentinel_name in Hs.
  apply orb_false_iff in Hs as [Hs H3]. apply orb_false_iff in Hs as [H1 H2].
  unfold mk_tuple_symbol, bind. simpl. rewrite H1, H2, H3. simpl.
  destruct (String.eqb_spec nm "") as [->|_]; [congruence |]. simpl.
  fold (dotted nm).
  destruct (is_array_sort (convert_sort_cfg (config ctx) ty)); reflexivity.
Qed.

(** X9. Names of structured symbols.  The names [0] and [NULL] give the
    null sentinel and [INVALID] the invalid sentinel, whatever the type,
    and change nothing.  Any other non-empty name gives a new free Tuple
    at the next address whose name ends in a dot: the symbol name if it
    ends in a dot already, the name with a dot appended otherwise, so
    that converting a symbol again under the name of its term gives a
    term of the very same name.  A symbol of array type trips the
    assertion instead. *)
Theorem structured_symbol_names :
  forall (ctx : smt_convt) (ty : type2t),
    mk_tuple_symbol (symbol2t ty "0") ctx = Ok (null_ptr_ast ctx) ctx
    /\ mk_tuple_symbol (symbol2t ty "NULL") ctx = Ok (null_ptr_ast ctx) ctx
    /\ mk_tuple_symbol (symbol2t ty "INVALID") ctx
       = Ok (invalid_ptr_ast ctx) ctx
    /\ forall nm, sentinel_name nm = false -> nm <> "" ->
         (is_array_type ty = true ->
          mk_tuple_symbol (symbol2t ty nm) ctx
          = Fatal (assertion_failed "sort->id != SMT_SORT_ARRAY") ctx)
         /\ (is_array_type ty = false ->
             exists nm',
               mk_tuple_symbol (symbol2t ty nm) ctx
               = Ok (ast_ref (length (store ctx)))
                    (set_store
                       (store ctx
                        ++ [mk_tuple_smt_ast Tuple
                              (convert_sort_cfg (config ctx) ty) nm' []])
                       ctx)
               /\ ends_with_dot nm' = true
               /\ (nm' = nm \/ (ends_with_dot nm = false /\ nm' = nm +:+ "."))
               /\ mk_tuple_symbol (symbol2t ty nm') ctx
                  = mk_tuple_symbol (symbol2t ty nm) ctx).
Proof.
  intros ctx ty. split; [reflexivity |]. split; [reflexivity |].
  split; [reflexivity |]. intros nm Hs Hne.
  rewrite (mk_tuple_symbol_run ctx ty nm Hs Hne). split.
  - intros Ha. destruct ty; try discriminate. simpl.
    destruct (is_tuple_ast_type ty || is_tuple_array_ast_type ty);
      reflexivity.
  - intros Ha.
    assert (Hsort : is_array_sort (convert_sort_cfg (config ctx) ty) = false)
      by (destruct ty; try discriminate; reflexivity).
    rewrite Hsort. exists (dotted nm). split; [reflexivity |].
    split; [apply ends_with_dot_dotted |]. split.
    + unfold dotted. destruct (ends_with_dot nm); auto.
    + destruct (ends_with_dot_not_sentinel _ (ends_with_dot_dotted nm))
        as [Hs' Hne'].
      rewrite (mk_tuple_symbol_run ctx ty _ Hs' Hne'), Hsort.
      unfold dotted at 1. rewrite ends_with_dot_dotted. reflexivity.
Qed.

Lemma structured_symbol_names_witness :
  exists nm',
    mk_tuple_symbol (symbol2t example_struct "s") (empty_convt example_config)
    = Ok (ast_ref 0)
         (set_store
            [mk_tuple_smt_ast Tuple
               (convert_sort_cfg example_config example_struct) nm' []]
            (empty_convt example_config))
    /\ ends_with_dot nm' = true
    /\ mk_tuple_symbol (symbol2t example_struct nm')
         (empty_convt example_config)
       = mk_tuple_symbol (symbol2t example_struct "s")
           (empty_convt example_config).
Proof.
  destruct (structured_symbol_names (empty_convt example_config)
              example_struct) as (_ & _ & _ & H).
  destruct (H "s" eq_refl ltac:(discriminate)) as [_ H'].
  destruct (H' eq_refl) as (nm' & Hrun & Hd & _ & Hagain).
  exists nm'. split; [exact Hrun |]. split; [exact Hd | exact Hagain].
Defined.

(** ** Equality of structured terms *)

Lemma wp_collect_loop body (Inv : nat -> smt_convt -> Prop)
  (P : nat -> smt_astt -> Prop) count :
  forall start ctx (Q : list smt_astt -> smt_convt -> Prop),
    Inv start ctx ->
    (forall i c, (start <= i < start + count)%nat -> Inv i c ->
                 wp (body i) c (fun x c' => P i x /\ Inv (S i) c')) ->
    (forall xs c, length xs = count ->
                  (forall k x, xs !! k = Some x -> P (start + k)%nat x) ->
                  Inv (start + count)%nat c -> Q xs c) ->
    wp (collect_loop body start count) ctx Q.
Proof.
  induction count as [|count IH]; intros start ctx Q H0 Hstep Hend; simpl.
  - apply wp_ret, Hend; [reflexivity | intros k x; discriminate |].
    rewrite Nat.add_0_r. exact H0.
  - apply wp_bind. eapply wp_mono; [apply Hstep; [lia | exact H0] |].
    intros x c [Hx Hc]. apply wp_bind.
    apply (IH (S start) c); [exact Hc | |].
    + intros i c' Hi. apply Hstep. lia.
    + intros xs c' Hlen Hxs Hc'. apply wp_ret. apply Hend.
      * simpl. lia.
      * intros [|k] y Hy; simpl in Hy.
        -- injection Hy as <-. rewrite Nat.add_0_r. exact Hx.
        -- replace (start + S k)%nat with (S start + k)%nat by lia.
           apply Hxs, Hy.
      * replace (start + S count)%nat with (S start + count)%nat by lia.
        exact Hc'.
Qed.

(** The equality of two plain terms. *)
Definition eq_term (x y : smt_astt) : smt_astt :=
  ast_func_app bool_sort SMT_FUNC_EQ [x; y].

Lemma eq_plain_run f x y ctx :
  is_plain x = true -> eq (S f) x y ctx = Ok (eq_term x y) ctx.
Proof. destruct x; try discriminate; reflexivity. Qed.

Lemma settled_make_free cfg T T' data l o ctx :
  settled cfg (store ctx) T l o (members data) ->
  classify T = CTuple ->
  thetype (convert_sort_cfg cfg T) = Some T' ->
  type_def cfg T' = Some data -> config ctx = cfg ->
  make_free l ctx = Ok tt ctx.
Proof.
  intros (Hl & Hk & Hs & _ & Hch) Hcl HT' Hd' Hcfg.
  destruct (elements o) as [|e es] eqn:He.
  - eapply (make_free_no_members ctx l o T' data);
      [exact Hl | exact He | rewrite Hs; exact HT' | rewrite Hcfg; exact Hd' |].
    inversion Hch. reflexivity.
  - eapply make_free_populated; [exact Hl |]. rewrite He. discriminate.
Qed.

(** X10. Equality of records is field-wise.  For two well-formed Tuple
    terms of a record type whose fields are all plain, [eq] materialises
    both terms and returns the conjunction of one equality per field,
    in field order, between the children the two terms project; it adds
    no assertion. *)
Theorem record_equality_is_fieldwise :
  forall (ctx : smt_convt) (T : type2t) (data : struct_union_data)
         (t1 t2 : smt_astt) (f : nat),
    classify T = CTuple -> supported T = true ->
    type_def (config ctx) T = Some data ->
    Forall (fun ty => classify ty = CPlain) (members data) ->
    wt (config ctx) (store ctx) T t1 -> wt (config ctx) (store ctx) T t2 ->
    exists ctx' xs ys,
      eq (S (S f)) t1 t2 ctx
      = Ok (ast_func_app bool_sort SMT_FUNC_AND (zip_with eq_term xs ys)) ctx'
      /\ assertions ctx' = assertions ctx
      /\ length xs = length (members data)
      /\ length ys = length (members data)
      /\ forall i x y, xs !! i = Some x -> ys !! i = Some y ->
           project t1 i ctx' = Ok x ctx' /\ project t2 i ctx' = Ok y ctx'.
Proof.
  intros ctx T data t1 t2 f Hcl Hsup Hd Hpl Hw1 Hw2.
  assert (Hnp : classify T <> CPlain) by congruence.
  destruct (wt_structured_inv _ _ _ _ Hnp Hw1) as [l ->].
  destruct (wt_structured_inv _ _ _ _ Hnp Hw2) as [lb ->].
  destruct (tuple_sort_type (config ctx) T Hcl)
    as (T' & data' & HT' & Hd' & Hd2).
  rewrite Hd in Hd2. injection Hd2 as <-.
  (* the second operand is materialised first *)
  pose proof (make_free_settles ctx lb T data Hcl Hsup Hd Hw2) as Hmf2.
  apply wp_ok in Hmf2 as ([] & c1 & Hrun2 & Hfr1 & Hev1 & _ & o2 & Hset2).
  assert (Hc1 : config c1 = config ctx) by apply Hfr1.
  pose proof (wt_evolves _ _ _ _ _ _ Hev1 Hw1) as Hw1'.
  (* the first one at the first projection *)
  assert (Hd1 : type_def (config c1) T = Some data)
    by (rewrite Hc1; exact Hd).
  rewrite <- Hc1 in Hw1'.
  pose proof (make_free_settles c1 l T data Hcl Hsup Hd1 Hw1') as Hmf1.
  apply wp_ok in Hmf1 as ([] & c2 & Hrun1 & Hfr2 & Hev2 & _ & o1 & Hset1).
  rewrite Hc1 in Hev2, Hset1, Hw1'.
  assert (Hc2 : config c2 = config ctx)
    by (destruct Hfr2 as (-> & _); exact Hc1).
  pose proof (settled_evolves _ _ _ _ _ _ _ _ Hev2 Hset2) as Hset2'.
  pose proof Hset1 as (Hl1 & Hk1 & Hs1 & _ & Hch1).
  pose proof Hset2' as (Hl2 & Hk2 & Hs2 & _ & Hch2).
  pose proof (Forall2_length _ _ _ Hch1) as Hlen1.
  pose proof (Forall2_length _ _ _ Hch2) as Hlen2.
  destruct (wt_ref_inv _ _ _ _ Hw1') as (o1' & Hl1' & Hk1' & Hs1' & _).
  destruct (wt_ref_inv _ _ _ _ Hw2) as (o2' & Hl2' & Hk2' & Hs2' & _).
  assert (Hagain : members data <> [] -> make_free l c2 = Ok tt c2).
  { intros _. eapply settled_make_free; eassumption. }
  set (P := fun (i : nat) (e : smt_astt) =>
              exists x y, elements o1 !! i = Some x
                          /\ elements o2 !! i = Some y /\ e = eq_term x y).
  set (Inv := fun (i : nat) (c : smt_convt) =>
                (i = 0%nat /\ c = c1) \/ c = c2).
  assert (Hloop :
    wp (collect_loop
          (fun i => do side1 <- project (ast_ref l) i;
                    do side2 <- project (ast_ref lb) i;
                    eq (S f) side1 side2) 0 (length (members data))) c1
       (fun eqs c =>
          eqs = zip_with eq_term (elements o1) (elements o2)
          /\ Inv (length (members data)) c)).
  { apply (wp_collect_loop _ Inv P).
    - left. auto.
    - intros i c Hi HI. simpl in Hi.
      destruct (lookup_lt_is_Some_2 (elements o1) i ltac:(lia)) as [x Hx].
      destruct (lookup_lt_is_Some_2 (elements o2) i ltac:(lia)) as [y Hy].
      destruct (lookup_lt_is_Some_2 (members data) i ltac:(lia)) as [ty Hty].
      assert (Hp1 : project (ast_ref l) i c = Ok x c2).
      { assert (Hget : get_element l i c2 = Ok x c2)
          by (eapply get_element_run; eassumption).
        destruct HI as [[_ ->] | ->].
        - eapply (tuple_project_run c1 c2 l o1' T' data);
            [exact Hl1' | eapply kind_matches_tuple; eassumption
            | rewrite Hs1'; exact HT' | rewrite Hc1; exact Hd'
            | exact Hrun1 | lia | exact Hget].
        - eapply (tuple_project_run c2 c2 l o1 T' data);
            [exact Hl1 | eapply kind_matches_tuple; eassumption
            | rewrite Hs1; exact HT' | rewrite Hc2; exact Hd'
            | apply Hagain; intros E; rewrite E in Hi; simpl in Hi; lia
            | lia | exact Hget]. }
      assert (Hp2 : project (ast_ref lb) i c2 = Ok y c2).
      { eapply (settled_project (config ctx) _ T T' data lb o2);
          eassumption. }
      assert (Hxp : is_plain x = true).
      { eapply (wt_plain_inv (config ctx) (store c2) ty).
        - rewrite Forall_forall in Hpl. apply Hpl.
          eapply list_elem_of_lookup_2, Hty.
        - exact (Forall2_lookup_lr _ _ _ _ _ _ Hch1 Hty Hx). }
      apply wp_bind. eapply wp_of_ok; [exact Hp1 |].
      apply wp_bind. eapply wp_of_ok; [exact Hp2 |].
      eapply wp_of_ok; [apply eq_plain_run, Hxp |].
      split; [exists x, y; auto | right; reflexivity].
    - intros eqs c Hlen Hall HI. split; [| exact HI].
      apply list_eq_same_length with (length (members data));
        [rewrite length_zip_with_l_eq; lia | exact Hlen |].
      intros i e e' Hi He He'.
      destruct (Hall i e He) as (x & y & Hx & Hy & ->).
      cbn [Nat.add] in Hx, Hy.
      rewrite lookup_zip_with, Hx in He'. simpl in He'. rewrite Hy in He'.
      simpl in He'. congruence. }
  apply wp_ok in Hloop as (eqs & c' & Hrun & -> & HI).
  destruct (wt_ref_inv _ _ _ _ Hw1) as (o10 & Hl10 & Hk10 & _).
  apply (kind_matches_tuple _ _ Hcl) in Hk10.
  exists c', (elements o1), (elements o2). split.
  { apply wp_run. cbn [eq]. apply wp_bind. eapply wp_deref; [exact Hl10 |].
    rewrite Hk10. unfold tuple_eq.
    apply wp_bind. eapply wp_to_tuple_ast; [exact Hl2' |].
    apply wp_bind. eapply wp_of_ok; [exact Hrun2 |].
    apply wp_bind. eapply wp_deref; [exact Hl1' |].
    apply wp_bind. eapply wp_to_tuple_sort; [rewrite Hs1'; exact HT' |].
    apply wp_bind. eapply wp_get_type_def; [rewrite Hc1; exact Hd' |].
    apply wp_bind. eapply wp_of_ok; [exact Hrun |].
    apply wp_ret. split; reflexivity. }
  split.
  { destruct HI as [[_ ->] | ->]; [apply Hfr1 |].
    destruct Hfr2 as (_ & -> & _). apply Hfr1. }
  split; [lia |]. split; [lia |].
  intros i x y Hx Hy.
  pose proof (lookup_lt_Some _ _ _ Hx) as Hi.
  destruct HI as [[H0 _] | ->]; [simpl in H0; lia |].
  split; eapply (settled_project (config ctx) _ T T' data); eassumption.
Qed.

Lemma record_equality_is_fieldwise_witness :
  exists ctx' xs ys,
    eq 2 (ast_ref 0) (ast_ref 1) assign_ctx
    = Ok (ast_func_app bool_sort SMT_FUNC_AND (zip_with eq_term xs ys)) ctx'
    /\ assertions ctx' = []
    /\ length xs = 2%nat /\ length ys = 2%nat.
Proof.
  destruct (record_equality_is_fieldwise assign_ctx example_struct
              (mk_struct_union_data [bv8; bool_type2t] ["a"; "b"])
              (ast_ref 0) (ast_ref 1) 0)
    as (ctx' & xs & ys & Hrun & Ha & Hlx & Hly & _).
  - reflexivity.
  - reflexivity.
  - reflexivity.
  - repeat constructor.
  - eapply (wt_free _ _ _ 0%nat); reflexivity.
  - eapply (wt_populated _ _ _ 1%nat);
      [reflexivity | exact I | reflexivity | reflexivity |].
    repeat constructor.
  - exists ctx', xs, ys. split; [exact Hrun |]. split; [exact Ha |].
    split; [exact Hlx | exact Hly].
Defined.

(** X11. Equality of arrays of records is field-wise.  For two
    TupleArray terms with one plain per-field array per field of the
    element type of the first, [eq] returns the conjunction of one
    equality per field, in field order, between the per-field arrays of
    the two terms, and changes nothing.  Only the sort of the first term
    is consulted.  A second operand that is a Tuple trips the assertion
    of the cast. *)
Theorem array_equality_is_fieldwise :
  forall (ctx : smt_convt) (la lb : nat) (o1 o2 : tuple_smt_ast)
         (b1 : bool) (sub : type2t) (sz : array_size_expr) (inf : bool)
         (data : struct_union_data) (f : nat),
    store ctx !! la = Some o1 -> kind o1 = TupleArray b1 ->
    thetype (sort o1) = Some (array_type2t sub sz inf) ->
    type_def (config ctx) sub = Some data ->
    length (elements o1) = length (members data) ->
    Forall (fun a => is_plain a = true) (elements o1) ->
    store ctx !! lb = Some o2 ->
    (forall b2, kind o2 = TupleArray b2 ->
       length (elements o2) = length (members data) ->
       eq (S (S f)) (ast_ref la) (ast_ref lb) ctx
       = Ok (ast_func_app bool_sort SMT_FUNC_AND
               (zip_with eq_term (elements o1) (elements o2))) ctx)
    /\ (kind o2 = Tuple ->
        eq (S (S f)) (ast_ref la) (ast_ref lb) ctx
        = Fatal (assertion_failed "Tuple-Array AST mismatch") ctx).
Proof.
  intros ctx la lb o1 o2 b1 sub sz inf data f Hla Hk1 Hty Hd Hlen1 Hpl Hlb.
  split.
  - intros b2 Hk2 Hlen2. apply wp_run. cbn [eq].
    apply wp_bind. eapply wp_deref; [exact Hla |]. rewrite Hk1.
    unfold array_eq. apply wp_bind.
    unfold to_array_ast. apply wp_bind. eapply wp_deref; [exact Hlb |].
    rewrite Hk2. apply wp_ret.
    apply wp_bind. eapply wp_deref; [exact Hla |].
    apply wp_bind. eapply wp_to_tuple_sort; [exact Hty |].
    apply wp_bind. apply wp_assert_that; [reflexivity |].
    apply wp_bind, wp_ret. cbn [fst snd].
    apply wp_bind. eapply wp_get_type_def; [exact Hd |].
    apply wp_bind.
    apply (wp_collect_loop _ (fun _ c => c = ctx)
             (fun i e => exists x y, elements o1 !! i = Some x
                                     /\ elements o2 !! i = Some y
                                     /\ e = eq_term x y)).
    + reflexivity.
    + intros i c Hi ->. simpl in Hi.
      destruct (lookup_lt_is_Some_2 (elements o1) i ltac:(lia)) as [x Hx].
      destruct (lookup_lt_is_Some_2 (elements o2) i ltac:(lia)) as [y Hy].
      apply wp_bind. eapply wp_get_element; [exact Hla | exact Hx |].
      apply wp_bind. eapply wp_get_element; [exact Hlb | exact Hy |].
      eapply wp_of_ok.
      * apply eq_plain_run.
        exact (Forall_lookup_1 (fun a => is_plain a = true) _ _ _ Hpl Hx).
      * split; [exists x, y; auto | reflexivity].
    + intros eqs c Hlen Hall ->. apply wp_ret. split; [| reflexivity].
      f_equal.
      apply list_eq_same_length with (length (members data));
        [rewrite length_zip_with_l_eq; lia | exact Hlen |].
      intros i e e' Hi He He'.
      destruct (Hall i e He) as (x & y & Hx & Hy & ->).
      cbn [Nat.add] in Hx, Hy.
      rewrite lookup_zip_with, Hx in He'. simpl in He'. rewrite Hy in He'.
      simpl in He'. congruence.
  - intros Hk2. cbn [eq]. unfold bind at 1.
    rewrite (deref_ok _ _ _ Hla), Hk1. unfold array_eq, to_array_ast, bind.
    rewrite (deref_ok _ _ _ Hlb), Hk2. reflexivity.
Qed.

Lemma array_equality_is_fieldwise_witness :
  eq 2 (ast_ref 0) (ast_ref 1) two_arrays_ctx
  = Ok (ast_func_app bool_sort SMT_FUNC_AND
          [eq_term
             (ast_symbol (convert_sort_cfg example_config
                            (array_type2t bv8 (size_constant_int 4) false))
                         "x.a")
             (ast_symbol (convert_sort_cfg example_config
                            (array_type2t bv8 (size_constant_int 4) false))
                         "y.a");
           eq_term
             (ast_symbol (convert_sort_cfg example_config
                            (array_type2t bool_type2t (size_constant_int 4)
                               false)) "x.b")
             (ast_symbol (convert_sort_cfg example_config
                            (array_type2t bool_type2t (size_constant_int 4)
                               false)) "y.b")])
       two_arrays_ctx
  /\ eq 2 (ast_ref 0) (ast_ref 1) array_and_record_ctx
     = Fatal (assertion_failed "Tuple-Array AST mismatch")
             array_and_record_ctx.
Proof.
  split.
  - destruct (array_equality_is_fieldwise two_arrays_ctx 0 1 _ _ true
                example_struct (size_constant_int 4) false
                (mk_struct_union_data [bv8; bool_type2t] ["a"; "b"]) 0
                eq_refl eq_refl eq_refl eq_refl eq_refl
                ltac:(repeat constructor) eq_refl) as [H _].
    exact (H true eq_refl eq_refl).
  - destruct (array_equality_is_fieldwise array_and_record_ctx 0 1 _ _ true
                example_struct (size_constant_int 4) false
                (mk_struct_union_data [bv8; bool_type2t] ["a"; "b"]) 0
                eq_refl eq_refl eq_refl eq_refl eq_refl
                ltac:(repeat constructor) eq_refl) as [_ H].
    exact (H eq_refl).
Defined.

(** ** Decoding a record before and after materialisation *)








(** ** Array literals of scalars *)

(** The array term after storing [vals] at the indexes
    [start], [start + 1], ... *)
Fixpoint store_list (idx_of : nat -> smt_astt) (vals : list smt_astt)
  (a : smt_astt) (start : nat) : smt_astt :=
  match vals with
  | [] => a
  | v :: vs => store_list idx_of vs (store_term (idx_of start) a v) (S start)
  end.

Lemma store_list_snoc idx_of vals v :
  forall a start,
    store_list idx_of (vals ++ [v]) a start
    = store_term (idx_of (start + length vals)%nat)
        (store_list idx_of vals a start) v.
Proof.
  induction vals as [|x vals IH]; intros a start; simpl.
  - rewrite Nat.add_0_r. reflexivity.
  - rewrite IH. replace (S start + length vals)%nat
      with (start + S (length vals))%nat by lia. reflexivity.
Qed.


Lemma store_term_sort idx a v s :
  plain_sort a = Some s -> plain_sort (store_term idx a v) = Some s.
Proof. intros H. unfold store_term. rewrite H. reflexivity. Qed.

Lemma store_list_sort idx_of vals s :
  forall a start,
    plain_sort a = Some s ->
    plain_sort (store_list idx_of vals a start) = Some s.
Proof.
  induction vals as [|x vals IH]; intros a start Ha; simpl; [exact Ha |].
  apply IH, store_term_sort, Ha.
Qed.

(** The value of the array after the stores: the stored value at each
    written index, the old value elsewhere; the indexes written are
    pairwise distinct. *)
Lemma eval_store_list m idx_of (key : nat -> Z) vals (xs : list value) :
  (forall i, eval m (idx_of i) = Some (VBV (key i))) ->
  Forall2 (fun v x => eval m v = Some x) vals xs ->
  forall a g start,
    plain_array a -> eval m a = Some (VArray g) ->
    (forall i j, (start <= i < start + length vals)%nat ->
                 (start <= j < start + length vals)%nat ->
                 key i = key j -> i = j) ->
    exists F,
      eval m (store_list idx_of vals a start) = Some (VArray F)
      /\ (forall j x, xs !! j = Some x -> F (key (start + j)%nat) = x)
      /\ (forall z, (forall j, (j < length vals)%nat ->
                               z <> key (start + j)%nat) -> F z = g z).
Proof.
  intros Hidx Hall. induction Hall as [|v x vals xs Hv Hall IH];
    intros a g start Hpl Ha Hinj; simpl.
  - exists g. split; [exact Ha |]. split; [intros j x; discriminate | auto].
  - destruct (IH (store_term (idx_of start) a v)
                (fun j => if Z.eqb j (key start) then x else g j) (S start))
      as (F & HF & Hin & Hout).
    + apply store_term_plain_array, Hpl.
    + apply eval_store_term; auto.
    + intros i j Hi Hj. apply Hinj; simpl; lia.
    + exists F. split; [exact HF |]. split.
      * intros [|j] y Hy; simpl in Hy.
        -- injection Hy as <-. rewrite Nat.add_0_r.
           rewrite Hout; [rewrite Z.eqb_refl; reflexivity |].
           intros j Hj E. apply Hinj in E; simpl; lia.
        -- replace (start + S j)%nat with (S start + j)%nat by lia.
           apply Hin, Hy.
      * intros z Hz. rewrite Hout.
        -- destruct (Z.eqb_spec z (key start)) as [E|_]; [| reflexivity].
           exfalso. apply (Hz 0%nat); [simpl; lia |].
           rewrite Nat.add_0_r. exact E.
        -- intros j Hj. replace (S start + j)%nat with (start + S j)%nat
             by lia. apply Hz. simpl. lia.
Qed.

(** [smt_ast::update] at a constant position. *)
Lemma update_plain_at fc f this v i s ctx :
  plain_sort this = Some s -> is_array_sort s = true ->
  update (convert_ast (S fc)) (S f) this v i nil_expr ctx
  = Ok (store_term (ast_bvint (mk_smt_sort SMT_SORT_BV (domain_width s) 0 None)
                      (Z.of_nat i)) this v) ctx.
Proof.
  intros Hs Ha.
  assert (H : smt_ast_update (convert_ast (S fc)) this v i nil_expr ctx
              = Ok (store_term
                      (ast_bvint
                         (mk_smt_sort SMT_SORT_BV (domain_width s) 0 None)
                         (Z.of_nat i)) this v) ctx).
  { unfold smt_ast_update, store_term, bind. rewrite Hs. simpl.
    rewrite Ha. reflexivity. }
  cbn [update]. destruct this; try discriminate; exact H.
Qed.

(** The run of [array_create] on an array literal of integer constants,
    and the value a selection from its result has. *)
Lemma array_literal_spec ctx sub sz vs m fc f k :
  let A := array_type2t sub (size_constant_int (Z.of_nat sz)) false in
  let dw := calculate_array_domain_width (config ctx) A in
  let L := constant_array2t A (map (constant_int2t sub) vs) in
  is_number_type sub = true ->
  (sz <= length vs)%nat -> Z.of_nat sz <= 2 ^ Z.of_N dw ->
  Z.of_nat sz < 2 ^ 32 -> (sz <= S f)%nat ->
  well_sorted m -> (k < sz)%nat ->
  exists r sel v,
    array_create (convert_ast (S fc)) (S f) L ctx = Ok r (bump ctx)
    /\ select (convert_ast (S fc)) (S f) r
         (constant_int2t (unsignedbv_type2t dw) (Z.of_nat k)) (bump ctx)
       = Ok sel (bump ctx)
    /\ vs !! k = Some v
    /\ eval m sel = Some (VBV (v mod 2 ^ Z.of_N (type_width sub))).
Proof.
  intros A dw L Hnum Hlen Hdw Hbound Hfuel Hm Hk.
  set (s := mk_smt_sort SMT_SORT_ARRAY (type_width sub) dw None).
  set (es := convert_sort_cfg (config ctx) sub).
  set (nm := "array_create::" +:+ pretty (fresh_counter ctx) +:+ ".").
  set (sym := ast_symbol s nm).
  set (idx_of := fun i : nat =>
                   ast_bvint (mk_smt_sort SMT_SORT_BV dw 0 None) (Z.of_nat i)).
  set (vals := map (ast_bvint es) vs).
  assert (HsA : convert_sort_cfg (config ctx) A = s).
  { unfold A, s, dw. cbn [convert_sort_cfg is_tuple_array_ast_type].
    destruct sub; try discriminate; reflexivity. }
  assert (Hcl : is_tuple_ast_type A = false /\ is_tuple_array_ast_type A = false).
  { unfold A. destruct sub; try discriminate; split; reflexivity. }
  destruct Hcl as [Hta Htaa].
  assert (Hsym : plain_sort sym = Some s) by reflexivity.
  assert (Hrun :
    array_create (convert_ast (S fc)) (S f) L ctx
    = Ok (store_list idx_of (take sz vals) sym 0) (bump ctx)).
  { apply wp_run. unfold array_create. apply wp_bind, wp_get_ctx.
    cbn [L expr_type]. apply wp_bind, wp_mk_fresh_name.
    apply wp_bind, wp_ret. cbn [fst snd negb is_constant_int_size].
    apply wp_bind, wp_ret. apply wp_bind.
    { cbn [convert_ast]. rewrite Hta, Htaa.
      apply wp_bind, wp_convert_sort. cbn [config bump]. rewrite HsA.
      apply wp_ret. cbn [size_to_ulong].
      apply wp_store_loop_bounded; [exact Hbound | exact Hfuel |].
      apply (wp_store_loop _
               (fun i a c => c = bump ctx
                             /\ a = store_list idx_of (take i vals) sym 0)).
      - split; reflexivity.
      - intros i x c Hi [-> ->]. simpl in Hi.
        destruct (lookup_lt_is_Some_2 vs i ltac:(lia)) as [v Hv].
        apply wp_bind. eapply wp_lift_option;
          [rewrite list_lookup_fmap, Hv; reflexivity |].
        cbn [expr_type].
        replace (is_bool_type sub) with false
          by (destruct sub; try discriminate; reflexivity).
        cbn [andb]. apply wp_bind.
        cbn [convert_ast]. apply wp_bind, wp_convert_sort, wp_ret.
        cbn [config bump]. fold es.
        eapply wp_of_ok.
        + apply (update_plain_at fc f _ _ _ s);
            [apply store_list_sort; exact Hsym | reflexivity].
        + split; [reflexivity |].
          assert (Hvi : vals !! i = Some (ast_bvint es v))
            by (unfold vals; rewrite list_lookup_fmap, Hv; reflexivity).
          rewrite (take_S_r _ _ _ Hvi), store_list_snoc.
          rewrite length_take, Nat.min_l
            by (unfold vals; rewrite length_map; lia).
          reflexivity.
      - intros x c [-> ->]. split; reflexivity. } }
  set (r := store_list idx_of (take sz vals) sym 0) in *.
  assert (Hrs : plain_sort r = Some s) by (apply store_list_sort, Hsym).
  assert (Hrp : plain_array r) by (exists s; split; [exact Hrs | reflexivity]).
  destruct (lookup_lt_is_Some_2 vs k ltac:(lia)) as [v Hv].
  pose proof (select_plain_spec fc f r (unsignedbv_type2t dw) (Z.of_nat k)
                (bump ctx) Hrp) as Hsel.
  apply wp_ok in Hsel as (sel & c' & Hsrun & -> & ->).
  eexists r, _, v.
  split; [exact Hrun |]. split; [exact Hsrun |]. split; [exact Hv |].
  (* the value of the chain of stores *)
  destruct (eval_array_symbol m sym Hm) as (g & Hg);
    [eexists _, _; split; reflexivity |].
  set (key := fun i : nat => Z.of_nat i mod 2 ^ Z.of_N dw).
  set (xs := map (fun v => VBV (v mod 2 ^ Z.of_N (type_width sub)))
               (take sz vs)).
  assert (Hxs : Forall2 (fun v x => eval m v = Some x) (take sz vals) xs).
  { unfold vals, xs. rewrite <- fmap_take.
    apply Forall2_fmap, Forall_Forall2_diag, Forall_forall.
    intros z _. simpl. unfold es.
    destruct sub; try discriminate; reflexivity. }
  destruct (eval_store_list m idx_of key (take sz vals) xs
              ltac:(intros i; reflexivity) Hxs sym g 0%nat)
    as (F & HF & Hin & _).
  - exists s. split; reflexivity.
  - exact Hg.
  - intros i j Hi Hj E. unfold key in E.
    rewrite length_take in Hi, Hj.
    rewrite !Z.mod_small in E by lia. lia.
  - fold r in HF.
    erewrite eval_select_term; [| exact Hrp | exact HF | reflexivity].
    f_equal. cbn [config bump].
    change (Z.of_nat k mod 2 ^ Z.of_N (data_width
              (convert_sort_cfg (config ctx) (unsignedbv_type2t dw))))
      with (key (0 + k)%nat).
    apply Hin. unfold xs. rewrite list_lookup_fmap, lookup_take_lt by lia.
    rewrite Hv. reflexivity.
Qed.

(** X13. An array literal of bit-vector constants reads back its
    members.  [array_create] turns a constant array of at least [sz]
    integer constants, of constant size [sz] below 2^32, into a chain of
    stores over a fresh array symbol, given a unit of fuel for each
    store, without touching the store or the assertions.  If [sz] is at
    most two to the domain width of the array sort, then under a
    well-sorted model selecting at a position [k] below [sz] yields the
    [k]-th member, reduced modulo two to the element width.  With a
    size from 2^32 on, the 32-bit counter of the loop never reaches the
    size and [array_create] does not return. *)
Theorem scalar_array_literal_reads_back :
  forall (ctx : smt_convt) (sub : type2t) (vs : list Z),
    is_number_type sub = true ->
    (forall (sz : nat) (m : model) (fc f k : nat),
        let A := array_type2t sub (size_constant_int (Z.of_nat sz)) false in
        let dw := calculate_array_domain_width (config ctx) A in
        let L := constant_array2t A (map (constant_int2t sub) vs) in
        (sz <= length vs)%nat -> Z.of_nat sz <= 2 ^ Z.of_N dw ->
        Z.of_nat sz < 2 ^ 32 -> (sz <= S f)%nat ->
        well_sorted m -> (k < sz)%nat ->
        exists r ctx' sel v,
          array_create (convert_ast (S fc)) (S f) L ctx = Ok r ctx'
          /\ store ctx' = store ctx /\ assertions ctx' = assertions ctx
          /\ select (convert_ast (S fc)) (S f) r
               (constant_int2t (unsignedbv_type2t dw) (Z.of_nat k)) ctx'
             = Ok sel ctx'
          /\ vs !! k = Some v
          /\ eval m sel = Some (VBV (v mod 2 ^ Z.of_N (type_width sub))))
    /\ (forall (conv : expr2t -> M smt_astt) (fuel : nat) (z : Z)
               (r : smt_astt) (ctx' : smt_convt),
          2 ^ 32 <= z < 2 ^ 64 ->
          array_create conv fuel
            (constant_array2t (array_type2t sub (size_constant_int z) false)
               (map (constant_int2t sub) vs)) ctx
          <> Ok r ctx').
Proof.
  intros ctx sub vs Hnum. split.
  - intros sz m fc f k A dw L Hlen Hdw Hbound Hfuel Hm Hk.
    destruct (array_literal_spec ctx sub sz vs m fc f k Hnum Hlen Hdw Hbound
                Hfuel Hm Hk)
      as (r & sel & v & Hrun & Hsel & Hv & He).
    exists r, (bump ctx), sel, v. repeat split; assumption.
  - intros conv fuel z r ctx' Hz. apply array_create_large_size, Hz.
Qed.

Lemma scalar_array_literal_reads_back_witness :
  exists r ctx' sel,
    array_create (convert_ast 3) 3
      (constant_array2t (array_type2t bv8 (size_constant_int 3) false)
         [constant_int2t bv8 5; constant_int2t bv8 6; constant_int2t bv8 7])
      (empty_convt example_config)
    = Ok r ctx'
    /\ select (convert_ast 3) 3 r (constant_int2t (unsignedbv_type2t 2) 2)
         ctx'
       = Ok sel ctx'
    /\ eval array_model sel = Some (VBV 7).
Proof.
  destruct (scalar_array_literal_reads_back (empty_convt example_config) bv8
              [5; 6; 7] eq_refl) as [H _].
  destruct (H 3%nat array_model 2%nat 2%nat 2%nat ltac:(simpl; lia)
              ltac:(simpl; lia) ltac:(simpl; lia) ltac:(lia)
              array_model_well_sorted ltac:(lia))
    as (r & ctx' & sel & v & Hrun & _ & _ & Hsel & Hv & He).
  exists r, ctx', sel. split; [exact Hrun |]. split; [exact Hsel |].
  simpl in Hv. injection Hv as <-. exact He.
Defined.

(** ** Constant arrays of structured initializers *)

Definition array_of_null_only : fault :=
  assertion_failed "Pointer type'd array_of can only be an array of null".

Lemma array_create_prep conv fuel sub sz inf init ctx :
  is_array_type sub = false ->
  array_create conv fuel (constant_array_of2t (array_type2t sub sz inf) init)
    ctx
  = (let w := calculate_array_domain_width (config ctx)
                (array_type2t sub sz inf) in
     if is_structure_type (expr_type init)
     then tuple_array_of conv fuel init w
     else if is_pointer_type (expr_type init)
     then pointer_array_of conv fuel init w
     else convert_array_of conv init w) ctx.
Proof.
  intros Ht. unfold array_create, bind. cbn [get_ctx].
  unfold convert_array_of_prep, bind.
  cbn [get_ctx to_array_type ret fst snd]. rewrite Ht. reflexivity.
Qed.

(** X14. Constant arrays of one structured initializer.  [array_create]
    sends an array-of expression whose element type is not an array to
    [tuple_array_of] when the initializer is a record and to
    [pointer_array_of] when it is a pointer.  With tuple support in the
    back end the former trips its assertion at once.  The latter accepts
    only the symbol [NULL], for which it is [tuple_array_of] of the
    (0, 0) literal of the pointer shape; any other initializer of
    pointer type trips its assertion.  In all three cases of a fault the
    state is unchanged.  [tuple_array_of] also ends the run when the
    initializer does not have one member per field of its type. *)
Theorem structured_array_of_dispatch :
  forall (conv : expr2t -> M smt_astt) (fuel : nat) (ctx : smt_convt)
         (sub : type2t) (sz : array_size_expr) (inf : bool) (init : expr2t),
    let e := constant_array_of2t (array_type2t sub sz inf) init in
    let w := calculate_array_domain_width (config ctx)
               (array_type2t sub sz inf) in
    is_array_type sub = false ->
    (is_structure_type (expr_type init) = true ->
     array_create conv fuel e ctx = tuple_array_of conv fuel init w ctx
     /\ (tuple_support (config ctx) = true ->
         array_create conv fuel e ctx
         = Fatal (assertion_failed "!tuple_support") ctx))
    /\ (is_pointer_type (expr_type init) = true ->
        (forall t, init = symbol2t t "NULL" ->
           array_create conv fuel e ctx
           = tuple_array_of conv fuel (pointer_literal (config ctx) 0 0) w ctx)
        /\ ((forall t, init <> symbol2t t "NULL") ->
            array_create conv fuel e ctx = Fatal array_of_null_only ctx))
    /\ (forall ty data xs,
          init = constant_struct2t ty xs ->
          tuple_support (config ctx) = false ->
          type_def (config ctx) ty = Some data ->
          elem_supported ty = true ->
          length (members data) <> length xs ->
          exists ctx',
            tuple_array_of conv fuel init w ctx
            = Fatal (assertion_failed
                       "subtype.members.size() == data.datatype_members.size()")
                    ctx').
Proof.
  intros conv fuel ctx sub sz inf init e w Ht.
  pose proof (array_create_prep conv fuel sub sz inf init ctx Ht) as Hprep.
  fold e in Hprep. cbv zeta in Hprep. fold w in Hprep.
  split; [| split].
  - intros Hs. rewrite Hs in Hprep. split; [exact Hprep |].
    intros Hts. rewrite Hprep. unfold tuple_array_of, bind.
    cbn [get_ctx]. rewrite Hts. reflexivity.
  - intros Hp.
    assert (Hs : is_structure_type (expr_type init) = false)
      by (destruct (expr_type init); try discriminate; reflexivity).
    rewrite Hs, Hp in Hprep. split.
    + intros t ->. rewrite Hprep. reflexivity.
    + intros Hnn. rewrite Hprep. unfold pointer_array_of, bind.
      cbn [get_ctx].
      destruct init; try reflexivity.
      destruct (String.eqb_spec thename "NULL") as [->|Hne];
        [exfalso; eapply Hnn; reflexivity | reflexivity].
  - intros ty data xs -> Hts Hd Hsup Hlen.
    assert (H : wfatal (tuple_array_of conv fuel (constant_struct2t ty xs) w)
                  ctx
                  (fun f => f = assertion_failed
                     "subtype.members.size() == data.datatype_members.size()")).
    { unfold tuple_array_of. apply wfatal_bind, wp_get_ctx.
      apply wfatal_bind. apply wp_assert_that; [rewrite Hts; reflexivity |].
      cbn [expr_type].
      apply wfatal_bind. eapply wp_get_type_def; [exact Hd |].
      apply wfatal_bind, wp_ret. apply wfatal_bind, wp_mk_fresh_name.
      apply wfatal_bind, wp_convert_sort. apply wfatal_bind.
      eapply wp_mono;
        [apply (new_array_smt_ast_spec ty _ false _ (bump ctx) Hsup) |].
      intros a c' _. apply wfatal_first.
      rewrite (proj2 (Nat.eqb_neq _ _) Hlen). apply wfatal_raise.
      reflexivity. }
    unfold wfatal in H.
    destruct (tuple_array_of conv fuel (constant_struct2t ty xs) w ctx)
      as [a c'|f c'|]; try contradiction.
    subst f. exists c'. reflexivity.
Qed.

Lemma structured_array_of_dispatch_witness :
  array_create (convert_ast 1) 1
    (constant_array_of2t
       (array_type2t (pointer_type2t empty_type2t) (size_constant_int 4)
          false)
       (symbol2t (pointer_type2t empty_type2t) "p"))
    (empty_convt example_config)
  = Fatal array_of_null_only (empty_convt example_config)
  /\ exists ctx',
       tuple_array_of (convert_ast 1) 1
         (constant_struct2t example_struct [constant_int2t bv8 7]) 2
         (empty_convt example_config)
       = Fatal (assertion_failed
                  "subtype.members.size() == data.datatype_members.size()")
               ctx'.
Proof.
  split.
  - destruct (structured_array_of_dispatch (convert_ast 1) 1
                (empty_convt example_config) (pointer_type2t empty_type2t)
                (size_constant_int 4) false
                (symbol2t (pointer_type2t empty_type2t) "p") eq_refl)
      as (_ & H & _).
    destruct (H eq_refl) as [_ H']. apply H'. intros t. discriminate.
  - destruct (structured_array_of_dispatch (convert_ast 1) 1
                (empty_convt example_config) example_struct
                (size_constant_int 4) false
                (constant_struct2t example_struct [constant_int2t bv8 7])
                eq_refl)
      as (_ & _ & H).
    exact (H example_struct _ [constant_int2t bv8 7] eq_refl eq_refl eq_refl
             eq_refl ltac:(discriminate)).
Defined.

(** ** Constant arrays of one scalar initializer *)



(** ** Union literals *)

Definition scalar_constant (e : expr2t) : bool :=
  match e with
  | constant_int2t _ _ | constant_bool2t _ => true
  | _ => false
  end.

Lemma convert_scalar_constant fc e c :
  scalar_constant e = true ->
  exists a, convert_ast (S fc) e c = Ok a c /\ is_plain a = true.
Proof.
  destruct e; try discriminate; intros _; eexists; split; reflexivity.
Qed.

Lemma safe_ok {A} n E (m : M A) c a c1 :
  safe n E m c -> (n <= length (store c))%nat -> m c = Ok a c1 ->
  stable (fun k => (n <= k)%nat \/ E k) c c1.
Proof. intros H Hn Hr. specialize (H Hn). rewrite Hr in H. exact H. Qed.

Lemma is_fatal_first {A B} (m : M A) (k : A -> M B) c :
  is_fatal (m c) -> is_fatal (bind m k c).
Proof. unfold bind. destruct (m c); simpl; tauto. Qed.

(** The result object of [union_create] during its loop: it has one
    slot per member, and the slots from [i] on still hold the null
    pointer. *)
Definition union_slots (lr : nat) (U : type2t) (cfg : configt) (N i : nat)
  (c : smt_convt) : Prop :=
  config c = cfg
  /\ exists o, store c !! lr = Some o /\ kind o = Tuple
               /\ sort o = convert_sort_cfg cfg U
               /\ length (elements o) = N
               /\ forall j, (i <= j < N)%nat -> elements o !! j = Some ast_null.

Lemma union_slots_step lr U cfg N i a c c1 c2 :
  union_slots lr U cfg N i c -> (i < N)%nat ->
  stable (fun k => (length (store c) <= k)%nat \/ nowhere k) c c1 ->
  set_element lr i a c1 = Ok tt c2 ->
  union_slots lr U cfg N (S i) c2.
Proof.
  intros (Hcfg & o & Hl & Hk & Hs & Hlen & Hnull) Hi (Hfr & _ & Hst) Hset.
  destruct (Hst lr o Hl) as (o1 & Hl1 & Hk1 & Hs1 & _ & He1).
  assert (Hel : elements o1 = elements o).
  { apply He1.
    - pose proof (lookup_lt_Some _ _ _ Hl). unfold nowhere. lia.
    - intros E. rewrite E in Hlen. simpl in Hlen. lia. }
  unfold set_element, bind in Hset. rewrite (deref_ok _ _ _ Hl1) in Hset.
  rewrite decide_True in Hset by (rewrite Hel; lia).
  unfold set_elements, bind in Hset. rewrite (deref_ok _ _ _ Hl1) in Hset.
  injection Hset as <-. split.
  - simpl. destruct Hfr as (-> & _). exact Hcfg.
  - exists (with_elements o1 (<[i := a]> (elements o1))).
    split; [simpl; apply list_lookup_insert_eq; eapply lookup_lt_Some;
            exact Hl1 |].
    split; [simpl; congruence |]. split; [simpl; congruence |].
    split; [simpl; rewrite length_insert, Hel; exact Hlen |].
    intros j Hj. simpl. rewrite list_lookup_insert_ne by lia.
    rewrite Hel. apply Hnull. lia.
Qed.

Lemma union_slots_project lr U cfg data N i c :
  union_slots lr U cfg N i c ->
  thetype (convert_sort_cfg cfg U) = Some U ->
  type_def cfg U = Some data -> length (members data) = N -> (i < N)%nat ->
  project (ast_ref lr) i c = Ok ast_null c.
Proof.
  intros (Hcfg & o & Hl & Hk & Hs & Hlen & Hnull) HU Hd HN Hi.
  eapply (project_populated c lr o U data);
    [exact Hl | exact Hk | rewrite Hs; exact HU | rewrite Hcfg; exact Hd
    | lia | apply Hnull; lia].
Qed.

Lemma union_loop_fatal f lr U cfg data N init_ast init_type :
  thetype (convert_sort_cfg cfg U) = Some U ->
  type_def cfg U = Some data -> length (members data) = N ->
  forall ms i c,
    union_slots lr U cfg N i c -> (i + length ms = N)%nat ->
    existsb (fun it => type_eqb it init_type) ms = true ->
    is_fatal (union_create_loop (S f) (ast_ref lr) init_ast lr init_type
                ms i c).
Proof.
  intros HU Hd HN ms.
  induction ms as [|it ms IH]; intros i c Hinv Hlen Hex; [discriminate |].
  simpl in Hlen, Hex. cbn [union_create_loop].
  destruct (type_eqb it init_type) eqn:Hm.
  - apply is_fatal_first. unfold bind.
    rewrite (union_slots_project lr U cfg data N i c Hinv HU Hd HN
               ltac:(lia)).
    exact I.
  - simpl in Hex.
    assert (Hrest : forall a c1 c2,
               stable (fun k => (length (store c) <= k)%nat \/ nowhere k)
                      c c1 ->
               set_element lr i a c1 = Ok tt c2 ->
               is_fatal (union_create_loop (S f) (ast_ref lr) init_ast lr
                           init_type ms (S i) c2)).
    { intros a c1 c2 Hst Hset. apply IH; [| lia | exact Hex].
      eapply union_slots_step; [exact Hinv | lia | exact Hst | exact Hset]. }
    destruct (is_tuple_ast_type it).
    + apply is_fatal_bind; [nof |]. intros [] c2 Hrun.
      apply bind_inv in Hrun as (s & c0 & Hs0 & Hrun).
      apply (pure_run _ _ _ _ (pure_convert_sort it)) in Hs0. subst c0.
      apply bind_inv in Hrun as (a & c1 & Ha & Hset).
      eapply Hrest; [| exact Hset].
      eapply safe_ok; [apply safe_tuple_fresh | lia | exact Ha].
    + destruct (is_tuple_array_ast_type it).
      * apply is_fatal_bind; [nof |]. intros [] c2 Hrun.
        apply bind_inv in Hrun as (nm & c0 & Hn0 & Hrun).
        apply bind_inv in Hrun as (s & c0' & Hs0 & Hrun).
        apply (pure_run _ _ _ _ (pure_convert_sort it)) in Hs0. subst c0'.
        apply bind_inv in Hrun as (a & c1 & Ha & Hset).
        eapply Hrest; [| exact Hset].
        pose proof (safe_ok _ nowhere _ _ _ _
                      (safe_mk_fresh_name _ _ _ c) (le_n _) Hn0) as H0.
        pose proof (safe_ok (length (store c)) nowhere _ _ _ _
                      (safe_new_array_smt_ast _ _ _ _ c0)
                      ltac:(destruct H0 as (_ & L & _); exact L) Ha) as H1.
        eapply stable_trans; eassumption.
      * apply is_fatal_bind; [nof |]. intros [] c2 [= <-].
        apply IH; [| lia | exact Hex].
        destruct Hinv as (Hcfg & o & Hl & Hk & Hs & Hl' & Hnull).
        split; [exact Hcfg |]. exists o. repeat split; try assumption.
        intros j Hj. apply Hnull. lia.
Qed.

Lemma union_loop_scalars f lr init_ast init_type ms :
  forall i c,
    forallb scalar_type ms = true ->
    existsb (fun it => type_eqb it init_type) ms = false ->
    union_create_loop f (ast_ref lr) init_ast lr init_type ms i c = Ok tt c.
Proof.
  induction ms as [|it ms IH]; intros i c Hsc Hex; [reflexivity |].
  simpl in Hsc, Hex. apply andb_true_iff in Hsc as [Hit Hsc].
  apply orb_false_iff in Hex as [Hm Hex].
  destruct (scalar_type_class it Hit) as [Ht Hta].
  cbn [union_create_loop]. rewrite Hm, Ht, Hta. unfold bind. simpl.
  apply IH; assumption.
Qed.

Lemma union_name_not_sentinel (k : nat) :
  let nm := ("union_create::" +:+ pretty k) +:+ "." in
  sentinel_name nm = false /\ nm <> "" /\ dotted nm = nm.
Proof.
  intros nm.
  pose proof (ends_with_dot_app ("union_create::" +:+ pretty k)) as H.
  fold nm in H.
  destruct (ends_with_dot_not_sentinel _ H) as [H1 H2].
  split; [exact H1 |]. split; [exact H2 |].
  unfold dotted. rewrite H. reflexivity.
Qed.

(** X16. A union literal never constrains its result by the
    initializer.  For a union literal with one scalar constant as
    initializer: if some member of the union has the type of the
    initializer, [union_create] ends in a fault, because the child
    vector of the result is resized before the member is projected, so
    that the projection returns the null slot; if no member has it, and
    the members are scalars, [union_create] returns a new free Tuple
    that is not the one it prepared and adds no assertion, so the
    initializer is dropped. *)
Theorem union_create_never_encodes :
  forall (ctx : smt_convt) (ms : list type2t) (ns : list string) (n : string)
         (init : expr2t) (fc f : nat),
    let U := union_type2t ms ns n in
    let nm := "union_create::" +:+ pretty (fresh_counter ctx) +:+ "." in
    scalar_constant init = true ->
    (existsb (fun it => type_eqb it (expr_type init)) ms = true ->
     is_fatal (union_create (convert_ast (S fc)) (S f)
                 (constant_union2t U [init]) ctx))
    /\ (existsb (fun it => type_eqb it (expr_type init)) ms = false ->
        forallb scalar_type ms = true ->
        exists ctx',
          union_create (convert_ast (S fc)) (S f) (constant_union2t U [init])
            ctx
          = Ok (ast_ref (S (length (store ctx)))) ctx'
          /\ assertions ctx' = assertions ctx
          /\ store ctx'
             = store ctx
               ++ [mk_tuple_smt_ast Tuple (convert_sort_cfg (config ctx) U)
                     nm (replicate (length ms) ast_null);
                   mk_tuple_smt_ast Tuple (convert_sort_cfg (config ctx) U)
                     nm []]).
Proof.
  intros ctx ms ns n init fc f U nm Hinit.
  assert (Hnm : sentinel_name nm = false /\ nm <> "" /\ dotted nm = nm)
    by exact (union_name_not_sentinel (fresh_counter ctx)).
  destruct Hnm as (Hsn & Hne & Hdot).
  set (s := convert_sort_cfg (config ctx) U).
  set (lr := length (store ctx)).
  set (c1 := set_store (store ctx ++ [mk_tuple_smt_ast Tuple s nm []])
               (bump ctx)).
  assert (Hres : convert_ast (S fc) (symbol2t U nm) (bump ctx)
                 = Ok (ast_ref lr) c1).
  { cbn [convert_ast]. cbn [is_tuple_ast_type is_structure_type U orb].
    rewrite (mk_tuple_symbol_run (bump ctx) U nm Hsn Hne), Hdot.
    reflexivity. }
  destruct (convert_scalar_constant fc init c1 Hinit) as (ia & Hia & _).
  set (c2 := set_store
               (<[lr := mk_tuple_smt_ast Tuple s nm
                          (replicate (length ms) ast_null)]> (store c1)) c1).
  assert (Hl1 : store c1 !! lr = Some (mk_tuple_smt_ast Tuple s nm [])).
  { simpl. rewrite lookup_app_r by (unfold lr; lia).
    unfold lr. rewrite Nat.sub_diag. reflexivity. }
  assert (Hprefix : forall (X : M smt_astt -> smt_convt -> Prop),
    (forall (m : M smt_astt) (k : smt_astt -> M smt_astt) c,
        wp m c (fun a c' => X (k a) c') -> X (bind m k) c) ->
    (forall (m : M unit) (k : unit -> M smt_astt) c,
        wp m c (fun a c' => X (k a) c') -> X (bind m k) c) ->
    (forall (m : M string) (k : string -> M smt_astt) c,
        wp m c (fun a c' => X (k a) c') -> X (bind m k) c) ->
    (forall (m : M struct_union_data) (k : struct_union_data -> M smt_astt) c,
        wp m c (fun a c' => X (k a) c') -> X (bind m k) c) ->
    (forall (m : M expr2t) (k : expr2t -> M smt_astt) c,
        wp m c (fun a c' => X (k a) c') -> X (bind m k) c) ->
    (forall (m : M nat) (k : nat -> M smt_astt) c,
        wp m c (fun a c' => X (k a) c') -> X (bind m k) c) ->
    X (do_ union_create_loop (S f) (ast_ref lr) ia lr (expr_type init) ms 0;
       do s <- convert_sort U; new_tuple_smt_ast s nm) c2 ->
    X (union_create (convert_ast (S fc)) (S f) (constant_union2t U [init]))
      ctx).
  { intros X Ba Bu Bs Bd Be Bn HX. unfold union_create.
    apply Bs, wp_mk_fresh_name.
    apply Bd. eapply wp_get_type_def; [reflexivity |].
    apply Bu. apply wp_assert_that; [reflexivity |].
    apply Be. eapply wp_lift_option; [reflexivity |].
    apply Ba. eapply wp_of_ok; [exact Hres |].
    apply Ba. eapply wp_of_ok; [exact Hia |].
    apply Bn. eapply wp_to_tuple_ast; [exact Hl1 |].
    apply Bu. eapply wp_resize_elements; [exact Hl1 |].
    cbn [elements length members]. rewrite take_nil, Nat.sub_0_r.
    exact HX. }
  split.
  - intros Hex.
    apply (wfatal_is_fatal _ _ (fun _ => True)).
    apply (Hprefix (fun m c => wfatal m c (fun _ => True)));
      try (intros m k c; apply wfatal_bind).
    apply wfatal_first.
    assert (Hf : is_fatal (union_create_loop (S f) (ast_ref lr) ia lr
                             (expr_type init) ms 0 c2)).
    { eapply (union_loop_fatal f lr U (config ctx)
                (mk_struct_union_data ms ns) (length ms));
        [reflexivity | reflexivity | reflexivity | | simpl; lia | exact Hex].
      split; [reflexivity |].
      exists (mk_tuple_smt_ast Tuple s nm (replicate (length ms) ast_null)).
      split; [simpl; apply list_lookup_insert_eq; rewrite length_app; simpl;
              unfold lr; lia |].
      split; [reflexivity |]. split; [reflexivity |].
      split; [simpl; apply length_replicate |].
      intros j Hj. simpl. apply lookup_replicate_2. lia. }
    unfold wfatal. unfold is_fatal in Hf.
    destruct (union_create_loop (S f) (ast_ref lr) ia lr (expr_type init) ms
                0 c2); tauto.
  - intros Hex Hsc.
    assert (Hwp :
      wp (union_create (convert_ast (S fc)) (S f) (constant_union2t U [init]))
         ctx
         (fun a c => a = ast_ref (S (length (store ctx)))
                     /\ c = set_store
                              (store c2 ++ [mk_tuple_smt_ast Tuple s nm []])
                              c2)).
    { apply (Hprefix (fun m c =>
               wp m c (fun a c => a = ast_ref (S (length (store ctx)))
                                  /\ c = set_store
                                           (store c2
                                            ++ [mk_tuple_smt_ast Tuple s nm []])
                                           c2)));
        try (intros m k c; apply wp_bind).
      apply wp_bind. eapply wp_of_ok;
        [exact (union_loop_scalars (S f) lr ia (expr_type init) ms 0 c2
                  Hsc Hex) |].
      apply wp_bind, wp_convert_sort, wp_new_tuple_smt_ast.
      split; [| reflexivity]. simpl.
      rewrite length_insert, length_app. simpl. f_equal. lia. }
    apply wp_ok in Hwp as (a & c' & Hrun & -> & ->).
    eexists. split; [exact Hrun |]. split; [reflexivity |].
    simpl. unfold lr.
    rewrite insert_app_r_alt by lia. rewrite Nat.sub_diag. simpl.
    rewrite <- app_assoc. reflexivity.
Qed.

Lemma union_create_never_encodes_witness :
  is_fatal (union_create (convert_ast 1) 1
              (constant_union2t example_union [constant_int2t bv8 7])
              (empty_convt example_config))
  /\ exists ctx',
       union_create (convert_ast 1) 1
         (constant_union2t example_union
            [constant_int2t (unsignedbv_type2t 16) 7])
         (empty_convt example_config)
       = Ok (ast_ref 1) ctx'
       /\ assertions ctx' = [].
Proof.
  split.
  - destruct (union_create_never_encodes (empty_convt example_config)
                [bv8; bool_type2t] ["x"; "y"] "U" (constant_int2t bv8 7) 0 0
                eq_refl) as [H _].
    apply H. reflexivity.
  - destruct (union_create_never_encodes (empty_convt example_config)
                [bv8; bool_type2t] ["x"; "y"] "U"
                (constant_int2t (unsignedbv_type2t 16) 7) 0 0 eq_refl)
      as [_ H].
    destruct (H eq_refl eq_refl) as (ctx' & Hrun & Ha & _).
    exists ctx'. split; [exact Hrun | exact Ha].
Defined.

(** ** Well-formedness is preserved *)

(** X17. Projection is type safe.  Projecting field [i] of a
    well-formed Tuple term [t] of a type every level of which can be
    materialised returns a well-formed term of the type of field [i];
    it adds no assertion, every term that was well formed before still
    is, and projecting the field again returns the same child and
    changes nothing. *)
Theorem projection_is_well_typed :
  forall (ctx : smt_convt) (T : type2t) (data : struct_union_data)
         (t : smt_astt) (i : nat) (ty : type2t),
    classify T = CTuple -> supported T = true ->
    type_def (config ctx) T = Some data ->
    wt (config ctx) (store ctx) T t ->
    members data !! i = Some ty ->
    exists x ctx',
      project t i ctx = Ok x ctx'
      /\ assertions ctx' = assertions ctx
      /\ wt (config ctx) (store ctx') ty x
      /\ project t i ctx' = Ok x ctx'
      /\ forall T' a, wt (config ctx) (store ctx) T' a ->
                      wt (config ctx) (store ctx') T' a.
Proof.
  intros ctx T data t i ty Hcl Hsup Hd Hw Hty.
  assert (Hnp : classify T <> CPlain) by congruence.
  destruct (wt_structured_inv _ _ _ _ Hnp Hw) as [l ->].
  destruct (tuple_sort_type (config ctx) T Hcl)
    as (T' & data' & HT' & Hd' & Hd2).
  rewrite Hd in Hd2. injection Hd2 as <-.
  pose proof (make_free_settles ctx l T data Hcl Hsup Hd Hw) as Hmf.
  apply wp_ok in Hmf as ([] & c1 & Hrun & Hfr & Hev & _ & o1 & Hset).
  pose proof Hset as (Hl1 & Hk1 & Hs1 & _ & Hch).
  pose proof (lookup_lt_Some _ _ _ Hty) as Hi.
  destruct (lookup_lt_is_Some_2 (elements o1) i) as [x Hx];
    [rewrite <- (Forall2_length _ _ _ Hch); exact Hi |].
  destruct (wt_ref_inv _ _ _ _ Hw) as (o0 & Hl0 & Hk0 & Hs0 & _).
  assert (Hc1 : config c1 = config ctx) by apply Hfr.
  exists x, c1. split; [| split; [| split; [| split]]].
  - eapply (tuple_project_run ctx c1 l o0 T' data);
      [exact Hl0 | eapply kind_matches_tuple; eassumption
      | rewrite Hs0; exact HT' | exact Hd' | exact Hrun | exact Hi |].
    eapply get_element_run; eassumption.
  - apply Hfr.
  - exact (Forall2_lookup_lr _ _ _ _ _ _ Hch Hty Hx).
  - eapply (settled_project (config ctx) _ T T' data l o1); eassumption.
  - intros T0 a. apply wt_evolves with (R := rank T). exact Hev.
Qed.

Lemma projection_is_well_typed_witness :
  exists x ctx',
    project (ast_ref 0) 0 two_tuples_ctx = Ok x ctx'
    /\ wt example_config (store ctx') example_struct x
    /\ project (ast_ref 0) 0 ctx' = Ok x ctx'.
Proof.
  destruct (projection_is_well_typed two_tuples_ctx nested_struct
              (mk_struct_union_data [example_struct; signedbv_type2t 16]
                 ["inner"; "n"])
              (ast_ref 0) 0 example_struct eq_refl eq_refl eq_refl)
    as (x & ctx' & Hp & _ & Hw & Hp' & _).
  - eapply (wt_free _ _ _ 0%nat); reflexivity.
  - reflexivity.
  - exists x, ctx'. split; [exact Hp |]. split; [exact Hw | exact Hp'].
Defined.

(** X18. Update is type safe.  Updating field [idx] of a populated
    well-formed Tuple term of type [T] with a well-formed term of the
    type of that field returns a new well-formed Tuple term of type
    [T]; every term that was well formed before still is. *)
Theorem update_is_well_typed :
  forall (conv : expr2t -> M smt_astt) (fuel : nat) (ctx : smt_convt)
         (T : type2t) (data : struct_union_data) (l : nat)
         (o : tuple_smt_ast) (v : smt_astt) (idx : nat) (ty : type2t),
    classify T = CTuple ->
    type_def (config ctx) T = Some data ->
    wt (config ctx) (store ctx) T (ast_ref l) ->
    store ctx !! l = Some o -> elements o <> [] ->
    members data !! idx = Some ty ->
    wt (config ctx) (store ctx) ty v ->
    exists lr ctx',
      update conv (S fuel) (ast_ref l) v idx nil_expr ctx
      = Ok (ast_ref lr) ctx'
      /\ wt (config ctx) (store ctx') T (ast_ref lr)
      /\ forall T' a, wt (config ctx) (store ctx) T' a ->
                      wt (config ctx) (store ctx') T' a.
Proof.
  intros conv fuel ctx T data l o v idx ty Hcl Hd Hw Hl Hne Hty Hwv.
  destruct (tuple_sort_type (config ctx) T Hcl)
    as (T' & data' & HT' & Hd' & Hd2).
  rewrite Hd in Hd2. injection Hd2 as <-.
  destruct (wt_ref_inv _ _ _ _ Hw) as (o' & Hl' & Hk & Hs & Hch).
  rewrite Hl in Hl'. injection Hl' as <-.
  destruct Hch as [[_ He]|(tys & Hct & Hall)]; [congruence |].
  pose proof (kind_matches_tuple _ _ Hcl Hk) as Hko.
  assert (Htys : tys = members data).
  { rewrite (child_types_tuple _ _ _ _ Hko ltac:(rewrite Hs; exact HT') Hd')
      in Hct. congruence. }
  subst tys.
  pose proof (lookup_lt_Some _ _ _ Hty) as Hidx.
  rewrite (Forall2_length _ _ _ Hall) in Hidx.
  destruct (proj1 (wp_ok _ _ _)
              (tuple_update_spec conv fuel ctx l o v idx Hl Hko Hne Hidx))
    as (a & ctx' & Hrun & -> & Hfr & Hst).
  exists (length (store ctx)), ctx'. split; [exact Hrun |].
  assert (Hext : forall T0 a, wt (config ctx) (store ctx) T0 a ->
                              wt (config ctx) (store ctx') T0 a).
  { intros T0 a. rewrite Hst. apply wt_app. }
  split; [| exact Hext].
  eapply (wt_populated _ _ _ _ _ (members data)).
  - rewrite Hst, lookup_app_r by lia. rewrite Nat.sub_diag. reflexivity.
  - simpl. rewrite Hcl. exact I.
  - exact Hs.
  - unfold child_types. cbn [sort kind]. unfold child_types in Hct.
    rewrite Hko in Hct. exact Hct.
  - cbn [elements].
    apply Forall2_same_length_lookup_2;
      [rewrite length_insert; eapply Forall2_length, Hall |].
    intros j tj ej Htj Hej.
    destruct (decide (j = idx)) as [->|Hne'].
    + rewrite list_lookup_insert_eq in Hej by exact Hidx.
      injection Hej as <-. rewrite Hty in Htj. injection Htj as <-.
      apply Hext, Hwv.
    + rewrite list_lookup_insert_ne in Hej by congruence.
      apply Hext. exact (Forall2_lookup_lr _ _ _ _ _ _ Hall Htj Hej).
Qed.

Lemma update_is_well_typed_witness :
  exists lr ctx',
    update (convert_ast 1) 1 (ast_ref 0) (ast_bvint bv8_sort 7) 0 nil_expr
      populated_tuple_ctx
    = Ok (ast_ref lr) ctx'
    /\ wt example_config (store ctx') example_struct (ast_ref lr).
Proof.
  destruct (update_is_well_typed (convert_ast 1) 0 populated_tuple_ctx
              example_struct
              (mk_struct_union_data [bv8; bool_type2t] ["a"; "b"])
              0
              (mk_tuple_smt_ast Tuple
                 (convert_sort_cfg example_config example_struct) "t."
                 [ast_symbol bv8_sort "t.a"; ast_symbol bool_sort "t.b"])
              (ast_bvint bv8_sort 7) 0 bv8 eq_refl eq_refl)
    as (lr & ctx' & Hrun & Hw & _).
  - eapply (wt_populated _ _ _ 0%nat);
      [reflexivity | exact I | reflexivity | reflexivity |].
    repeat constructor.
  - reflexivity.
  - discriminate.
  - reflexivity.
  - apply wt_plain; reflexivity.
  - exists lr, ctx'. split; [exact Hrun | exact Hw].
Defined.

(** ** Array literals of records *)





















